(** * ObjCryst++ [Crystal]: distance table, occupancy correction and costs

    A shallow embedding of the parts of [ObjCryst/Crystal.cpp] that build
    the symmetry-aware distance table ([Crystal::CalcDistTable]) and that
    consume it ([GetMinDistanceTable], [CalcDynPopCorr], [GetBumpMergeCost],
    [CalcBondValenceSum], [GetBondValenceCost], [GetLogLikelihood]),
    together with the lazy clocks that decide when they are recomputed.

    Conventions of the embedding:
    - [REAL] is modelled by the real numbers [R]: rounding of the machine
      floating point type is not modelled, so [sqrt], [sin], [tan], [exp]
      are the mathematical functions;
    - [long] and [int] values are modelled by [Z] and [nat]; the only
      conversions from [REAL] to [long] in the code are followed by a mask
      with [0x3FFF], and all later integer arithmetic stays below [2^15],
      so no wrap-around can occur after the conversion;
    - a pointer to a [ScatteringPower] is modelled by the object it points
      to together with its address ([None] is the null pointer);
    - the [mutable] members updated inside [const] member functions are
      fields of the [Crystal] record, and each member function is a function
      from the state before the call to the state after it. *)

From stdpp Require Import base option list gmap fin_maps.
From Stdlib Require Import ZArith Reals Lra Lia Ascii.

Local Open Scope R_scope.

(** ** Numeric primitives of the C++ code *)

(** The conversion [(long)(r)] truncates towards zero. *)
Definition Rtrunc (r : R) : Z :=
  if Rle_dec 0 r then Int_part r else (- Int_part (- r))%Z.

(** [modf(r,&junk)]: the fractional part, carrying the sign of [r]. *)
Definition modf (r : R) : R := r - IZR (Rtrunc r).

(** Comparisons of [REAL] values, as booleans. *)
Definition Rltb (a b : R) : bool := if Rlt_dec a b then true else false.
Definition Rleb (a b : R) : bool := if Rle_dec a b then true else false.

(** [#define FRAC2LONG 0x4000] and the three masks next to it. *)
Definition FRAC2LONG : Z := 0x4000.
Definition FRAC2LONGMASK : Z := 0x3FFF.
Definition HALF_FRAC2LONG : Z := 0x2000.
Definition HALF_FRAC2LONGMASK : Z := 0x1FFF.

(** A [CrystMatrix_REAL], read and written through [m(i,j)]. *)
Definition CrystMatrix_REAL : Type := nat -> nat -> R.

Definition mat_const (v : R) : CrystMatrix_REAL := fun _ _ => v.

Definition mat_set (m : CrystMatrix_REAL) (i j : nat) (v : R) : CrystMatrix_REAL :=
  fun a b => if (Nat.eqb a i && Nat.eqb b j)%bool then v else m a b.

(** ** Data model *)

(** What the code reads through a [const ScatteringPower*]: the address
    (compared with [<] to order the keys of the pairwise maps),
    [GetDynPopCorrIndex()] and [GetFormalCharge()]. *)
Record ScatteringPower : Type := mkScatteringPower {
  spAddress : Z;
  GetDynPopCorrIndex : Z;
  GetFormalCharge : R
}.

(** The value of the pointer itself; the null pointer is [0]. *)
Definition ptr (p : option ScatteringPower) : Z :=
  match p with
  | Some sp => spAddress sp
  | None => 0%Z
  end.

Record ScatteringComponent : Type := mkScatteringComponent {
  mX : R;
  mY : R;
  mZ : R;
  mOccupancy : R;
  mDynPopCorr : R;
  mpScattPow : option ScatteringPower
}.

Definition set_mDynPopCorr (v : R) (c : ScatteringComponent) : ScatteringComponent :=
  mkScatteringComponent (mX c) (mY c) (mZ c) (mOccupancy c) v (mpScattPow c).

Module Neighbour.
Record t : Type := mk {
  mNeighbourIndex : nat;
  mNeighbourSymmetryIndex : nat;
  mDist2 : R
}.
End Neighbour.

Record NeighbourHood : Type := mkNeighbourHood {
  mIndex : nat;
  mUniquePosSymmetryIndex : nat;
  mvNeighbour : list Neighbour.t
}.

Module BumpMergePar.
Record t : Type := mk {
  mDist2 : R;
  mCanOverlap : bool
}.
(** [BumpMergePar::BumpMergePar(const REAL dist, const bool canOverlap)] *)
Definition make (dist : R) (canOverlap : bool) : t := mk (dist * dist) canOverlap.
End BumpMergePar.

(** [struct DistTableInternalPosition]: each of its two constructors fills
    one of the coordinate triples and leaves the other one unset (here 0). *)
Module DistTableInternalPosition.
Record t : Type := mk {
  mAtomIndex : nat;
  mSymmetryIndex : nat;
  mX : R; mY : R; mZ : R;
  mXL : Z; mYL : Z; mZL : Z
}.
Definition of_real (atomIndex sym : nat) (x y z : R) : t :=
  mk atomIndex sym x y z 0 0 0.
Definition of_long (atomIndex sym : nat) (x y z : Z) : t :=
  mk atomIndex sym 0 0 0 x y z.
Definition unset : t := mk 0 0 0 0 0 0 0 0.
End DistTableInternalPosition.
Module Pos := DistTableInternalPosition.

(** The collaborators of [Crystal] whose code is elsewhere: the space
    group (number of symmetry operations, the rows of the matrix returned
    by [GetAllSymmetrics], the upper bounds of the asymmetric unit) and the
    unit cell (lattice lengths and orthonormalisation matrix). *)
Record SpaceGroup : Type := mkSpaceGroup {
  GetNbSymmetrics : nat;
  GetAllSymmetrics : R -> R -> R -> nat -> R * R * R;
  Xmax : R;
  Ymax : R;
  Zmax : R
}.

Record UnitCell : Type := mkUnitCell {
  GetLatticePar : nat -> R;
  GetOrthMatrix : CrystMatrix_REAL
}.

(** Modelled from the spec: [UnitCell::FractionalToOrthonormalCoords] is not
    part of this file; it applies "the fractional->orthonormal matrix", of
    which the quantized branch of [CalcDistTable] shows the entries in use
    (the upper triangle). *)
Definition FractionalToOrthonormalCoords (c : UnitCell) (x y z : R) : R * R * R :=
  let M := GetOrthMatrix c in
  (M 0%nat 0%nat * x + M 0%nat 1%nat * y + M 0%nat 2%nat * z,
   M 1%nat 1%nat * y + M 1%nat 2%nat * z,
   M 2%nat 2%nat * z).

(** ** [Crystal::CalcDistTable]: the list of positions *)

(** The three containers the first loop nest fills: [vPos], [vUniqueIndex]
    and the [mIndex]/[mUniquePosSymmetryIndex] members of [mvDistTableSq]. *)
Record Scan : Type := mkScan {
  vPos : list Pos.t;
  vUniqueIndex : list nat;
  vTable : list NeighbourHood
}.

Definition set_mIndex (i : nat) (nh : NeighbourHood) : NeighbourHood :=
  mkNeighbourHood i (mUniquePosSymmetryIndex nh) (mvNeighbour nh).

Definition set_mUniquePosSymmetryIndex (j : nat) (nh : NeighbourHood) : NeighbourHood :=
  mkNeighbourHood (mIndex nh) j (mvNeighbour nh).

Definition set_mvNeighbour (l : list Neighbour.t) (nh : NeighbourHood) : NeighbourHood :=
  mkNeighbourHood (mIndex nh) (mUniquePosSymmetryIndex nh) l.

(** [vPos.push_back(p)] *)
Definition push_back (p : Pos.t) (st : Scan) : Scan :=
  mkScan (vPos st ++ [p]) (vUniqueIndex st) (vTable st).

(** [vUniqueIndex[i]=vPos.size()-1; mvDistTableSq[i].mUniquePosSymmetryIndex=j;] *)
Definition mark_unique (i j : nat) (st : Scan) : Scan :=
  mkScan (vPos st)
         (<[i := (length (vPos st) - 1)%nat]> (vUniqueIndex st))
         (alter (set_mUniquePosSymmetryIndex j) i (vTable st)).

(** The limits of the (pseudo) asymmetric unit computed at the top of
    [CalcDistTable]: strict limits, and limits with a margin. *)
Record Limits : Type := mkLimits {
  xMax0 : R; yMax0 : R; zMax0 : R;
  xMax : R; yMax : R; zMax : R;
  xMin : R; yMin : R; zMin : R
}.

Definition limits (sg : SpaceGroup) (cell : UnitCell) (asymUnitMargin : R) : Limits :=
  mkLimits (Xmax sg) (Ymax sg) (Zmax sg)
           (Xmax sg + asymUnitMargin / GetLatticePar cell 0)
           (Ymax sg + asymUnitMargin / GetLatticePar cell 1)
           (Zmax sg + asymUnitMargin / GetLatticePar cell 2)
           (1 - asymUnitMargin / GetLatticePar cell 0)
           (1 - asymUnitMargin / GetLatticePar cell 1)
           (1 - asymUnitMargin / GetLatticePar cell 2).

(** [bool useAsymUnit=false; if((xMax0*yMax0*zMax0)<0.6) useAsymUnit=true;] *)
Definition useAsymUnit (sg : SpaceGroup) : bool :=
  Rltb (Xmax sg * Ymax sg * Zmax sg) 0.6.

(** [(long)(v*(REAL)FRAC2LONG)] *)
Definition to_long (v : R) : Z := Rtrunc (v * IZR FRAC2LONG).

(** Quantized branch: [xl=(long)(symmetricsCoords(j,0)*(REAL)FRAC2LONG);
    xl= xl & FRAC2LONGMASK;] *)
Definition quantize (v : R) : Z := Z.land (to_long v) FRAC2LONGMASK.

Definition pos_fast (i j : nat) (c : R * R * R) : Pos.t :=
  let '(x, y, z) := c in Pos.of_long i j (quantize x) (quantize y) (quantize z).

(** [(zl>zMinl)||(zl<zMaxl)], then the same for x, then for y. *)
Definition near_fast (L : Limits) (p : Pos.t) : bool :=
  ((to_long (zMin L) <? Pos.mZL p)%Z || (Pos.mZL p <? to_long (zMax L))%Z)
  && ((to_long (xMin L) <? Pos.mXL p)%Z || (Pos.mXL p <? to_long (xMax L))%Z)
  && ((to_long (yMin L) <? Pos.mYL p)%Z || (Pos.mYL p <? to_long (yMax L))%Z).

(** [(xl<=xMax0l)&&(yl<=yMax0l)&&(zl<=zMax0l)] *)
Definition strict_fast (L : Limits) (p : Pos.t) : bool :=
  (Pos.mXL p <=? to_long (xMax0 L))%Z
  && (Pos.mYL p <=? to_long (yMax0 L))%Z
  && (Pos.mZL p <=? to_long (zMax0 L))%Z.

(** Exact branch: [x=modf(symmetricsCoords(j,0),&junk); if(x<0) x +=1.;] *)
Definition reduce01 (v : R) : R :=
  let x := modf v in if Rltb x 0 then x + 1 else x.

Definition pos_exact (i j : nat) (c : R * R * R) : Pos.t :=
  let '(x, y, z) := c in Pos.of_real i j (reduce01 x) (reduce01 y) (reduce01 z).

Definition near_exact (L : Limits) (p : Pos.t) : bool :=
  (Rltb (zMin L) (Pos.mZ p) || Rltb (Pos.mZ p) (zMax L))
  && (Rltb (xMin L) (Pos.mX p) || Rltb (Pos.mX p) (xMax L))
  && (Rltb (yMin L) (Pos.mY p) || Rltb (Pos.mY p) (yMax L)).

Definition strict_exact (L : Limits) (p : Pos.t) : bool :=
  Rleb (Pos.mX p) (xMax0 L) && Rleb (Pos.mY p) (yMax0 L) && Rleb (Pos.mZ p) (zMax0 L).

(** The two branches of [CalcDistTable] run the same loop nest, once on
    [long] and once on [REAL] coordinates; [Branch] collects what differs:
    how a symmetric is turned into a position, the test "within or near
    the asymmetric unit" and the test "strictly in the asymmetric unit". *)
Record Branch : Type := mkBranch {
  mkpos : nat -> nat -> R * R * R -> Pos.t;
  near : Pos.t -> bool;
  strict : Pos.t -> bool
}.

Definition branch (fast : bool) (L : Limits) : Branch :=
  if fast then mkBranch pos_fast (near_fast L) (strict_fast L)
  else mkBranch pos_exact (near_exact L) (strict_exact L).

(** Body of [for(int j=0;j<nbSymmetrics;j++)]. *)
Definition scan_step (B : Branch) (useAU : bool) (i : nat)
    (symmetricsCoords : nat -> R * R * R) (st : Scan) (j : nat) : Scan :=
  let p := mkpos B i j (symmetricsCoords j) in
  if useAU then
    if near B p then
      let st1 := push_back p st in
      if strict B p then mark_unique i j st1 else st1
    else st
  else mark_unique i j (push_back p st).

(** Body of [for(long i=0;i<nbComponent;i++)] in the first loop nest. *)
Definition scan_component (B : Branch) (useAU : bool) (sg : SpaceGroup)
    (i : nat) (c : ScatteringComponent) (st : Scan) : Scan :=
  let symmetricsCoords := GetAllSymmetrics sg (mX c) (mY c) (mZ c) in
  let st1 := mkScan (vPos st) (vUniqueIndex st) (alter (set_mIndex i) i (vTable st)) in
  fold_left (scan_step B useAU i symmetricsCoords) (seq 0 (GetNbSymmetrics sg)) st1.

Fixpoint scan_components (B : Branch) (useAU : bool) (sg : SpaceGroup)
    (i : nat) (comps : list ScatteringComponent) (st : Scan) : Scan :=
  match comps with
  | [] => st
  | c :: cs => scan_components B useAU sg (S i) cs (scan_component B useAU sg i c st)
  end.

(** ** [Crystal::CalcDistTable]: the distances *)

(** [xl= xl & FRAC2LONGMASK;
     if(xl & HALF_FRAC2LONG) xl= (~xl) & HALF_FRAC2LONGMASK;] *)
Definition fold_long (d : Z) : Z :=
  let xl := Z.land d FRAC2LONGMASK in
  if (Z.land xl HALF_FRAC2LONG =? 0)%Z then xl
  else Z.land (Z.lnot xl) HALF_FRAC2LONGMASK.

(** [x=modf(d,&junk); if(x<0) x+=1; if(x>0.5) x=1-x;] *)
Definition fold_real (d : R) : R :=
  let x := modf d in
  let x := if Rltb x 0 then x + 1 else x in
  if Rltb 0.5 x then 1 - x else x.

Definition norm2 (v : R * R * R) : R :=
  let '(x, y, z) := v in x * x + y * y + z * z.

(** The Cartesian vector of the quantized branch, from the three folded
    [long] differences and the matrix entries divided by [FRAC2LONG]. *)
Definition vector_fast (cell : UnitCell) (xl yl zl : Z) : R * R * R :=
  let M := GetOrthMatrix cell in
  let M00 := M 0%nat 0%nat / IZR FRAC2LONG in
  let M01 := M 0%nat 1%nat / IZR FRAC2LONG in
  let M02 := M 0%nat 2%nat / IZR FRAC2LONG in
  let M11 := M 1%nat 1%nat / IZR FRAC2LONG in
  let M12 := M 1%nat 2%nat / IZR FRAC2LONG in
  let M22 := M 2%nat 2%nat / IZR FRAC2LONG in
  (M00 * IZR xl + M01 * IZR yl + M02 * IZR zl,
   M11 * IZR yl + M12 * IZR zl,
   M22 * IZR zl).

(** Squared distance between [vPos[j]] (here [p]) and the unique position
    [vPos[vUniqueIndex[i]]] (here [pu]), in each branch. *)
Definition dist2_fast (cell : UnitCell) (p pu : Pos.t) : R :=
  norm2 (vector_fast cell
           (fold_long (Pos.mXL p - Pos.mXL pu))
           (fold_long (Pos.mYL p - Pos.mYL pu))
           (fold_long (Pos.mZL p - Pos.mZL pu))).

Definition dist2_exact (cell : UnitCell) (p pu : Pos.t) : R :=
  norm2 (FractionalToOrthonormalCoords cell
           (fold_real (Pos.mX p - Pos.mX pu))
           (fold_real (Pos.mY p - Pos.mY pu))
           (fold_real (Pos.mZ p - Pos.mZ pu))).

Definition dist2 (fast : bool) (cell : UnitCell) : Pos.t -> Pos.t -> R :=
  if fast then dist2_fast cell else dist2_exact cell.

(** [for(unsigned long j=0;j<vPos.size();j++)]: [ps] is what is left of
    [vPos] from index [j] on, [vnb] the neighbour list being filled. *)
Fixpoint dist_scan (d2 : Pos.t -> Pos.t -> R) (pu : Pos.t) (u : nat)
    (j : nat) (ps : list Pos.t) (vnb : list Neighbour.t) : list Neighbour.t :=
  match ps with
  | [] => vnb
  | p :: ps' =>
      dist_scan d2 pu u (S j) ps'
        (if Nat.eqb u j then vnb
         else vnb ++ [Neighbour.mk (Pos.mAtomIndex p) (Pos.mSymmetryIndex p) (d2 p pu)])
  end.

(** Body of [for(long i=0;i<nbComponent;i++)] in the second loop nest. *)
Definition dist_component (d2 : Pos.t -> Pos.t -> R) (st : Scan)
    (tbl : list NeighbourHood) (i : nat) : list NeighbourHood :=
  let u := nth i (vUniqueIndex st) 0%nat in
  let pu := nth u (vPos st) Pos.unset in
  alter (fun nh => set_mvNeighbour (dist_scan d2 pu u 0 (vPos st) (mvNeighbour nh)) nh) i tbl.

(** [mvDistTableSq.resize(nbComponent)] followed by the loop that clears
    every [mvNeighbour]. *)
Definition resize_table (n : nat) (tbl : list NeighbourHood) : list NeighbourHood :=
  take n tbl ++ replicate (n - length tbl) (mkNeighbourHood 0 0 []).

Definition clear_table (tbl : list NeighbourHood) : list NeighbourHood :=
  map (set_mvNeighbour []) tbl.

(** The state of the first loop nest when it ends. *)
Definition scan_all (fast : bool) (asymUnitMargin : R) (sg : SpaceGroup)
    (cell : UnitCell) (comps : list ScatteringComponent)
    (old : list NeighbourHood) : Scan :=
  let nbComponent := length comps in
  scan_components (branch fast (limits sg cell asymUnitMargin)) (useAsymUnit sg) sg
    0 comps
    (mkScan [] (replicate nbComponent 0%nat)
            (clear_table (resize_table nbComponent old))).

(** The table [mvDistTableSq] as [CalcDistTable] leaves it when it does
    the computation, from the previous contents [old] of the vector. *)
Definition build_table (fast : bool) (asymUnitMargin : R) (sg : SpaceGroup)
    (cell : UnitCell) (comps : list ScatteringComponent)
    (old : list NeighbourHood) : list NeighbourHood :=
  let st := scan_all fast asymUnitMargin sg cell comps old in
  fold_left (dist_component (dist2 fast cell) st) (seq 0 (length comps)) (vTable st).

(** ** The state of a [Crystal] and its clocks *)

(** Modelled from the spec: [RefinableObjClock] is declared elsewhere. A
    clock is a version counter; [Click()] advances it to "now", the value of
    a global counter that increases at every click ([msTick] below);
    [Reset()] puts it back to zero; [<] and [>] compare the counters. *)
Definition RefinableObjClock : Type := nat.

(** A scatterer of the registry, as far as [Crystal] looks at it. *)
Record Scatterer : Type := mkScatterer {
  GetClockScatterer : RefinableObjClock;
  scattCompList : list ScatteringComponent
}.

(** The members of [Crystal] (and of its base class [UnitCell]) that the
    functions below read or write; [msTick] is the global counter of the
    clocks. *)
Record Crystal : Type := mkCrystal {
  GetSpaceGroup : SpaceGroup;
  asUnitCell : UnitCell;
  GetClockMetricMatrix : RefinableObjClock;
  mScattererRegistry : list Scatterer;
  mClockMaster : RefinableObjClock;
  mMasterClockScatteringPower : RefinableObjClock;
  mUseDynPopCorr : Z;
  mScattCompList : list ScatteringComponent;
  mClockScattCompList : RefinableObjClock;
  mvDistTableSq : list NeighbourHood;
  mDistTableClock : RefinableObjClock;
  mClockDynPopCorr : RefinableObjClock;
  mvBumpMergePar : gmap (Z * Z) BumpMergePar.t;
  mBumpMergeParClock : RefinableObjClock;
  mBumpMergeCost : R;
  mBumpMergeScale : R;
  mBumpMergeCostClock : RefinableObjClock;
  mvBondValenceRo : gmap (Z * Z) R;
  mBondValenceParClock : RefinableObjClock;
  mvBondValenceCalc : gmap nat R;
  mBondValenceCalcClock : RefinableObjClock;
  mBondValenceCost : R;
  mBondValenceCostScale : R;
  mBondValenceCostClock : RefinableObjClock;
  msTick : nat
}.

Definition set_mScattCompList (v : list ScatteringComponent) (s : Crystal) : Crystal :=
  mkCrystal (GetSpaceGroup s) (asUnitCell s) (GetClockMetricMatrix s)
    (mScattererRegistry s) (mClockMaster s) (mMasterClockScatteringPower s)
    (mUseDynPopCorr s) (v) (mClockScattCompList s) (mvDistTableSq s)
    (mDistTableClock s) (mClockDynPopCorr s) (mvBumpMergePar s)
    (mBumpMergeParClock s) (mBumpMergeCost s) (mBumpMergeScale s)
    (mBumpMergeCostClock s) (mvBondValenceRo s) (mBondValenceParClock s)
    (mvBondValenceCalc s) (mBondValenceCalcClock s) (mBondValenceCost s)
    (mBondValenceCostScale s) (mBondValenceCostClock s) (msTick s).

Definition set_mvDistTableSq (v : list NeighbourHood) (s : Crystal) : Crystal :=
  mkCrystal (GetSpaceGroup s) (asUnitCell s) (GetClockMetricMatrix s)
    (mScattererRegistry s) (mClockMaster s) (mMasterClockScatteringPower s)
    (mUseDynPopCorr s) (mScattCompList s) (mClockScattCompList s) (v)
    (mDistTableClock s) (mClockDynPopCorr s) (mvBumpMergePar s)
    (mBumpMergeParClock s) (mBumpMergeCost s) (mBumpMergeScale s)
    (mBumpMergeCostClock s) (mvBondValenceRo s) (mBondValenceParClock s)
    (mvBondValenceCalc s) (mBondValenceCalcClock s) (mBondValenceCost s)
    (mBondValenceCostScale s) (mBondValenceCostClock s) (msTick s).

Definition set_mvBumpMergePar (v : gmap (Z * Z) BumpMergePar.t) (s : Crystal) : Crystal :=
  mkCrystal (GetSpaceGroup s) (asUnitCell s) (GetClockMetricMatrix s)
    (mScattererRegistry s) (mClockMaster s) (mMasterClockScatteringPower s)
    (mUseDynPopCorr s) (mScattCompList s) (mClockScattCompList s)
    (mvDistTableSq s) (mDistTableClock s) (mClockDynPopCorr s) (v)
    (mBumpMergeParClock s) (mBumpMergeCost s) (mBumpMergeScale s)
    (mBumpMergeCostClock s) (mvBondValenceRo s) (mBondValenceParClock s)
    (mvBondValenceCalc s) (mBondValenceCalcClock s) (mBondValenceCost s)
    (mBondValenceCostScale s) (mBondValenceCostClock s) (msTick s).

Definition set_mBumpMergeCost (v : R) (s : Crystal) : Crystal :=
  mkCrystal (GetSpaceGroup s) (asUnitCell s) (GetClockMetricMatrix s)
    (mScattererRegistry s) (mClockMaster s) (mMasterClockScatteringPower s)
    (mUseDynPopCorr s) (mScattCompList s) (mClockScattCompList s)
    (mvDistTableSq s) (mDistTableClock s) (mClockDynPopCorr s)
    (mvBumpMergePar s) (mBumpMergeParClock s) (v) (mBumpMergeScale s)
    (mBumpMergeCostClock s) (mvBondValenceRo s) (mBondValenceParClock s)
    (mvBondValenceCalc s) (mBondValenceCalcClock s) (mBondValenceCost s)
    (mBondValenceCostScale s) (mBondValenceCostClock s) (msTick s).

Definition set_mvBondValenceRo (v : gmap (Z * Z) R) (s : Crystal) : Crystal :=
  mkCrystal (GetSpaceGroup s) (asUnitCell s) (GetClockMetricMatrix s)
    (mScattererRegistry s) (mClockMaster s) (mMasterClockScatteringPower s)
    (mUseDynPopCorr s) (mScattCompList s) (mClockScattCompList s)
    (mvDistTableSq s) (mDistTableClock s) (mClockDynPopCorr s)
    (mvBumpMergePar s) (mBumpMergeParClock s) (mBumpMergeCost s)
    (mBumpMergeScale s) (mBumpMergeCostClock s) (v) (mBondValenceParClock s)
    (mvBondValenceCalc s) (mBondValenceCalcClock s) (mBondValenceCost s)
    (mBondValenceCostScale s) (mBondValenceCostClock s) (msTick s).

Definition set_mvBondValenceCalc (v : gmap nat R) (s : Crystal) : Crystal :=
  mkCrystal (GetSpaceGroup s) (asUnitCell s) (GetClockMetricMatrix s)
    (mScattererRegistry s) (mClockMaster s) (mMasterClockScatteringPower s)
    (mUseDynPopCorr s) (mScattCompList s) (mClockScattCompList s)
    (mvDistTableSq s) (mDistTableClock s) (mClockDynPopCorr s)
    (mvBumpMergePar s) (mBumpMergeParClock s) (mBumpMergeCost s)
    (mBumpMergeScale s) (mBumpMergeCostClock s) (mvBondValenceRo s)
    (mBondValenceParClock s) (v) (mBondValenceCalcClock s)
    (mBondValenceCost s) (mBondValenceCostScale s) (mBondValenceCostClock s)
    (msTick s).

Definition set_mBondValenceCost (v : R) (s : Crystal) : Crystal :=
  mkCrystal (GetSpaceGroup s) (asUnitCell s) (GetClockMetricMatrix s)
    (mScattererRegistry s) (mClockMaster s) (mMasterClockScatteringPower s)
    (mUseDynPopCorr s) (mScattCompList s) (mClockScattCompList s)
    (mvDistTableSq s) (mDistTableClock s) (mClockDynPopCorr s)
    (mvBumpMergePar s) (mBumpMergeParClock s) (mBumpMergeCost s)
    (mBumpMergeScale s) (mBumpMergeCostClock s) (mvBondValenceRo s)
    (mBondValenceParClock s) (mvBondValenceCalc s) (mBondValenceCalcClock s)
    (v) (mBondValenceCostScale s) (mBondValenceCostClock s) (msTick s).

(** [clock.Click()] for each clock member that is clicked in this file. *)
Definition Click_mClockScattCompList (s : Crystal) : Crystal :=
  mkCrystal (GetSpaceGroup s) (asUnitCell s) (GetClockMetricMatrix s)
    (mScattererRegistry s) (mClockMaster s) (mMasterClockScatteringPower s)
    (mUseDynPopCorr s) (mScattCompList s) (S (msTick s)) (mvDistTableSq s)
    (mDistTableClock s) (mClockDynPopCorr s) (mvBumpMergePar s)
    (mBumpMergeParClock s) (mBumpMergeCost s) (mBumpMergeScale s)
    (mBumpMergeCostClock s) (mvBondValenceRo s) (mBondValenceParClock s)
    (mvBondValenceCalc s) (mBondValenceCalcClock s) (mBondValenceCost s)
    (mBondValenceCostScale s) (mBondValenceCostClock s) (S (msTick s)).

Definition Click_mDistTableClock (s : Crystal) : Crystal :=
  mkCrystal (GetSpaceGroup s) (asUnitCell s) (GetClockMetricMatrix s)
    (mScattererRegistry s) (mClockMaster s) (mMasterClockScatteringPower s)
    (mUseDynPopCorr s) (mScattCompList s) (mClockScattCompList s)
    (mvDistTableSq s) (S (msTick s)) (mClockDynPopCorr s) (mvBumpMergePar s)
    (mBumpMergeParClock s) (mBumpMergeCost s) (mBumpMergeScale s)
    (mBumpMergeCostClock s) (mvBondValenceRo s) (mBondValenceParClock s)
    (mvBondValenceCalc s) (mBondValenceCalcClock s) (mBondValenceCost s)
    (mBondValenceCostScale s) (mBondValenceCostClock s) (S (msTick s)).

Definition Click_mClockDynPopCorr (s : Crystal) : Crystal :=
  mkCrystal (GetSpaceGroup s) (asUnitCell s) (GetClockMetricMatrix s)
    (mScattererRegistry s) (mClockMaster s) (mMasterClockScatteringPower s)
    (mUseDynPopCorr s) (mScattCompList s) (mClockScattCompList s)
    (mvDistTableSq s) (mDistTableClock s) (S (msTick s)) (mvBumpMergePar s)
    (mBumpMergeParClock s) (mBumpMergeCost s) (mBumpMergeScale s)
    (mBumpMergeCostClock s) (mvBondValenceRo s) (mBondValenceParClock s)
    (mvBondValenceCalc s) (mBondValenceCalcClock s) (mBondValenceCost s)
    (mBondValenceCostScale s) (mBondValenceCostClock s) (S (msTick s)).

Definition Click_mBumpMergeParClock (s : Crystal) : Crystal :=
  mkCrystal (GetSpaceGroup s) (asUnitCell s) (GetClockMetricMatrix s)
    (mScattererRegistry s) (mClockMaster s) (mMasterClockScatteringPower s)
    (mUseDynPopCorr s) (mScattCompList s) (mClockScattCompList s)
    (mvDistTableSq s) (mDistTableClock s) (mClockDynPopCorr s)
    (mvBumpMergePar s) (S (msTick s)) (mBumpMergeCost s) (mBumpMergeScale s)
    (mBumpMergeCostClock s) (mvBondValenceRo s) (mBondValenceParClock s)
    (mvBondValenceCalc s) (mBondValenceCalcClock s) (mBondValenceCost s)
    (mBondValenceCostScale s) (mBondValenceCostClock s) (S (msTick s)).

Definition Click_mBumpMergeCostClock (s : Crystal) : Crystal :=
  mkCrystal (GetSpaceGroup s) (asUnitCell s) (GetClockMetricMatrix s)
    (mScattererRegistry s) (mClockMaster s) (mMasterClockScatteringPower s)
    (mUseDynPopCorr s) (mScattCompList s) (mClockScattCompList s)
    (mvDistTableSq s) (mDistTableClock s) (mClockDynPopCorr s)
    (mvBumpMergePar s) (mBumpMergeParClock s) (mBumpMergeCost s)
    (mBumpMergeScale s) (S (msTick s)) (mvBondValenceRo s)
    (mBondValenceParClock s) (mvBondValenceCalc s) (mBondValenceCalcClock s)
    (mBondValenceCost s) (mBondValenceCostScale s) (mBondValenceCostClock s)
    (S (msTick s)).

Definition Click_mBondValenceParClock (s : Crystal) : Crystal :=
  mkCrystal (GetSpaceGroup s) (asUnitCell s) (GetClockMetricMatrix s)
    (mScattererRegistry s) (mClockMaster s) (mMasterClockScatteringPower s)
    (mUseDynPopCorr s) (mScattCompList s) (mClockScattCompList s)
    (mvDistTableSq s) (mDistTableClock s) (mClockDynPopCorr s)
    (mvBumpMergePar s) (mBumpMergeParClock s) (mBumpMergeCost s)
    (mBumpMergeScale s) (mBumpMergeCostClock s) (mvBondValenceRo s)
    (S (msTick s)) (mvBondValenceCalc s) (mBondValenceCalcClock s)
    (mBondValenceCost s) (mBondValenceCostScale s) (mBondValenceCostClock s)
    (S (msTick s)).

Definition Click_mBondValenceCalcClock (s : Crystal) : Crystal :=
  mkCrystal (GetSpaceGroup s) (asUnitCell s) (GetClockMetricMatrix s)
    (mScattererRegistry s) (mClockMaster s) (mMasterClockScatteringPower s)
    (mUseDynPopCorr s) (mScattCompList s) (mClockScattCompList s)
    (mvDistTableSq s) (mDistTableClock s) (mClockDynPopCorr s)
    (mvBumpMergePar s) (mBumpMergeParClock s) (mBumpMergeCost s)
    (mBumpMergeScale s) (mBumpMergeCostClock s) (mvBondValenceRo s)
    (mBondValenceParClock s) (mvBondValenceCalc s) (S (msTick s))
    (mBondValenceCost s) (mBondValenceCostScale s) (mBondValenceCostClock s)
    (S (msTick s)).

Definition Click_mBondValenceCostClock (s : Crystal) : Crystal :=
  mkCrystal (GetSpaceGroup s) (asUnitCell s) (GetClockMetricMatrix s)
    (mScattererRegistry s) (mClockMaster s) (mMasterClockScatteringPower s)
    (mUseDynPopCorr s) (mScattCompList s) (mClockScattCompList s)
    (mvDistTableSq s) (mDistTableClock s) (mClockDynPopCorr s)
    (mvBumpMergePar s) (mBumpMergeParClock s) (mBumpMergeCost s)
    (mBumpMergeScale s) (mBumpMergeCostClock s) (mvBondValenceRo s)
    (mBondValenceParClock s) (mvBondValenceCalc s) (mBondValenceCalcClock s)
    (mBondValenceCost s) (mBondValenceCostScale s) (S (msTick s))
    (S (msTick s)).

(** [mClockDynPopCorr.Reset()] *)
Definition Reset_mClockDynPopCorr (s : Crystal) : Crystal :=
  mkCrystal (GetSpaceGroup s) (asUnitCell s) (GetClockMetricMatrix s)
    (mScattererRegistry s) (mClockMaster s) (mMasterClockScatteringPower s)
    (mUseDynPopCorr s) (mScattCompList s) (mClockScattCompList s)
    (mvDistTableSq s) (mDistTableClock s) (0%nat) (mvBumpMergePar s)
    (mBumpMergeParClock s) (mBumpMergeCost s) (mBumpMergeScale s)
    (mBumpMergeCostClock s) (mvBondValenceRo s) (mBondValenceParClock s)
    (mvBondValenceCalc s) (mBondValenceCalcClock s) (mBondValenceCost s)
    (mBondValenceCostScale s) (mBondValenceCostClock s) (msTick s).

(** ** [CalcDistTable], [CalcDynPopCorr] and [GetScatteringComponentList] *)

(** The three functions call each other: [GetScatteringComponentList]
    calls [CalcDynPopCorr], which calls [CalcDistTable], which starts with
    [this->GetScatteringComponentList()]. The two callees are written over
    the function [getSCL] they call back, and the recursion is closed in
    [GetScatteringComponentList] below, which counts the nested calls with
    [fuel] ([None]: the calls did not come to an end within [fuel]). *)

Definition CalcDistTable_with (getSCL : Crystal -> option Crystal)
    (fast : bool) (asymUnitMargin : R) (s : Crystal) : option Crystal :=
  match getSCL s with
  | None => None
  | Some s1 =>
      if ((mClockScattCompList s1 <? mDistTableClock s1)%nat
          && (GetClockMetricMatrix s1 <? mDistTableClock s1)%nat)%bool
      then Some s1
      else
        Some (Click_mDistTableClock
                (set_mvDistTableSq
                   (build_table fast asymUnitMargin (GetSpaceGroup s1) (asUnitCell s1)
                      (mScattCompList s1) (mvDistTableSq s1)) s1))
  end.

Definition no_component : ScatteringComponent :=
  mkScatteringComponent 0 0 0 0 0 None.

Definition no_neighbourhood : NeighbourHood := mkNeighbourHood 0 0 [].

(** [mScattCompList(i)] and [mvDistTableSq[i]] *)
Definition comp_at (comps : list ScatteringComponent) (i : nat) : ScatteringComponent :=
  nth i comps no_component.

Definition hood_at (tbl : list NeighbourHood) (i : nat) : NeighbourHood :=
  nth i tbl no_neighbourhood.

(** The loop of [CalcDynPopCorr] that fills [neighborsDist] for one
    component: the distances of the neighbours with the same
    [GetDynPopCorrIndex()] that are closer than [overlapDist]. *)
Fixpoint neighborsDist (comps : list ScatteringComponent) (atomicNumber : Z)
    (overlapDistSq : R) (vnb : list Neighbour.t) : list R :=
  match vnb with
  | [] => []
  | pos :: rest =>
      match mpScattPow (comp_at comps (Neighbour.mNeighbourIndex pos)) with
      | None => neighborsDist comps atomicNumber overlapDistSq rest
      | Some sp =>
          if ((atomicNumber =? GetDynPopCorrIndex sp)%Z
              && Rltb (Neighbour.mDist2 pos) overlapDistSq)%bool
          then sqrt (Neighbour.mDist2 pos)
                 :: neighborsDist comps atomicNumber overlapDistSq rest
          else neighborsDist comps atomicNumber overlapDistSq rest
      end
  end.

(** [dist=neighborsDist(j)-mergeDist; if(dist<0.) dist=0.;
     corr += fabs((overlapDist-dist-mergeDist)/(overlapDist-mergeDist));] *)
Definition corr_step (overlapDist mergeDist : R) (corr : R) (d : R) : R :=
  let dist := d - mergeDist in
  let dist := if Rltb dist 0 then 0 else dist in
  corr + Rabs ((overlapDist - dist - mergeDist) / (overlapDist - mergeDist)).

(** Body of [for(long i=0;i<nbComponent;i++)] in [CalcDynPopCorr]. *)
Definition DynPopCorr_component (overlapDist mergeDist : R)
    (tbl : list NeighbourHood) (comps : list ScatteringComponent) (i : nat)
    : list ScatteringComponent :=
  match mpScattPow (comp_at comps i) with
  | None => alter (set_mDynPopCorr 1) i comps
  | Some sp =>
      let atomicNumber := GetDynPopCorrIndex sp in
      let nd := neighborsDist comps atomicNumber (overlapDist * overlapDist)
                  (mvNeighbour (hood_at tbl i)) in
      let corr := fold_left (corr_step overlapDist mergeDist) nd 0 in
      alter (set_mDynPopCorr (1 / (1 + corr))) i comps
  end.

Definition DynPopCorr_loop (overlapDist mergeDist : R)
    (tbl : list NeighbourHood) (comps : list ScatteringComponent)
    : list ScatteringComponent :=
  fold_left (DynPopCorr_component overlapDist mergeDist tbl)
    (seq 0 (length comps)) comps.

Definition CalcDynPopCorr_with (getSCL : Crystal -> option Crystal)
    (overlapDist mergeDist : R) (s : Crystal) : option Crystal :=
  match CalcDistTable_with getSCL true overlapDist s with
  | None => None
  | Some s1 =>
      if (mDistTableClock s1 <? mClockDynPopCorr s1)%nat then Some s1
      else
        Some (Click_mClockDynPopCorr
                (set_mScattCompList
                   (DynPopCorr_loop overlapDist mergeDist
                      (mvDistTableSq s1) (mScattCompList s1)) s1))
  end.

Definition ResetDynPopCorr (s : Crystal) : Crystal :=
  let s1 := Reset_mClockDynPopCorr s in
  set_mScattCompList (map (set_mDynPopCorr 1) (mScattCompList s1)) s1.

(** The first loop of [GetScatteringComponentList]: is some scatterer's
    clock newer than [mClockScattCompList]? *)
Definition scatterer_changed (s : Crystal) : bool :=
  existsb (fun sc => (mClockScattCompList s <? GetClockScatterer sc)%nat)
          (mScattererRegistry s).

Fixpoint GetScatteringComponentList (fuel : nat) (s : Crystal) : option Crystal :=
  match fuel with
  | O => None
  | S fuel' =>
      if (mClockMaster s <? mClockScattCompList s)%nat then Some s
      else if scatterer_changed s then
        let s1 :=
          Click_mClockScattCompList
            (set_mScattCompList
               (concat (map scattCompList (mScattererRegistry s))) s) in
        if (mUseDynPopCorr s1 =? 1)%Z
        then CalcDynPopCorr_with (GetScatteringComponentList fuel') 1 0.5 s1
        else Some (ResetDynPopCorr s1)
      else Some s
  end.

Definition CalcDistTable (fuel : nat) : bool -> R -> Crystal -> option Crystal :=
  CalcDistTable_with (GetScatteringComponentList fuel).

Definition CalcDynPopCorr (fuel : nat) : R -> R -> Crystal -> option Crystal :=
  CalcDynPopCorr_with (GetScatteringComponentList fuel).

(** ** [Crystal::GetMinDistanceTable] *)

(** Body of the loop over the neighbours of component [i]. *)
Definition minDist_step (min : R) (i : nat) (nh : NeighbourHood)
    (minDistTable : CrystMatrix_REAL) (pos : Neighbour.t) : CrystMatrix_REAL :=
  let tmp := Neighbour.mDist2 pos in
  let dist := minDistTable i (Neighbour.mNeighbourIndex pos) in
  if (Rltb tmp dist
      && (Rltb min tmp
          || (negb (mIndex nh =? Neighbour.mNeighbourIndex pos)%nat
              && negb (mUniquePosSymmetryIndex nh
                         =? Neighbour.mNeighbourSymmetryIndex pos)%nat)))%bool
  then mat_set minDistTable i (Neighbour.mNeighbourIndex pos) tmp
  else minDistTable.

Definition minDist_row (min : R) (tbl : list NeighbourHood)
    (minDistTable : CrystMatrix_REAL) (i : nat) : CrystMatrix_REAL :=
  fold_left (minDist_step min i (hood_at tbl i))
            (mvNeighbour (hood_at tbl i)) minDistTable.

(** Body of [for(int j=0;j<=i;j++)] in the second loop nest. *)
Definition minDist_finish (i : nat) (minDistTable : CrystMatrix_REAL) (j : nat)
    : CrystMatrix_REAL :=
  let m1 := if Rltb 9999 (minDistTable i j) then mat_set minDistTable i j 0
            else minDistTable in
  let m2 := mat_set m1 i j (sqrt (m1 i j)) in
  mat_set m2 j i (m2 i j).

Definition minDist_finish_row (minDistTable : CrystMatrix_REAL) (i : nat)
    : CrystMatrix_REAL :=
  fold_left (minDist_finish i) (seq 0 (S i)) minDistTable.

(** What [GetMinDistanceTable] computes once the distance table is there. *)
Definition minDistTable_of (minDistance : R) (tbl : list NeighbourHood)
    (nbComponent : nat) : CrystMatrix_REAL :=
  let min := if Rltb minDistance 0 then -1 else minDistance * minDistance in
  let m := fold_left (minDist_row min tbl) (seq 0 nbComponent) (mat_const 10000) in
  fold_left minDist_finish_row (seq 0 nbComponent) m.

(** [this->CalcDistTable(true)] uses the default value of [asymUnitMargin],
    which is given in the class declaration and not in this file: it is the
    argument [defaultMargin]. The function returns the matrix, of size
    [nbComponent] in both directions, and the state after the call. *)
Definition GetMinDistanceTable (defaultMargin : R) (fuel : nat)
    (minDistance : R) (s : Crystal) : option (CrystMatrix_REAL * nat * Crystal) :=
  match CalcDistTable fuel true defaultMargin s with
  | None => None
  | Some s1 =>
      let nbComponent := length (mScattCompList s1) in
      Some (minDistTable_of minDistance (mvDistTableSq s1) nbComponent,
            nbComponent, s1)
  end.

(** ** Pairwise parameter maps *)

(** The key under which a pair of scattering powers is stored and looked
    up: [if(i1<i2) make_pair(i1,i2) else make_pair(i2,i1)]. *)
Definition pair_key (i1 i2 : Z) : Z * Z :=
  if (i1 <? i2)%Z then (i1, i2) else (i2, i1).

(** The four-argument [SetBumpMergeDistance]. *)
Definition SetBumpMergeDistance4 (scatt1 scatt2 : ScatteringPower) (dist : R)
    (allowMerge : bool) (s : Crystal) : Crystal :=
  Click_mBumpMergeParClock
    (set_mvBumpMergePar
       (<[pair_key (spAddress scatt1) (spAddress scatt2)
            := BumpMergePar.make dist allowMerge]> (mvBumpMergePar s)) s).

(** The three-argument [SetBumpMergeDistance]. *)
Definition SetBumpMergeDistance (scatt1 scatt2 : ScatteringPower) (dist : R)
    (s : Crystal) : Crystal :=
  if (spAddress scatt1 =? spAddress scatt2)%Z
  then SetBumpMergeDistance4 scatt1 scatt2 dist true s
  else SetBumpMergeDistance4 scatt1 scatt2 dist false s.

Definition RemoveBumpMergeDistance (scatt1 scatt2 : ScatteringPower)
    (s : Crystal) : Crystal :=
  Click_mBumpMergeParClock
    (set_mvBumpMergePar
       (delete (pair_key (spAddress scatt1) (spAddress scatt2))
               (mvBumpMergePar s)) s).

Definition AddBondValenceRo (pow1 pow2 : ScatteringPower) (ro : R)
    (s : Crystal) : Crystal :=
  Click_mBondValenceParClock
    (set_mvBondValenceRo
       (<[pair_key (spAddress pow1) (spAddress pow2) := ro]>
          (mvBondValenceRo s)) s).

Definition RemoveBondValenceRo (pow1 pow2 : ScatteringPower)
    (s : Crystal) : Crystal :=
  Click_mBondValenceParClock
    (set_mvBondValenceRo
       (delete (pair_key (spAddress pow1) (spAddress pow2))
               (mvBondValenceRo s)) s).

(** ** [Crystal::GetBumpMergeCost] *)

(** [tmp*tmp] for a neighbour at squared distance [d2] of a pair with
    parameters [par]. *)
Definition bump_term (par : BumpMergePar.t) (d2 : R) : R :=
  let tmp :=
    if BumpMergePar.mCanOverlap par
    then 0.5 * sin (PI * (1 - sqrt (d2 / BumpMergePar.mDist2 par))) / 0.1
    else tan (PI * 0.49999 * (1 - sqrt (d2 / BumpMergePar.mDist2 par))) / 0.1 in
  tmp * tmp.

(** Body of the loop over the neighbours [neigh] of one neighbourhood;
    [i1] is the pointer of the central component. *)
Definition bump_neigh (pars : gmap (Z * Z) BumpMergePar.t)
    (comps : list ScatteringComponent) (i1 : Z)
    (cost : R) (neigh : Neighbour.t) : R :=
  let i2 := ptr (mpScattPow (comp_at comps (Neighbour.mNeighbourIndex neigh))) in
  match pars !! pair_key i1 i2 with
  | None => cost
  | Some par =>
      if Rltb (BumpMergePar.mDist2 par) (Neighbour.mDist2 neigh) then cost
      else cost + bump_term par (Neighbour.mDist2 neigh)
  end.

(** Body of the loop over [mvDistTableSq]. *)
Definition bump_hood (pars : gmap (Z * Z) BumpMergePar.t)
    (comps : list ScatteringComponent) (cost : R) (pos : NeighbourHood) : R :=
  fold_left (bump_neigh pars comps (ptr (mpScattPow (comp_at comps (mIndex pos)))))
            (mvNeighbour pos) cost.

(** [mBumpMergeCost] after the two loops and the multiplication by the
    number of symmetry operations. *)
Definition bump_cost (sg : SpaceGroup) (pars : gmap (Z * Z) BumpMergePar.t)
    (comps : list ScatteringComponent) (tbl : list NeighbourHood) : R :=
  fold_left (bump_hood pars comps) tbl 0 * INR (GetNbSymmetrics sg).

Definition bump_cache_valid (s : Crystal) : bool :=
  ((mBumpMergeParClock s <? mBumpMergeCostClock s)%nat
   && (mDistTableClock s <? mBumpMergeCostClock s)%nat)%bool.

Definition GetBumpMergeCost (fuel : nat) (s : Crystal) : option (R * Crystal) :=
  if (size (mvBumpMergePar s) =? 0)%nat then Some (0, s)
  else if Rltb (mBumpMergeScale s) 1e-5 then Some (0, s)
  else
    match CalcDistTable fuel true 3 s with
    | None => None
    | Some s1 =>
        if bump_cache_valid s1
        then Some (mBumpMergeCost s1 * mBumpMergeScale s1, s1)
        else
          let s2 :=
            Click_mBumpMergeCostClock
              (set_mBumpMergeCost
                 (bump_cost (GetSpaceGroup s1) (mvBumpMergePar s1)
                            (mScattCompList s1) (mvDistTableSq s1)) s1) in
          Some (mBumpMergeCost s2 * mBumpMergeScale s2, s2)
    end.

(** ** [Crystal::CalcBondValenceSum] and [Crystal::GetBondValenceCost] *)

(** Body of the loop over the neighbours of one component: [acc] holds the
    local variables [nb] and [val]. *)
Definition valence_neigh (ros : gmap (Z * Z) R)
    (comps : list ScatteringComponent) (pow1 : Z)
    (acc : nat * R) (pos : Neighbour.t) : nat * R :=
  let dist := sqrt (Neighbour.mDist2 pos) in
  let c2 := comp_at comps (Neighbour.mNeighbourIndex pos) in
  let occup := mOccupancy c2 * mDynPopCorr c2 in
  let pow2 := ptr (mpScattPow c2) in
  match ros !! pair_key pow1 pow2 with
  | None => acc
  | Some ro =>
      let v := exp ((ro - dist) / 0.37) in
      (S (fst acc), snd acc + occup * v)
  end.

(** Body of [for(long i=0;i<mScattCompList.GetNbComponent();i++)]. *)
Definition valence_component (ros : gmap (Z * Z) R)
    (comps : list ScatteringComponent) (tbl : list NeighbourHood)
    (calc : gmap nat R) (i : nat) : gmap nat R :=
  let pow1 := ptr (mpScattPow (comp_at comps i)) in
  let '(nb, val) :=
    fold_left (valence_neigh ros comps pow1) (mvNeighbour (hood_at tbl i))
              (0%nat, 0) in
  if (nb =? 0)%nat then calc else <[i := val]> calc.

(** [mvBondValenceCalc] after [clear()] and the loop. *)
Definition valence_sums (ros : gmap (Z * Z) R)
    (comps : list ScatteringComponent) (tbl : list NeighbourHood) : gmap nat R :=
  fold_left (valence_component ros comps tbl) (seq 0 (length comps)) ∅.

Definition CalcBondValenceSum (fuel : nat) (s : Crystal) : option Crystal :=
  if (size (mvBondValenceRo s) =? 0)%nat then Some s
  else
    match CalcDistTable fuel true 5 s with
    | None => None
    | Some s1 =>
        if ((mDistTableClock s1 <? mBondValenceCalcClock s1)%nat
            && (mBondValenceParClock s1 <? mBondValenceCalcClock s1)%nat)%bool
        then Some s1
        else
          Some (Click_mBondValenceCalcClock
                  (set_mvBondValenceCalc
                     (valence_sums (mvBondValenceRo s1) (mScattCompList s1)
                                   (mvDistTableSq s1)) s1))
    end.

(** [mScattCompList(k).mpScattPow->GetFormalCharge()]; the code
    dereferences the pointer without a test (here a null pointer reads 0). *)
Definition formal_charge (comps : list ScatteringComponent) (k : nat) : R :=
  match mpScattPow (comp_at comps k) with
  | Some sp => GetFormalCharge sp
  | None => 0
  end.

(** The loop over [mvBondValenceCalc]; the order in which the entries are
    visited does not change a sum of real numbers. *)
Definition valence_cost (comps : list ScatteringComponent) (calc : gmap nat R) : R :=
  map_fold (fun k v cost => let a := v - formal_charge comps k in cost + a * a)
           0 calc.

Definition GetBondValenceCost (fuel : nat) (s : Crystal) : option (R * Crystal) :=
  if Rltb (mBondValenceCostScale s) 1e-5 then Some (0, s)
  else if (size (mvBondValenceRo s) =? 0)%nat then
    let s1 := set_mBondValenceCost 0 s in
    Some (mBondValenceCost s1 * mBondValenceCostScale s1, s1)
  else
    match CalcBondValenceSum fuel s with
    | None => None
    | Some s1 =>
        if ((mBondValenceCalcClock s1 <? mBondValenceCostClock s1)%nat
            && (mMasterClockScatteringPower s1 <? mBondValenceCostClock s1)%nat)%bool
        then Some (mBondValenceCost s1 * mBondValenceCostScale s1, s1)
        else
          let s2 :=
            Click_mBondValenceCostClock
              (set_mBondValenceCost
                 (valence_cost (mScattCompList s1) (mvBondValenceCalc s1)) s1) in
          Some (mBondValenceCost s2 * mBondValenceCostScale s2, s2)
    end.

(** ** [Crystal::GetLogLikelihood] *)

(** [return this->GetBumpMergeCost()+this->GetBondValenceCost();] with the
    two calls made from left to right. *)
Definition GetLogLikelihood (fuel : nat) (s : Crystal) : option (R * Crystal) :=
  match GetBumpMergeCost fuel s with
  | None => None
  | Some (bump, s1) =>
      match GetBondValenceCost fuel s1 with
      | None => None
      | Some (valence, s2) => Some (bump + valence, s2)
      end
  end.

(** ** Well-formed clocks *)

(** Every clock was either never clicked or set by a click to the value
    the global counter had then, so no clock is ahead of [msTick]. *)
Definition clocks_wf (s : Crystal) : Prop :=
  (GetClockMetricMatrix s <= msTick s
   /\ mClockMaster s <= msTick s
   /\ mMasterClockScatteringPower s <= msTick s
   /\ mClockScattCompList s <= msTick s
   /\ mDistTableClock s <= msTick s
   /\ mClockDynPopCorr s <= msTick s
   /\ mBumpMergeParClock s <= msTick s
   /\ mBumpMergeCostClock s <= msTick s
   /\ mBondValenceParClock s <= msTick s
   /\ mBondValenceCalcClock s <= msTick s
   /\ mBondValenceCostClock s <= msTick s
   /\ Forall (fun sc => GetClockScatterer sc <= msTick s) (mScattererRegistry s))%nat.

(** The tests that let a member function return what it has cached. *)
Definition compList_fresh (s : Crystal) : Prop :=
  (mClockMaster s <? mClockScattCompList s)%nat = true
  \/ scatterer_changed s = false.

Definition distTable_fresh (s : Crystal) : Prop :=
  (mClockScattCompList s < mDistTableClock s
   /\ GetClockMetricMatrix s < mDistTableClock s)%nat.

Definition bumpMergeCost_fresh (s : Crystal) : Prop :=
  (mBumpMergeParClock s < mBumpMergeCostClock s
   /\ mDistTableClock s < mBumpMergeCostClock s)%nat.

Definition bondValenceCalc_fresh (s : Crystal) : Prop :=
  (mDistTableClock s < mBondValenceCalcClock s
   /\ mBondValenceParClock s < mBondValenceCalcClock s)%nat.

Definition bondValenceCost_fresh (s : Crystal) : Prop :=
  (mBondValenceCalcClock s < mBondValenceCostClock s
   /\ mMasterClockScatteringPower s < mBondValenceCostClock s)%nat.

(** What [GetScatteringComponentList], [CalcDistTable] and
    [CalcDynPopCorr] leave alone: everything but the component list, the
    distance table, their clocks, the clock of the occupancy correction and
    the global counter. *)
Definition table_frame (s s' : Crystal) : Prop :=
  GetSpaceGroup s' = GetSpaceGroup s
  /\ asUnitCell s' = asUnitCell s
  /\ GetClockMetricMatrix s' = GetClockMetricMatrix s
  /\ mScattererRegistry s' = mScattererRegistry s
  /\ mClockMaster s' = mClockMaster s
  /\ mMasterClockScatteringPower s' = mMasterClockScatteringPower s
  /\ mUseDynPopCorr s' = mUseDynPopCorr s
  /\ mvBumpMergePar s' = mvBumpMergePar s
  /\ mBumpMergeParClock s' = mBumpMergeParClock s
  /\ mBumpMergeCost s' = mBumpMergeCost s
  /\ mBumpMergeScale s' = mBumpMergeScale s
  /\ mBumpMergeCostClock s' = mBumpMergeCostClock s
  /\ mvBondValenceRo s' = mvBondValenceRo s
  /\ mBondValenceParClock s' = mBondValenceParClock s
  /\ mvBondValenceCalc s' = mvBondValenceCalc s
  /\ mBondValenceCalcClock s' = mBondValenceCalcClock s
  /\ mBondValenceCost s' = mBondValenceCost s
  /\ mBondValenceCostScale s' = mBondValenceCostScale s
  /\ mBondValenceCostClock s' = mBondValenceCostClock s.

(** ** Example crystals *)

(** Space group P1: the identity is the only symmetry operation and the
    asymmetric unit is the whole cell. *)
Definition sg_P1 : SpaceGroup :=
  mkSpaceGroup 1 (fun x y z _ => (x, y, z)) 1 1 1.

(** Space group P-1: the identity and the inversion through the origin;
    the asymmetric unit is the half cell [x <= 1/2]. *)
Definition sg_Pbar1 : SpaceGroup :=
  mkSpaceGroup 2
    (fun x y z j => if (j =? 0)%nat then (x, y, z) else (- x, - y, - z))
    (1 / 2) 1 1.

(** A cubic cell with edges of 10 Angstroems. *)
Definition cubic10 : UnitCell :=
  mkUnitCell (fun _ => 10)
    (fun i j => if (i =? j)%nat then 10 else 0).

Definition power_A : ScatteringPower := mkScatteringPower 4096%Z 1%Z 1.
Definition power_B : ScatteringPower := mkScatteringPower 8192%Z 2%Z (-2).

(** One atom with scattering power [p] at [(x,y,z)], fully occupied. *)
Definition atom (p : ScatteringPower) (x y z : R) : Scatterer :=
  mkScatterer 1%nat [mkScatteringComponent x y z 1 1 (Some p)].

(** A crystal as it is after its construction and the addition of
    scatterers: no clock of the crystal has been clicked yet, nothing is
    cached, no pairwise parameter is set, and both scales are 1. *)
Definition new_crystal (sg : SpaceGroup) (cell : UnitCell)
    (scatterers : list Scatterer) : Crystal :=
  mkCrystal sg cell 1%nat scatterers 1%nat 1%nat 1%Z
    [] 0%nat [] 0%nat 0%nat
    ∅ 0%nat 0 1 0%nat
    ∅ 0%nat ∅ 0%nat 0 1 0%nat
    1%nat.

(** ** Sequences of calls on the pairwise parameters *)

Inductive PairCall : Type :=
  | CallSetBumpMergeDistance (scatt1 scatt2 : ScatteringPower) (dist : R)
  | CallSetBumpMergeDistance4 (scatt1 scatt2 : ScatteringPower) (dist : R)
      (allowMerge : bool)
  | CallRemoveBumpMergeDistance (scatt1 scatt2 : ScatteringPower)
  | CallAddBondValenceRo (pow1 pow2 : ScatteringPower) (ro : R)
  | CallRemoveBondValenceRo (pow1 pow2 : ScatteringPower).

Definition call (s : Crystal) (c : PairCall) : Crystal :=
  match c with
  | CallSetBumpMergeDistance scatt1 scatt2 dist =>
      SetBumpMergeDistance scatt1 scatt2 dist s
  | CallSetBumpMergeDistance4 scatt1 scatt2 dist allowMerge =>
      SetBumpMergeDistance4 scatt1 scatt2 dist allowMerge s
  | CallRemoveBumpMergeDistance scatt1 scatt2 =>
      RemoveBumpMergeDistance scatt1 scatt2 s
  | CallAddBondValenceRo pow1 pow2 ro => AddBondValenceRo pow1 pow2 ro s
  | CallRemoveBondValenceRo pow1 pow2 => RemoveBondValenceRo pow1 pow2 s
  end.

Definition calls (cs : list PairCall) (s : Crystal) : Crystal :=
  fold_left call cs s.

(** Every key of the map has the smaller address first. *)
Definition canonical_keys {V : Type} (m : gmap (Z * Z) V) : Prop :=
  forall a b, is_Some (m !! (a, b)) -> (a <= b)%Z.

(** At most one entry for an unordered pair of distinct addresses. *)
Definition one_entry_per_pair {V : Type} (m : gmap (Z * Z) V) : Prop :=
  forall a b, a <> b -> ~ (is_Some (m !! (a, b)) /\ is_Some (m !! (b, a))).

(** ** What [GetMinDistanceTable] leaves in an entry *)

(** The test under which the first loop lowers an entry: the contact is
    farther than [min], or it is a contact with another component at
    another symmetry index than the one of the unique position. *)
Definition accepted (min : R) (nh : NeighbourHood) (pos : Neighbour.t) : bool :=
  (Rltb min (Neighbour.mDist2 pos)
   || (negb (mIndex nh =? Neighbour.mNeighbourIndex pos)%nat
       && negb (mUniquePosSymmetryIndex nh
                  =? Neighbour.mNeighbourSymmetryIndex pos)%nat))%bool.

(** The value of the entry for neighbour index [k] once the neighbours
    [l] of a component have been gone through, starting from [v]. *)
Definition lowest (min : R) (nh : NeighbourHood) (k : nat)
    (l : list Neighbour.t) (v : R) : R :=
  fold_left
    (fun v pos =>
       if ((Neighbour.mNeighbourIndex pos =? k)%nat
           && Rltb (Neighbour.mDist2 pos) v && accepted min nh pos)%bool
       then Neighbour.mDist2 pos else v)
    l v.

(** The second loop on one value: [if(9999.<v) v=0; v=sqrt(v);] *)
Definition finished (v : R) : R := sqrt (if Rltb 9999 v then 0 else v).

(** [min=minDistance*minDistance; if(minDistance<0) min = -1.;] *)
Definition min_of (minDistance : R) : R :=
  if Rltb minDistance 0 then -1 else minDistance * minDistance.

(** The crystals used as examples below. *)
Definition crystal_one_atom : Crystal :=
  new_crystal sg_P1 cubic10 [atom power_A 0 0 0].

Definition crystal_inversion : Crystal :=
  new_crystal sg_Pbar1 cubic10 [atom power_A (7 / 16) 0 0].

Definition crystal_origin : Crystal :=
  new_crystal sg_Pbar1 cubic10 [atom power_A 0 0 0].

Definition crystal_two_at_origin : Crystal :=
  new_crystal sg_Pbar1 cubic10 [atom power_A 0 0 0; atom power_A 0 0 0].

Definition crystal_two_in_P1 : Crystal :=
  new_crystal sg_P1 cubic10 [atom power_A 0 0 0; atom power_A 0 0 0].

Definition example_calls : list PairCall :=
  [CallSetBumpMergeDistance power_B power_A 2;
   CallSetBumpMergeDistance4 power_A power_B 3 true;
   CallAddBondValenceRo power_B power_A 1.5;
   CallRemoveBondValenceRo power_A power_B].

(** The component list of a crystal: the lists of its scatterers, one
    after the other. *)
Definition all_components (scatterers : list Scatterer) : list ScatteringComponent :=
  concat (map scattCompList scatterers).

(** The distance table as the first read of a new crystal builds it: the
    table is built by the call [CalcDynPopCorr(1.,.5)] made from
    [GetScatteringComponentList], hence with a margin of 1. *)
Definition first_table (sg : SpaceGroup) (cell : UnitCell)
    (scatterers : list Scatterer) : list NeighbourHood :=
  build_table true 1 sg cell (all_components scatterers) [].

(** The state [GetScatteringComponentList] leaves when it is called on a
    new crystal. *)
Definition after_first_read (sg : SpaceGroup) (cell : UnitCell)
    (scatterers : list Scatterer) : Crystal :=
  mkCrystal sg cell 1%nat scatterers 1%nat 1%nat 1%Z
    (DynPopCorr_loop 1 0.5 (first_table sg cell scatterers)
       (all_components scatterers))
    2%nat (first_table sg cell scatterers) 3%nat 4%nat
    ∅ 0%nat 0 1 0%nat
    ∅ 0%nat ∅ 0%nat 0 1 0%nat
    4%nat.

(** ** What the first loop nest retains and marks *)

(** The position made from the symmetric of index [j] of component [i]. *)
Definition position (B : Branch) (i : nat) (symmetricsCoords : nat -> R * R * R)
    (j : nat) : Pos.t :=
  mkpos B i j (symmetricsCoords j).

(** The symmetric [j] is pushed on [vPos]. *)
Definition retained (B : Branch) (useAU : bool) (i : nat)
    (symmetricsCoords : nat -> R * R * R) (j : nat) : bool :=
  if useAU then near B (position B i symmetricsCoords j) else true.

(** The symmetric [j] is recorded as the unique position of component [i]:
    without restriction every symmetric is; with the restriction it has to
    pass the test with the margin and then the test with the strict limits. *)
Definition marked (B : Branch) (useAU : bool) (i : nat)
    (symmetricsCoords : nat -> R * R * R) (j : nat) : bool :=
  if useAU
  then (near B (position B i symmetricsCoords j)
        && strict B (position B i symmetricsCoords j))%bool
  else true.

(** The last index of [l] that satisfies [P], or [d] when there is none. *)
Definition last_such (P : nat -> bool) (l : list nat) (d : nat) : nat :=
  fold_left (fun u j => if P j then j else u) l d.

(** ** The minimum-image convention *)

(** Following the words of the specification, not the code: the
    minimum-image reduction of a fractional displacement, to the interval
    (-0.5,0.5]. *)
Definition min_image (d : R) : R :=
  let f := d - IZR (Int_part d) in
  if Rltb 0.5 f then f - 1 else f.

(** Following the words of the specification: squared length of the
    minimum image of a fractional displacement, in Cartesian coordinates. *)
Definition dist2_min_image (cell : UnitCell) (dx dy dz : R) : R :=
  norm2 (FractionalToOrthonormalCoords cell
           (min_image dx) (min_image dy) (min_image dz)).

(** [v] is the distance from [d] to the nearest integer. *)
Definition nearest_integer_distance (d v : R) : Prop :=
  (exists k : Z, v = Rabs (d - IZR k)) /\ (forall k : Z, v <= Rabs (d - IZR k)).

(** The quantization step, and the sum of the magnitudes of the entries of
    a row of the upper triangle of the orthonormalisation matrix. *)
Definition quantum : R := 1 / IZR FRAC2LONG.

Definition row_sum (cell : UnitCell) (k : nat) : R :=
  match k with
  | 0%nat => Rabs (GetOrthMatrix cell 0%nat 0%nat)
             + Rabs (GetOrthMatrix cell 0%nat 1%nat)
             + Rabs (GetOrthMatrix cell 0%nat 2%nat)
  | 1%nat => Rabs (GetOrthMatrix cell 1%nat 1%nat)
             + Rabs (GetOrthMatrix cell 1%nat 2%nat)
  | _ => Rabs (GetOrthMatrix cell 2%nat 2%nat)
  end.

(** A cell whose third axis leans on the first one (a monoclinic cell). *)
Definition leaning_cell : UnitCell :=
  mkUnitCell (fun _ => 10)
    (fun i j => if (i =? j)%nat then 10
                else if ((i =? 0) && (j =? 2))%nat%bool then 5 else 0).

(** ** The correction factor of one component *)

(** The value [CalcDynPopCorr] stores in [mScattCompList(i).mDynPopCorr]. *)
Definition dynPopCorr_of (overlapDist mergeDist : R) (tbl : list NeighbourHood)
    (comps : list ScatteringComponent) (i : nat) : R :=
  match mpScattPow (comp_at comps i) with
  | None => 1
  | Some sp =>
      1 / (1 + fold_left (corr_step overlapDist mergeDist)
                 (neighborsDist comps (GetDynPopCorrIndex sp)
                    (overlapDist * overlapDist) (mvNeighbour (hood_at tbl i))) 0)
  end.

(** ** The sums of the two costs, term by term *)

Definition sum_R (l : list R) : R := fold_right Rplus 0 l.

(** The bond valence contributed to a component whose pointer is [pow1]
    by the neighbour [pos]: none when the pair has no reference length. *)
Definition valence_term (ros : gmap (Z * Z) R) (comps : list ScatteringComponent)
    (pow1 : Z) (pos : Neighbour.t) : option R :=
  let c2 := comp_at comps (Neighbour.mNeighbourIndex pos) in
  match ros !! pair_key pow1 (ptr (mpScattPow c2)) with
  | None => None
  | Some ro =>
      Some (mOccupancy c2 * mDynPopCorr c2
            * exp ((ro - sqrt (Neighbour.mDist2 pos)) / 0.37))
  end.

(** The contributions of all the neighbours of component [i], in the order
    of the neighbour list. *)
Definition valence_terms (ros : gmap (Z * Z) R) (comps : list ScatteringComponent)
    (tbl : list NeighbourHood) (i : nat) : list R :=
  omap (valence_term ros comps (ptr (mpScattPow (comp_at comps i))))
       (mvNeighbour (hood_at tbl i)).

(** The cached valence sums are those of the current table and
    components whenever their clock says that they are fresh. *)
Definition bondValenceCalc_coherent (s : Crystal) : Prop :=
  bondValenceCalc_fresh s ->
  mvBondValenceCalc s
  = valence_sums (mvBondValenceRo s) (mScattCompList s) (mvDistTableSq s).

(** Following the words of the specification: the penalty of a contact at
    squared distance [d2] for a pair whose squared minimum distance is
    [dmin2], with [d = sqrt d2] and [dmin = sqrt dmin2]. *)
Definition penalty (canOverlap : bool) (dmin2 d2 : R) : R :=
  let d := sqrt d2 in
  let dmin := sqrt dmin2 in
  if canOverlap
  then (0.5 * sin (PI * (1 - d / dmin)) / 0.1) ^ 2
  else (tan (PI * 0.49999 * (1 - d / dmin)) / 0.1) ^ 2.

(** Following the words of the specification: the penalty of the contact
    [neigh] of a component whose pointer is [i1], when the pair is in the
    table and the squared distance is below the threshold of the pair. *)
Definition bump_penalty (pars : gmap (Z * Z) BumpMergePar.t)
    (comps : list ScatteringComponent) (i1 : Z) (neigh : Neighbour.t) : option R :=
  let i2 := ptr (mpScattPow (comp_at comps (Neighbour.mNeighbourIndex neigh))) in
  match pars !! pair_key i1 i2 with
  | None => None
  | Some par =>
      if Rltb (Neighbour.mDist2 neigh) (BumpMergePar.mDist2 par)
      then Some (penalty (BumpMergePar.mCanOverlap par) (BumpMergePar.mDist2 par)
                   (Neighbour.mDist2 neigh))
      else None
  end.

Definition bump_penalties (pars : gmap (Z * Z) BumpMergePar.t)
    (comps : list ScatteringComponent) (tbl : list NeighbourHood) : list R :=
  flat_map
    (fun pos =>
       omap (bump_penalty pars comps (ptr (mpScattPow (comp_at comps (mIndex pos)))))
            (mvNeighbour pos))
    tbl.

(** The cached cost is the one of the current table, components and
    parameters whenever its clock says that it is fresh. *)
Definition bumpMergeCost_coherent (s : Crystal) : Prop :=
  bumpMergeCost_fresh s ->
  mBumpMergeCost s
  = bump_cost (GetSpaceGroup s) (mvBumpMergePar s) (mScattCompList s)
      (mvDistTableSq s).

(** The minimum distances of the table are not zero. *)
Definition positive_distances (pars : gmap (Z * Z) BumpMergePar.t) : Prop :=
  forall k par, pars !! k = Some par -> 0 < BumpMergePar.mDist2 par.

Definition crystal_AB : Crystal :=
  new_crystal sg_Pbar1 cubic10 [atom power_A 0 0 0; atom power_B (1 / 4) 0 0].

(** * Further member functions of [Crystal] *)

(** ** Further example states *)

(** The crystal [crystal_AB] once a minimum distance of 2 Angstroems has
    been set between two atoms of the species [power_A]. *)
Definition crystal_AB_bump : Crystal :=
  SetBumpMergeDistance power_A power_A 2 crystal_AB.

(** ** The bond valence cost, term by term *)

(** The cached cost is the one of the current valences and components
    whenever its clock says that it is fresh. *)
Definition bondValenceCost_coherent (s : Crystal) : Prop :=
  bondValenceCost_fresh s ->
  mBondValenceCost s = valence_cost (mScattCompList s) (mvBondValenceCalc s).

(** For each component, the square of the difference between its valence
    (the sum of the contributions of its neighbours) and the formal charge
    of its scattering power; nothing for a component without contribution. *)
Definition valence_deviations (ros : gmap (Z * Z) R)
    (comps : list ScatteringComponent) (tbl : list NeighbourHood) : list R :=
  map (fun i =>
         match valence_terms ros comps tbl i with
         | [] => 0
         | ts => (sum_R ts - formal_charge comps i) * (sum_R ts - formal_charge comps i)
         end)
      (seq 0 (length comps)).

(** ** [Crystal::FindScatterer] *)

(** A name is a [string]; [==] compares the characters one by one. *)
Fixpoint name_eqb (a b : list ascii) : bool :=
  match a, b with
  | [], [] => true
  | x :: a', y :: b' => (Ascii.eqb x y && name_eqb a' b')%bool
  | _, _ => false
  end.

(** [throw ObjCrystException("...Cannot find this scatterer:"+scattName)] *)
Inductive ObjCrystException : Type :=
  | CannotFindThisScatterer (scattName : list ascii).

(** The loop [for(int i=0;i<this->GetNbScatterer();i++)] from index [i]
    on; [names] holds what is left of the names
    [mScattererRegistry.GetObj(i).GetName()] of the registry. *)
Fixpoint FindScatterer_from (i : nat) (names : list (list ascii))
    (scattName : list ascii) : ObjCrystException + nat :=
  match names with
  | [] => inl (CannotFindThisScatterer scattName)
  | name :: rest =>
      if name_eqb name scattName then inr i
      else FindScatterer_from (S i) rest scattName
  end.

Definition FindScatterer (names : list (list ascii)) (scattName : list ascii)
    : ObjCrystException + nat :=
  FindScatterer_from 0 names scattName.

(** ** [Crystal::GlobalOptRandomMove] *)

(** What one call does: nothing when a move has already been made,
    the exchange of the positions of the scatterers [n1] and [n2], or a
    move of the parameters (left to [RefinableObj::GlobalOptRandomMove]). *)
Inductive RandomMove : Type :=
  | NoMove
  | ExchangePositions (n1 n2 : Z)
  | MoveParameters.

(** The choice made by [GlobalOptRandomMove]; [rand k] is the value of the
    call number [k] of [rand()] (between 0 and [RAND_MAX]) and [nb] the
    number of scatterers, an [unsigned long] made from a [long] that is not
    negative, so that none of the sums below wraps around. *)
Definition GlobalOptRandomMove_choice (mRandomMoveIsDone : bool) (RAND_MAX : Z)
    (nb : Z) (rand : nat -> Z) : RandomMove :=
  if mRandomMoveIsDone then NoMove
  else if (Rltb (IZR (rand 0%nat) / IZR RAND_MAX) 0.02 && (1 <? nb)%Z)%bool then
    let n1 := (rand 1%nat mod nb)%Z in
    let n2 := (((rand 2%nat mod (nb - 1)) + n1 + 1) mod nb)%Z in
    ExchangePositions n1 n2
  else MoveParameters.

(** ** [Crystal::CIFOutput]: the name of the data block *)

Definition space : ascii := " "%char.
Definition underscore : ascii := "_"%char.

(** [tempname.find(" ",0)]: the index of the first space, [None] for
    [string::npos]. *)
Fixpoint find_space (tempname : list ascii) : option nat :=
  match tempname with
  | [] => None
  | c :: rest =>
      if Ascii.eqb c space then Some 0%nat
      else option_map S (find_space rest)
  end.

(** The loop [while (where != (int)string::npos)]: each turn replaces the
    first space by an underscore and prints the name on [cout]; [fuel]
    bounds the number of turns ([None]: the loop was not over). *)
Fixpoint CIF_name_loop (fuel : nat) (tempname : list ascii)
    (cout : list (list ascii)) : option (list ascii * list (list ascii)) :=
  match find_space tempname with
  | None => Some (tempname, cout)
  | Some where_ =>
      match fuel with
      | O => None
      | S fuel' =>
          let tempname' := <[where_ := underscore]> tempname in
          CIF_name_loop fuel' tempname' (cout ++ [tempname'])
      end
  end.

(** The name written after [data_], and the lines printed on [cout]. *)
Definition CIF_data_block_name (fuel : nat) (mName : list ascii)
    : option (list ascii * list (list ascii)) :=
  let tempname := if (32 <? length mName)%nat then take 32 mName else mName in
  CIF_name_loop fuel tempname [].

(** A name in which every space has become an underscore, and the number
    of spaces of a name. *)
Definition without_spaces (name : list ascii) : list ascii :=
  map (fun c => if Ascii.eqb c space then underscore else c) name.

Definition count_spaces (name : list ascii) : nat :=
  length (List.filter (fun c => Ascii.eqb c space) name).

(** ** [Crystal::CIFOutput]: the atoms written and the atoms left out *)

(** [for(unsigned long l=0;l<k;++l) if(minDistTable(l,k)<0.5) redundant=true;] *)
Definition CIF_redundant (minDistTable : CrystMatrix_REAL) (k : nat) : bool :=
  existsb (fun l => Rltb (minDistTable l k) 0.5) (seq 0 k).

(** The two loops over the components of the scatterers, taken one
    scatterer after the other: the first one writes the components that
    are not redundant ([excluded = false]), the second one writes as
    comments those that are ([excluded = true]). A component without
    scattering power is skipped by [continue], before [k++]. *)
Fixpoint CIF_sites (minDistTable : CrystMatrix_REAL) (excluded : bool) (k : nat)
    (comps : list ScatteringComponent) : list ScatteringComponent :=
  match comps with
  | [] => []
  | c :: rest =>
      match mpScattPow c with
      | None => CIF_sites minDistTable excluded k rest
      | Some _ =>
          let redundant := CIF_redundant minDistTable k in
          (if Bool.eqb redundant excluded then [c] else [])
          ++ CIF_sites minDistTable excluded (S k) rest
      end
  end.

(** The components that have a scattering power. *)
Definition with_power (comps : list ScatteringComponent)
    : list ScatteringComponent :=
  List.filter (fun c => match mpScattPow c with Some _ => true | None => false end)
              comps.

(** ** [Crystal::GetGeneGroup] *)

(** The local state of the two loops: the vector [groupIndex], the
    counter [first] (an [unsigned int]: it wraps around at [2^32]) and the
    local variable [latticeIndex]. *)
Record GeneGroups : Type := mkGeneGroups {
  groupIndex : list Z;
  first : Z;
  latticeIndex : Z
}.

(** Body of the inner loop, for the parameter [i] of [obj] (at the address
    [objPar]) and a parameter of the crystal (at the address [thisPar]):
    [if(&(obj.GetPar(i)) == &(this->GetPar(j)))
       { if(latticeIndex==0) latticeIndex=first++; groupIndex(i)=latticeIndex; }] *)
Definition GetGeneGroup_step (i : nat) (objPar : Z) (g : GeneGroups) (thisPar : Z)
    : GeneGroups :=
  if (objPar =? thisPar)%Z then
    let g1 :=
      if (latticeIndex g =? 0)%Z
      then mkGeneGroups (groupIndex g) ((first g + 1) mod 2 ^ 32)%Z (first g)
      else g in
    mkGeneGroups (<[i := latticeIndex g1]> (groupIndex g1)) (first g1) (latticeIndex g1)
  else g.

(** The loop over the parameters of [obj], from the index [i] on. *)
Fixpoint GetGeneGroup_from (i : nat) (objPars thisPars : list Z) (g : GeneGroups)
    : GeneGroups :=
  match objPars with
  | [] => g
  | objPar :: rest =>
      GetGeneGroup_from (S i) rest thisPars
        (fold_left (GetGeneGroup_step i objPar) thisPars g)
  end.

(** [GetGeneGroup(obj,groupIndex,first)]: the addresses of the parameters
    of [obj] and of the crystal stand for the two objects; the result is
    the new contents of [groupIndex] and of [first]. *)
Definition GetGeneGroup (objPars thisPars : list Z) (groupIndex0 : list Z)
    (first0 : Z) : list Z * Z :=
  let g := GetGeneGroup_from 0 objPars thisPars (mkGeneGroups groupIndex0 first0 0) in
  (groupIndex g, first g).

(** The parameter at the address [p] is one of the crystal. *)
Definition shared (thisPars : list Z) (p : Z) : bool :=
  existsb (fun q => (p =? q)%Z) thisPars.

(** ** [Crystal::RemoveScatteringPower]: the two pairwise maps *)

(** [(pos->first.first==scattPow)||(pos->first.second==scattPow)] *)
Definition mentions (scattPow : Z) (key : Z * Z) : bool :=
  ((key.1 =? scattPow)%Z || (key.2 =? scattPow)%Z)%bool.

(** Body of the loop over [mvBumpMergePar]:
    [mvBumpMergePar.erase(pos++); mBumpMergeParClock.Click();] for an entry
    that mentions [scattPow]. *)
Definition erase_BumpMergePar (scattPow : Z) (s : Crystal)
    (pos : Z * Z * BumpMergePar.t) : Crystal :=
  if mentions scattPow pos.1
  then Click_mBumpMergeParClock
         (set_mvBumpMergePar (delete pos.1 (mvBumpMergePar s)) s)
  else s.

(** Body of the loop over [mvBondValenceRo]. *)
Definition erase_BondValenceRo (scattPow : Z) (s : Crystal) (pos : Z * Z * R)
    : Crystal :=
  if mentions scattPow pos.1
  then Click_mBondValenceParClock
         (set_mvBondValenceRo (delete pos.1 (mvBondValenceRo s)) s)
  else s.

(** The two loops at the end of [RemoveScatteringPower], which go through
    the entries the two maps hold when the loops start. What comes before
    them (the registry of the scattering powers, the children of the
    clocks, [delete scattPow]) works on members that are not part of the
    state modelled here. *)
Definition RemoveScatteringPower (scattPow : ScatteringPower) (s : Crystal)
    : Crystal :=
  let s1 :=
    fold_left (erase_BumpMergePar (spAddress scattPow))
              (map_to_list (mvBumpMergePar s)) s in
  fold_left (erase_BondValenceRo (spAddress scattPow))
            (map_to_list (mvBondValenceRo s1)) s1.

(** ** What the cost functions leave alone *)

(** The configuration of the crystal: space group, cell, scatterers,
    options, pairwise parameters and scales, with their clocks. *)
Definition configuration_kept (s s' : Crystal) : Prop :=
  GetSpaceGroup s' = GetSpaceGroup s
  /\ asUnitCell s' = asUnitCell s
  /\ GetClockMetricMatrix s' = GetClockMetricMatrix s
  /\ mScattererRegistry s' = mScattererRegistry s
  /\ mClockMaster s' = mClockMaster s
  /\ mMasterClockScatteringPower s' = mMasterClockScatteringPower s
  /\ mUseDynPopCorr s' = mUseDynPopCorr s
  /\ mvBumpMergePar s' = mvBumpMergePar s
  /\ mBumpMergeParClock s' = mBumpMergeParClock s
  /\ mBumpMergeScale s' = mBumpMergeScale s
  /\ mvBondValenceRo s' = mvBondValenceRo s
  /\ mBondValenceParClock s' = mBondValenceParClock s
  /\ mBondValenceCostScale s' = mBondValenceCostScale s.

(** ** The weight of one overlapping neighbour *)

(** What a neighbour at the distance [d] adds to [corr] in
    [CalcDynPopCorr]: 1 up to [mergeDist], then a value that decreases
    linearly to 0 at [overlapDist]. *)
Definition overlap_weight (overlapDist mergeDist d : R) : R :=
  if Rleb d mergeDist then 1
  else (overlapDist - d) / (overlapDist - mergeDist).

(** ** The two branches of [CalcDistTable] side by side *)

(** [symmetricsCoords] in the loop of component [k]: the rows of the
    matrix [GetAllSymmetrics] returns for the coordinates of this
    component. *)
Definition symmetricsCoords_of (sg : SpaceGroup) (comps : list ScatteringComponent)
    (k : nat) : nat -> R * R * R :=
  GetAllSymmetrics sg (mX (comp_at comps k)) (mY (comp_at comps k))
    (mZ (comp_at comps k)).

(** The position the branch [fast] makes of the symmetric [j] of component
    [k]: [long] coordinates in the quantized branch, [REAL] coordinates in
    the exact one. *)
Definition position_of (fast : bool) (sg : SpaceGroup)
    (comps : list ScatteringComponent) (k j : nat) : Pos.t :=
  (if fast then pos_fast else pos_exact) k j (symmetricsCoords_of sg comps k j).

(** A position of the quantized branch and a position of the exact branch
    that are made from the same symmetric. *)
Definition same_symmetric (pF pE : Pos.t) : Prop :=
  exists k j c, pF = pos_fast k j c /\ pE = pos_exact k j c.

(** [vPos[vUniqueIndex[i]]] is the position of the symmetric of component
    [i] whose index is in [mvDistTableSq[i].mUniquePosSymmetryIndex]. *)
Definition unique_recorded (B : Branch) (i : nat) (sym : nat -> R * R * R)
    (st : Scan) : Prop :=
  vPos st !! nth i (vUniqueIndex st) 0%nat
  = Some (position B i sym (mUniquePosSymmetryIndex (hood_at (vTable st) i))).

(** The difference allowed between the squared distances of the two
    branches: [e(1+e)] times the sum of the squares of the row sums of the
    orthonormalisation matrix, with [e] three quanta. *)
Definition quantization_allowance (cell : UnitCell) : R :=
  3 * quantum * (1 + 3 * quantum)
  * (row_sum cell 0 * row_sum cell 0 + row_sum cell 1 * row_sum cell 1
     + row_sum cell 2 * row_sum cell 2).

(** The two branches push the same symmetrics on [vPos] and record the
    same ones as unique positions: their tests, one on truncated [long]
    values and the other on [REAL] values, have the same outcome on every
    symmetric of every component. *)
Definition same_retention (margin : R) (sg : SpaceGroup) (cell : UnitCell)
    (comps : list ScatteringComponent) : Prop :=
  forall k j, (k < length comps)%nat -> (j < GetNbSymmetrics sg)%nat ->
    retained (branch true (limits sg cell margin)) (useAsymUnit sg) k
      (symmetricsCoords_of sg comps k) j
    = retained (branch false (limits sg cell margin)) (useAsymUnit sg) k
        (symmetricsCoords_of sg comps k) j
    /\ marked (branch true (limits sg cell margin)) (useAsymUnit sg) k
         (symmetricsCoords_of sg comps k) j
       = marked (branch false (limits sg cell margin)) (useAsymUnit sg) k
           (symmetricsCoords_of sg comps k) j.

(** Two entries of a neighbour list that stand for the same symmetric of
    the same component, at squared distances that differ by at most [e]. *)
Definition close_neighbours (e : R) (a b : Neighbour.t) : Prop :=
  Neighbour.mNeighbourIndex a = Neighbour.mNeighbourIndex b
  /\ Neighbour.mNeighbourSymmetryIndex a = Neighbour.mNeighbourSymmetryIndex b
  /\ Rabs (Neighbour.mDist2 a - Neighbour.mDist2 b) <= e.

(** Further examples: an atom of P-1 just inside the margin of the
    asymmetric unit, and two atoms of different species at the same place
    in P1. *)
Definition comps_near_margin : list ScatteringComponent :=
  all_components [atom power_A 0.59999 0 0].


(** The crystal of A and B with a minimum distance and a reference length
    set for the pair: neither cost is switched off. *)
Definition crystal_AB_costs : Crystal :=
  AddBondValenceRo power_A power_B 2
    (SetBumpMergeDistance power_A power_B 3 crystal_AB).


(** * Properties *)

(** ** Elementary facts about the numeric primitives *)

Lemma Rltb_true (a b : R) : a < b -> Rltb a b = true.
Proof. intros H. unfold Rltb. destruct (Rlt_dec a b); [reflexivity | contradiction]. Qed.

Lemma Rltb_false (a b : R) : b <= a -> Rltb a b = false.
Proof. intros H. unfold Rltb. destruct (Rlt_dec a b); [lra | reflexivity]. Qed.

Lemma Rleb_true (a b : R) : a <= b -> Rleb a b = true.
Proof. intros H. unfold Rleb. destruct (Rle_dec a b); [reflexivity | contradiction]. Qed.

Lemma Rleb_false (a b : R) : b < a -> Rleb a b = false.
Proof. intros H. unfold Rleb. destruct (Rle_dec a b); [lra | reflexivity]. Qed.

Lemma Rltb_spec (a b : R) : Rltb a b = true <-> a < b.
Proof.
  unfold Rltb. destruct (Rlt_dec a b); split; intros; try assumption;
    try reflexivity; try discriminate; contradiction.
Qed.

Lemma Rleb_spec (a b : R) : Rleb a b = true <-> a <= b.
Proof.
  unfold Rleb. destruct (Rle_dec a b); split; intros; try assumption;
    try reflexivity; try discriminate; contradiction.
Qed.

(** Decide the comparisons of the goal whose outcome [lra] can tell. *)
Ltac Rcompare :=
  repeat match goal with
    | |- context [Rltb ?a ?b] =>
        first [ rewrite (Rltb_true a b) by lra | rewrite (Rltb_false a b) by lra ]
    | |- context [Rleb ?a ?b] =>
        first [ rewrite (Rleb_true a b) by lra | rewrite (Rleb_false a b) by lra ]
    end.

Lemma Int_part_IZR (k : Z) : Int_part (IZR k) = k.
Proof. symmetry. apply Int_part_spec. lra. Qed.

Lemma Rtrunc_IZR (k : Z) : Rtrunc (IZR k) = k.
Proof.
  unfold Rtrunc. destruct (Rle_dec 0 (IZR k)).
  - apply Int_part_IZR.
  - rewrite <- opp_IZR, Int_part_IZR. lia.
Qed.

(** [Rtrunc] rounds towards zero: it stays within one unit of its
    argument, on the side of zero. *)
Lemma Rtrunc_bounds (r : R) :
  (0 <= r -> IZR (Rtrunc r) <= r < IZR (Rtrunc r) + 1)
  /\ (r < 0 -> IZR (Rtrunc r) - 1 < r <= IZR (Rtrunc r)).
Proof.
  unfold Rtrunc. destruct (Rle_dec 0 r) as [Hr | Hr]; split; intros H; try lra.
  - destruct (base_Int_part r) as [H1 H2]. lra.
  - destruct (base_Int_part (- r)) as [H1 H2]. rewrite opp_IZR. lra.
Qed.

Lemma Rtrunc_error (r : R) : Rabs (r - IZR (Rtrunc r)) < 1.
Proof.
  destruct (Rtrunc_bounds r) as [Hp Hn].
  destruct (Rle_dec 0 r) as [H | H].
  - specialize (Hp H). apply Rabs_def1; lra.
  - assert (r < 0) as H' by lra. specialize (Hn H'). apply Rabs_def1; lra.
Qed.

Lemma modf_IZR (k : Z) : modf (IZR k) = 0.
Proof. unfold modf. rewrite Rtrunc_IZR. lra. Qed.


(** ** The clocks and the nested calls *)

Lemma scatterer_changed_false (s : Crystal) :
  Forall (fun sc => (GetClockScatterer sc <= mClockScattCompList s)%nat)
         (mScattererRegistry s) ->
  scatterer_changed s = false.
Proof.
  unfold scatterer_changed. induction 1 as [| sc l Hsc _ IH]; simpl.
  - reflexivity.
  - rewrite IH. apply Nat.ltb_ge in Hsc. rewrite Hsc. reflexivity.
Qed.

(** Unfold the accessors of a state built by the setters. *)
Ltac unfold_setters :=
  unfold ResetDynPopCorr in *;
  unfold Click_mClockScattCompList, Click_mDistTableClock, Click_mClockDynPopCorr,
    Click_mBumpMergeParClock, Click_mBumpMergeCostClock, Click_mBondValenceParClock,
    Click_mBondValenceCalcClock, Click_mBondValenceCostClock, Reset_mClockDynPopCorr,
    set_mScattCompList, set_mvDistTableSq, set_mvBumpMergePar, set_mBumpMergeCost,
    set_mvBondValenceRo, set_mvBondValenceCalc, set_mBondValenceCost in *;
  cbn [GetSpaceGroup asUnitCell GetClockMetricMatrix mScattererRegistry mClockMaster
       mMasterClockScatteringPower mUseDynPopCorr mScattCompList mClockScattCompList
       mvDistTableSq mDistTableClock mClockDynPopCorr mvBumpMergePar mBumpMergeParClock
       mBumpMergeCost mBumpMergeScale mBumpMergeCostClock mvBondValenceRo
       mBondValenceParClock mvBondValenceCalc mBondValenceCalcClock mBondValenceCost
       mBondValenceCostScale mBondValenceCostClock msTick] in *.

Ltac wf_intro H :=
  destruct H as (? & ? & ? & ? & ? & ? & ? & ? & ? & ? & ? & ?).

Ltac wf_split :=
  unfold clocks_wf; unfold_setters;
  repeat match goal with |- _ /\ _ => split end;
  try lia;
  try (eapply Forall_impl; [eassumption | cbn beta; intros; lia]).


Ltac frame_intro H :=
  destruct H as (? & ? & ? & ? & ? & ? & ? & ? & ? & ? & ? & ? & ? & ? & ? & ? & ? & ? & ?).

Lemma table_frame_refl (s : Crystal) : table_frame s s.
Proof. unfold table_frame. repeat split. Qed.

Lemma table_frame_trans (s1 s2 s3 : Crystal) :
  table_frame s1 s2 -> table_frame s2 s3 -> table_frame s1 s3.
Proof.
  intros H12 H23. frame_intro H12. frame_intro H23.
  unfold table_frame. repeat split; congruence.
Qed.

(** A fresh component list is returned as it is, by either of the two
    tests at the top of [GetScatteringComponentList]. *)
Lemma GetScatteringComponentList_fresh (fuel : nat) (s : Crystal) :
  compList_fresh s -> GetScatteringComponentList (S fuel) s = Some s.
Proof.
  intros [H | H]; simpl.
  - rewrite H. reflexivity.
  - rewrite H. destruct (mClockMaster s <? mClockScattCompList s)%nat; reflexivity.
Qed.

(** [CalcDistTable] once its call of [GetScatteringComponentList] has
    returned the state [s0]: it returns at once when the table is fresh,
    and otherwise builds the table and clicks its clock. *)
Lemma CalcDistTable_with_after (getSCL : Crystal -> option Crystal)
    (fast : bool) (m : R) (s s0 : Crystal) :
  getSCL s = Some s0 -> clocks_wf s0 -> compList_fresh s0 ->
  exists s1,
    CalcDistTable_with getSCL fast m s = Some s1
    /\ clocks_wf s1 /\ compList_fresh s1 /\ distTable_fresh s1
    /\ table_frame s0 s1
    /\ mScattCompList s1 = mScattCompList s0
    /\ mClockScattCompList s1 = mClockScattCompList s0
    /\ (msTick s0 <= msTick s1)%nat
    /\ ((s1 = s0 /\ distTable_fresh s0)
        \/ ((msTick s0 < mDistTableClock s1)%nat
            /\ mClockDynPopCorr s1 = mClockDynPopCorr s0
            /\ mvDistTableSq s1
               = build_table fast m (GetSpaceGroup s0) (asUnitCell s0)
                   (mScattCompList s0) (mvDistTableSq s0))).
Proof.
  intros Hget Hwf Hfresh. unfold CalcDistTable_with. rewrite Hget.
  destruct ((mClockScattCompList s0 <? mDistTableClock s0)%nat
            && (GetClockMetricMatrix s0 <? mDistTableClock s0)%nat)%bool eqn:Hchk.
  - apply andb_true_iff in Hchk as [H1 H2].
    apply Nat.ltb_lt in H1, H2.
    exists s0. split; [reflexivity |]. split; [exact Hwf |]. split; [exact Hfresh |].
    split; [split; assumption |]. split; [apply table_frame_refl |].
    do 2 (split; [reflexivity |]). split; [lia |].
    left. split; [reflexivity | split; assumption].
  - eexists. split; [reflexivity |]. wf_intro Hwf.
    split; [wf_split |].
    split; [destruct Hfresh as [Hf | Hf]; [left | right]; exact Hf |].
    split; [unfold distTable_fresh; unfold_setters; lia |].
    split; [unfold table_frame; unfold_setters; repeat split |].
    unfold_setters. repeat split; try lia.
    right. repeat split; lia.
Qed.

(** [CalcDynPopCorr] once the nested call of [GetScatteringComponentList]
    has returned [s0]. *)
Lemma CalcDynPopCorr_with_after (getSCL : Crystal -> option Crystal)
    (overlapDist mergeDist : R) (s s0 : Crystal) :
  getSCL s = Some s0 -> clocks_wf s0 -> compList_fresh s0 ->
  exists s1,
    CalcDynPopCorr_with getSCL overlapDist mergeDist s = Some s1
    /\ clocks_wf s1 /\ compList_fresh s1 /\ distTable_fresh s1
    /\ table_frame s0 s1
    /\ mClockScattCompList s1 = mClockScattCompList s0
    /\ (msTick s0 <= msTick s1)%nat.
Proof.
  intros Hget Hwf Hfresh.
  destruct (CalcDistTable_with_after getSCL true overlapDist s s0 Hget Hwf Hfresh)
    as (s1 & Hs1 & Hwf1 & Hf1 & Hd1 & Hfr1 & Hc1 & Hk1 & Ht1 & _).
  unfold CalcDynPopCorr_with. rewrite Hs1.
  destruct (mDistTableClock s1 <? mClockDynPopCorr s1)%nat.
  - exists s1. split; [reflexivity |]. repeat (split; [assumption |]). assumption.
  - eexists. split; [reflexivity |]. wf_intro Hwf1.
    split; [wf_split |].
    split; [destruct Hf1 as [Hf | Hf]; [left | right]; exact Hf |].
    split; [destruct Hd1; unfold distTable_fresh; unfold_setters; lia |].
    split; [frame_intro Hfr1; unfold table_frame; unfold_setters; repeat split; assumption |].
    unfold_setters. split; [assumption | lia].
Qed.

Lemma ResetDynPopCorr_props (s : Crystal) :
  clocks_wf s -> compList_fresh s ->
  clocks_wf (ResetDynPopCorr s) /\ compList_fresh (ResetDynPopCorr s)
  /\ table_frame s (ResetDynPopCorr s)
  /\ mClockScattCompList (ResetDynPopCorr s) = mClockScattCompList s
  /\ msTick (ResetDynPopCorr s) = msTick s.
Proof.
  intros Hwf Hf. wf_intro Hwf.
  split; [wf_split |].
  split; [destruct Hf as [Hf | Hf]; [left | right]; exact Hf |].
  split; [unfold table_frame; unfold_setters; repeat split |].
  split; reflexivity.
Qed.

(** [GetScatteringComponentList] comes to an end as soon as it may make
    one nested call, and leaves a fresh component list. *)
Lemma GetScatteringComponentList_ok (fuel : nat) (s : Crystal) :
  clocks_wf s ->
  exists s1,
    GetScatteringComponentList (S (S fuel)) s = Some s1
    /\ clocks_wf s1 /\ compList_fresh s1 /\ table_frame s s1
    /\ (msTick s <= msTick s1)%nat
    /\ ((s1 = s /\ compList_fresh s)
        \/ (msTick s < mClockScattCompList s1)%nat).
Proof.
  intros Hwf.
  change (GetScatteringComponentList (S (S fuel)) s)
    with (if (mClockMaster s <? mClockScattCompList s)%nat then Some s
          else if scatterer_changed s then
            let s1 :=
              Click_mClockScattCompList
                (set_mScattCompList
                   (concat (map scattCompList (mScattererRegistry s))) s) in
            if (mUseDynPopCorr s1 =? 1)%Z
            then CalcDynPopCorr_with (GetScatteringComponentList (S fuel)) 1 0.5 s1
            else Some (ResetDynPopCorr s1)
          else Some s).
  destruct (mClockMaster s <? mClockScattCompList s)%nat eqn:Hm.
  { exists s. split; [reflexivity |]. split; [assumption |].
    split; [left; assumption |]. split; [apply table_frame_refl |].
    split; [lia |]. left. split; [reflexivity | left; assumption]. }
  destruct (scatterer_changed s) eqn:Hch.
  2:{ exists s. split; [reflexivity |]. split; [assumption |].
      split; [right; assumption |]. split; [apply table_frame_refl |].
      split; [lia |]. left. split; [reflexivity | right; assumption]. }
  cbv zeta.
  set (s1 := Click_mClockScattCompList
               (set_mScattCompList
                  (concat (map scattCompList (mScattererRegistry s))) s)).
  assert (clocks_wf s1) as Hwf1 by (subst s1; wf_intro Hwf; wf_split).
  assert (compList_fresh s1) as Hf1.
  { right. apply scatterer_changed_false. subst s1. wf_intro Hwf. unfold_setters.
    eapply Forall_impl; [eassumption | cbn beta; intros; lia]. }
  assert (table_frame s s1) as Hfr1
      by (subst s1; unfold table_frame; unfold_setters; repeat split).
  assert (mClockScattCompList s1 = S (msTick s)) as Hc1 by reflexivity.
  assert (msTick s1 = S (msTick s)) as Hk1 by reflexivity.
  destruct (mUseDynPopCorr s1 =? 1)%Z.
  - destruct (CalcDynPopCorr_with_after (GetScatteringComponentList (S fuel)) 1 0.5
                s1 s1 (GetScatteringComponentList_fresh fuel s1 Hf1) Hwf1 Hf1)
      as (s2 & Hs2 & Hwf2 & Hf2 & _ & Hfr2 & Hc2 & Hk2).
    exists s2. split; [exact Hs2 |]. split; [exact Hwf2 |]. split; [exact Hf2 |].
    split; [exact (table_frame_trans _ _ _ Hfr1 Hfr2) |].
    split; [lia |]. right. lia.
  - destruct (ResetDynPopCorr_props s1 Hwf1 Hf1) as (Hwf2 & Hf2 & Hfr2 & Hc2 & Hk2).
    exists (ResetDynPopCorr s1). split; [reflexivity |].
    split; [exact Hwf2 |]. split; [exact Hf2 |].
    split; [exact (table_frame_trans _ _ _ Hfr1 Hfr2) |].
    split; [lia |]. right. lia.
Qed.

(** [CalcDistTable] comes to an end and leaves a fresh component list and
    a fresh distance table; either nothing was done, or the table was
    built during the call. *)
Lemma CalcDistTable_ok (fuel : nat) (fast : bool) (m : R) (s : Crystal) :
  clocks_wf s ->
  exists s1,
    CalcDistTable (S (S fuel)) fast m s = Some s1
    /\ clocks_wf s1 /\ compList_fresh s1 /\ distTable_fresh s1
    /\ table_frame s s1
    /\ (msTick s <= msTick s1)%nat
    /\ ((s1 = s /\ compList_fresh s /\ distTable_fresh s)
        \/ (msTick s < mDistTableClock s1)%nat).
Proof.
  intros Hwf.
  destruct (GetScatteringComponentList_ok fuel s Hwf)
    as (s0 & Hs0 & Hwf0 & Hf0 & Hfr0 & Hk0 & Hcase0).
  destruct (CalcDistTable_with_after (GetScatteringComponentList (S (S fuel)))
              fast m s s0 Hs0 Hwf0 Hf0)
    as (s1 & Hs1 & Hwf1 & Hf1 & Hd1 & Hfr1 & _ & Hc1 & Hk1 & Hcase1).
  exists s1. split; [exact Hs1 |]. split; [exact Hwf1 |]. split; [exact Hf1 |].
  split; [exact Hd1 |]. split; [eapply table_frame_trans; eassumption |].
  split; [lia |].
  destruct Hcase1 as [[-> Hd0] | [Hlt _]]; [| right; lia].
  destruct Hcase0 as [[-> Hfs] | Hlt]; [left; auto |].
  right. destruct Hd0. lia.
Qed.

(** ** Reading a cost twice *)

Lemma CalcDistTable_fresh (fuel : nat) (fast : bool) (m : R) (s : Crystal) :
  compList_fresh s -> distTable_fresh s ->
  CalcDistTable (S fuel) fast m s = Some s.
Proof.
  intros Hc [H1 H2]. unfold CalcDistTable, CalcDistTable_with.
  rewrite (GetScatteringComponentList_fresh fuel s Hc).
  apply Nat.ltb_lt in H1, H2. rewrite H1, H2. reflexivity.
Qed.

(** The first call of [GetBumpMergeCost]: it comes to an end, and unless
    the cost is switched off it leaves every cache it went through fresh
    and returns the cached cost times the scale. *)
Lemma GetBumpMergeCost_ok (fuel : nat) (s : Crystal) :
  clocks_wf s ->
  exists r s',
    GetBumpMergeCost (S (S fuel)) s = Some (r, s')
    /\ clocks_wf s'
    /\ mvBumpMergePar s' = mvBumpMergePar s
    /\ mBumpMergeScale s' = mBumpMergeScale s
    /\ (((size (mvBumpMergePar s) =? 0)%nat || Rltb (mBumpMergeScale s) 1e-5 = true
         /\ r = 0 /\ s' = s)
        \/ ((size (mvBumpMergePar s) =? 0)%nat || Rltb (mBumpMergeScale s) 1e-5 = false
            /\ compList_fresh s' /\ distTable_fresh s' /\ bumpMergeCost_fresh s'
            /\ r = mBumpMergeCost s' * mBumpMergeScale s')).
Proof.
  intros Hwf. unfold GetBumpMergeCost.
  destruct (size (mvBumpMergePar s) =? 0)%nat eqn:Hsz.
  { exists 0, s. split; [reflexivity |]. split; [assumption |].
    do 2 (split; [reflexivity |]). left. rewrite ?orb_true_r. auto. }
  destruct (Rltb (mBumpMergeScale s) 1e-5) eqn:Hsc.
  { exists 0, s. split; [reflexivity |]. split; [assumption |].
    do 2 (split; [reflexivity |]). left. rewrite ?orb_true_r. auto. }
  destruct (CalcDistTable_ok fuel true 3 s Hwf)
    as (s1 & Hs1 & Hwf1 & Hf1 & Hd1 & Hfr1 & Hk1 & _).
  rewrite Hs1. frame_intro Hfr1.
  destruct (bump_cache_valid s1) eqn:Hv.
  - exists (mBumpMergeCost s1 * mBumpMergeScale s1), s1.
    split; [reflexivity |]. split; [assumption |]. do 2 (split; [assumption |]).
    right. split; [reflexivity |]. do 2 (split; [assumption |]).
    split; [| reflexivity].
    unfold bump_cache_valid in Hv. apply andb_true_iff in Hv as [Ha Hb].
    apply Nat.ltb_lt in Ha, Hb. split; assumption.
  - eexists _, _. split; [reflexivity |]. wf_intro Hwf1.
    split; [wf_split |]. unfold_setters. do 2 (split; [assumption |]).
    right. split; [reflexivity |].
    split; [destruct Hf1 as [Hf | Hf]; [left | right]; exact Hf |].
    split; [exact Hd1 |].
    split; [unfold bumpMergeCost_fresh; unfold_setters; lia | reflexivity].
Qed.

Lemma GetBumpMergeCost_again (fuel : nat) (s : Crystal) :
  (size (mvBumpMergePar s) =? 0)%nat || Rltb (mBumpMergeScale s) 1e-5 = false ->
  compList_fresh s -> distTable_fresh s -> bumpMergeCost_fresh s ->
  GetBumpMergeCost (S fuel) s = Some (mBumpMergeCost s * mBumpMergeScale s, s).
Proof.
  intros Hon Hc Hd [H1 H2]. apply orb_false_iff in Hon as [Hsz Hsc].
  unfold GetBumpMergeCost. rewrite Hsz, Hsc, (CalcDistTable_fresh fuel true 3 s Hc Hd).
  unfold bump_cache_valid. apply Nat.ltb_lt in H1, H2. rewrite H1, H2. reflexivity.
Qed.

Lemma CalcBondValenceSum_ok (fuel : nat) (s : Crystal) :
  clocks_wf s ->
  (size (mvBondValenceRo s) =? 0)%nat = false ->
  exists s1,
    CalcBondValenceSum (S (S fuel)) s = Some s1
    /\ clocks_wf s1
    /\ compList_fresh s1 /\ distTable_fresh s1 /\ bondValenceCalc_fresh s1
    /\ mvBondValenceRo s1 = mvBondValenceRo s
    /\ mBondValenceCostScale s1 = mBondValenceCostScale s
    /\ mMasterClockScatteringPower s1 = mMasterClockScatteringPower s.
Proof.
  intros Hwf Hsz. unfold CalcBondValenceSum. rewrite Hsz.
  destruct (CalcDistTable_ok fuel true 5 s Hwf)
    as (s1 & Hs1 & Hwf1 & Hf1 & Hd1 & Hfr1 & Hk1 & _).
  rewrite Hs1. frame_intro Hfr1.
  destruct ((mDistTableClock s1 <? mBondValenceCalcClock s1)%nat
            && (mBondValenceParClock s1 <? mBondValenceCalcClock s1)%nat)%bool eqn:Hv.
  - exists s1. split; [reflexivity |]. do 3 (split; [assumption |]).
    apply andb_true_iff in Hv as [Ha Hb]. apply Nat.ltb_lt in Ha, Hb.
    split; [split; assumption |]. auto.
  - eexists. split; [reflexivity |]. wf_intro Hwf1.
    split; [wf_split |].
    split; [destruct Hf1 as [Hf | Hf]; [left | right]; exact Hf |].
    split; [exact Hd1 |].
    split; [unfold bondValenceCalc_fresh; unfold_setters; lia |].
    unfold_setters. auto.
Qed.

Lemma CalcBondValenceSum_fresh (fuel : nat) (s : Crystal) :
  compList_fresh s -> distTable_fresh s -> bondValenceCalc_fresh s ->
  CalcBondValenceSum (S fuel) s = Some s.
Proof.
  intros Hc Hd [H1 H2]. unfold CalcBondValenceSum.
  destruct (size (mvBondValenceRo s) =? 0)%nat; [reflexivity |].
  rewrite (CalcDistTable_fresh fuel true 5 s Hc Hd).
  apply Nat.ltb_lt in H1, H2. rewrite H1, H2. reflexivity.
Qed.

Lemma GetBondValenceCost_ok (fuel : nat) (s : Crystal) :
  clocks_wf s ->
  exists r s',
    GetBondValenceCost (S (S fuel)) s = Some (r, s')
    /\ clocks_wf s'
    /\ mvBondValenceRo s' = mvBondValenceRo s
    /\ mBondValenceCostScale s' = mBondValenceCostScale s
    /\ ((Rltb (mBondValenceCostScale s) 1e-5 = true /\ r = 0 /\ s' = s)
        \/ (Rltb (mBondValenceCostScale s) 1e-5 = false
            /\ (size (mvBondValenceRo s) =? 0)%nat = true
            /\ r = 0 * mBondValenceCostScale s /\ s' = set_mBondValenceCost 0 s)
        \/ (Rltb (mBondValenceCostScale s) 1e-5 = false
            /\ (size (mvBondValenceRo s) =? 0)%nat = false
            /\ compList_fresh s' /\ distTable_fresh s'
            /\ bondValenceCalc_fresh s' /\ bondValenceCost_fresh s'
            /\ r = mBondValenceCost s' * mBondValenceCostScale s')).
Proof.
  intros Hwf. unfold GetBondValenceCost.
  destruct (Rltb (mBondValenceCostScale s) 1e-5) eqn:Hsc.
  { exists 0, s. split; [reflexivity |]. split; [assumption |].
    do 2 (split; [reflexivity |]). left. rewrite ?orb_true_r. auto. }
  destruct (size (mvBondValenceRo s) =? 0)%nat eqn:Hsz.
  { eexists _, _. split; [reflexivity |]. wf_intro Hwf. split; [wf_split |].
    unfold_setters. do 2 (split; [reflexivity |]). right. left. auto. }
  destruct (CalcBondValenceSum_ok fuel s Hwf Hsz)
    as (s1 & Hs1 & Hwf1 & Hf1 & Hd1 & Hb1 & Hro1 & Hscale1 & Hm1).
  rewrite Hs1.
  destruct ((mBondValenceCalcClock s1 <? mBondValenceCostClock s1)%nat
            && (mMasterClockScatteringPower s1 <? mBondValenceCostClock s1)%nat)%bool
    eqn:Hv.
  - eexists _, s1. split; [reflexivity |]. do 3 (split; [assumption |]).
    right. right. do 5 (split; [first [reflexivity | assumption] |]).
    apply andb_true_iff in Hv as [Ha Hb]. apply Nat.ltb_lt in Ha, Hb.
    split; [split; assumption | reflexivity].
  - eexists _, _. split; [reflexivity |]. wf_intro Hwf1.
    split; [wf_split |]. unfold_setters. do 2 (split; [assumption |]).
    right. right. do 2 (split; [reflexivity |]).
    split; [destruct Hf1 as [Hf | Hf]; [left | right]; exact Hf |].
    split; [exact Hd1 |].
    split; [exact Hb1 |].
    split; [unfold bondValenceCost_fresh; unfold_setters; lia | reflexivity].
Qed.

Lemma GetBondValenceCost_again (fuel : nat) (s : Crystal) :
  Rltb (mBondValenceCostScale s) 1e-5 = false ->
  (size (mvBondValenceRo s) =? 0)%nat = false ->
  compList_fresh s -> distTable_fresh s ->
  bondValenceCalc_fresh s -> bondValenceCost_fresh s ->
  GetBondValenceCost (S fuel) s
  = Some (mBondValenceCost s * mBondValenceCostScale s, s).
Proof.
  intros Hsc Hsz Hc Hd Hb [H1 H2].
  unfold GetBondValenceCost.
  rewrite Hsc, Hsz, (CalcBondValenceSum_fresh fuel s Hc Hd Hb).
  apply Nat.ltb_lt in H1, H2. rewrite H1, H2. reflexivity.
Qed.

Lemma new_crystal_wf (sg : SpaceGroup) (cell : UnitCell) (l : list Scatterer) :
  Forall (fun sc => (GetClockScatterer sc <= 1)%nat) l ->
  clocks_wf (new_crystal sg cell l).
Proof.
  intros H. unfold clocks_wf, new_crystal. cbn.
  repeat match goal with |- _ /\ _ => split end; try lia. exact H.
Qed.

Lemma AddBondValenceRo_wf (p1 p2 : ScatteringPower) (ro : R) (s : Crystal) :
  clocks_wf s -> clocks_wf (AddBondValenceRo p1 p2 ro s).
Proof. intros Hwf. wf_intro Hwf. unfold AddBondValenceRo. wf_split. Qed.

Lemma SetBumpMergeDistance_wf (p1 p2 : ScatteringPower) (d : R) (s : Crystal) :
  clocks_wf s -> clocks_wf (SetBumpMergeDistance p1 p2 d s).
Proof.
  intros Hwf. wf_intro Hwf. unfold SetBumpMergeDistance, SetBumpMergeDistance4.
  destruct (spAddress p1 =? spAddress p2)%Z; wf_split.
Qed.

Lemma crystal_AB_costs_wf : clocks_wf crystal_AB_costs.
Proof.
  apply AddBondValenceRo_wf, SetBumpMergeDistance_wf, new_crystal_wf.
  repeat constructor.
Qed.

(** In [crystal_AB_costs] neither cost is switched off. *)
Lemma crystal_AB_costs_on :
  ((size (mvBumpMergePar crystal_AB_costs) =? 0)%nat
   || Rltb (mBumpMergeScale crystal_AB_costs) 1e-5)%bool = false
  /\ (Rltb (mBondValenceCostScale crystal_AB_costs) 1e-5
      || (size (mvBondValenceRo crystal_AB_costs) =? 0)%nat)%bool = false.
Proof.
  assert (mvBumpMergePar crystal_AB_costs
          = <[(4096%Z, 8192%Z) := BumpMergePar.make 3 false]> ∅) as -> by reflexivity.
  assert (mvBondValenceRo crystal_AB_costs = <[(4096%Z, 8192%Z) := 2]> ∅) as ->
      by reflexivity.
  change (mBumpMergeScale crystal_AB_costs) with 1.
  change (mBondValenceCostScale crystal_AB_costs) with 1.
  rewrite !map_size_insert, !lookup_empty, !(Rltb_false 1 1e-5) by lra.
  split; reflexivity.
Qed.

(** C9. Reading a cost twice in a row: the second call of
    [GetBumpMergeCost] (of [GetBondValenceCost]) returns the same value as
    the first and leaves the state, with all its clocks and the global
    counter of the clicks, exactly as the first call left it, so nothing is
    computed again; unless the cost is switched off, the component list,
    the distance table, the valence sums and the cost are then all newer
    than what they depend on. *)
Theorem cost_getters_idempotent (fuel : nat) (s : Crystal) :
  clocks_wf s -> (2 <= fuel)%nat ->
  (exists r s',
      GetBumpMergeCost fuel s = Some (r, s')
      /\ GetBumpMergeCost fuel s' = Some (r, s')
      /\ ((size (mvBumpMergePar s) =? 0)%nat || Rltb (mBumpMergeScale s) 1e-5 = true
          \/ (compList_fresh s' /\ distTable_fresh s' /\ bumpMergeCost_fresh s')))
  /\ (exists r s',
      GetBondValenceCost fuel s = Some (r, s')
      /\ GetBondValenceCost fuel s' = Some (r, s')
      /\ (Rltb (mBondValenceCostScale s) 1e-5
          || (size (mvBondValenceRo s) =? 0)%nat = true
          \/ (compList_fresh s' /\ distTable_fresh s'
              /\ bondValenceCalc_fresh s' /\ bondValenceCost_fresh s'))).
Proof.
  intros Hwf Hfuel.
  destruct fuel as [| [| fuel]]; [lia | lia | clear Hfuel].
  split.
  - destruct (GetBumpMergeCost_ok fuel s Hwf)
      as (r & s' & Hfirst & _ & Hpar & Hscale & Hcase).
    exists r, s'. split; [exact Hfirst |].
    destruct Hcase as [(Hoff & -> & ->) | (Hon & Hc & Hd & Hb & ->)].
    + split; [exact Hfirst | left; exact Hoff].
    + split; [| right; auto].
      apply GetBumpMergeCost_again; try assumption.
      rewrite Hpar, Hscale. exact Hon.
  - destruct (GetBondValenceCost_ok fuel s Hwf)
      as (r & s' & Hfirst & _ & Hro & Hscale & Hcase).
    exists r, s'. split; [exact Hfirst |].
    destruct Hcase as [(Hoff & -> & ->)
                      | [(Hsc & Hsz & -> & ->)
                        | (Hsc & Hsz & Hc & Hd & Hb & Hb' & ->)]].
    + split; [exact Hfirst | left; rewrite Hoff; reflexivity].
    + split; [| left; rewrite Hsz; apply orb_true_r].
      unfold GetBondValenceCost. unfold_setters. rewrite Hsc, Hsz. reflexivity.
    + split; [| right; auto].
      apply GetBondValenceCost_again; try assumption; congruence.
Qed.

Lemma cost_getters_idempotent_witness :
  clocks_wf crystal_AB_costs /\ (2 <= 2)%nat
  /\ (exists r s',
      GetBumpMergeCost 2 crystal_AB_costs = Some (r, s')
      /\ GetBumpMergeCost 2 s' = Some (r, s')
      /\ compList_fresh s' /\ distTable_fresh s' /\ bumpMergeCost_fresh s')
  /\ (exists r s',
      GetBondValenceCost 2 crystal_AB_costs = Some (r, s')
      /\ GetBondValenceCost 2 s' = Some (r, s')
      /\ compList_fresh s' /\ distTable_fresh s'
      /\ bondValenceCalc_fresh s' /\ bondValenceCost_fresh s').
Proof.
  split; [exact crystal_AB_costs_wf |]. split; [lia |].
  destruct crystal_AB_costs_on as [Hb Hv].
  destruct (cost_getters_idempotent 2 _ crystal_AB_costs_wf (le_n 2))
    as [(r & s' & H1 & H2 & H3) (r' & s'' & H4 & H5 & H6)].
  split.
  - exists r, s'. split; [exact H1 |]. split; [exact H2 |].
    destruct H3 as [H3 | H3]; [| exact H3].
    rewrite Hb in H3. discriminate.
  - exists r', s''. split; [exact H4 |]. split; [exact H5 |].
    destruct H6 as [H6 | H6]; [| exact H6].
    rewrite Hv in H6. discriminate.
Defined.

(** ** [GetLogLikelihood] *)



(** ** [GetMinDistanceTable] *)

Lemma mat_set_same (m : CrystMatrix_REAL) (i j : nat) (v : R) :
  mat_set m i j v i j = v.
Proof. unfold mat_set. rewrite !Nat.eqb_refl. reflexivity. Qed.

Lemma mat_set_other (m : CrystMatrix_REAL) (i j a b : nat) (v : R) :
  (a, b) <> (i, j) -> mat_set m i j v a b = m a b.
Proof.
  intros H. unfold mat_set.
  destruct (Nat.eqb_spec a i) as [-> |]; [| reflexivity].
  destruct (Nat.eqb_spec b j) as [-> |]; [| reflexivity].
  contradiction H; reflexivity.
Qed.

Lemma fold_left_seq_S {A : Type} (f : A -> nat -> A) (n : nat) (a : A) :
  fold_left f (seq 0 (S n)) a = f (fold_left f (seq 0 n) a) n.
Proof. rewrite seq_S, fold_left_app. reflexivity. Qed.

(** The loop over the neighbours of component [i] only touches row [i],
    and leaves in column [b] the lowest accepted squared distance to
    component [b]. *)
Lemma minDist_neighbours_spec (min : R) (i : nat) (nh : NeighbourHood)
    (l : list Neighbour.t) (m : CrystMatrix_REAL) (a b : nat) :
  fold_left (minDist_step min i nh) l m a b
  = if (a =? i)%nat then lowest min nh b l (m a b) else m a b.
Proof.
  revert m. induction l as [| pos l IH]; intros m.
  - simpl. destruct (a =? i)%nat; reflexivity.
  - cbn [fold_left]. rewrite IH. unfold lowest. cbn [fold_left].
    destruct (Nat.eqb_spec a i) as [-> | Hai].
    + f_equal. unfold minDist_step. fold (accepted min nh pos).
      destruct (Nat.eqb_spec (Neighbour.mNeighbourIndex pos) b) as [<- | Hb].
      * destruct (Rltb (Neighbour.mDist2 pos) (m i (Neighbour.mNeighbourIndex pos))),
          (accepted min nh pos); cbn [andb]; try reflexivity.
        apply mat_set_same.
      * cbn [andb].
        destruct (Rltb (Neighbour.mDist2 pos)
                       (m i (Neighbour.mNeighbourIndex pos)) && accepted min nh pos)%bool;
          [| reflexivity].
        apply mat_set_other. congruence.
    + unfold minDist_step.
      match goal with |- (if ?c then _ else _) a b = _ => destruct c end;
        [| reflexivity].
      apply mat_set_other. congruence.
Qed.

Lemma minDist_rows_spec (min : R) (tbl : list NeighbourHood) (n : nat)
    (m : CrystMatrix_REAL) (a b : nat) :
  fold_left (minDist_row min tbl) (seq 0 n) m a b
  = if (a <? n)%nat
    then lowest min (hood_at tbl a) b (mvNeighbour (hood_at tbl a)) (m a b)
    else m a b.
Proof.
  induction n as [| n IH].
  - reflexivity.
  - rewrite fold_left_seq_S. unfold minDist_row at 1.
    rewrite minDist_neighbours_spec, IH.
    destruct (Nat.eqb_spec a n) as [-> | Han].
    + rewrite Nat.ltb_irrefl.
      replace (n <? S n)%nat with true by (symmetry; apply Nat.ltb_lt; lia).
      reflexivity.
    + destruct (Nat.ltb_spec a n), (Nat.ltb_spec a (S n)); try lia; reflexivity.
Qed.

(** One step of the second loop: the entries [(i,j)] and [(j,i)] receive
    the finished value of entry [(i,j)], the others stay. *)
Lemma minDist_finish_spec (i j : nat) (m : CrystMatrix_REAL) (a b : nat) :
  minDist_finish i m j a b
  = if (((a =? i) && (b =? j)) || ((a =? j) && (b =? i)))%nat%bool
    then finished (m i j) else m a b.
Proof.
  unfold minDist_finish, finished.
  assert (forall m1 : CrystMatrix_REAL,
             mat_set (mat_set m1 i j (sqrt (m1 i j))) j i
               (mat_set m1 i j (sqrt (m1 i j)) i j) a b
             = if (((a =? i) && (b =? j)) || ((a =? j) && (b =? i)))%nat%bool
               then sqrt (m1 i j) else m1 a b) as Hset.
  { intros m1. rewrite mat_set_same. unfold mat_set.
    destruct (a =? i)%nat, (b =? j)%nat, (a =? j)%nat, (b =? i)%nat; reflexivity. }
  rewrite Hset. clear Hset.
  destruct (Rltb 9999 (m i j)) eqn:Hbig.
  - rewrite mat_set_same.
    destruct (((a =? i) && (b =? j)) || ((a =? j) && (b =? i)))%nat%bool eqn:Hab;
      [reflexivity |].
    apply mat_set_other. intros Heq. injection Heq as -> ->.
    rewrite !Nat.eqb_refl in Hab. discriminate.
  - reflexivity.
Qed.

Lemma minDist_finish_row_spec (i k : nat) (m : CrystMatrix_REAL) (a b : nat) :
  (k <= S i)%nat ->
  fold_left (minDist_finish i) (seq 0 k) m a b
  = if (((a =? i) && (b <? k)) || ((b =? i) && (a <? k)))%nat%bool
    then finished (m (Nat.max a b) (Nat.min a b)) else m a b.
Proof.
  revert a b. induction k as [| k IH]; intros a b Hk.
  - cbn [seq fold_left].
    assert (forall x, (x <? 0)%nat = false) as H0 by (intros; apply Nat.ltb_ge; lia).
    rewrite !H0, !andb_false_r. reflexivity.
  - rewrite fold_left_seq_S, minDist_finish_spec, !IH by lia.
    repeat match goal with
      | |- context [(?x =? ?y)%nat] => destruct (Nat.eqb_spec x y)
      | |- context [(?x <? ?y)%nat] => destruct (Nat.ltb_spec x y)
      end;
      cbn [andb orb]; try reflexivity; try (exfalso; lia);
      f_equal; f_equal; lia.
Qed.

Lemma minDist_finish_rows_spec (n : nat) (m : CrystMatrix_REAL) (a b : nat) :
  fold_left minDist_finish_row (seq 0 n) m a b
  = if ((a <? n) && (b <? n))%nat%bool
    then finished (m (Nat.max a b) (Nat.min a b)) else m a b.
Proof.
  revert a b. induction n as [| n IH]; intros a b.
  - cbn [seq fold_left].
    assert (forall x, (x <? 0)%nat = false) as H0 by (intros; apply Nat.ltb_ge; lia).
    rewrite !H0. reflexivity.
  - rewrite fold_left_seq_S. unfold minDist_finish_row at 1.
    rewrite minDist_finish_row_spec, !IH by lia.
    repeat match goal with
      | |- context [(?x =? ?y)%nat] => destruct (Nat.eqb_spec x y)
      | |- context [(?x <? ?y)%nat] => destruct (Nat.ltb_spec x y)
      end;
      cbn [andb orb]; try reflexivity; try (exfalso; lia).
Qed.

(** Every entry of the matrix returned by [GetMinDistanceTable]: the
    finished value of the lowest accepted squared distance recorded in the
    row of the larger index for the smaller index. *)
Lemma minDistTable_of_spec (minDistance : R) (tbl : list NeighbourHood)
    (n a b : nat) :
  (a < n)%nat -> (b < n)%nat ->
  minDistTable_of minDistance tbl n a b
  = finished (lowest (min_of minDistance) (hood_at tbl (Nat.max a b)) (Nat.min a b)
                (mvNeighbour (hood_at tbl (Nat.max a b))) 10000).
Proof.
  intros Ha Hb. unfold minDistTable_of. fold (min_of minDistance).
  rewrite minDist_finish_rows_spec.
  apply Nat.ltb_lt in Ha as Ha', Hb as Hb'. rewrite Ha', Hb'. cbn [andb].
  rewrite minDist_rows_spec.
  replace (Nat.max a b <? n)%nat with true by (symmetry; apply Nat.ltb_lt; lia).
  reflexivity.
Qed.

Lemma minDistTable_of_sym (minDistance : R) (tbl : list NeighbourHood)
    (n a b : nat) :
  (a < n)%nat -> (b < n)%nat ->
  minDistTable_of minDistance tbl n a b = minDistTable_of minDistance tbl n b a.
Proof.
  intros Ha Hb. rewrite !minDistTable_of_spec by assumption.
  rewrite (Nat.max_comm b a), (Nat.min_comm b a). reflexivity.
Qed.

(** An entry stays where it is when no neighbour lowers it. *)
Lemma lowest_unchanged (min : R) (nh : NeighbourHood) (k : nat)
    (l : list Neighbour.t) (v : R) :
  Forall (fun pos =>
            Neighbour.mNeighbourIndex pos = k ->
            accepted min nh pos = false \/ v <= Neighbour.mDist2 pos) l ->
  lowest min nh k l v = v.
Proof.
  unfold lowest. induction 1 as [| pos l Hpos _ IH]; cbn [fold_left].
  - reflexivity.
  - destruct (Nat.eqb_spec (Neighbour.mNeighbourIndex pos) k) as [Hk | Hk];
      cbn [andb]; [| exact IH].
    destruct (Hpos Hk) as [Hacc | Hfar].
    + rewrite Hacc, andb_false_r. exact IH.
    + rewrite (Rltb_false _ _ Hfar). exact IH.
Qed.

Lemma finished_sentinel : finished 10000 = 0.
Proof. unfold finished. rewrite Rltb_true by lra. apply sqrt_0. Qed.

(** The lowest accepted squared distance: it is not above the starting
    value nor above any accepted contact, and it is the starting value or
    the squared distance of an accepted contact. *)
Lemma lowest_spec (min : R) (nh : NeighbourHood) (k : nat)
    (l : list Neighbour.t) (v : R) :
  lowest min nh k l v <= v
  /\ (forall pos, In pos l -> Neighbour.mNeighbourIndex pos = k ->
        accepted min nh pos = true ->
        lowest min nh k l v <= Neighbour.mDist2 pos)
  /\ (lowest min nh k l v = v
      \/ exists pos, In pos l /\ Neighbour.mNeighbourIndex pos = k
                     /\ accepted min nh pos = true
                     /\ lowest min nh k l v = Neighbour.mDist2 pos).
Proof.
  revert v. induction l as [| p l IH]; intros v.
  { cbn. split; [lra |]. split; [intros pos [] | left; reflexivity]. }
  unfold lowest. cbn [fold_left].
  set (v1 := if ((Neighbour.mNeighbourIndex p =? k)%nat
                 && Rltb (Neighbour.mDist2 p) v && accepted min nh p)%bool
             then Neighbour.mDist2 p else v).
  fold (lowest min nh k l v1).
  destruct (IH v1) as (I1 & I2 & I3).
  assert (v1 <= v
          /\ (Neighbour.mNeighbourIndex p = k -> accepted min nh p = true ->
              v1 <= Neighbour.mDist2 p)
          /\ (v1 = v
              \/ (Neighbour.mNeighbourIndex p = k /\ accepted min nh p = true
                  /\ v1 = Neighbour.mDist2 p))) as (V1 & V2 & V3).
  { subst v1. destruct (Nat.eqb_spec (Neighbour.mNeighbourIndex p) k) as [Hk | Hk];
      cbn [andb]; [| split; [lra | split; [contradiction | left; reflexivity]]].
    destruct (Rltb (Neighbour.mDist2 p) v) eqn:Hlt; cbn [andb].
    - apply Rltb_spec in Hlt.
      destruct (accepted min nh p) eqn:Ha.
      + split; [lra |]. split; [intros; lra |]. right. auto.
      + split; [lra |]. split; [intros _ [=] | left; reflexivity].
    - assert (v <= Neighbour.mDist2 p) as Hge.
      { destruct (Rlt_dec (Neighbour.mDist2 p) v) as [H | H]; [| lra].
        rewrite (Rltb_true _ _ H) in Hlt. discriminate. }
      split; [lra |]. split; [intros; exact Hge | left; reflexivity]. }
  split; [lra |].
  split.
  { intros pos [<- | Hin] Hk Ha.
    - specialize (V2 Hk Ha). lra.
    - apply I2; assumption. }
  destruct I3 as [I3 | (pos & Hin & Hk & Ha & Heq)].
  - rewrite I3. destruct V3 as [V3 | (Hk & Ha & V3)]; [left; exact V3 |].
    right. exists p. split; [left; reflexivity |]. auto.
  - right. exists pos. split; [right; exact Hin |]. auto.
Qed.

Lemma finished_range (v : R) : 0 <= finished v < 100.
Proof.
  unfold finished. split; [apply sqrt_pos |].
  replace 100 with (sqrt 10000) by (apply sqrt_lem_1; lra).
  destruct (Rltb 9999 v) eqn:H.
  - rewrite sqrt_0. apply sqrt_lt_R0. lra.
  - assert (v <= 9999) as Hv.
    { destruct (Rlt_dec 9999 v) as [H' | H']; [| lra].
      rewrite (Rltb_true _ _ H') in H. discriminate. }
    destruct (Rle_dec 0 v) as [Hp | Hn].
    + apply sqrt_lt_1_alt. lra.
    + rewrite sqrt_neg_0 by lra. apply sqrt_lt_R0. lra.
Qed.

Lemma GetMinDistanceTable_ok (defaultMargin : R) (fuel : nat) (minDistance : R)
    (s : Crystal) :
  clocks_wf s ->
  exists s',
    GetMinDistanceTable defaultMargin (S (S fuel)) minDistance s
    = Some (minDistTable_of minDistance (mvDistTableSq s') (length (mScattCompList s')),
            length (mScattCompList s'), s')
    /\ CalcDistTable (S (S fuel)) true defaultMargin s = Some s'.
Proof.
  intros Hwf. unfold GetMinDistanceTable.
  destruct (CalcDistTable_ok fuel true defaultMargin s Hwf) as (s1 & Hs1 & _).
  rewrite Hs1. exists s1. split; reflexivity.
Qed.

(** ** The first read of a new crystal *)

Lemma new_crystal_changed (sg : SpaceGroup) (cell : UnitCell) (sc : Scatterer)
    (l : list Scatterer) :
  GetClockScatterer sc = 1%nat ->
  scatterer_changed (new_crystal sg cell (sc :: l)) = true.
Proof. intros H. unfold scatterer_changed. cbn. rewrite H. reflexivity. Qed.

Lemma GetScatteringComponentList_new (sg : SpaceGroup) (cell : UnitCell)
    (sc : Scatterer) (l : list Scatterer) :
  GetClockScatterer sc = 1%nat ->
  GetScatteringComponentList 2 (new_crystal sg cell (sc :: l))
  = Some (after_first_read sg cell (sc :: l)).
Proof.
  intros Hsc.
  change (GetScatteringComponentList 2 (new_crystal sg cell (sc :: l)))
    with (if scatterer_changed (new_crystal sg cell (sc :: l))
          then CalcDynPopCorr_with (GetScatteringComponentList 1) 1 0.5
                 (Click_mClockScattCompList
                    (set_mScattCompList (all_components (sc :: l))
                       (new_crystal sg cell (sc :: l))))
          else Some (new_crystal sg cell (sc :: l))).
  rewrite new_crystal_changed by exact Hsc.
  reflexivity.
Qed.

Lemma after_first_read_fresh (sg : SpaceGroup) (cell : UnitCell)
    (l : list Scatterer) :
  compList_fresh (after_first_read sg cell l)
  /\ distTable_fresh (after_first_read sg cell l).
Proof.
  split; [left; reflexivity |].
  unfold distTable_fresh, after_first_read. cbn. lia.
Qed.

Lemma DynPopCorr_component_length (o m : R) (tbl : list NeighbourHood)
    (comps : list ScatteringComponent) (i : nat) :
  length (DynPopCorr_component o m tbl comps i) = length comps.
Proof.
  unfold DynPopCorr_component.
  destruct (mpScattPow (comp_at comps i)); apply length_alter.
Qed.

Lemma DynPopCorr_loop_length (o m : R) (tbl : list NeighbourHood)
    (comps : list ScatteringComponent) :
  length (DynPopCorr_loop o m tbl comps) = length comps.
Proof.
  unfold DynPopCorr_loop. generalize (seq 0 (length comps)) as l.
  intros l. revert comps. induction l as [| i l IH]; intros comps; cbn [fold_left].
  - reflexivity.
  - rewrite IH. apply DynPopCorr_component_length.
Qed.

(** The matrix [GetMinDistanceTable] returns for a new crystal. *)
Lemma GetMinDistanceTable_new (defaultMargin minDistance : R) (sg : SpaceGroup)
    (cell : UnitCell) (sc : Scatterer) (l : list Scatterer) :
  GetClockScatterer sc = 1%nat ->
  GetMinDistanceTable defaultMargin 2 minDistance (new_crystal sg cell (sc :: l))
  = Some (minDistTable_of minDistance (first_table sg cell (sc :: l))
            (length (all_components (sc :: l))),
          length (all_components (sc :: l)),
          after_first_read sg cell (sc :: l)).
Proof.
  intros Hsc. unfold GetMinDistanceTable, CalcDistTable, CalcDistTable_with.
  rewrite GetScatteringComponentList_new by exact Hsc.
  cbn [mClockScattCompList mDistTableClock GetClockMetricMatrix after_first_read
       Nat.ltb Nat.leb andb mvDistTableSq mScattCompList].
  rewrite DynPopCorr_loop_length. reflexivity.
Qed.

(** ** The first loop nest of [CalcDistTable] *)

Lemma hood_at_alter_same (f : NeighbourHood -> NeighbourHood)
    (tbl : list NeighbourHood) (i : nat) :
  (i < length tbl)%nat -> hood_at (alter f i tbl) i = f (hood_at tbl i).
Proof.
  intros Hi. unfold hood_at.
  destruct (lookup_lt_is_Some_2 tbl i Hi) as [nh Hnh].
  rewrite (nth_lookup_Some _ _ _ _ Hnh).
  apply nth_lookup_Some. rewrite list_lookup_alter_eq, Hnh. reflexivity.
Qed.

Lemma hood_at_alter_other (f : NeighbourHood -> NeighbourHood)
    (tbl : list NeighbourHood) (i k : nat) :
  i <> k -> hood_at (alter f i tbl) k = hood_at tbl k.
Proof.
  intros Hik. unfold hood_at. rewrite !nth_lookup.
  rewrite list_lookup_alter_ne by exact Hik. reflexivity.
Qed.

Lemma hood_at_alter_ge (f : NeighbourHood -> NeighbourHood)
    (tbl : list NeighbourHood) (i : nat) :
  (length tbl <= i)%nat -> hood_at (alter f i tbl) i = hood_at tbl i.
Proof.
  intros Hi. unfold hood_at. rewrite !nth_lookup, list_lookup_alter_eq.
  rewrite (lookup_ge_None_2 tbl i Hi). reflexivity.
Qed.

(** One step of the loop over the symmetrics, in closed form. *)
Lemma scan_step_spec (B : Branch) (useAU : bool) (i : nat)
    (sym : nat -> R * R * R) (st : Scan) (j : nat) :
  scan_step B useAU i sym st j
  = mkScan
      (vPos st ++ (if retained B useAU i sym j then [position B i sym j] else []))
      (if marked B useAU i sym j
       then <[i := length (vPos st)]> (vUniqueIndex st) else vUniqueIndex st)
      (if marked B useAU i sym j
       then alter (set_mUniquePosSymmetryIndex j) i (vTable st) else vTable st).
Proof.
  unfold scan_step, retained, marked, position, mark_unique, push_back.
  destruct useAU; cbn [vPos vUniqueIndex vTable].
  - destruct (near B (mkpos B i j (sym j))); cbn [andb].
    + destruct (strict B (mkpos B i j (sym j))); cbn [vPos vUniqueIndex vTable].
      * rewrite length_app. cbn [length].
        replace (length (vPos st) + 1 - 1)%nat with (length (vPos st)) by lia.
        reflexivity.
      * reflexivity.
    + destruct st. cbn. rewrite app_nil_r. reflexivity.
  - rewrite length_app. cbn [length].
    replace (length (vPos st) + 1 - 1)%nat with (length (vPos st)) by lia.
    reflexivity.
Qed.

(** The loop over the symmetrics of component [i]: what it leaves in
    [mvDistTableSq] and in [vPos]. *)
Lemma scan_symmetrics_spec (B : Branch) (useAU : bool) (i : nat)
    (sym : nat -> R * R * R) (l : list nat) (st : Scan) :
  (i < length (vTable st))%nat ->
  let st' := fold_left (scan_step B useAU i sym) l st in
  length (vTable st') = length (vTable st)
  /\ length (vUniqueIndex st') = length (vUniqueIndex st)
  /\ vPos st' = vPos st
                 ++ map (position B i sym) (List.filter (retained B useAU i sym) l)
  /\ mUniquePosSymmetryIndex (hood_at (vTable st') i)
     = last_such (marked B useAU i sym) l
         (mUniquePosSymmetryIndex (hood_at (vTable st) i))
  /\ mIndex (hood_at (vTable st') i) = mIndex (hood_at (vTable st) i)
  /\ mvNeighbour (hood_at (vTable st') i) = mvNeighbour (hood_at (vTable st) i)
  /\ (forall k, k <> i -> hood_at (vTable st') k = hood_at (vTable st) k)
  /\ (forall k, k <> i -> nth k (vUniqueIndex st') 0%nat = nth k (vUniqueIndex st) 0%nat).
Proof.
  revert st. induction l as [| j l IH]; intros st Hi; cbn zeta.
  - cbn [fold_left List.filter map last_such]. rewrite app_nil_r. repeat split.
  - cbn [fold_left]. rewrite scan_step_spec.
    set (st1 := mkScan _ _ _).
    assert (length (vTable st1) = length (vTable st)) as Hlen.
    { subst st1. cbn [vTable]. destruct (marked B useAU i sym j);
        [apply length_alter | reflexivity]. }
    specialize (IH st1). cbv zeta in IH.
    destruct IH as (H1 & H2 & H3 & H4 & H5 & H6 & H7 & H8); [lia |].
    split; [lia |].
    split.
    { rewrite H2. subst st1. cbn [vUniqueIndex]. destruct (marked B useAU i sym j);
        [apply length_insert | reflexivity]. }
    split.
    { rewrite H3. subst st1. cbn [vPos List.filter]. rewrite <- app_assoc. f_equal.
      destruct (retained B useAU i sym j); reflexivity. }
    split.
    { rewrite H4. unfold last_such. cbn [fold_left]. f_equal.
      subst st1. cbn [vTable]. destruct (marked B useAU i sym j); [| reflexivity].
      rewrite hood_at_alter_same by exact Hi. reflexivity. }
    split.
    { rewrite H5. subst st1. cbn [vTable]. destruct (marked B useAU i sym j);
        [| reflexivity].
      rewrite hood_at_alter_same by exact Hi. reflexivity. }
    split.
    { rewrite H6. subst st1. cbn [vTable]. destruct (marked B useAU i sym j);
        [| reflexivity].
      rewrite hood_at_alter_same by exact Hi. reflexivity. }
    split.
    { intros k Hk. rewrite (H7 k Hk). subst st1. cbn [vTable].
      destruct (marked B useAU i sym j); [| reflexivity].
      apply hood_at_alter_other. congruence. }
    { intros k Hk. rewrite (H8 k Hk). subst st1. cbn [vUniqueIndex].
      destruct (marked B useAU i sym j); [| reflexivity].
      rewrite !nth_lookup, list_lookup_insert_ne by congruence. reflexivity. }
Qed.

Lemma scan_component_spec (B : Branch) (useAU : bool) (sg : SpaceGroup)
    (i : nat) (c : ScatteringComponent) (st : Scan) :
  (i < length (vTable st))%nat ->
  let sym := GetAllSymmetrics sg (mX c) (mY c) (mZ c) in
  let st' := scan_component B useAU sg i c st in
  length (vTable st') = length (vTable st)
  /\ length (vUniqueIndex st') = length (vUniqueIndex st)
  /\ vPos st' = vPos st
                 ++ map (position B i sym)
                      (List.filter (retained B useAU i sym) (seq 0 (GetNbSymmetrics sg)))
  /\ mUniquePosSymmetryIndex (hood_at (vTable st') i)
     = last_such (marked B useAU i sym) (seq 0 (GetNbSymmetrics sg))
         (mUniquePosSymmetryIndex (hood_at (vTable st) i))
  /\ mIndex (hood_at (vTable st') i) = i
  /\ mvNeighbour (hood_at (vTable st') i) = mvNeighbour (hood_at (vTable st) i)
  /\ (forall k, k <> i -> hood_at (vTable st') k = hood_at (vTable st) k)
  /\ (forall k, k <> i -> nth k (vUniqueIndex st') 0%nat = nth k (vUniqueIndex st) 0%nat).
Proof.
  intros Hi sym st'. subst st'. unfold scan_component. fold sym.
  set (st1 := mkScan (vPos st) (vUniqueIndex st) (alter (set_mIndex i) i (vTable st))).
  assert (length (vTable st1) = length (vTable st)) as Hlen
      by (subst st1; cbn [vTable]; apply length_alter).
  destruct (scan_symmetrics_spec B useAU i sym (seq 0 (GetNbSymmetrics sg)) st1)
    as (H1 & H2 & H3 & H4 & H5 & H6 & H7 & H8); [lia |].
  assert (hood_at (vTable st1) i = set_mIndex i (hood_at (vTable st) i)) as Hi1
      by (subst st1; cbn [vTable]; apply hood_at_alter_same; exact Hi).
  split; [lia |]. split; [exact H2 |]. split; [exact H3 |].
  split; [rewrite H4, Hi1; reflexivity |].
  split; [rewrite H5, Hi1; reflexivity |].
  split; [rewrite H6, Hi1; reflexivity |].
  split; [| exact H8].
  intros k Hk. rewrite (H7 k Hk). subst st1. cbn [vTable].
  apply hood_at_alter_other. congruence.
Qed.

(** The first loop nest: in the neighbourhood of each component the
    index of the unique position is the last marked symmetric, or what was
    there before when no symmetric is marked. *)
Lemma scan_components_table (B : Branch) (useAU : bool) (sg : SpaceGroup)
    (cs : list ScatteringComponent) (i0 : nat) (st : Scan) :
  (i0 + length cs <= length (vTable st))%nat ->
  let st' := scan_components B useAU sg i0 cs st in
  length (vTable st') = length (vTable st)
  /\ (forall k c, cs !! k = Some c ->
        let sym := GetAllSymmetrics sg (mX c) (mY c) (mZ c) in
        mUniquePosSymmetryIndex (hood_at (vTable st') (i0 + k))
        = last_such (marked B useAU (i0 + k) sym) (seq 0 (GetNbSymmetrics sg))
            (mUniquePosSymmetryIndex (hood_at (vTable st) (i0 + k)))
        /\ mIndex (hood_at (vTable st') (i0 + k)) = (i0 + k)%nat)
  /\ (forall k, (k < i0 \/ i0 + length cs <= k)%nat ->
        hood_at (vTable st') k = hood_at (vTable st) k).
Proof.
  revert i0 st. induction cs as [| c cs IH]; intros i0 st Hlen; cbn zeta.
  - cbn [scan_components]. split; [reflexivity |]. split; [| reflexivity].
    intros k c Hk. rewrite lookup_nil in Hk. discriminate.
  - cbn [scan_components]. cbn [length] in Hlen.
    destruct (scan_component_spec B useAU sg i0 c st)
      as (H1 & _ & _ & H4 & H5 & _ & H7 & _); [lia |].
    specialize (IH (S i0) (scan_component B useAU sg i0 c st)). cbv zeta in IH.
    destruct IH as (I1 & I2 & I3); [lia |].
    split; [lia |]. split.
    + intros [| k] c' Hk.
      * cbn in Hk. injection Hk as <-. rewrite Nat.add_0_r.
        rewrite (I3 i0) by lia. split; assumption.
      * cbn in Hk. replace (i0 + S k)%nat with (S i0 + k)%nat by lia.
        destruct (I2 k c' Hk) as [Ha Hb]. split; [| exact Hb].
        rewrite Ha. rewrite (H7 (S i0 + k)%nat) by lia. reflexivity.
    + intros k Hk. cbn [length] in Hk. rewrite (I3 k) by lia. apply H7. lia.
Qed.

(** The second loop nest writes [mvNeighbour] and nothing else. *)
Lemma dist_components_keep (d2 : Pos.t -> Pos.t -> R) (st : Scan)
    (l : list nat) (tbl : list NeighbourHood) (k : nat) :
  let tbl' := fold_left (dist_component d2 st) l tbl in
  length tbl' = length tbl
  /\ mIndex (hood_at tbl' k) = mIndex (hood_at tbl k)
  /\ mUniquePosSymmetryIndex (hood_at tbl' k) = mUniquePosSymmetryIndex (hood_at tbl k).
Proof.
  revert tbl. induction l as [| i l IH]; intros tbl; cbn zeta.
  - repeat split.
  - cbn [fold_left]. specialize (IH (dist_component d2 st tbl i)). cbv zeta in IH.
    destruct IH as (H1 & H2 & H3). unfold dist_component in *.
    rewrite H1, H2, H3, length_alter. split; [reflexivity |].
    destruct (Nat.eq_dec i k) as [-> | Hik].
    + destruct (Nat.lt_ge_cases k (length tbl)) as [Hk | Hk].
      * rewrite hood_at_alter_same by exact Hk. split; reflexivity.
      * rewrite hood_at_alter_ge by exact Hk. split; reflexivity.
    + rewrite hood_at_alter_other by exact Hik. split; reflexivity.
Qed.

Lemma last_such_app (P : nat -> bool) (l1 l2 : list nat) (d : nat) :
  last_such P (l1 ++ l2) d = last_such P l2 (last_such P l1 d).
Proof. unfold last_such. apply fold_left_app. Qed.

(** [last_such] on the indices below [n]: the greatest index satisfying
    [P], or the default when there is none. *)
Lemma last_such_seq (P : nat -> bool) (n d : nat) :
  ((exists j, (j < n)%nat /\ P j = true) ->
   (last_such P (seq 0 n) d < n)%nat
   /\ P (last_such P (seq 0 n) d) = true
   /\ forall j, (last_such P (seq 0 n) d < j < n)%nat -> P j = false)
  /\ ((forall j, (j < n)%nat -> P j = false) -> last_such P (seq 0 n) d = d).
Proof.
  induction n as [| n [IH1 IH2]].
  - split; [intros (j & Hj & _); lia | reflexivity].
  - assert (last_such P (seq 0 (S n)) d
            = if P n then n else last_such P (seq 0 n) d) as ->.
    { rewrite seq_S, last_such_app. reflexivity. }
    destruct (P n) eqn:Hn.
    + split.
      * intros _. split; [lia |]. split; [exact Hn |]. intros j Hj. lia.
      * intros H. rewrite H in Hn by lia. discriminate.
    + split.
      * intros (j & Hj & HP).
        assert (j <> n) as Hne by (intros ->; congruence).
        destruct IH1 as (H1 & H2 & H3); [exists j; split; [lia | exact HP] |].
        split; [lia |]. split; [exact H2 |].
        intros j' Hj'. destruct (Nat.eq_dec j' n) as [-> | Hj'n]; [exact Hn |].
        apply H3. lia.
      * intros H. apply IH2. intros j Hj. apply H. lia.
Qed.

Lemma resize_table_length (n : nat) (tbl : list NeighbourHood) :
  length (resize_table n tbl) = n.
Proof. unfold resize_table. rewrite length_app, length_take, length_replicate. lia. Qed.

Lemma clear_table_length (tbl : list NeighbourHood) :
  length (clear_table tbl) = length tbl.
Proof. unfold clear_table. apply length_map. Qed.

Lemma hood_at_clear_table (tbl : list NeighbourHood) (i : nat) :
  hood_at (clear_table tbl) i = set_mvNeighbour [] (hood_at tbl i).
Proof.
  unfold hood_at, clear_table.
  change no_neighbourhood with (set_mvNeighbour [] no_neighbourhood) at 1.
  apply map_nth.
Qed.

Lemma useAsymUnit_spec (sg : SpaceGroup) :
  useAsymUnit sg = true <-> Xmax sg * Ymax sg * Zmax sg < 0.6.
Proof. unfold useAsymUnit. apply Rltb_spec. Qed.

(** The neighbourhood of component [i] in the table [CalcDistTable]
    builds: [mIndex] is [i] and [mUniquePosSymmetryIndex] is the last
    marked symmetric. *)
Lemma build_table_unique (fast : bool) (margin : R) (sg : SpaceGroup)
    (cell : UnitCell) (comps : list ScatteringComponent)
    (old : list NeighbourHood) (i : nat) (c : ScatteringComponent) :
  comps !! i = Some c ->
  let nh := hood_at (build_table fast margin sg cell comps old) i in
  mIndex nh = i
  /\ mUniquePosSymmetryIndex nh
     = last_such (marked (branch fast (limits sg cell margin)) (useAsymUnit sg) i
                    (GetAllSymmetrics sg (mX c) (mY c) (mZ c)))
         (seq 0 (GetNbSymmetrics sg))
         (mUniquePosSymmetryIndex (hood_at (resize_table (length comps) old) i)).
Proof.
  intros Hc nh. subst nh. unfold build_table.
  destruct (dist_components_keep (dist2 fast cell)
              (scan_all fast margin sg cell comps old) (seq 0 (length comps))
              (vTable (scan_all fast margin sg cell comps old)) i) as (_ & H2 & H3).
  rewrite H2, H3. unfold scan_all.
  destruct (scan_components_table (branch fast (limits sg cell margin))
              (useAsymUnit sg) sg comps 0
              (mkScan [] (replicate (length comps) 0%nat)
                 (clear_table (resize_table (length comps) old))))
    as (_ & Hk & _).
  { cbn [vTable]. rewrite clear_table_length, resize_table_length. lia. }
  destruct (Hk i c Hc) as [Ha Hb]. cbn [Nat.add vTable] in Ha, Hb.
  split; [exact Hb |]. rewrite Ha, hood_at_clear_table. reflexivity.
Qed.

(** C1. The restriction to the asymmetric unit is enabled exactly when
    [xMax0*yMax0*zMax0 < 0.6]. The index recorded in
    [mUniquePosSymmetryIndex] for a component is the index of the last
    symmetric that is marked: with the restriction, a symmetric is marked
    when its reduced coordinates pass the test with the margin and are
    within the strict limits (limits included); without the restriction
    every symmetric is marked, so the index is the one of the last
    symmetric. When no symmetric is marked the index keeps the value it had
    before the call. *)
Theorem unique_position_is_last_marked (fast : bool) (margin : R)
    (sg : SpaceGroup) (cell : UnitCell) (comps : list ScatteringComponent)
    (old : list NeighbourHood) (i : nat) (c : ScatteringComponent) :
  comps !! i = Some c ->
  let B := branch fast (limits sg cell margin) in
  let sym := GetAllSymmetrics sg (mX c) (mY c) (mZ c) in
  let n := GetNbSymmetrics sg in
  let u := mUniquePosSymmetryIndex
             (hood_at (build_table fast margin sg cell comps old) i) in
  (useAsymUnit sg = true <-> Xmax sg * Ymax sg * Zmax sg < 0.6)
  /\ (forall j, marked B (useAsymUnit sg) i sym j
                = if useAsymUnit sg
                  then (near B (position B i sym j) && strict B (position B i sym j))%bool
                  else true)
  /\ ((exists j, (j < n)%nat /\ marked B (useAsymUnit sg) i sym j = true) ->
      (u < n)%nat
      /\ marked B (useAsymUnit sg) i sym u = true
      /\ forall j, (u < j < n)%nat -> marked B (useAsymUnit sg) i sym j = false)
  /\ ((forall j, (j < n)%nat -> marked B (useAsymUnit sg) i sym j = false) ->
      u = mUniquePosSymmetryIndex (hood_at (resize_table (length comps) old) i))
  /\ (useAsymUnit sg = false -> (0 < n)%nat -> u = (n - 1)%nat).
Proof.
  intros Hc B sym n u.
  destruct (build_table_unique fast margin sg cell comps old i c Hc) as [_ Hu].
  fold B sym n u in Hu.
  destruct (last_such_seq (marked B (useAsymUnit sg) i sym) n
              (mUniquePosSymmetryIndex (hood_at (resize_table (length comps) old) i)))
    as [Hsome Hnone].
  rewrite <- Hu in Hsome, Hnone.
  split; [apply useAsymUnit_spec |].
  split; [reflexivity |].
  split; [exact Hsome |].
  split; [exact Hnone |].
  intros Hoff Hn.
  destruct Hsome as (H1 & _ & H3).
  { exists 0%nat. split; [exact Hn |]. unfold marked. rewrite Hoff. reflexivity. }
  destruct (Nat.eq_dec u (n - 1)) as [-> | Hne]; [reflexivity |].
  specialize (H3 (n - 1)%nat). unfold marked in H3. rewrite Hoff in H3.
  discriminate H3. lia.
Qed.

(** ** Evaluation on the example crystals *)

Lemma to_long_pos (v : R) (k : Z) :
  0 <= v -> IZR k <= v * 16384 < IZR k + 1 -> to_long v = k.
Proof.
  intros Hv Hk. unfold to_long, Rtrunc, FRAC2LONG.
  destruct (Rle_dec 0 (v * 16384)) as [_ | Hn]; [| lra].
  symmetry. apply Int_part_spec. lra.
Qed.

Lemma to_long_neg (v : R) (k : Z) :
  v < 0 -> IZR k - 1 < v * 16384 <= IZR k -> to_long v = k.
Proof.
  intros Hv Hk. unfold to_long, Rtrunc, FRAC2LONG.
  destruct (Rle_dec 0 (v * 16384)) as [Hp | Hn]; [lra |].
  assert (Int_part (- (v * 16384)) = (- k)%Z) as ->.
  { symmetry. apply Int_part_spec. rewrite opp_IZR. lra. }
  lia.
Qed.

Lemma quantize_pos (v : R) (k : Z) :
  0 <= v -> IZR k <= v * 16384 < IZR k + 1 -> quantize v = Z.land k FRAC2LONGMASK.
Proof.
  intros Hv Hk. unfold quantize. rewrite (to_long_pos v k) by assumption. reflexivity.
Qed.

Lemma quantize_neg (v : R) (k : Z) :
  v < 0 -> IZR k - 1 < v * 16384 <= IZR k -> quantize v = Z.land k FRAC2LONGMASK.
Proof.
  intros Hv Hk. unfold quantize. rewrite (to_long_neg v k) by assumption. reflexivity.
Qed.

(** The limits of P-1 in the cubic cell with a margin of 1, as [long]. *)
Lemma near_fast_Pbar1 (p : Pos.t) :
  near_fast (limits sg_Pbar1 cubic10 1) p
  = (((14745 <? Pos.mZL p)%Z || (Pos.mZL p <? 18022)%Z)
     && ((14745 <? Pos.mXL p)%Z || (Pos.mXL p <? 9830)%Z)
     && ((14745 <? Pos.mYL p)%Z || (Pos.mYL p <? 18022)%Z))%bool.
Proof.
  unfold near_fast, limits.
  cbn [xMin xMax yMin yMax zMin zMax Xmax Ymax Zmax sg_Pbar1 GetLatticePar cubic10].
  rewrite (to_long_pos (1 - 1 / 10) 14745) by lra.
  rewrite (to_long_pos (1 + 1 / 10) 18022) by lra.
  rewrite (to_long_pos (1 / 2 + 1 / 10) 9830) by lra.
  reflexivity.
Qed.

Lemma strict_fast_Pbar1 (p : Pos.t) :
  strict_fast (limits sg_Pbar1 cubic10 1) p
  = ((Pos.mXL p <=? 8192)%Z && (Pos.mYL p <=? 16384)%Z
     && (Pos.mZL p <=? 16384)%Z)%bool.
Proof.
  unfold strict_fast, limits. cbn [xMax0 yMax0 zMax0 Xmax Ymax Zmax sg_Pbar1].
  rewrite (to_long_pos (1 / 2) 8192) by lra.
  rewrite (to_long_pos 1 16384) by lra.
  reflexivity.
Qed.

Lemma useAsymUnit_Pbar1 : useAsymUnit sg_Pbar1 = true.
Proof. apply useAsymUnit_spec. cbn [Xmax Ymax Zmax sg_Pbar1]. lra. Qed.

Lemma useAsymUnit_P1 : useAsymUnit sg_P1 = false.
Proof. unfold useAsymUnit. cbn [Xmax Ymax Zmax sg_P1]. apply Rltb_false. lra. Qed.

(** In P-1 both symmetrics of an atom at the origin are at the origin,
    within the strict limits of the asymmetric unit. *)
Lemma origin_marked (i j : nat) :
  marked (branch true (limits sg_Pbar1 cubic10 1)) true i
    (GetAllSymmetrics sg_Pbar1 0 0 0) j = true.
Proof.
  unfold marked, position. cbn [branch mkpos near strict GetAllSymmetrics sg_Pbar1].
  rewrite near_fast_Pbar1, strict_fast_Pbar1.
  destruct (j =? 0)%nat; cbn [pos_fast].
  - rewrite (quantize_pos 0 0) by lra. reflexivity.
  - rewrite (quantize_pos (- 0) 0) by lra. reflexivity.
Qed.

Lemma origin_unique_index :
  mUniquePosSymmetryIndex
    (hood_at (build_table true 1 sg_Pbar1 cubic10
                (all_components [atom power_A 0 0 0]) []) 0) = 1%nat.
Proof.
  destruct (build_table_unique true 1 sg_Pbar1 cubic10
              (all_components [atom power_A 0 0 0]) [] 0 _ eq_refl) as [_ H].
  rewrite H. rewrite useAsymUnit_Pbar1.
  cbn [GetNbSymmetrics sg_Pbar1 seq last_such fold_left mX mY mZ].
  rewrite !origin_marked. reflexivity.
Qed.

(** Against C1 as it is worded: in P-1, the first symmetric of an atom at
    the origin (index 0) is within the strict limits of the asymmetric
    unit, and yet the index that is recorded is 1, the one of the last
    symmetric within these limits. *)
Lemma unique_position_is_not_first_marked :
  useAsymUnit sg_Pbar1 = true
  /\ marked (branch true (limits sg_Pbar1 cubic10 1)) true 0
       (GetAllSymmetrics sg_Pbar1 0 0 0) 0 = true
  /\ mUniquePosSymmetryIndex
       (hood_at (build_table true 1 sg_Pbar1 cubic10
                   (all_components [atom power_A 0 0 0]) []) 0) <> 0%nat.
Proof.
  split; [exact useAsymUnit_Pbar1 |]. split; [apply origin_marked |].
  rewrite origin_unique_index. discriminate.
Qed.

Lemma unique_position_is_last_marked_witness :
  all_components [atom power_A 0 0 0] !! 0%nat
  = Some (mkScatteringComponent 0 0 0 1 1 (Some power_A))
  /\ (useAsymUnit sg_Pbar1 = true <-> Xmax sg_Pbar1 * Ymax sg_Pbar1 * Zmax sg_Pbar1 < 0.6)
  /\ ((forall j, (j < 2)%nat ->
         marked (branch true (limits sg_Pbar1 cubic10 1)) (useAsymUnit sg_Pbar1) 0
           (GetAllSymmetrics sg_Pbar1 0 0 0) j = false) ->
      mUniquePosSymmetryIndex
        (hood_at (build_table true 1 sg_Pbar1 cubic10
                    (all_components [atom power_A 0 0 0]) []) 0)
      = mUniquePosSymmetryIndex
          (hood_at (resize_table (length (all_components [atom power_A 0 0 0])) []) 0)).
Proof.
  split; [reflexivity |].
  pose proof (unique_position_is_last_marked true 1 sg_Pbar1 cubic10
                (all_components [atom power_A 0 0 0]) [] 0 _ eq_refl) as H.
  cbv zeta in H. destruct H as (H1 & _ & _ & H4 & _).
  split; [exact H1 | exact H4].
Defined.

(** ** The pairwise parameter maps *)

Lemma pair_key_comm (a b : Z) : pair_key a b = pair_key b a.
Proof.
  unfold pair_key.
  destruct (a <? b)%Z eqn:Hab, (b <? a)%Z eqn:Hba; try reflexivity.
  - apply Z.ltb_lt in Hab, Hba. lia.
  - apply Z.ltb_ge in Hab, Hba. f_equal; lia.
Qed.

Lemma pair_key_canonical (a b : Z) : ((pair_key a b).1 <= (pair_key a b).2)%Z.
Proof.
  unfold pair_key. destruct (a <? b)%Z eqn:Hab; simpl.
  - apply Z.ltb_lt in Hab. lia.
  - apply Z.ltb_ge in Hab. lia.
Qed.

Lemma canonical_keys_empty {V : Type} : canonical_keys (∅ : gmap (Z * Z) V).
Proof. intros a b [v Hv]. rewrite lookup_empty in Hv. discriminate. Qed.

Lemma canonical_keys_insert {V : Type} (m : gmap (Z * Z) V) (a b : Z) (v : V) :
  canonical_keys m -> canonical_keys (<[pair_key a b := v]> m).
Proof.
  intros Hm x y Hxy.
  destruct (decide (pair_key a b = (x, y))) as [Heq | Hne].
  - pose proof (pair_key_canonical a b) as Hc. rewrite Heq in Hc. exact Hc.
  - rewrite lookup_insert_ne in Hxy by exact Hne. apply Hm. exact Hxy.
Qed.

Lemma canonical_keys_delete {V : Type} (m : gmap (Z * Z) V) (k : Z * Z) :
  canonical_keys m -> canonical_keys (delete k m).
Proof.
  intros Hm x y [v Hv]. apply Hm. exists v.
  apply lookup_delete_Some in Hv as [_ Hv]. exact Hv.
Qed.

Lemma canonical_keys_one_entry {V : Type} (m : gmap (Z * Z) V) :
  canonical_keys m -> one_entry_per_pair m.
Proof.
  intros Hm a b Hne [Hab Hba]. apply Hm in Hab. apply Hm in Hba. lia.
Qed.

Lemma call_canonical (s : Crystal) (c : PairCall) :
  canonical_keys (mvBumpMergePar s) /\ canonical_keys (mvBondValenceRo s) ->
  canonical_keys (mvBumpMergePar (call s c))
  /\ canonical_keys (mvBondValenceRo (call s c)).
Proof.
  intros [Hb Hr]. destruct c; simpl;
    unfold SetBumpMergeDistance, SetBumpMergeDistance4, RemoveBumpMergeDistance,
      AddBondValenceRo, RemoveBondValenceRo;
    try match goal with |- context [(?a =? ?b)%Z] => destruct (a =? b)%Z end;
    unfold_setters; split;
    auto using canonical_keys_insert, canonical_keys_delete.
Qed.

Lemma calls_canonical (cs : list PairCall) (s : Crystal) :
  canonical_keys (mvBumpMergePar s) /\ canonical_keys (mvBondValenceRo s) ->
  canonical_keys (mvBumpMergePar (calls cs s))
  /\ canonical_keys (mvBondValenceRo (calls cs s)).
Proof.
  revert s. induction cs as [| c cs IH]; intros s H; simpl.
  - exact H.
  - apply IH. apply call_canonical. exact H.
Qed.

Lemma SetBumpMergeDistance4_comm (p1 p2 : ScatteringPower) (d : R) (am : bool)
    (s : Crystal) :
  SetBumpMergeDistance4 p1 p2 d am s = SetBumpMergeDistance4 p2 p1 d am s.
Proof. unfold SetBumpMergeDistance4. rewrite pair_key_comm. reflexivity. Qed.

Lemma SetBumpMergeDistance_comm (p1 p2 : ScatteringPower) (d : R) (s : Crystal) :
  SetBumpMergeDistance p1 p2 d s = SetBumpMergeDistance p2 p1 d s.
Proof.
  unfold SetBumpMergeDistance. rewrite (Z.eqb_sym (spAddress p1)).
  destruct (spAddress p2 =? spAddress p1)%Z; apply SetBumpMergeDistance4_comm.
Qed.

(** C8. Starting from a crystal without pairwise parameters, after any
    sequence of calls of [SetBumpMergeDistance] (with three or four
    arguments), [RemoveBumpMergeDistance], [AddBondValenceRo] and
    [RemoveBondValenceRo], every key of the two maps has the smaller address
    first, so no unordered pair has two entries; setting or removing a pair
    with the two scattering powers in either order gives the same crystal;
    setting stores the parameters under the one canonical key, leaves the
    other entries as they are, and does not change the number of entries
    when the pair was already there. *)
Theorem pairwise_maps_one_entry_per_pair (cs : list PairCall) (s : Crystal) :
  mvBumpMergePar s = ∅ -> mvBondValenceRo s = ∅ ->
  let s' := calls cs s in
  (canonical_keys (mvBumpMergePar s') /\ one_entry_per_pair (mvBumpMergePar s'))
  /\ (canonical_keys (mvBondValenceRo s') /\ one_entry_per_pair (mvBondValenceRo s'))
  /\ (forall p1 p2 d am,
        SetBumpMergeDistance4 p1 p2 d am s' = SetBumpMergeDistance4 p2 p1 d am s'
        /\ SetBumpMergeDistance p1 p2 d s' = SetBumpMergeDistance p2 p1 d s'
        /\ AddBondValenceRo p1 p2 d s' = AddBondValenceRo p2 p1 d s'
        /\ RemoveBumpMergeDistance p1 p2 s' = RemoveBumpMergeDistance p2 p1 s'
        /\ RemoveBondValenceRo p1 p2 s' = RemoveBondValenceRo p2 p1 s')
  /\ (forall p1 p2 d am,
        let k := pair_key (spAddress p1) (spAddress p2) in
        let m := mvBumpMergePar s' in
        let m' := mvBumpMergePar (SetBumpMergeDistance4 p1 p2 d am s') in
        m' !! k = Some (BumpMergePar.make d am)
        /\ (forall k', k' <> k -> m' !! k' = m !! k')
        /\ size m' = (if m !! k is Some _ then size m else S (size m)))
  /\ (forall p1 p2 ro,
        let k := pair_key (spAddress p1) (spAddress p2) in
        let m := mvBondValenceRo s' in
        let m' := mvBondValenceRo (AddBondValenceRo p1 p2 ro s') in
        m' !! k = Some ro
        /\ (forall k', k' <> k -> m' !! k' = m !! k')
        /\ size m' = (if m !! k is Some _ then size m else S (size m))).
Proof.
  intros Hb Hr s'.
  destruct (calls_canonical cs s) as [Hcb Hcr].
  { rewrite Hb, Hr. split; apply canonical_keys_empty. }
  fold s' in Hcb, Hcr.
  split; [split; [exact Hcb | apply canonical_keys_one_entry; exact Hcb] |].
  split; [split; [exact Hcr | apply canonical_keys_one_entry; exact Hcr] |].
  split.
  { intros p1 p2 d am.
    split; [apply SetBumpMergeDistance4_comm |].
    split; [apply SetBumpMergeDistance_comm |].
    unfold AddBondValenceRo, RemoveBumpMergeDistance, RemoveBondValenceRo.
    rewrite (pair_key_comm (spAddress p1)). auto. }
  split.
  - intros p1 p2 d am k m m'. subst m'. unfold SetBumpMergeDistance4. unfold_setters.
    fold k. fold m.
    split; [apply lookup_insert_eq |].
    split; [intros k' Hk'; apply lookup_insert_ne; congruence |].
    rewrite map_size_insert. destruct (m !! k); reflexivity.
  - intros p1 p2 ro k m m'. subst m'. unfold AddBondValenceRo. unfold_setters.
    fold k. fold m.
    split; [apply lookup_insert_eq |].
    split; [intros k' Hk'; apply lookup_insert_ne; congruence |].
    rewrite map_size_insert. destruct (m !! k); reflexivity.
Qed.

Lemma pairwise_maps_one_entry_per_pair_witness :
  mvBumpMergePar crystal_one_atom = ∅ /\ mvBondValenceRo crystal_one_atom = ∅
  /\ one_entry_per_pair (mvBumpMergePar (calls example_calls crystal_one_atom))
  /\ one_entry_per_pair (mvBondValenceRo (calls example_calls crystal_one_atom)).
Proof.
  split; [reflexivity |]. split; [reflexivity |].
  pose proof (pairwise_maps_one_entry_per_pair example_calls crystal_one_atom
                eq_refl eq_refl) as H.
  cbv zeta in H. destruct H as ((_ & H1) & (_ & H2) & _).
  split; assumption.
Defined.

(** ** The matrix of [GetMinDistanceTable] *)

(** C3. [GetMinDistanceTable] comes to an end and returns a symmetric
    matrix. A diagonal entry [(i,i)] is not zero in general: it is the
    finished value (the square root, a value above 9999 being replaced by
    0) of the lowest accepted squared distance between component [i] and
    its own symmetry images held in the distance table, the accepted
    contacts being those that pass the test of the first loop. So the
    entry is zero when the distance table holds no accepted contact of
    component [i] with itself below the sentinel; it is never above the
    distance of an accepted contact of component [i] with itself; and when
    it is not zero it is the distance of one of them. *)
Theorem GetMinDistanceTable_symmetric (defaultMargin : R) (fuel : nat)
    (minDistance : R) (s : Crystal) :
  clocks_wf s -> (2 <= fuel)%nat ->
  exists M n s',
    GetMinDistanceTable defaultMargin fuel minDistance s = Some (M, n, s')
    /\ n = length (mScattCompList s')
    /\ (forall i j, (i < n)%nat -> (j < n)%nat -> M i j = M j i)
    /\ (forall i, (i < n)%nat ->
          M i i = finished (lowest (min_of minDistance) (hood_at (mvDistTableSq s') i) i
                              (mvNeighbour (hood_at (mvDistTableSq s') i)) 10000))
    /\ (forall i, (i < n)%nat ->
          Forall (fun pos =>
                    Neighbour.mNeighbourIndex pos = i ->
                    accepted (min_of minDistance) (hood_at (mvDistTableSq s') i) pos
                    = false
                    \/ 10000 <= Neighbour.mDist2 pos)
                 (mvNeighbour (hood_at (mvDistTableSq s') i)) ->
          M i i = 0)
    /\ (forall i pos, (i < n)%nat ->
          In pos (mvNeighbour (hood_at (mvDistTableSq s') i)) ->
          Neighbour.mNeighbourIndex pos = i ->
          accepted (min_of minDistance) (hood_at (mvDistTableSq s') i) pos = true ->
          M i i <= sqrt (Neighbour.mDist2 pos))
    /\ (forall i, (i < n)%nat -> M i i <> 0 ->
          exists pos,
            In pos (mvNeighbour (hood_at (mvDistTableSq s') i))
            /\ Neighbour.mNeighbourIndex pos = i
            /\ accepted (min_of minDistance) (hood_at (mvDistTableSq s') i) pos = true
            /\ M i i = sqrt (Neighbour.mDist2 pos)).
Proof.
  intros Hwf Hfuel.
  destruct fuel as [| [| fuel]]; [lia | lia | clear Hfuel].
  destruct (GetMinDistanceTable_ok defaultMargin fuel minDistance s Hwf)
    as (s' & Hs' & _).
  eexists _, _, s'. split; [exact Hs' |]. split; [reflexivity |].
  split; [intros i j Hi Hj; apply minDistTable_of_sym; assumption |].
  assert (forall i, (i < length (mScattCompList s'))%nat ->
            minDistTable_of minDistance (mvDistTableSq s')
              (length (mScattCompList s')) i i
            = finished (lowest (min_of minDistance) (hood_at (mvDistTableSq s') i) i
                          (mvNeighbour (hood_at (mvDistTableSq s') i)) 10000)) as Hdiag.
  { intros i Hi. rewrite minDistTable_of_spec by assumption.
    rewrite Nat.max_id, Nat.min_id. reflexivity. }
  split; [exact Hdiag |].
  split.
  { intros i Hi Hnone. rewrite (Hdiag i Hi), lowest_unchanged by exact Hnone.
    apply finished_sentinel. }
  split.
  - intros i pos Hi Hin Hk Ha. rewrite (Hdiag i Hi).
    destruct (lowest_spec (min_of minDistance) (hood_at (mvDistTableSq s') i) i
                (mvNeighbour (hood_at (mvDistTableSq s') i)) 10000) as (_ & L2 & _).
    specialize (L2 pos Hin Hk Ha).
    set (v := lowest _ _ _ _ _) in *.
    unfold finished. destruct (Rltb 9999 v).
    + rewrite sqrt_0. apply sqrt_pos.
    + destruct (Rle_dec 0 v) as [Hv | Hv].
      * apply sqrt_le_1_alt. exact L2.
      * rewrite sqrt_neg_0 by lra. apply sqrt_pos.
  - intros i Hi Hnz. rewrite (Hdiag i Hi) in Hnz |- *.
    destruct (lowest_spec (min_of minDistance) (hood_at (mvDistTableSq s') i) i
                (mvNeighbour (hood_at (mvDistTableSq s') i)) 10000)
      as (_ & _ & [L3 | (pos & Hin & Hk & Ha & Heq)]).
    + exfalso. apply Hnz. rewrite L3. apply finished_sentinel.
    + exists pos. split; [exact Hin |]. split; [exact Hk |]. split; [exact Ha |].
      rewrite Heq. unfold finished.
      destruct (Rltb 9999 (Neighbour.mDist2 pos)) eqn:Hb; [| reflexivity].
      exfalso. apply Hnz. rewrite Heq. unfold finished. rewrite Hb. apply sqrt_0.
Qed.

Lemma GetMinDistanceTable_symmetric_witness :
  clocks_wf crystal_AB /\ (2 <= 2)%nat
  /\ exists M s',
      GetMinDistanceTable 4 2 (-1) crystal_AB = Some (M, 2%nat, s')
      /\ M 0%nat 1%nat = M 1%nat 0%nat
      /\ M 1%nat 1%nat
         = finished (lowest (min_of (-1)) (hood_at (mvDistTableSq s') 1) 1
                       (mvNeighbour (hood_at (mvDistTableSq s') 1)) 10000).
Proof.
  assert (clocks_wf crystal_AB) as Hwf.
  { apply new_crystal_wf. repeat constructor. }
  split; [exact Hwf |]. split; [lia |].
  destruct (GetMinDistanceTable_symmetric 4 2 (-1) crystal_AB Hwf (le_n 2))
    as (M & n & s' & H1 & _ & H3 & H4 & _).
  assert (n = 2%nat) as Hn.
  { pose proof H1 as H1'. unfold crystal_AB in H1'.
    rewrite (GetMinDistanceTable_new 4 (-1) sg_Pbar1 cubic10
               (atom power_A 0 0 0) [atom power_B (1 / 4) 0 0] eq_refl) in H1'.
    injection H1' as _ <- _. reflexivity. }
  subst n. exists M, s'. split; [exact H1 |].
  split; [apply H3; lia | apply H4; lia].
Defined.

(** C4. An entry [(i,j)] for which the distance table holds no accepted
    contact below the sentinel (in the row of the larger of the two indices,
    for the smaller one) is zero: the second loop replaces the sentinel by 0
    before it takes the square root. *)
Theorem GetMinDistanceTable_no_contact (defaultMargin : R) (fuel : nat)
    (minDistance : R) (s : Crystal) :
  clocks_wf s -> (2 <= fuel)%nat ->
  exists M n s',
    GetMinDistanceTable defaultMargin fuel minDistance s = Some (M, n, s')
    /\ n = length (mScattCompList s')
    /\ forall i j, (i < n)%nat -> (j < n)%nat ->
         Forall (fun pos =>
                   Neighbour.mNeighbourIndex pos = Nat.min i j ->
                   accepted (min_of minDistance)
                     (hood_at (mvDistTableSq s') (Nat.max i j)) pos = false
                   \/ 10000 <= Neighbour.mDist2 pos)
                (mvNeighbour (hood_at (mvDistTableSq s') (Nat.max i j))) ->
         M i j = 0.
Proof.
  intros Hwf Hfuel.
  destruct fuel as [| [| fuel]]; [lia | lia | clear Hfuel].
  destruct (GetMinDistanceTable_ok defaultMargin fuel minDistance s Hwf)
    as (s' & Hs' & _).
  eexists _, _, s'. split; [exact Hs' |]. split; [reflexivity |].
  intros i j Hi Hj Hnone.
  rewrite minDistTable_of_spec, lowest_unchanged by assumption.
  apply finished_sentinel.
Qed.

Lemma GetMinDistanceTable_no_contact_witness :
  clocks_wf crystal_one_atom /\ (2 <= 2)%nat
  /\ exists M n s',
      GetMinDistanceTable 4 2 (-1) crystal_one_atom = Some (M, n, s')
      /\ n = length (mScattCompList s')
      /\ forall i j, (i < n)%nat -> (j < n)%nat ->
           Forall (fun pos =>
                     Neighbour.mNeighbourIndex pos = Nat.min i j ->
                     accepted (min_of (-1))
                       (hood_at (mvDistTableSq s') (Nat.max i j)) pos = false
                     \/ 10000 <= Neighbour.mDist2 pos)
                  (mvNeighbour (hood_at (mvDistTableSq s') (Nat.max i j))) ->
           M i j = 0.
Proof.
  assert (clocks_wf crystal_one_atom) as Hwf.
  { apply new_crystal_wf. repeat constructor. }
  split; [exact Hwf |]. split; [lia |].
  exact (GetMinDistanceTable_no_contact 4 2 (-1) crystal_one_atom Hwf (le_n 2)).
Defined.

(** The distance tables of two of the example crystals. *)
Lemma first_table_one_atom :
  first_table sg_P1 cubic10 [atom power_A 0 0 0] = [mkNeighbourHood 0 0 []].
Proof.
  unfold first_table, build_table, scan_all. rewrite useAsymUnit_P1. reflexivity.
Qed.

Lemma fold_long_small (d : Z) :
  (0 <= d < 8192)%Z -> fold_long d = d.
Proof.
  intros Hd. unfold fold_long.
  change FRAC2LONGMASK with (Z.ones 14). change HALF_FRAC2LONG with (2 ^ 13)%Z.
  rewrite Z.land_ones by lia. rewrite Z.mod_small by lia.
  destruct (Z.land d (2 ^ 13) =? 0)%Z eqn:Hbit; [reflexivity |].
  apply Z.eqb_neq in Hbit. contradiction Hbit.
  rewrite Z.land_comm. change (2 ^ 13)%Z with (Z.shiftl 1 13).
  apply Z.bits_inj'. intros n Hn. rewrite Z.land_spec, Z.bits_0.
  destruct (Z.eq_dec n 13) as [-> | Hne].
  - rewrite (Z.bits_above_log2 d 13); [apply andb_false_r |lia|].
    destruct (Z.eq_dec d 0) as [-> | Hd0]; [cbn; lia |].
    apply Z.log2_lt_pow2; lia.
  - rewrite Z.shiftl_spec by lia. rewrite Z.bit0_eqb || idtac.
    replace (Z.testbit 1 (n - 13)) with false; [reflexivity |].
    symmetry. destruct (Z.lt_ge_cases (n - 13) 0).
    + apply Z.testbit_neg_r. lia.
    + apply Z.bits_above_log2; cbn; lia.
Qed.

Lemma first_table_inversion :
  first_table sg_Pbar1 cubic10 [atom power_A (7 / 16) 0 0]
  = [mkNeighbourHood 0 0
       [Neighbour.mk 0 1 (norm2 (vector_fast cubic10 2048 0 0))]].
Proof.
  unfold first_table, build_table, scan_all. rewrite useAsymUnit_Pbar1.
  cbn [all_components map concat app scattCompList atom length replicate resize_table
       take Nat.sub clear_table seq scan_components scan_component fold_left
       GetNbSymmetrics GetAllSymmetrics sg_Pbar1 mX mY mZ vPos vUniqueIndex vTable
       Nat.eqb].
  unfold scan_step. cbn [branch mkpos near strict pos_fast Nat.eqb].
  rewrite !near_fast_Pbar1, !strict_fast_Pbar1.
  rewrite (quantize_pos (7 / 16) 7168) by lra.
  rewrite (quantize_pos 0 0) by lra.
  rewrite (quantize_neg (- (7 / 16)) (-7168)) by lra.
  rewrite (quantize_pos (- 0) 0) by lra.
  reflexivity.
Qed.

Lemma norm2_inversion : norm2 (vector_fast cubic10 2048 0 0) = 25 / 16.
Proof.
  unfold norm2, vector_fast, FRAC2LONG. cbn [GetOrthMatrix cubic10 Nat.eqb]. lra.
Qed.

(** Against C3 as it is worded: an atom of P-1 at [(7/16,0,0)] has its
    inverse at 1.25 Angstroems, inside the margin of the asymmetric unit,
    and [GetMinDistanceTable(-1.)] (the call made by [CIFOutput]) returns
    this distance on the diagonal, not zero. *)
Lemma GetMinDistanceTable_diagonal_not_zero :
  exists M s',
    GetMinDistanceTable 4 2 (-1) crystal_inversion = Some (M, 1%nat, s')
    /\ M 0%nat 0%nat = 5 / 4
    /\ M 0%nat 0%nat <> 0.
Proof.
  eexists _, _. split; [apply GetMinDistanceTable_new; reflexivity |].
  assert (minDistTable_of (-1) (first_table sg_Pbar1 cubic10 [atom power_A (7 / 16) 0 0])
            (length (all_components [atom power_A (7 / 16) 0 0])) 0%nat 0%nat
          = 5 / 4) as H.
  { rewrite minDistTable_of_spec by (cbn; lia).
    rewrite first_table_inversion.
    cbn [Nat.max Nat.min hood_at nth mvNeighbour lowest fold_left
         Neighbour.mNeighbourIndex Neighbour.mDist2 Nat.eqb andb].
    unfold accepted, min_of.
    cbn [Neighbour.mDist2 Neighbour.mNeighbourIndex Neighbour.mNeighbourSymmetryIndex
         mIndex mUniquePosSymmetryIndex Nat.eqb negb andb].
    rewrite norm2_inversion. Rcompare. cbn [orb andb].
    unfold finished. Rcompare.
    apply sqrt_lem_1; lra. }
  split; [exact H | rewrite H; lra].
Qed.

(** Against C4 as it is worded: for the single atom of a P1 crystal the
    distance table holds no contact at all, and the entry that
    [GetMinDistanceTable] returns is 0, not the square root of the sentinel
    (which is 100). *)
Lemma GetMinDistanceTable_no_contact_is_zero :
  exists M s',
    GetMinDistanceTable 4 2 (-1) crystal_one_atom = Some (M, 1%nat, s')
    /\ mvNeighbour (hood_at (mvDistTableSq s') 0%nat) = []
    /\ M 0%nat 0%nat = 0
    /\ sqrt 10000 = 100
    /\ M 0%nat 0%nat <> sqrt 10000.
Proof.
  eexists _, _. split; [apply GetMinDistanceTable_new; reflexivity |].
  cbn [mvDistTableSq after_first_read].
  assert (sqrt 10000 = 100) as Hs by (apply sqrt_lem_1; lra).
  assert (minDistTable_of (-1) (first_table sg_P1 cubic10 [atom power_A 0 0 0])
            (length (all_components [atom power_A 0 0 0])) 0%nat 0%nat = 0) as H.
  { rewrite minDistTable_of_spec by (cbn; lia).
    rewrite first_table_one_atom. cbn [Nat.max hood_at nth mvNeighbour lowest fold_left].
    apply finished_sentinel. }
  split; [rewrite first_table_one_atom; reflexivity |].
  split; [exact H |]. split; [exact Hs |]. rewrite H, Hs. lra.
Qed.

(** ** The folded displacement of the two branches *)

Lemma land_pow2_testbit (m k : Z) :
  (0 <= k)%Z -> Z.land m (2 ^ k) = if Z.testbit m k then (2 ^ k)%Z else 0%Z.
Proof.
  intros Hk. apply Z.bits_inj'. intros n Hn.
  rewrite Z.land_spec, Z.pow2_bits_eqb by lia.
  destruct (Z.eqb_spec k n) as [-> | Hne].
  - rewrite andb_true_r. destruct (Z.testbit m n) eqn:Hb.
    + rewrite Z.pow2_bits_true by lia. reflexivity.
    + rewrite Z.bits_0. reflexivity.
  - rewrite andb_false_r. destruct (Z.testbit m k).
    + rewrite Z.pow2_bits_false by lia. reflexivity.
    + rewrite Z.bits_0. reflexivity.
Qed.

Lemma testbit_13 (m : Z) :
  (0 <= m < 16384)%Z -> Z.testbit m 13 = negb (m <? 8192)%Z.
Proof.
  intros Hm. destruct (Z.ltb_spec m 8192) as [Hlt | Hge]; cbn [negb].
  - destruct (Z.eq_dec m 0) as [-> | Hm0]; [reflexivity |].
    apply Z.bits_above_log2; [lia |]. apply Z.log2_lt_pow2; lia.
  - apply Z.testbit_true; [lia |].
    change (2 ^ 13)%Z with 8192%Z.
    assert (m / 8192 = 1)%Z as -> ; [| reflexivity].
    symmetry. apply (Z.div_unique m 8192 1 (m - 8192)); lia.
Qed.

(** The bit operations of the quantized branch, in arithmetic: the
    difference is reduced modulo [2^14], and the upper half of the period
    is mirrored onto the lower half, one unit short. *)
Lemma fold_long_spec (d : Z) :
  fold_long d
  = if (d mod 16384 <? 8192)%Z then (d mod 16384)%Z else (16383 - d mod 16384)%Z.
Proof.
  unfold fold_long.
  change FRAC2LONGMASK with (Z.ones 14). change HALF_FRAC2LONGMASK with (Z.ones 13).
  change HALF_FRAC2LONG with (2 ^ 13)%Z.
  rewrite Z.land_ones by lia. change (2 ^ 14)%Z with 16384%Z.
  pose proof (Z.mod_pos_bound d 16384 ltac:(lia)) as Hm.
  set (m := (d mod 16384)%Z) in *.
  rewrite land_pow2_testbit, testbit_13 by lia.
  destruct (Z.ltb_spec m 8192) as [Hlt | Hge]; cbn [negb].
  - reflexivity.
  - change ((2 ^ 13 =? 0)%Z) with false. cbn iota.
    rewrite Z.land_ones by lia. change (2 ^ 13)%Z with 8192%Z.
    unfold Z.lnot. symmetry.
    apply (Z.mod_unique (Z.pred (- m)) 8192 (-2) (16383 - m)); lia.
Qed.

Lemma fold_long_range (d : Z) : (0 <= fold_long d <= 8191)%Z.
Proof.
  rewrite fold_long_spec.
  pose proof (Z.mod_pos_bound d 16384 ltac:(lia)).
  destruct (Z.ltb_spec (d mod 16384) 8192); lia.
Qed.

(** A value that is at most one half and is the distance to some integer
    is the distance to the nearest integer. *)
Lemma nearest_integer_distance_intro (d v : R) (k : Z) :
  v = Rabs (d - IZR k) -> v <= 1 / 2 -> nearest_integer_distance d v.
Proof.
  intros Hv Hhalf. split; [exists k; exact Hv |].
  intros k'. destruct (Z.eq_dec k k') as [<- | Hne]; [lra |].
  assert (1 <= Rabs (IZR k - IZR k')) as Hgap.
  { destruct (Z.lt_ge_cases k k') as [Hlt | Hge].
    - assert (IZR k + 1 <= IZR k') by (rewrite <- plus_IZR; apply IZR_le; lia).
      rewrite Rabs_left1; lra.
    - assert (IZR k' + 1 <= IZR k) by (rewrite <- plus_IZR; apply IZR_le; lia).
      rewrite Rabs_right; lra. }
  pose proof (Rabs_triang (d - IZR k') (- (d - IZR k))) as Ht.
  rewrite Rabs_Ropp in Ht.
  replace (d - IZR k' + - (d - IZR k)) with (IZR k - IZR k') in Ht by lra.
  lra.
Qed.

Lemma nearest_integer_distance_shift (d v : R) (z : Z) :
  nearest_integer_distance d v -> nearest_integer_distance (d + IZR z) v.
Proof.
  intros [[k Hk] Hmin]. split.
  - exists (k + z)%Z. rewrite plus_IZR, Hk. f_equal. lra.
  - intros k'. specialize (Hmin (k' - z)%Z). rewrite minus_IZR in Hmin.
    replace (d + IZR z - IZR k') with (d - (IZR k' - IZR z)) by lra. exact Hmin.
Qed.

(** The distance to the nearest integer moves no faster than its argument. *)
Lemma nearest_integer_distance_lipschitz (d1 d2 v1 v2 : R) :
  nearest_integer_distance d1 v1 -> nearest_integer_distance d2 v2 ->
  Rabs (v1 - v2) <= Rabs (d1 - d2).
Proof.
  intros [[k1 Hk1] Hmin1] [[k2 Hk2] Hmin2].
  specialize (Hmin1 k2). specialize (Hmin2 k1).
  pose proof (Rabs_triang (d1 - d2) (d2 - IZR k2)) as Ha.
  replace (d1 - d2 + (d2 - IZR k2)) with (d1 - IZR k2) in Ha by lra.
  pose proof (Rabs_triang (d2 - d1) (d1 - IZR k1)) as Hb.
  replace (d2 - d1 + (d1 - IZR k1)) with (d2 - IZR k1) in Hb by lra.
  rewrite (Rabs_minus_sym d2 d1) in Hb.
  apply Rabs_le. lra.
Qed.

Lemma modf_spec (d : R) :
  modf d = d - IZR (Rtrunc d) /\ -1 < modf d < 1.
Proof.
  split; [reflexivity |]. unfold modf.
  pose proof (Rtrunc_error d) as H. apply Rabs_def2 in H. lra.
Qed.

Lemma reduce01_spec (x : R) :
  exists k : Z, reduce01 x = x - IZR k /\ 0 <= reduce01 x < 1.
Proof.
  unfold reduce01. destruct (modf_spec x) as [Hm Hb].
  destruct (Rlt_dec (modf x) 0) as [Hneg | Hpos].
  - rewrite Rltb_true by exact Hneg. exists (Rtrunc x - 1)%Z.
    rewrite minus_IZR, Hm. lra.
  - rewrite Rltb_false by lra. exists (Rtrunc x). rewrite Hm. lra.
Qed.

(** The exact branch folds a displacement onto its distance to the
    nearest integer, between 0 and one half. *)
Lemma fold_real_nearest (d : R) :
  nearest_integer_distance d (fold_real d) /\ 0 <= fold_real d <= 1 / 2.
Proof.
  unfold fold_real. destruct (modf_spec d) as [Hm Hb].
  set (x := if Rltb (modf d) 0 then modf d + 1 else modf d).
  assert (exists k : Z, x = d - IZR k /\ 0 <= x < 1) as (k & Hk & Hx).
  { subst x. destruct (Rlt_dec (modf d) 0) as [Hneg | Hpos].
    - rewrite Rltb_true by exact Hneg. exists (Rtrunc d - 1)%Z.
      rewrite minus_IZR, Hm. lra.
    - rewrite Rltb_false by lra. exists (Rtrunc d). rewrite Hm. lra. }
  destruct (Rlt_dec 0.5 x) as [Hup | Hlow].
  - rewrite Rltb_true by exact Hup. split; [| lra].
    apply (nearest_integer_distance_intro d (1 - x) (k + 1)%Z); [| lra].
    rewrite plus_IZR, Rabs_left1; lra.
  - rewrite Rltb_false by lra. split; [| lra].
    apply (nearest_integer_distance_intro d x k); [| lra].
    rewrite Rabs_right; lra.
Qed.

Lemma min_image_range (d : R) :
  -1 / 2 < min_image d <= 1 / 2 /\ exists k : Z, min_image d = d - IZR k.
Proof.
  unfold min_image. destruct (base_Int_part d) as [H1 H2].
  destruct (Rlt_dec 0.5 (d - IZR (Int_part d))) as [Hup | Hlow].
  - rewrite Rltb_true by exact Hup. split; [lra |].
    exists (Int_part d + 1)%Z. rewrite plus_IZR. lra.
  - rewrite Rltb_false by lra. split; [lra |]. exists (Int_part d). reflexivity.
Qed.

(** What the exact branch keeps of the minimum image is its magnitude. *)
Lemma fold_real_min_image (d : R) : fold_real d = Rabs (min_image d).
Proof.
  destruct (fold_real_nearest d) as [Hn _].
  destruct (min_image_range d) as [Hr [k Hk]].
  assert (nearest_integer_distance d (Rabs (min_image d))) as Hn'.
  { apply (nearest_integer_distance_intro d _ k); [rewrite Hk; reflexivity |].
    apply Rabs_le. lra. }
  pose proof (nearest_integer_distance_lipschitz d d _ _ Hn Hn') as H.
  replace (d - d) with 0 in H by lra. rewrite Rabs_R0 in H.
  pose proof (Rabs_pos (fold_real d - Rabs (min_image d))) as Hp.
  assert (Rabs (fold_real d - Rabs (min_image d)) = 0) as H0 by lra.
  destruct (Req_dec (fold_real d - Rabs (min_image d)) 0) as [He | Hne]; [lra |].
  apply Rabs_no_R0 in Hne. contradiction.
Qed.

(** The quantized branch folds an integer displacement onto its distance
    to the nearest multiple of [2^14], or one unit less. *)
Lemma fold_long_nearest (D : Z) :
  exists g : Z,
    (g = fold_long D \/ g = (fold_long D + 1)%Z)
    /\ nearest_integer_distance (IZR D / 16384) (IZR g / 16384).
Proof.
  rewrite fold_long_spec.
  pose proof (Z.mod_pos_bound D 16384 ltac:(lia)) as Hm.
  pose proof (Z.div_mod D 16384 ltac:(lia)) as Hdm.
  set (m := (D mod 16384)%Z) in *. set (q := (D / 16384)%Z) in *.
  assert (IZR D = 16384 * IZR q + IZR m) as HD
      by (rewrite Hdm, plus_IZR, mult_IZR; reflexivity).
  assert (0 <= IZR m < 16384) as HmR
      by (split; [apply IZR_le | apply IZR_lt]; lia).
  destruct (Z.ltb_spec m 8192) as [Hlt | Hge].
  - exists m. split; [left; reflexivity |].
    assert (IZR m <= 8191) by (apply IZR_le; lia).
    apply (nearest_integer_distance_intro _ _ q); [| lra].
    rewrite HD, Rabs_right; lra.
  - exists (16384 - m)%Z. split; [right; lia |].
    assert (8192 <= IZR m) by (apply IZR_le; lia).
    rewrite minus_IZR.
    apply (nearest_integer_distance_intro _ _ (q + 1)%Z); [| lra].
    rewrite HD, plus_IZR, Rabs_left1; lra.
Qed.

Lemma quantize_spec (x : R) :
  exists n : Z, IZR (quantize x) = IZR (to_long x) + 16384 * IZR n.
Proof.
  unfold quantize. change FRAC2LONGMASK with (Z.ones 14).
  rewrite Z.land_ones by lia. change (2 ^ 14)%Z with 16384%Z.
  exists (- (to_long x / 16384))%Z.
  rewrite Z.mod_eq by lia. rewrite minus_IZR, mult_IZR, opp_IZR. lra.
Qed.

Lemma to_long_error (x : R) : Rabs (x * 16384 - IZR (to_long x)) < 1.
Proof. unfold to_long, FRAC2LONG. apply Rtrunc_error. Qed.

(** One axis: the folded difference of two quantized coordinates, in
    units of the cell edge, is within three quanta of the folded difference
    the exact branch computes from the same two coordinates. *)
Lemma axis_close (a b : R) :
  Rabs (IZR (fold_long (quantize b - quantize a)) * quantum
        - fold_real (reduce01 b - reduce01 a)) < 3 * quantum.
Proof.
  unfold quantum, FRAC2LONG.
  destruct (fold_real_nearest (reduce01 b - reduce01 a)) as [He _].
  destruct (reduce01_spec a) as (ka & Hka & _).
  destruct (reduce01_spec b) as (kb & Hkb & _).
  assert (nearest_integer_distance (b - a) (fold_real (reduce01 b - reduce01 a)))
    as He'.
  { replace (b - a) with (reduce01 b - reduce01 a + IZR (kb - ka))
      by (rewrite minus_IZR; lra).
    apply nearest_integer_distance_shift. exact He. }
  destruct (fold_long_nearest (quantize b - quantize a)) as (g & Hg & Hq).
  destruct (quantize_spec a) as (na & Hna).
  destruct (quantize_spec b) as (nb & Hnb).
  assert (nearest_integer_distance ((IZR (to_long b) - IZR (to_long a)) / 16384)
            (IZR g / 16384)) as Hq'.
  { replace ((IZR (to_long b) - IZR (to_long a)) / 16384)
      with (IZR (quantize b - quantize a) / 16384 + IZR (na - nb))
      by (rewrite !minus_IZR, Hna, Hnb; lra).
    apply nearest_integer_distance_shift. exact Hq. }
  pose proof (nearest_integer_distance_lipschitz _ _ _ _ Hq' He') as Hlip.
  pose proof (to_long_error a) as Ha. pose proof (to_long_error b) as Hb.
  apply Rabs_def2 in Ha, Hb.
  assert (Rabs ((IZR (to_long b) - IZR (to_long a)) / 16384 - (b - a)) < 2 / 16384)
    as Hd by (apply Rabs_def1; lra).
  assert (Rabs (IZR g / 16384 - fold_real (reduce01 b - reduce01 a)) < 2 / 16384)
    as Hge by lra.
  apply Rabs_def2 in Hge.
  assert (IZR g = IZR (fold_long (quantize b - quantize a))
          \/ IZR g = IZR (fold_long (quantize b - quantize a)) + 1) as Hg'.
  { destruct Hg as [-> | ->]; [left; reflexivity | right; apply plus_IZR]. }
  apply Rabs_def1; destruct Hg' as [Hg' | Hg']; lra.
Qed.

(** ** The squared distance of the two branches *)

Lemma vector_fast_scaled (cell : UnitCell) (xl yl zl : Z) :
  vector_fast cell xl yl zl
  = FractionalToOrthonormalCoords cell
      (IZR xl * quantum) (IZR yl * quantum) (IZR zl * quantum).
Proof.
  unfold vector_fast, FractionalToOrthonormalCoords, quantum.
  f_equal; [f_equal |]; unfold Rdiv; ring.
Qed.

Lemma Rabs_le_inv (x a : R) : Rabs x <= a -> - a <= x <= a.
Proof.
  intros H. unfold Rabs in H. destruct (Rcase_abs x); lra.
Qed.

Lemma Rabs_scale_le (m d e : R) : Rabs d <= e -> Rabs (m * d) <= Rabs m * e.
Proof.
  intros H. rewrite Rabs_mult. apply Rmult_le_compat_l; [apply Rabs_pos | exact H].
Qed.

(** A linear combination of three values moves by at most [e] times the
    sum of the magnitudes of its coefficients when each value moves by at
    most [e]; and it is at most half this sum on values between 0 and 1/2. *)
Lemma component_close (m0 m1 m2 g0 g1 g2 f0 f1 f2 e : R) :
  Rabs (g0 - f0) <= e -> Rabs (g1 - f1) <= e -> Rabs (g2 - f2) <= e ->
  Rabs ((m0 * g0 + m1 * g1 + m2 * g2) - (m0 * f0 + m1 * f1 + m2 * f2))
  <= e * (Rabs m0 + Rabs m1 + Rabs m2).
Proof.
  intros H0 H1 H2.
  replace ((m0 * g0 + m1 * g1 + m2 * g2) - (m0 * f0 + m1 * f1 + m2 * f2))
    with (m0 * (g0 - f0) + m1 * (g1 - f1) + m2 * (g2 - f2)) by ring.
  pose proof (Rabs_triang (m0 * (g0 - f0) + m1 * (g1 - f1)) (m2 * (g2 - f2))) as Ha.
  pose proof (Rabs_triang (m0 * (g0 - f0)) (m1 * (g1 - f1))) as Hb.
  pose proof (Rabs_scale_le m0 _ _ H0). pose proof (Rabs_scale_le m1 _ _ H1).
  pose proof (Rabs_scale_le m2 _ _ H2). lra.
Qed.

Lemma component_bound (m0 m1 m2 f0 f1 f2 : R) :
  0 <= f0 <= 1 / 2 -> 0 <= f1 <= 1 / 2 -> 0 <= f2 <= 1 / 2 ->
  Rabs (m0 * f0 + m1 * f1 + m2 * f2) <= (Rabs m0 + Rabs m1 + Rabs m2) / 2.
Proof.
  intros H0 H1 H2.
  pose proof (component_close m0 m1 m2 f0 f1 f2 0 0 0 (1 / 2)) as H.
  rewrite !Rminus_0_r, !Rmult_0_r, !Rplus_0_r, Rminus_0_r in H.
  assert (forall f, 0 <= f <= 1 / 2 -> Rabs f <= 1 / 2) as Hf
      by (intros f Hf; apply Rabs_le; lra).
  specialize (H (Hf _ H0) (Hf _ H1) (Hf _ H2)). lra.
Qed.

Lemma square_close (x y d B : R) :
  Rabs (x - y) <= d -> Rabs y <= B -> Rabs (x * x - y * y) <= d * (2 * B + d).
Proof.
  intros Hd HB.
  replace (x * x - y * y) with ((x - y) * (2 * y + (x - y))) by ring.
  rewrite Rabs_mult.
  pose proof (Rabs_pos (x - y)) as Hp.
  assert (Rabs (2 * y + (x - y)) <= 2 * B + d) as Hs.
  { pose proof (Rabs_triang (2 * y) (x - y)) as Ht.
    rewrite Rabs_mult, (Rabs_right 2) in Ht by lra. lra. }
  pose proof (Rabs_pos (2 * y + (x - y))) as Hp2.
  apply Rmult_le_compat; lra.
Qed.

(** One Cartesian component: the square of the quantized value is close
    to the square of the exact one. *)
Lemma component_square_close (m0 m1 m2 g0 g1 g2 f0 f1 f2 e : R) :
  0 <= e ->
  Rabs (g0 - f0) <= e -> Rabs (g1 - f1) <= e -> Rabs (g2 - f2) <= e ->
  0 <= f0 <= 1 / 2 -> 0 <= f1 <= 1 / 2 -> 0 <= f2 <= 1 / 2 ->
  let r := Rabs m0 + Rabs m1 + Rabs m2 in
  Rabs ((m0 * g0 + m1 * g1 + m2 * g2) * (m0 * g0 + m1 * g1 + m2 * g2)
        - (m0 * f0 + m1 * f1 + m2 * f2) * (m0 * f0 + m1 * f1 + m2 * f2))
  <= e * (1 + e) * (r * r).
Proof.
  intros He H0 H1 H2 F0 F1 F2 r.
  pose proof (component_close m0 m1 m2 _ _ _ _ _ _ e H0 H1 H2) as Hc.
  pose proof (component_bound m0 m1 m2 _ _ _ F0 F1 F2) as Hb.
  fold r in Hc, Hb.
  pose proof (square_close _ _ _ _ Hc Hb) as Hs.
  replace (e * (1 + e) * (r * r)) with (e * r * (2 * (r / 2) + e * r)) by field.
  exact Hs.
Qed.

(** The squared distances of the two branches, computed from the same
    two symmetrics. *)
Lemma dist2_close (cell : UnitCell) (i j i' j' : nat) (c cu : R * R * R) :
  Rabs (dist2 true cell (pos_fast i j c) (pos_fast i' j' cu)
        - dist2 false cell (pos_exact i j c) (pos_exact i' j' cu))
  <= 3 * quantum * (1 + 3 * quantum)
     * (row_sum cell 0 * row_sum cell 0 + row_sum cell 1 * row_sum cell 1
        + row_sum cell 2 * row_sum cell 2).
Proof.
  destruct c as [[x y] z], cu as [[xu yu] zu].
  unfold dist2, dist2_fast, dist2_exact, pos_fast, pos_exact.
  cbn [Pos.of_long Pos.of_real Pos.mXL Pos.mYL Pos.mZL Pos.mX Pos.mY Pos.mZ].
  rewrite vector_fast_scaled. unfold FractionalToOrthonormalCoords, norm2.
  pose proof (Rlt_le _ _ (axis_close xu x)) as Hx.
  pose proof (Rlt_le _ _ (axis_close yu y)) as Hy.
  pose proof (Rlt_le _ _ (axis_close zu z)) as Hz.
  destruct (fold_real_nearest (reduce01 x - reduce01 xu)) as [_ Fx].
  destruct (fold_real_nearest (reduce01 y - reduce01 yu)) as [_ Fy].
  destruct (fold_real_nearest (reduce01 z - reduce01 zu)) as [_ Fz].
  set (gx := IZR (fold_long (quantize x - quantize xu)) * quantum) in *.
  set (gy := IZR (fold_long (quantize y - quantize yu)) * quantum) in *.
  set (gz := IZR (fold_long (quantize z - quantize zu)) * quantum) in *.
  set (fx := fold_real (reduce01 x - reduce01 xu)) in *.
  set (fy := fold_real (reduce01 y - reduce01 yu)) in *.
  set (fz := fold_real (reduce01 z - reduce01 zu)) in *.
  set (M := GetOrthMatrix cell).
  assert (0 <= 3 * quantum) as He by (unfold quantum, FRAC2LONG; lra).
  pose proof (component_square_close (M 0%nat 0%nat) (M 0%nat 1%nat) (M 0%nat 2%nat)
                gx gy gz fx fy fz _ He Hx Hy Hz Fx Fy Fz) as H0.
  pose proof (component_square_close 0 (M 1%nat 1%nat) (M 1%nat 2%nat)
                gx gy gz fx fy fz _ He Hx Hy Hz Fx Fy Fz) as H1.
  pose proof (component_square_close 0 0 (M 2%nat 2%nat)
                gx gy gz fx fy fz _ He Hx Hy Hz Fx Fy Fz) as H2.
  cbv zeta in H0, H1, H2. rewrite Rabs_R0 in H1, H2.
  rewrite !Rmult_0_l, !Rplus_0_l in H1, H2.
  unfold row_sum. fold M.
  apply Rabs_le_inv in H0, H1, H2. apply Rabs_le. lra.
Qed.

(** What the quantized branch keeps of the minimum image is its
    magnitude too, or one quantum less. *)
Lemma fold_long_min_image (d : Z) :
  exists g : Z,
    (g = fold_long d \/ g = (fold_long d + 1)%Z)
    /\ IZR g * quantum = Rabs (min_image (IZR d * quantum)).
Proof.
  destruct (fold_long_nearest d) as (g & Hg & Hn).
  exists g. split; [exact Hg |].
  rewrite <- fold_real_min_image.
  destruct (fold_real_nearest (IZR d * quantum)) as [Hn' _].
  unfold quantum, FRAC2LONG in *.
  replace (IZR d * (1 / 16384)) with (IZR d / 16384) in * by lra.
  replace (IZR g * (1 / 16384)) with (IZR g / 16384) by lra.
  pose proof (nearest_integer_distance_lipschitz _ _ _ _ Hn Hn') as H.
  replace (IZR d / 16384 - IZR d / 16384) with 0 in H by lra.
  rewrite Rabs_R0 in H.
  destruct (Req_dec (IZR g / 16384 - fold_real (IZR d / 16384)) 0) as [He | Hne];
    [lra |].
  apply Rabs_pos_lt in Hne. lra.
Qed.

Lemma min_image_val (d : R) (k : Z) :
  IZR k <= d < IZR k + 1 ->
  min_image d = if Rltb 0.5 (d - IZR k) then d - IZR k - 1 else d - IZR k.
Proof.
  intros H. unfold min_image.
  assert (Int_part d = k) as -> by (symmetry; apply Int_part_spec; lra).
  reflexivity.
Qed.

(** Against C2 as it is worded: for the displacement [(1/4, 0, -1/4)] in
    a cell whose third axis leans on the first, the sign folding turns the
    component -1/4 into 4095 quanta (about +1/4) where the reduction to
    (-0.5,0.5] keeps -1/4, and the squared distance of the quantized branch
    exceeds the squared length of the minimum image by more than 12 square
    Angstroems, while the quantization error allowed for this cell is below
    0.1. *)
Lemma sign_folding_is_not_min_image :
  min_image (IZR (-4096) * quantum) = - (1 / 4)
  /\ IZR (fold_long (-4096)) * quantum = 4095 / 16384
  /\ dist2 true leaning_cell (pos_fast 0 0 (1 / 4, 0, 0)) (pos_fast 0 0 (0, 0, 1 / 4))
     - dist2_min_image leaning_cell (1 / 4 - 0) (0 - 0) (0 - 1 / 4) > 12
  /\ 3 * quantum * (1 + 3 * quantum)
     * (row_sum leaning_cell 0 * row_sum leaning_cell 0
        + row_sum leaning_cell 1 * row_sum leaning_cell 1
        + row_sum leaning_cell 2 * row_sum leaning_cell 2) < 1 / 10.
Proof.
  assert (min_image (- (1 / 4)) = - (1 / 4)) as Hneg.
  { rewrite (min_image_val _ (-1)) by lra. Rcompare. lra. }
  assert (min_image (1 / 4) = 1 / 4) as Hpos.
  { rewrite (min_image_val _ 0) by lra. Rcompare. lra. }
  assert (min_image 0 = 0) as Hzero.
  { rewrite (min_image_val _ 0) by lra. Rcompare. lra. }
  split.
  { replace (IZR (-4096) * quantum) with (- (1 / 4))
      by (unfold quantum, FRAC2LONG; lra).
    exact Hneg. }
  split.
  { change (fold_long (-4096)) with 4095%Z. unfold quantum, FRAC2LONG. lra. }
  split.
  - unfold dist2, dist2_fast, pos_fast.
    cbn [Pos.of_long Pos.mXL Pos.mYL Pos.mZL].
    rewrite (quantize_pos (1 / 4) 4096) by lra.
    rewrite (quantize_pos 0 0) by lra.
    change (fold_long (Z.land 4096 FRAC2LONGMASK - Z.land 0 FRAC2LONGMASK))
      with 4096%Z.
    change (fold_long (Z.land 0 FRAC2LONGMASK - Z.land 0 FRAC2LONGMASK)) with 0%Z.
    change (fold_long (Z.land 0 FRAC2LONGMASK - Z.land 4096 FRAC2LONGMASK))
      with 4095%Z.
    unfold dist2_min_image.
    replace (1 / 4 - 0) with (1 / 4) by lra.
    replace (0 - 0) with 0 by lra.
    replace (0 - 1 / 4) with (- (1 / 4)) by lra.
    rewrite Hneg, Hpos, Hzero.
    unfold norm2, vector_fast, FractionalToOrthonormalCoords, FRAC2LONG.
    cbn [GetOrthMatrix leaning_cell Nat.eqb andb]. lra.
  - unfold row_sum, quantum, FRAC2LONG.
    cbn [GetOrthMatrix leaning_cell Nat.eqb andb].
    rewrite !(Rabs_right 10), !(Rabs_right 5), !Rabs_R0 by lra. lra.
Qed.

(** ** [CalcDynPopCorr] *)

Lemma DynPopCorr_component_eq (o m : R) (tbl : list NeighbourHood)
    (comps : list ScatteringComponent) (i : nat) :
  DynPopCorr_component o m tbl comps i
  = alter (set_mDynPopCorr (dynPopCorr_of o m tbl comps i)) i comps.
Proof.
  unfold DynPopCorr_component, dynPopCorr_of.
  destruct (mpScattPow (comp_at comps i)); reflexivity.
Qed.

Lemma comp_at_power (comps : list ScatteringComponent) (k : nat) :
  mpScattPow (comp_at comps k) = nth k (map mpScattPow comps) None.
Proof.
  unfold comp_at.
  change None with (mpScattPow no_component). symmetry. apply map_nth.
Qed.

Lemma powers_alter (v : R) (i : nat) (comps : list ScatteringComponent) :
  map mpScattPow (alter (set_mDynPopCorr v) i comps) = map mpScattPow comps.
Proof.
  revert i. induction comps as [| c comps IH]; intros i; [reflexivity |].
  destruct i as [| i]; cbn; [reflexivity |].
  f_equal. apply IH.
Qed.

(** The loops of [CalcDynPopCorr] read the scattering powers of the
    components and nothing else of them. *)
Lemma neighborsDist_powers (c1 c2 : list ScatteringComponent) (a : Z) (oSq : R)
    (vnb : list Neighbour.t) :
  map mpScattPow c1 = map mpScattPow c2 ->
  neighborsDist c1 a oSq vnb = neighborsDist c2 a oSq vnb.
Proof.
  intros H. induction vnb as [| pos vnb IH]; [reflexivity |].
  cbn [neighborsDist]. rewrite !comp_at_power, H, IH. reflexivity.
Qed.

Lemma dynPopCorr_of_powers (o m : R) (tbl : list NeighbourHood)
    (c1 c2 : list ScatteringComponent) (i : nat) :
  map mpScattPow c1 = map mpScattPow c2 ->
  dynPopCorr_of o m tbl c1 i = dynPopCorr_of o m tbl c2 i.
Proof.
  intros H. unfold dynPopCorr_of. rewrite !comp_at_power, H.
  destruct (nth i (map mpScattPow c2) None); [| reflexivity].
  rewrite (neighborsDist_powers c1 c2 _ _ _ H). reflexivity.
Qed.

Lemma comp_at_alter_same (f : ScatteringComponent -> ScatteringComponent)
    (comps : list ScatteringComponent) (i : nat) :
  (i < length comps)%nat -> comp_at (alter f i comps) i = f (comp_at comps i).
Proof.
  intros Hi. unfold comp_at.
  destruct (lookup_lt_is_Some_2 comps i Hi) as [c Hc].
  rewrite (nth_lookup_Some _ _ _ _ Hc).
  apply nth_lookup_Some. rewrite list_lookup_alter_eq, Hc. reflexivity.
Qed.

Lemma comp_at_alter_other (f : ScatteringComponent -> ScatteringComponent)
    (comps : list ScatteringComponent) (i k : nat) :
  i <> k -> comp_at (alter f i comps) k = comp_at comps k.
Proof.
  intros Hik. unfold comp_at. rewrite !nth_lookup.
  rewrite list_lookup_alter_ne by exact Hik. reflexivity.
Qed.

Lemma DynPopCorr_fold_spec (o m : R) (tbl : list NeighbourHood) (l : list nat)
    (comps : list ScatteringComponent) :
  let r := fold_left (DynPopCorr_component o m tbl) l comps in
  map mpScattPow r = map mpScattPow comps
  /\ length r = length comps
  /\ (forall i, (i < length comps)%nat -> In i l ->
        mDynPopCorr (comp_at r i) = dynPopCorr_of o m tbl comps i)
  /\ (forall i, ~ In i l -> comp_at r i = comp_at comps i).
Proof.
  revert comps. induction l as [| a l IH]; intros comps; cbn zeta.
  - cbn [fold_left]. split; [reflexivity |]. split; [reflexivity |].
    split; [intros i _ [] | reflexivity].
  - cbn [fold_left]. rewrite DynPopCorr_component_eq.
    set (comps1 := alter (set_mDynPopCorr (dynPopCorr_of o m tbl comps a)) a comps).
    assert (map mpScattPow comps1 = map mpScattPow comps) as Hp
        by apply powers_alter.
    assert (length comps1 = length comps) as Hl by apply length_alter.
    specialize (IH comps1). cbv zeta in IH. destruct IH as (I1 & I2 & I3 & I4).
    split; [congruence |]. split; [congruence |]. split.
    + intros i Hi Hin. destruct (in_dec Nat.eq_dec i l) as [Hil | Hil].
      * rewrite I3 by (try lia; exact Hil).
        apply dynPopCorr_of_powers. exact Hp.
      * destruct Hin as [-> | Hin]; [| contradiction].
        rewrite I4 by exact Hil. subst comps1.
        rewrite comp_at_alter_same by exact Hi. reflexivity.
    + intros i Hni. rewrite I4 by (intros H; apply Hni; right; exact H).
      subst comps1. apply comp_at_alter_other. intros ->. apply Hni. left. reflexivity.
Qed.

(** [CalcDynPopCorr] stores in every component the factor computed from
    its own neighbours. *)
Lemma DynPopCorr_loop_spec (o m : R) (tbl : list NeighbourHood)
    (comps : list ScatteringComponent) (i : nat) :
  (i < length comps)%nat ->
  mDynPopCorr (comp_at (DynPopCorr_loop o m tbl comps) i)
  = dynPopCorr_of o m tbl comps i.
Proof.
  intros Hi. unfold DynPopCorr_loop.
  destruct (DynPopCorr_fold_spec o m tbl (seq 0 (length comps)) comps)
    as (_ & _ & H & _).
  apply H; [exact Hi |]. apply in_seq. lia.
Qed.

(** ** Two components at the same place *)

Lemma marked_retained (B : Branch) (useAU : bool) (i : nat)
    (sym : nat -> R * R * R) (j : nat) :
  marked B useAU i sym j = true -> retained B useAU i sym j = true.
Proof.
  unfold marked, retained. destruct useAU; [| reflexivity].
  intros H. apply andb_true_iff in H as [H _]. exact H.
Qed.

Lemma scan_symmetrics_vPos (B : Branch) (useAU : bool) (i : nat)
    (sym : nat -> R * R * R) (l : list nat) (st : Scan) :
  vPos (fold_left (scan_step B useAU i sym) l st)
  = vPos st ++ map (position B i sym) (List.filter (retained B useAU i sym) l).
Proof.
  revert st. induction l as [| j l IH]; intros st.
  - cbn [fold_left List.filter map]. rewrite app_nil_r. reflexivity.
  - cbn [fold_left List.filter]. rewrite IH, scan_step_spec. cbn [vPos].
    rewrite <- app_assoc. f_equal.
    destruct (retained B useAU i sym j); reflexivity.
Qed.

(** The index stored in [vUniqueIndex[i]] by the loop over the symmetrics
    of component [i] is the one of a position pushed by this loop, unless
    the loop marks nothing and leaves the index as it was. *)
Lemma scan_symmetrics_unique (B : Branch) (useAU : bool) (i : nat)
    (sym : nat -> R * R * R) (l : list nat) (st : Scan) :
  (i < length (vUniqueIndex st))%nat ->
  let st' := fold_left (scan_step B useAU i sym) l st in
  nth i (vUniqueIndex st') 0%nat = nth i (vUniqueIndex st) 0%nat
  \/ (length (vPos st) <= nth i (vUniqueIndex st') 0%nat < length (vPos st'))%nat.
Proof.
  revert st. induction l as [| j l IH]; intros st Hi; cbn zeta.
  - left. reflexivity.
  - cbn [fold_left].
    pose proof (scan_symmetrics_vPos B useAU i sym l (scan_step B useAU i sym st j))
      as Hgrow.
    specialize (IH (scan_step B useAU i sym st j)). cbv zeta in IH.
    revert IH Hgrow. rewrite scan_step_spec. cbn [vPos vUniqueIndex].
    intros IH Hgrow.
    destruct (marked B useAU i sym j) eqn:Hm.
    + rewrite (marked_retained _ _ _ _ _ Hm) in *.
      rewrite Hgrow, !length_app in *. cbn [length] in *.
      destruct IH as [IH | IH]; [rewrite length_insert; exact Hi | | ].
      * right. rewrite IH, nth_lookup, list_lookup_insert_eq by exact Hi.
        cbn. lia.
      * right. lia.
    + destruct IH as [IH | IH]; [exact Hi | left; exact IH |].
      right. rewrite Hgrow, !length_app in *.
      destruct (retained B useAU i sym j); cbn [length] in *; lia.
Qed.

(** The second loop nest fills the neighbours of component [i] from the
    unique position of this component. *)
Lemma dist_components_row (d2 : Pos.t -> Pos.t -> R) (st : Scan) (n : nat)
    (tbl : list NeighbourHood) (i : nat) :
  (i < length tbl)%nat ->
  mvNeighbour (hood_at (fold_left (dist_component d2 st) (seq 0 n) tbl) i)
  = if (i <? n)%nat
    then dist_scan d2 (nth (nth i (vUniqueIndex st) 0%nat) (vPos st) Pos.unset)
           (nth i (vUniqueIndex st) 0%nat) 0 (vPos st) (mvNeighbour (hood_at tbl i))
    else mvNeighbour (hood_at tbl i).
Proof.
  intros Hi. induction n as [| n IH].
  - reflexivity.
  - rewrite fold_left_seq_S. unfold dist_component at 1.
    destruct (dist_components_keep d2 st (seq 0 n) tbl i) as (Hlen & _).
    destruct (Nat.eq_dec n i) as [-> | Hne].
    + rewrite hood_at_alter_same by lia. cbn [set_mvNeighbour mvNeighbour].
      rewrite IH, Nat.ltb_irrefl.
      replace (i <? S i)%nat with true by (symmetry; apply Nat.ltb_lt; lia).
      reflexivity.
    + rewrite hood_at_alter_other by exact Hne. rewrite IH.
      destruct (Nat.ltb_spec i n), (Nat.ltb_spec i (S n)); try lia; reflexivity.
Qed.

(** Every position but the unique one gives a neighbour. *)
Lemma dist_scan_In (d2 : Pos.t -> Pos.t -> R) (pu : Pos.t) (u : nat)
    (ps : list Pos.t) (j : nat) (vnb : list Neighbour.t) (t : nat) (p : Pos.t) :
  ps !! t = Some p -> (j + t)%nat <> u ->
  In (Neighbour.mk (Pos.mAtomIndex p) (Pos.mSymmetryIndex p) (d2 p pu))
     (dist_scan d2 pu u j ps vnb).
Proof.
  assert (forall ps j vnb x, In x vnb -> In x (dist_scan d2 pu u j ps vnb)) as Hkeep.
  { clear. intros ps. induction ps as [| q ps IH]; intros j vnb x Hx; [exact Hx |].
    cbn [dist_scan]. apply IH. destruct (u =? j)%nat; [exact Hx |].
    apply in_or_app. left. exact Hx. }
  revert j vnb t. induction ps as [| q ps IH]; intros j vnb t Hp Hne.
  - rewrite lookup_nil in Hp. discriminate.
  - cbn [dist_scan]. destruct t as [| t].
    + cbn in Hp. injection Hp as ->. apply Hkeep.
      replace (u =? j)%nat with false
        by (symmetry; apply Nat.eqb_neq; lia).
      apply in_or_app. right. left. reflexivity.
    + cbn in Hp. apply (IH (S j) _ t Hp). lia.
Qed.

Lemma dist_scan_nil (d2 : Pos.t -> Pos.t -> R) (pu : Pos.t) (u j : nat)
    (vnb : list Neighbour.t) :
  dist_scan d2 pu u j [] vnb = vnb.
Proof. reflexivity. Qed.

(** Two positions with the same [long] coordinates are at distance 0. *)
Lemma dist2_fast_same (cell : UnitCell) (p q : Pos.t) :
  Pos.mXL p = Pos.mXL q -> Pos.mYL p = Pos.mYL q -> Pos.mZL p = Pos.mZL q ->
  dist2_fast cell p q = 0.
Proof.
  intros H1 H2 H3. unfold dist2_fast. rewrite H1, H2, H3, !Z.sub_diag.
  change (fold_long 0) with 0%Z. unfold norm2, vector_fast. lra.
Qed.

Lemma neighborsDist_In (comps : list ScatteringComponent) (a : Z) (oSq : R)
    (vnb : list Neighbour.t) (pos : Neighbour.t) (sp : ScatteringPower) :
  In pos vnb ->
  mpScattPow (comp_at comps (Neighbour.mNeighbourIndex pos)) = Some sp ->
  GetDynPopCorrIndex sp = a ->
  Neighbour.mDist2 pos < oSq ->
  In (sqrt (Neighbour.mDist2 pos)) (neighborsDist comps a oSq vnb).
Proof.
  intros Hin Hsp Ha Hd. induction vnb as [| q vnb IH]; [destruct Hin |].
  cbn [neighborsDist]. destruct Hin as [-> | Hin].
  - rewrite Hsp, Ha, Z.eqb_refl, Rltb_true by exact Hd. left. reflexivity.
  - specialize (IH Hin).
    destruct (mpScattPow (comp_at comps (Neighbour.mNeighbourIndex q)));
      [| exact IH].
    destruct ((a =? GetDynPopCorrIndex s)%Z && Rltb (Neighbour.mDist2 q) oSq)%bool;
      [right |]; exact IH.
Qed.

Lemma neighborsDist_nil_row (comps : list ScatteringComponent) (a : Z) (oSq : R) :
  neighborsDist comps a oSq [] = [].
Proof. reflexivity. Qed.

(** One neighbour at distance 0 halves the occupancy. *)
Lemma corr_single_overlap (o m : R) :
  0 <= m < o ->
  1 / (1 + fold_left (corr_step o m) [sqrt 0] 0) = 1 / 2.
Proof.
  intros H. cbn [fold_left]. unfold corr_step. rewrite sqrt_0.
  assert (Rabs ((o - (if Rltb (0 - m) 0 then 0 else 0 - m) - m) / (o - m)) = 1) as ->.
  { destruct (Rlt_dec (0 - m) 0) as [Hn | Hp].
    - rewrite Rltb_true by exact Hn.
      replace ((o - 0 - m) / (o - m)) with 1 by (field; lra).
      apply Rabs_R1.
    - rewrite Rltb_false by lra.
      assert (m = 0) as -> by lra.
      replace ((o - (0 - 0) - 0) / (o - 0)) with 1 by (field; lra).
      apply Rabs_R1. }
  lra.
Qed.

Lemma scan_component_unique (B : Branch) (useAU : bool) (sg : SpaceGroup)
    (i : nat) (c : ScatteringComponent) (st : Scan) :
  (i < length (vUniqueIndex st))%nat ->
  let st' := scan_component B useAU sg i c st in
  nth i (vUniqueIndex st') 0%nat = nth i (vUniqueIndex st) 0%nat
  \/ (length (vPos st) <= nth i (vUniqueIndex st') 0%nat < length (vPos st'))%nat.
Proof.
  intros Hi. cbv zeta. unfold scan_component.
  apply (scan_symmetrics_unique B useAU i _ _
           (mkScan (vPos st) (vUniqueIndex st) (alter (set_mIndex i) i (vTable st)))).
  exact Hi.
Qed.

Lemma pos_fast_fields (i j : nat) (c : R * R * R) :
  Pos.mAtomIndex (pos_fast i j c) = i
  /\ Pos.mSymmetryIndex (pos_fast i j c) = j
  /\ Pos.mXL (pos_fast i j c) = quantize (fst (fst c))
  /\ Pos.mYL (pos_fast i j c) = quantize (snd (fst c))
  /\ Pos.mZL (pos_fast i j c) = quantize (snd c).
Proof. destruct c as [[x y] z]. repeat split. Qed.

Lemma retained_fast_any (L : Limits) (useAU : bool) (i i' : nat)
    (sym : nat -> R * R * R) (j : nat) :
  retained (branch true L) useAU i sym j = retained (branch true L) useAU i' sym j.
Proof.
  unfold retained, position. cbn [branch mkpos near]. destruct useAU; [| reflexivity].
  unfold near_fast.
  destruct (pos_fast_fields i j (sym j)) as (_ & _ & -> & -> & ->).
  destruct (pos_fast_fields i' j (sym j)) as (_ & _ & -> & -> & ->).
  reflexivity.
Qed.

(** The positions and the unique indices of two components at the same place:
    the list of positions is made of two halves of the same length, the
    second one repeats the coordinates of the first, and each unique index
    is within the list as soon as the list is not empty. *)
Lemma scan_two_coincident (margin : R) (sg : SpaceGroup) (cell : UnitCell)
    (old : list NeighbourHood) (cA cB : ScatteringComponent) :
  mX cA = mX cB -> mY cA = mY cB -> mZ cA = mZ cB ->
  let st := scan_all true margin sg cell [cA; cB] old in
  exists (J : list nat) (sym : nat -> R * R * R),
    vPos st = map (fun j => pos_fast 0 j (sym j)) J
              ++ map (fun j => pos_fast 1 j (sym j)) J
    /\ length (vTable st) = 2%nat
    /\ (forall i, (i < 2)%nat -> mvNeighbour (hood_at (vTable st) i) = [])
    /\ (forall i, (i < 2)%nat -> J <> [] ->
          (nth i (vUniqueIndex st) 0%nat < 2 * length J)%nat).
Proof.
  intros Hx Hy Hz st. subst st. unfold scan_all.
  set (B := branch true (limits sg cell margin)).
  set (useAU := useAsymUnit sg).
  cbn [length scan_components].
  set (st0 := mkScan [] (replicate 2 0%nat) (clear_table (resize_table 2 old))).
  assert (length (vTable st0) = 2%nat) as Hlen0
      by (subst st0; cbn [vTable]; rewrite clear_table_length; apply resize_table_length).
  assert (forall i, mvNeighbour (hood_at (vTable st0) i) = []) as Hnb0
      by (intros i; subst st0; cbn [vTable]; rewrite hood_at_clear_table; reflexivity).
  destruct (scan_component_spec B useAU sg 0 cA st0)
    as (A1 & A2 & A3 & _ & _ & A6 & A7 & A8); [lia |].
  pose proof (scan_component_unique B useAU sg 0 cA st0) as AU.
  set (stA := scan_component B useAU sg 0 cA st0) in *.
  destruct (scan_component_spec B useAU sg 1 cB stA)
    as (B1 & B2 & B3 & _ & _ & B6 & B7 & B8); [lia |].
  pose proof (scan_component_unique B useAU sg 1 cB stA) as BU.
  set (stB := scan_component B useAU sg 1 cB stA) in *.
  cbv zeta in AU, BU.
  rewrite <- Hx, <- Hy, <- Hz in B3.
  set (sym := GetAllSymmetrics sg (mX cA) (mY cA) (mZ cA)) in *.
  set (J := List.filter (retained B useAU 0 sym) (seq 0 (GetNbSymmetrics sg))) in *.
  assert (List.filter (retained B useAU 1 sym) (seq 0 (GetNbSymmetrics sg)) = J) as HJ.
  { subst J. apply List.filter_ext. intros j. apply retained_fast_any. }
  rewrite HJ in B3.
  assert (vPos stA = map (fun j => pos_fast 0 j (sym j)) J) as HvA
      by (rewrite A3; subst st0; reflexivity).
  assert (length (vUniqueIndex st0) = 2%nat) as HlenU
      by (subst st0; reflexivity).
  exists J, sym.
  split; [rewrite B3, HvA; reflexivity |].
  split; [lia |].
  split.
  { intros i Hi. destruct i as [| [| i]]; [| | lia].
    - rewrite (B7 0%nat) by lia. rewrite A6. apply Hnb0.
    - rewrite B6. rewrite (A7 1%nat) by lia. apply Hnb0. }
  intros i Hi HJne.
  assert (0 < length J)%nat as Hr by (destruct J; [contradiction | cbn; lia]).
  assert (length (vPos stA) = length J) as HlA by (rewrite HvA; apply length_map).
  assert (length (vPos stB) = (2 * length J)%nat) as HlB
      by (rewrite B3, HvA, length_app, !length_map; lia).
  destruct i as [| [| i]]; [| | lia].
  - rewrite (B8 0%nat) by lia.
    destruct AU as [AU | AU]; [lia | | ].
    + rewrite AU. subst st0. cbn. lia.
    + lia.
  - destruct BU as [BU | BU]; [lia | | ].
    + rewrite BU. rewrite (A8 1%nat) by lia. subst st0. cbn. lia.
    + lia.
Qed.

Lemma dist2_fast_coincident (cell : UnitCell) (i j i' j' : nat) (c : R * R * R) :
  dist2 true cell (pos_fast i j c) (pos_fast i' j' c) = 0.
Proof.
  unfold dist2. destruct c as [[x y] z]. apply dist2_fast_same; reflexivity.
Qed.

(** In the table of two components at the same place, each component has
    no neighbour at all or has a neighbour at distance 0. *)
Lemma coincident_contact (margin : R) (sg : SpaceGroup) (cell : UnitCell)
    (old : list NeighbourHood) (cA cB : ScatteringComponent) (i : nat) :
  mX cA = mX cB -> mY cA = mY cB -> mZ cA = mZ cB -> (i < 2)%nat ->
  let row := mvNeighbour (hood_at (build_table true margin sg cell [cA; cB] old) i) in
  row = []
  \/ exists nb, In nb row /\ Neighbour.mDist2 nb = 0
                /\ (Neighbour.mNeighbourIndex nb < 2)%nat.
Proof.
  intros Hx Hy Hz Hi row. subst row.
  destruct (scan_two_coincident margin sg cell old cA cB Hx Hy Hz)
    as (J & sym & Hv & Hlen & Hnb & Hu).
  unfold build_table.
  set (st := scan_all true margin sg cell [cA; cB] old) in *.
  rewrite dist_components_row by lia.
  replace (i <? length [cA; cB])%nat with true
    by (symmetry; apply Nat.ltb_lt; cbn; lia).
  rewrite (Hnb i Hi).
  destruct (decide (J = [])) as [-> | HJ].
  { left. rewrite Hv. reflexivity. }
  right. specialize (Hu i Hi HJ).
  set (u := nth i (vUniqueIndex st) 0%nat) in *.
  set (EA := map (fun j => pos_fast 0 j (sym j)) J) in *.
  set (EB := map (fun j => pos_fast 1 j (sym j)) J) in *.
  assert (length EA = length J) as HlA by apply length_map.
  assert (length EB = length J) as HlB by apply length_map.
  destruct (Nat.lt_ge_cases u (length J)) as [Hlow | Hhigh].
  - destruct (lookup_lt_is_Some_2 J u Hlow) as [ju Hju].
    assert (vPos st !! u = Some (pos_fast 0 ju (sym ju))) as Hpu.
    { rewrite Hv, lookup_app_l by lia. subst EA.
      rewrite list_lookup_fmap, Hju. reflexivity. }
    assert (vPos st !! (length J + u)%nat = Some (pos_fast 1 ju (sym ju))) as Hpt.
    { rewrite Hv, lookup_app_r by lia. subst EB.
      replace (length J + u - length EA)%nat with u by lia.
      rewrite list_lookup_fmap, Hju. reflexivity. }
    rewrite (nth_lookup_Some _ _ _ _ Hpu).
    eexists. split; [apply (dist_scan_In _ _ _ _ 0 _ _ _ Hpt); lia |].
    cbn [Neighbour.mDist2 Neighbour.mNeighbourIndex].
    rewrite dist2_fast_coincident.
    destruct (pos_fast_fields 1 ju (sym ju)) as (-> & _). split; [reflexivity | lia].
  - assert (u - length J < length J)%nat as Hk by lia.
    destruct (lookup_lt_is_Some_2 J _ Hk) as [jk Hjk].
    assert (vPos st !! u = Some (pos_fast 1 jk (sym jk))) as Hpu.
    { rewrite Hv, lookup_app_r by lia. subst EB.
      rewrite HlA, list_lookup_fmap, Hjk. reflexivity. }
    assert (vPos st !! (u - length J)%nat = Some (pos_fast 0 jk (sym jk))) as Hpt.
    { rewrite Hv, lookup_app_l by lia. subst EA.
      rewrite list_lookup_fmap, Hjk. reflexivity. }
    rewrite (nth_lookup_Some _ _ _ _ Hpu).
    eexists. split; [apply (dist_scan_In _ _ _ _ 0 _ _ _ Hpt); lia |].
    cbn [Neighbour.mDist2 Neighbour.mNeighbourIndex].
    rewrite dist2_fast_coincident.
    destruct (pos_fast_fields 0 jk (sym jk)) as (-> & _). split; [reflexivity | lia].
Qed.

(** C5. Two sites of the same species at the same coordinates: when the
    distance table built by [CalcDynPopCorr] holds for one of them exactly
    one contact of its species closer than [overlapDist], this contact is
    the other site at distance 0, and the correction factor of the site is
    1/(1+1) = 0.5, for every merge distance from 0 to below [overlapDist]. *)
Theorem two_coincident_sites_half (sg : SpaceGroup) (cell : UnitCell)
    (old : list NeighbourHood) (x y z occ1 dyn1 occ2 dyn2 : R)
    (p : ScatteringPower) (overlapDist mergeDist : R) (i : nat) :
  let comps := [mkScatteringComponent x y z occ1 dyn1 (Some p);
                mkScatteringComponent x y z occ2 dyn2 (Some p)] in
  let tbl := build_table true overlapDist sg cell comps old in
  0 <= mergeDist < overlapDist ->
  (i < 2)%nat ->
  length (neighborsDist comps (GetDynPopCorrIndex p) (overlapDist * overlapDist)
            (mvNeighbour (hood_at tbl i))) = 1%nat ->
  mDynPopCorr (comp_at (DynPopCorr_loop overlapDist mergeDist tbl comps) i) = 1 / 2.
Proof.
  intros comps tbl Hm Hi Hone.
  rewrite DynPopCorr_loop_spec by (cbn; lia).
  assert (forall k, (k < 2)%nat -> mpScattPow (comp_at comps k) = Some p) as Hpow.
  { intros k Hk. destruct k as [| [| k]]; [reflexivity | reflexivity | lia]. }
  unfold dynPopCorr_of. rewrite (Hpow i Hi).
  destruct (coincident_contact overlapDist sg cell old
              (mkScatteringComponent x y z occ1 dyn1 (Some p))
              (mkScatteringComponent x y z occ2 dyn2 (Some p)) i
              eq_refl eq_refl eq_refl Hi) as [Hnil | (nb & Hin & Hd & Hidx)].
  { fold comps tbl in Hnil. rewrite Hnil in Hone. discriminate Hone. }
  fold comps tbl in Hin.
  assert (In (sqrt 0)
            (neighborsDist comps (GetDynPopCorrIndex p) (overlapDist * overlapDist)
               (mvNeighbour (hood_at tbl i)))) as Hzero.
  { rewrite <- Hd. apply (neighborsDist_In _ _ _ _ nb p Hin).
    - apply Hpow. exact Hidx.
    - reflexivity.
    - rewrite Hd. nra. }
  destruct (neighborsDist comps (GetDynPopCorrIndex p) (overlapDist * overlapDist)
              (mvNeighbour (hood_at tbl i))) as [| d [| d' l]];
    [discriminate Hone | | discriminate Hone].
  destruct Hzero as [-> | []].
  apply corr_single_overlap. exact Hm.
Qed.

Lemma table_two_in_P1 :
  first_table sg_P1 cubic10 [atom power_A 0 0 0; atom power_A 0 0 0]
  = [mkNeighbourHood 0 0 [Neighbour.mk 1 0 0]; mkNeighbourHood 1 0 [Neighbour.mk 0 0 0]].
Proof.
  unfold first_table, build_table, scan_all. rewrite useAsymUnit_P1.
  transitivity
    [mkNeighbourHood 0 0
       [Neighbour.mk 1 0 (dist2 true cubic10 (pos_fast 1 0 (0, 0, 0))
                                              (pos_fast 0 0 (0, 0, 0)))];
     mkNeighbourHood 1 0
       [Neighbour.mk 0 0 (dist2 true cubic10 (pos_fast 0 0 (0, 0, 0))
                                              (pos_fast 1 0 (0, 0, 0)))]].
  - reflexivity.
  - rewrite !dist2_fast_coincident. reflexivity.
Qed.

Lemma two_coincident_sites_half_witness :
  0 <= 0.5 < 1 /\ (0 < 2)%nat
  /\ length (neighborsDist (all_components [atom power_A 0 0 0; atom power_A 0 0 0])
               (GetDynPopCorrIndex power_A) (1 * 1)
               (mvNeighbour
                  (hood_at (first_table sg_P1 cubic10
                              [atom power_A 0 0 0; atom power_A 0 0 0]) 0))) = 1%nat
  /\ mDynPopCorr
       (comp_at (mScattCompList
                   (after_first_read sg_P1 cubic10
                      [atom power_A 0 0 0; atom power_A 0 0 0])) 0) = 1 / 2.
Proof.
  assert (length (neighborsDist (all_components [atom power_A 0 0 0; atom power_A 0 0 0])
               (GetDynPopCorrIndex power_A) (1 * 1)
               (mvNeighbour
                  (hood_at (first_table sg_P1 cubic10
                              [atom power_A 0 0 0; atom power_A 0 0 0]) 0))) = 1%nat)
    as Hone.
  { rewrite table_two_in_P1.
    cbn [hood_at nth mvNeighbour neighborsDist all_components map concat app
         scattCompList atom comp_at Neighbour.mNeighbourIndex Neighbour.mDist2
         mpScattPow GetDynPopCorrIndex power_A Z.eqb Pos.eqb andb].
    rewrite (Rltb_true 0 (1 * 1)) by lra. reflexivity. }
  split; [lra |]. split; [lia |]. split; [exact Hone |].
  exact (two_coincident_sites_half sg_P1 cubic10 [] 0 0 0 1 1 1 1 power_A 1 0.5 0
           ltac:(lra) ltac:(lia) Hone).
Defined.

(** The table of two atoms at the origin of P-1: their four symmetrics are
    at the origin, and each unique position has the three others as
    neighbours at distance 0. *)
Lemma table_two_at_origin :
  first_table sg_Pbar1 cubic10 [atom power_A 0 0 0; atom power_A 0 0 0]
  = [mkNeighbourHood 0 1
       [Neighbour.mk 0 0 0; Neighbour.mk 1 0 0; Neighbour.mk 1 1 0];
     mkNeighbourHood 1 1
       [Neighbour.mk 0 0 0; Neighbour.mk 0 1 0; Neighbour.mk 1 0 0]].
Proof.
  unfold first_table, build_table, scan_all. rewrite useAsymUnit_Pbar1.
  cbn [all_components map concat app scattCompList atom length replicate resize_table
       take Nat.sub clear_table seq scan_components scan_component fold_left
       GetNbSymmetrics GetAllSymmetrics sg_Pbar1 mX mY mZ vPos vUniqueIndex vTable
       Nat.eqb].
  unfold scan_step. cbn [branch mkpos near strict pos_fast Nat.eqb].
  rewrite !near_fast_Pbar1, !strict_fast_Pbar1.
  rewrite (quantize_pos 0 0) by lra.
  rewrite (quantize_pos (- 0) 0) by lra.
  transitivity
    [mkNeighbourHood 0 1
       [Neighbour.mk 0 0 (dist2_fast cubic10 (Pos.of_long 0 0 0 0 0) (Pos.of_long 0 1 0 0 0));
        Neighbour.mk 1 0 (dist2_fast cubic10 (Pos.of_long 1 0 0 0 0) (Pos.of_long 0 1 0 0 0));
        Neighbour.mk 1 1 (dist2_fast cubic10 (Pos.of_long 1 1 0 0 0) (Pos.of_long 0 1 0 0 0))];
     mkNeighbourHood 1 1
       [Neighbour.mk 0 0 (dist2_fast cubic10 (Pos.of_long 0 0 0 0 0) (Pos.of_long 1 1 0 0 0));
        Neighbour.mk 0 1 (dist2_fast cubic10 (Pos.of_long 0 1 0 0 0) (Pos.of_long 1 1 0 0 0));
        Neighbour.mk 1 0 (dist2_fast cubic10 (Pos.of_long 1 0 0 0 0) (Pos.of_long 1 1 0 0 0))]].
  - reflexivity.
  - rewrite !dist2_fast_same by reflexivity. reflexivity.
Qed.

Lemma corr_three_overlaps :
  1 / (1 + fold_left (corr_step 1 0.5) [sqrt 0; sqrt 0; sqrt 0] 0) = 1 / 4.
Proof.
  cbn [fold_left]. unfold corr_step. rewrite sqrt_0.
  rewrite (Rltb_true (0 - 0.5) 0) by lra.
  replace ((1 - 0 - 0.5) / (1 - 0.5)) with 1 by (field; lra).
  rewrite Rabs_R1. lra.
Qed.

(** Against C5 as it is worded: two atoms of the same species at the
    origin of P-1, an inversion centre. Each of them sees the other one and
    the two symmetry images at distance 0, three overlapping neighbours, and
    the factor [GetScatteringComponentList] computes with
    [CalcDynPopCorr(1.,.5)] is 1/(1+3) = 0.25 for both, not 0.5. *)
Lemma coincident_sites_on_inversion_centre :
  exists s',
    GetScatteringComponentList 2 crystal_two_at_origin = Some s'
    /\ map mpScattPow (mScattCompList s') = [Some power_A; Some power_A]
    /\ mDynPopCorr (comp_at (mScattCompList s') 0) = 1 / 4
    /\ mDynPopCorr (comp_at (mScattCompList s') 1) = 1 / 4.
Proof.
  eexists. split; [apply GetScatteringComponentList_new; reflexivity |].
  cbn [mScattCompList after_first_read].
  assert (forall i, (i < 2)%nat ->
            mDynPopCorr
              (comp_at (DynPopCorr_loop 1 0.5
                          (first_table sg_Pbar1 cubic10
                             [atom power_A 0 0 0; atom power_A 0 0 0])
                          (all_components [atom power_A 0 0 0; atom power_A 0 0 0])) i)
            = 1 / 4) as H.
  { intros i Hi. rewrite DynPopCorr_loop_spec by (cbn; lia).
    rewrite table_two_at_origin. unfold dynPopCorr_of.
    destruct i as [| [| i]]; [| | lia];
      cbn [hood_at nth mvNeighbour neighborsDist all_components map concat app
           scattCompList atom comp_at Neighbour.mNeighbourIndex Neighbour.mDist2
           mpScattPow GetDynPopCorrIndex power_A Z.eqb Pos.eqb andb];
      rewrite (Rltb_true 0 (1 * 1)) by lra; cbn iota;
      apply corr_three_overlaps. }
  split.
  - destruct (DynPopCorr_fold_spec 1 0.5
                (first_table sg_Pbar1 cubic10 [atom power_A 0 0 0; atom power_A 0 0 0])
                (seq 0 2) (all_components [atom power_A 0 0 0; atom power_A 0 0 0]))
      as (Hp & _).
    exact Hp.
  - split; apply H; lia.
Qed.

(** ** [CalcBondValenceSum] *)

Lemma valence_fold_spec (ros : gmap (Z * Z) R) (comps : list ScatteringComponent)
    (pow1 : Z) (row : list Neighbour.t) (nb : nat) (val : R) :
  fold_left (valence_neigh ros comps pow1) row (nb, val)
  = ((nb + length (omap (valence_term ros comps pow1) row))%nat,
     val + sum_R (omap (valence_term ros comps pow1) row)).
Proof.
  revert nb val. induction row as [| pos row IH]; intros nb val.
  - cbn. f_equal; [lia | lra].
  - cbn [fold_left omap list_omap]. fold (omap (valence_term ros comps pow1) row).
    assert (valence_neigh ros comps pow1 (nb, val) pos
            = match valence_term ros comps pow1 pos with
              | Some t => (S nb, val + t)
              | None => (nb, val)
              end) as ->.
    { unfold valence_neigh, valence_term.
      destruct (ros !! pair_key pow1
                  (ptr (mpScattPow (comp_at comps (Neighbour.mNeighbourIndex pos)))));
        reflexivity. }
    destruct (valence_term ros comps pow1 pos); rewrite IH;
      cbn [length sum_R fold_right];
      fold (sum_R (omap (valence_term ros comps pow1) row)); f_equal; try lia; lra.
Qed.

Lemma valence_component_spec (ros : gmap (Z * Z) R)
    (comps : list ScatteringComponent) (tbl : list NeighbourHood)
    (calc : gmap nat R) (i : nat) :
  valence_component ros comps tbl calc i
  = match valence_terms ros comps tbl i with
    | [] => calc
    | ts => <[i := sum_R ts]> calc
    end.
Proof.
  unfold valence_component, valence_terms. rewrite valence_fold_spec.
  destruct (omap _ (mvNeighbour (hood_at tbl i))) as [| t ts].
  - reflexivity.
  - cbn [length Nat.add Nat.eqb]. f_equal. lra.
Qed.

(** The map [CalcBondValenceSum] fills: component [i] has an entry, the
    sum of the contributions of its neighbours, exactly when at least one
    neighbour contributes. *)
Lemma valence_sums_spec (ros : gmap (Z * Z) R) (comps : list ScatteringComponent)
    (tbl : list NeighbourHood) (i : nat) :
  valence_sums ros comps tbl !! i
  = if (i <? length comps)%nat
    then match valence_terms ros comps tbl i with
         | [] => None
         | ts => Some (sum_R ts)
         end
    else None.
Proof.
  unfold valence_sums. induction (length comps) as [| n IH].
  - cbn. apply lookup_empty.
  - rewrite fold_left_seq_S, valence_component_spec.
    destruct (Nat.eq_dec i n) as [-> | Hne].
    + replace (n <? S n)%nat with true by (symmetry; apply Nat.ltb_lt; lia).
      rewrite Nat.ltb_irrefl in IH.
      destruct (valence_terms ros comps tbl n) as [| t ts]; [exact IH |].
      apply lookup_insert_eq.
    + assert ((i <? S n)%nat = (i <? n)%nat) as ->.
      { destruct (Nat.ltb_spec i n), (Nat.ltb_spec i (S n)); try lia; reflexivity. }
      destruct (valence_terms ros comps tbl n) as [| t ts]; [exact IH |].
      rewrite lookup_insert_ne by congruence. exact IH.
Qed.

(** C7. [CalcBondValenceSum] comes to an end; when reference lengths are
    configured, the map of valence sums it leaves holds, for each component
    with at least one neighbour whose pair of scattering powers has a
    reference length [R0], the sum over these neighbours of
    [occupancy * dynamical occupancy correction * exp((R0 - d)/0.37)], and
    no entry for the other components. When no reference length is
    configured, the call returns at once and leaves the state, and so the
    map of valence sums, as it is. *)
Theorem CalcBondValenceSum_sums (fuel : nat) (s : Crystal) :
  clocks_wf s -> bondValenceCalc_coherent s -> (2 <= fuel)%nat ->
  size (mvBondValenceRo s) <> 0%nat ->
  exists s',
    CalcBondValenceSum fuel s = Some s'
    /\ mvBondValenceRo s' = mvBondValenceRo s
    /\ (forall i,
          mvBondValenceCalc s' !! i
          = if (i <? length (mScattCompList s'))%nat
            then match valence_terms (mvBondValenceRo s) (mScattCompList s')
                         (mvDistTableSq s') i with
                 | [] => None
                 | ts => Some (sum_R ts)
                 end
            else None)
    /\ (forall ros comps pow1 pos,
          valence_term ros comps pow1 pos
          = match ros !! pair_key pow1
                    (ptr (mpScattPow (comp_at comps (Neighbour.mNeighbourIndex pos))))
            with
            | None => None
            | Some R0 =>
                Some (mOccupancy (comp_at comps (Neighbour.mNeighbourIndex pos))
                      * mDynPopCorr (comp_at comps (Neighbour.mNeighbourIndex pos))
                      * exp ((R0 - sqrt (Neighbour.mDist2 pos)) / 0.37))
            end)
    /\ (forall fuel0 s0,
          size (mvBondValenceRo s0) = 0%nat ->
          CalcBondValenceSum fuel0 s0 = Some s0).
Proof.
  intros Hwf Hcoh Hfuel Hsz.
  assert (forall fuel0 s0,
            size (mvBondValenceRo s0) = 0%nat ->
            CalcBondValenceSum fuel0 s0 = Some s0) as Hnone.
  { intros fuel0 s0 H0. unfold CalcBondValenceSum. rewrite H0. reflexivity. }
  destruct fuel as [| [| fuel]]; [lia | lia | clear Hfuel].
  apply Nat.eqb_neq in Hsz.
  unfold CalcBondValenceSum. rewrite Hsz.
  destruct (CalcDistTable_ok fuel true 5 s Hwf)
    as (s1 & Hs1 & Hwf1 & Hf1 & Hd1 & Hfr1 & Hk1 & Hcase).
  rewrite Hs1. frame_intro Hfr1.
  destruct ((mDistTableClock s1 <? mBondValenceCalcClock s1)%nat
            && (mBondValenceParClock s1 <? mBondValenceCalcClock s1)%nat)%bool eqn:Hv.
  - exists s1. split; [reflexivity |]. split; [assumption |].
    split; [| split; [reflexivity | exact Hnone]].
    apply andb_true_iff in Hv as [Ha Hb]. apply Nat.ltb_lt in Ha, Hb.
    destruct Hcase as [(-> & _ & _) | Hlt].
    + intros i. rewrite Hcoh by (split; assumption). apply valence_sums_spec.
    + wf_intro Hwf. lia.
  - eexists. split; [reflexivity |]. unfold_setters.
    split; [assumption |]. split; [| split; [reflexivity | exact Hnone]].
    intros i. rewrite valence_sums_spec.
    match goal with H : mvBondValenceRo s1 = _ |- _ => rewrite H end. reflexivity.
Qed.

Lemma CalcBondValenceSum_sums_witness :
  clocks_wf (AddBondValenceRo power_A power_B 2 crystal_AB)
  /\ bondValenceCalc_coherent (AddBondValenceRo power_A power_B 2 crystal_AB)
  /\ (2 <= 2)%nat
  /\ size (mvBondValenceRo (AddBondValenceRo power_A power_B 2 crystal_AB)) <> 0%nat
  /\ exists s',
      CalcBondValenceSum 2 (AddBondValenceRo power_A power_B 2 crystal_AB) = Some s'
      /\ forall i,
           mvBondValenceCalc s' !! i
           = if (i <? length (mScattCompList s'))%nat
             then match valence_terms
                          (mvBondValenceRo (AddBondValenceRo power_A power_B 2 crystal_AB))
                          (mScattCompList s') (mvDistTableSq s') i with
                  | [] => None
                  | ts => Some (sum_R ts)
                  end
             else None.
Proof.
  assert (clocks_wf (AddBondValenceRo power_A power_B 2 crystal_AB)) as Hwf.
  { apply AddBondValenceRo_wf, new_crystal_wf. repeat constructor. }
  assert (bondValenceCalc_coherent (AddBondValenceRo power_A power_B 2 crystal_AB))
    as Hcoh.
  { intros [H _]. cbn in H. lia. }
  assert (size (mvBondValenceRo (AddBondValenceRo power_A power_B 2 crystal_AB))
          <> 0%nat) as Hsz.
  { cbn [AddBondValenceRo mvBondValenceRo Click_mBondValenceParClock
         set_mvBondValenceRo crystal_AB new_crystal].
    rewrite map_size_insert, lookup_empty. cbn. lia. }
  split; [exact Hwf |]. split; [exact Hcoh |]. split; [lia |]. split; [exact Hsz |].
  destruct (CalcBondValenceSum_sums 2 _ Hwf Hcoh (le_n 2) Hsz)
    as (s' & H1 & _ & H3 & _).
  exists s'. split; assumption.
Defined.

Lemma DynPopCorr_fold_frame (o m : R) (tbl : list NeighbourHood) (l : list nat)
    (comps : list ScatteringComponent) (i : nat) :
  set_mDynPopCorr 0 (comp_at (fold_left (DynPopCorr_component o m tbl) l comps) i)
  = set_mDynPopCorr 0 (comp_at comps i).
Proof.
  revert comps. induction l as [| a l IH]; intros comps; [reflexivity |].
  cbn [fold_left]. rewrite IH, DynPopCorr_component_eq.
  destruct (Nat.eq_dec a i) as [-> | Hne].
  - destruct (Nat.lt_ge_cases i (length comps)) as [Hi | Hi].
    + rewrite comp_at_alter_same by exact Hi. reflexivity.
    + unfold comp_at. rewrite !nth_lookup, list_lookup_alter_eq.
      rewrite (lookup_ge_None_2 comps i Hi). reflexivity.
  - rewrite comp_at_alter_other by exact Hne. reflexivity.
Qed.

(** [CalcDynPopCorr] changes [mDynPopCorr] and nothing else. *)
Lemma DynPopCorr_loop_comp (o m : R) (tbl : list NeighbourHood)
    (comps : list ScatteringComponent) (i : nat) :
  (i < length comps)%nat ->
  comp_at (DynPopCorr_loop o m tbl comps) i
  = set_mDynPopCorr (dynPopCorr_of o m tbl comps i) (comp_at comps i).
Proof.
  intros Hi.
  pose proof (DynPopCorr_loop_spec o m tbl comps i Hi) as Hv.
  pose proof (DynPopCorr_fold_frame o m tbl (seq 0 (length comps)) comps i) as Hf.
  fold (DynPopCorr_loop o m tbl comps) in Hf.
  destruct (comp_at (DynPopCorr_loop o m tbl comps) i) as [x y z oc dy pw].
  destruct (comp_at comps i) as [x' y' z' oc' dy' pw'].
  cbn in Hv, Hf |- *. injection Hf as -> -> -> -> ->. rewrite Hv. reflexivity.
Qed.

(** The table of the crystal with an atom A at the origin of P-1 and an
    atom B at [(1/4,0,0)]: the image of B is too far from the asymmetric
    unit to be retained; B sees the two symmetrics of A. *)
Lemma table_AB :
  first_table sg_Pbar1 cubic10 [atom power_A 0 0 0; atom power_B (1 / 4) 0 0]
  = [mkNeighbourHood 0 1
       [Neighbour.mk 0 0 0;
        Neighbour.mk 1 0 (norm2 (vector_fast cubic10 4096 0 0))];
     mkNeighbourHood 1 0
       [Neighbour.mk 0 0 (norm2 (vector_fast cubic10 4095 0 0));
        Neighbour.mk 0 1 (norm2 (vector_fast cubic10 4095 0 0))]].
Proof.
  unfold first_table, build_table, scan_all. rewrite useAsymUnit_Pbar1.
  cbn [all_components map concat app scattCompList atom length replicate resize_table
       take Nat.sub clear_table seq scan_components scan_component fold_left
       GetNbSymmetrics GetAllSymmetrics sg_Pbar1 mX mY mZ vPos vUniqueIndex vTable
       Nat.eqb].
  unfold scan_step. cbn [branch mkpos near strict pos_fast Nat.eqb].
  rewrite !near_fast_Pbar1, !strict_fast_Pbar1.
  rewrite (quantize_pos 0 0) by lra.
  rewrite (quantize_pos (- 0) 0) by lra.
  rewrite (quantize_pos (1 / 4) 4096) by lra.
  rewrite (quantize_neg (- (1 / 4)) (-4096)) by lra.
  transitivity
    [mkNeighbourHood 0 1
       [Neighbour.mk 0 0
          (dist2_fast cubic10 (Pos.of_long 0 0 0 0 0) (Pos.of_long 0 1 0 0 0));
        Neighbour.mk 1 0 (norm2 (vector_fast cubic10 4096 0 0))];
     mkNeighbourHood 1 0
       [Neighbour.mk 0 0 (norm2 (vector_fast cubic10 4095 0 0));
        Neighbour.mk 0 1 (norm2 (vector_fast cubic10 4095 0 0))]].
  - reflexivity.
  - rewrite dist2_fast_same by reflexivity. reflexivity.
Qed.

(** Against C7 as it is worded: atom A, on the inversion centre, has the
    dynamical occupancy correction 1/2; the valence sum of atom B adds, for
    each of the two symmetrics of A, [occupancy * correction * exp(...)],
    that is half of [occupancy * exp(...)]. *)
Lemma valence_uses_dynamical_occupancy :
  exists s1 s2 v,
    GetScatteringComponentList 2 crystal_AB = Some s1
    /\ CalcBondValenceSum 2 (AddBondValenceRo power_A power_B 2 s1) = Some s2
    /\ mOccupancy (comp_at (mScattCompList s2) 0) = 1
    /\ mDynPopCorr (comp_at (mScattCompList s2) 0) = 1 / 2
    /\ mvNeighbour (hood_at (mvDistTableSq s2) 1)
       = [Neighbour.mk 0 0 (norm2 (vector_fast cubic10 4095 0 0));
          Neighbour.mk 0 1 (norm2 (vector_fast cubic10 4095 0 0))]
    /\ mvBondValenceCalc s2 !! 1%nat = Some v
    /\ v = sum_R
             [1 * (1 / 2) * exp ((2 - sqrt (norm2 (vector_fast cubic10 4095 0 0))) / 0.37);
              1 * (1 / 2) * exp ((2 - sqrt (norm2 (vector_fast cubic10 4095 0 0))) / 0.37)]
    /\ v <> sum_R
              [1 * exp ((2 - sqrt (norm2 (vector_fast cubic10 4095 0 0))) / 0.37);
               1 * exp ((2 - sqrt (norm2 (vector_fast cubic10 4095 0 0))) / 0.37)].
Proof.
  set (scs := [atom power_A 0 0 0; atom power_B (1 / 4) 0 0]).
  set (s1 := after_first_read sg_Pbar1 cubic10 scs).
  set (s1' := AddBondValenceRo power_A power_B 2 s1).
  set (e := exp ((2 - sqrt (norm2 (vector_fast cubic10 4095 0 0))) / 0.37)).
  assert (comp_at (mScattCompList s1) 0
          = mkScatteringComponent 0 0 0 1 (1 / 2) (Some power_A)) as HA.
  { subst s1. cbn [mScattCompList after_first_read].
    rewrite DynPopCorr_loop_comp by (cbn; lia).
    unfold dynPopCorr_of. subst scs. rewrite table_AB.
    cbn [hood_at nth mvNeighbour neighborsDist all_components map concat app
         scattCompList atom comp_at Neighbour.mNeighbourIndex Neighbour.mDist2
         mpScattPow GetDynPopCorrIndex power_A power_B Z.eqb Pos.eqb andb].
    rewrite (Rltb_true 0 (1 * 1)) by lra. cbn iota.
    rewrite (corr_single_overlap 1 0.5) by lra. reflexivity. }
  assert (mpScattPow (comp_at (mScattCompList s1) 1) = Some power_B) as HB.
  { subst s1. cbn [mScattCompList after_first_read].
    rewrite DynPopCorr_loop_comp by (cbn; lia). reflexivity. }
  assert (CalcBondValenceSum 2 s1'
          = Some (Click_mBondValenceCalcClock
                    (set_mvBondValenceCalc
                       (valence_sums (mvBondValenceRo s1') (mScattCompList s1')
                          (mvDistTableSq s1')) s1'))) as Hcalc.
  { unfold CalcBondValenceSum.
    assert ((size (mvBondValenceRo s1') =? 0)%nat = false) as ->.
    { apply Nat.eqb_neq. subst s1' s1.
      cbn [AddBondValenceRo mvBondValenceRo Click_mBondValenceParClock
           set_mvBondValenceRo after_first_read].
      rewrite map_size_insert, lookup_empty. cbn. lia. }
    rewrite CalcDistTable_fresh;
      [reflexivity | left; reflexivity | split; cbn; lia]. }
  exists s1.
  exists (Click_mBondValenceCalcClock
            (set_mvBondValenceCalc
               (valence_sums (mvBondValenceRo s1') (mScattCompList s1')
                  (mvDistTableSq s1')) s1')).
  exists e. split; [apply GetScatteringComponentList_new; reflexivity |].
  split; [exact Hcalc |].
  cbn [mScattCompList mvDistTableSq mvBondValenceCalc Click_mBondValenceCalcClock
       set_mvBondValenceCalc].
  change (mScattCompList s1') with (mScattCompList s1).
  change (mvDistTableSq s1') with (first_table sg_Pbar1 cubic10 scs).
  rewrite HA. cbn [mOccupancy mDynPopCorr].
  split; [reflexivity |]. split; [reflexivity |].
  subst scs. rewrite table_AB. split; [reflexivity |].
  split.
  - rewrite valence_sums_spec.
    replace (1 <? length (mScattCompList s1))%nat with true
      by (subst s1; cbn [mScattCompList after_first_read];
          rewrite DynPopCorr_loop_length; reflexivity).
    unfold valence_terms. rewrite HB.
    cbn [hood_at nth mvNeighbour omap list_omap].
    unfold valence_term. cbn [Neighbour.mNeighbourIndex Neighbour.mDist2].
    rewrite HA. cbn [mpScattPow mOccupancy mDynPopCorr ptr spAddress power_A power_B].
    subst s1'. cbn [AddBondValenceRo mvBondValenceRo Click_mBondValenceParClock
                    set_mvBondValenceRo after_first_read s1 spAddress power_A power_B].
    change (pair_key 8192 4096) with (pair_key 4096 8192).
    rewrite lookup_insert_eq. fold e. f_equal. cbn [sum_R fold_right]. lra.
  - pose proof (exp_pos ((2 - sqrt (norm2 (vector_fast cubic10 4095 0 0))) / 0.37)) as He.
    fold e in He. cbn [sum_R fold_right]. split; lra.
Qed.

(** ** [GetBumpMergeCost] *)

(** The square [tmp*tmp] of the code is the penalty of the specification:
    [sqrt (d2 / dmin2) = d / dmin]. *)
Lemma bump_term_penalty (par : BumpMergePar.t) (d2 : R) :
  0 < BumpMergePar.mDist2 par ->
  bump_term par d2
  = penalty (BumpMergePar.mCanOverlap par) (BumpMergePar.mDist2 par) d2.
Proof.
  intros Hpos. unfold bump_term, penalty.
  rewrite sqrt_div_alt by exact Hpos.
  destruct (BumpMergePar.mCanOverlap par); ring.
Qed.

(** A contact exactly at the minimum distance, which the test [>] of the
    code lets through, costs nothing. *)
Lemma bump_term_threshold (par : BumpMergePar.t) :
  0 < BumpMergePar.mDist2 par ->
  bump_term par (BumpMergePar.mDist2 par) = 0.
Proof.
  intros Hpos. unfold bump_term.
  replace (BumpMergePar.mDist2 par / BumpMergePar.mDist2 par) with 1
    by (field; lra).
  rewrite sqrt_1.
  replace (PI * (1 - 1)) with 0 by ring.
  replace (PI * 0.49999 * (1 - 1)) with 0 by ring.
  rewrite sin_0, tan_0.
  destruct (BumpMergePar.mCanOverlap par); unfold Rdiv; ring.
Qed.

Lemma bump_neigh_spec (pars : gmap (Z * Z) BumpMergePar.t)
    (comps : list ScatteringComponent) (i1 : Z) (cost : R) (neigh : Neighbour.t) :
  positive_distances pars ->
  bump_neigh pars comps i1 cost neigh
  = cost + sum_R (omap (bump_penalty pars comps i1) [neigh]).
Proof.
  intros Hpos. unfold bump_neigh, bump_penalty. cbn [omap list_omap].
  destruct (pars !! pair_key i1
              (ptr (mpScattPow (comp_at comps (Neighbour.mNeighbourIndex neigh)))))
    as [par |] eqn:Hpar; [| cbn; lra].
  specialize (Hpos _ _ Hpar).
  destruct (Rltb (BumpMergePar.mDist2 par) (Neighbour.mDist2 neigh)) eqn:Hgt.
  - apply Rltb_spec in Hgt.
    rewrite Rltb_false by lra. cbn. lra.
  - destruct (Rltb (Neighbour.mDist2 neigh) (BumpMergePar.mDist2 par)) eqn:Hlt.
    + cbn. rewrite bump_term_penalty by exact Hpos. lra.
    + assert (Neighbour.mDist2 neigh = BumpMergePar.mDist2 par) as ->.
      { destruct (Rlt_dec (BumpMergePar.mDist2 par) (Neighbour.mDist2 neigh)) as [H | H];
          [rewrite (Rltb_true _ _ H) in Hgt; discriminate |].
        destruct (Rlt_dec (Neighbour.mDist2 neigh) (BumpMergePar.mDist2 par)) as [H' | H'];
          [rewrite (Rltb_true _ _ H') in Hlt; discriminate |].
        lra. }
      rewrite bump_term_threshold by exact Hpos. cbn. lra.
Qed.

Lemma sum_R_app (l1 l2 : list R) : sum_R (l1 ++ l2) = sum_R l1 + sum_R l2.
Proof.
  unfold sum_R. induction l1 as [| x l1 IH]; cbn [app fold_right]; lra.
Qed.

Lemma bump_hood_spec (pars : gmap (Z * Z) BumpMergePar.t)
    (comps : list ScatteringComponent) (i1 : Z) (row : list Neighbour.t) (cost : R) :
  positive_distances pars ->
  fold_left (bump_neigh pars comps i1) row cost
  = cost + sum_R (omap (bump_penalty pars comps i1) row).
Proof.
  intros Hpos. revert cost.
  induction row as [| neigh row IH]; intros cost; [cbn; lra |].
  cbn [fold_left]. rewrite IH, bump_neigh_spec by exact Hpos.
  change (neigh :: row) with ([neigh] ++ row).
  rewrite omap_app, sum_R_app. lra.
Qed.

Lemma bump_table_spec (pars : gmap (Z * Z) BumpMergePar.t)
    (comps : list ScatteringComponent) (tbl : list NeighbourHood) (cost : R) :
  positive_distances pars ->
  fold_left (bump_hood pars comps) tbl cost
  = cost + sum_R (bump_penalties pars comps tbl).
Proof.
  intros Hpos. revert cost.
  induction tbl as [| pos tbl IH]; intros cost; [cbn; lra |].
  cbn [fold_left]. rewrite IH. unfold bump_hood.
  rewrite bump_hood_spec by exact Hpos.
  unfold bump_penalties. cbn [flat_map]. rewrite sum_R_app. lra.
Qed.

Lemma bump_cost_spec (sg : SpaceGroup) (pars : gmap (Z * Z) BumpMergePar.t)
    (comps : list ScatteringComponent) (tbl : list NeighbourHood) :
  positive_distances pars ->
  bump_cost sg pars comps tbl
  = sum_R (bump_penalties pars comps tbl) * INR (GetNbSymmetrics sg).
Proof.
  intros Hpos. unfold bump_cost. rewrite bump_table_spec by exact Hpos. lra.
Qed.



(** * Further properties *)

(** ** The pairwise parameters: what is stored is what is read back *)

(** X1. [AddBondValenceRo] then a look-up under the pair, in either
    order of its members, reads [ro] back; the other pairs are not touched;
    [RemoveBondValenceRo], called with the members in either order, removes
    the entry, and brings the map back to what it was when the pair had no
    entry before. *)
Theorem BondValenceRo_round_trip (pow1 pow2 : ScatteringPower) (ro : R)
    (s : Crystal) :
  let k := pair_key (spAddress pow1) (spAddress pow2) in
  let s1 := AddBondValenceRo pow1 pow2 ro s in
  mvBondValenceRo s1 !! k = Some ro
  /\ mvBondValenceRo s1 !! pair_key (spAddress pow2) (spAddress pow1) = Some ro
  /\ (forall a b, pair_key a b <> k ->
        mvBondValenceRo s1 !! pair_key a b = mvBondValenceRo s !! pair_key a b)
  /\ mvBondValenceRo (RemoveBondValenceRo pow2 pow1 s1) !! k = None
  /\ (forall a b, pair_key a b <> k ->
        mvBondValenceRo (RemoveBondValenceRo pow2 pow1 s1) !! pair_key a b
        = mvBondValenceRo s !! pair_key a b)
  /\ (mvBondValenceRo s !! k = None ->
      mvBondValenceRo (RemoveBondValenceRo pow2 pow1 s1) = mvBondValenceRo s).
Proof.
  intros k s1. subst s1. unfold AddBondValenceRo, RemoveBondValenceRo.
  unfold_setters. rewrite (pair_key_comm (spAddress pow2) (spAddress pow1)).
  fold k.
  split; [apply lookup_insert_eq |]. split; [apply lookup_insert_eq |].
  split; [intros a b Hne; apply lookup_insert_ne; congruence |].
  split; [apply lookup_delete_eq |].
  split.
  - intros a b Hne. rewrite lookup_delete_ne, lookup_insert_ne by congruence.
    reflexivity.
  - intros Hnone. apply delete_insert_id. exact Hnone.
Qed.

(** X2. [SetBumpMergeDistance] stores, under the pair in either order,
    the square of the distance (so a distance and its opposite set the same
    parameter) and lets the two atoms overlap exactly when the two
    scattering powers are one and the same object; the four-argument form
    stores the flag it is given; the other pairs are not touched, and
    [RemoveBumpMergeDistance] removes the entry. *)
Theorem BumpMergeDistance_round_trip (scatt1 scatt2 : ScatteringPower)
    (dist : R) (allowMerge : bool) (s : Crystal) :
  let k := pair_key (spAddress scatt1) (spAddress scatt2) in
  let s3 := SetBumpMergeDistance scatt1 scatt2 dist s in
  let s4 := SetBumpMergeDistance4 scatt1 scatt2 dist allowMerge s in
  mvBumpMergePar s3 !! pair_key (spAddress scatt2) (spAddress scatt1)
  = Some (BumpMergePar.mk (dist * dist)
            (spAddress scatt1 =? spAddress scatt2)%Z)
  /\ mvBumpMergePar s4 !! pair_key (spAddress scatt2) (spAddress scatt1)
     = Some (BumpMergePar.mk (dist * dist) allowMerge)
  /\ mvBumpMergePar (SetBumpMergeDistance4 scatt1 scatt2 (- dist) allowMerge s)
     = mvBumpMergePar s4
  /\ (forall a b, pair_key a b <> k ->
        mvBumpMergePar s3 !! pair_key a b = mvBumpMergePar s !! pair_key a b
        /\ mvBumpMergePar s4 !! pair_key a b = mvBumpMergePar s !! pair_key a b)
  /\ mvBumpMergePar (RemoveBumpMergeDistance scatt2 scatt1 s4) !! k = None
  /\ (mvBumpMergePar s !! k = None ->
      mvBumpMergePar (RemoveBumpMergeDistance scatt2 scatt1 s4) = mvBumpMergePar s).
Proof.
  intros k s3 s4. subst s3 s4.
  unfold SetBumpMergeDistance, SetBumpMergeDistance4, RemoveBumpMergeDistance.
  rewrite (pair_key_comm (spAddress scatt2) (spAddress scatt1)). fold k.
  split.
  { destruct (spAddress scatt1 =? spAddress scatt2)%Z; unfold_setters;
      apply lookup_insert_eq. }
  unfold_setters.
  split; [apply lookup_insert_eq |].
  split.
  { unfold BumpMergePar.make. replace (- dist * - dist) with (dist * dist) by ring.
    reflexivity. }
  split.
  { intros a b Hne.
    split; [destruct (spAddress scatt1 =? spAddress scatt2)%Z; unfold_setters |];
      apply lookup_insert_ne; congruence. }
  split; [apply lookup_delete_eq |].
  intros Hnone. apply delete_insert_id. exact Hnone.
Qed.

(** ** A change of parameter and the cached costs *)

(** The value [GetBumpMergeCost] returns, whether it is computed or read
    from the cache. *)
Lemma GetBumpMergeCost_value (fuel : nat) (s : Crystal) :
  clocks_wf s -> bumpMergeCost_coherent s ->
  positive_distances (mvBumpMergePar s) ->
  exists r s',
    GetBumpMergeCost (S (S fuel)) s = Some (r, s')
    /\ mvBumpMergePar s' = mvBumpMergePar s
    /\ r = if ((size (mvBumpMergePar s) =? 0)%nat
               || Rltb (mBumpMergeScale s) 1e-5)%bool
           then 0
           else sum_R (bump_penalties (mvBumpMergePar s) (mScattCompList s')
                         (mvDistTableSq s'))
                * INR (GetNbSymmetrics (GetSpaceGroup s))
                * mBumpMergeScale s.
Proof.
  intros Hwf Hcoh Hpos. unfold GetBumpMergeCost.
  destruct (size (mvBumpMergePar s) =? 0)%nat eqn:Hsz;
    [exists 0, s; repeat split |].
  destruct (Rltb (mBumpMergeScale s) 1e-5) eqn:Hsc;
    [exists 0, s; repeat split |].
  cbn [orb].
  destruct (CalcDistTable_ok fuel true 3 s Hwf)
    as (s1 & Hs1 & Hwf1 & Hf1 & Hd1 & Hfr1 & Hk1 & Hcase).
  rewrite Hs1. frame_intro Hfr1.
  destruct (bump_cache_valid s1) eqn:Hv.
  - exists (mBumpMergeCost s1 * mBumpMergeScale s1), s1. split; [reflexivity |].
    split; [assumption |].
    unfold bump_cache_valid in Hv. apply andb_true_iff in Hv as [Ha Hb].
    apply Nat.ltb_lt in Ha, Hb.
    destruct Hcase as [(-> & _ & _) | Hlt].
    + rewrite Hcoh by (split; assumption).
      rewrite bump_cost_spec by exact Hpos. reflexivity.
    + wf_intro Hwf. lia.
  - eexists _, _. split; [reflexivity |]. unfold_setters.
    split; [assumption |].
    repeat match goal with
           | H : mvBumpMergePar s1 = _ |- _ => rewrite H
           | H : GetSpaceGroup s1 = _ |- _ => rewrite H
           | H : mBumpMergeScale s1 = _ |- _ => rewrite H
           end.
    rewrite bump_cost_spec by exact Hpos. reflexivity.
Qed.

Lemma positive_distances_insert (pars : gmap (Z * Z) BumpMergePar.t) (k : Z * Z)
    (dist : R) (b : bool) :
  positive_distances pars -> dist <> 0 ->
  positive_distances (<[k := BumpMergePar.make dist b]> pars).
Proof.
  intros Hpos Hd k' par H. apply lookup_insert_Some in H as [[_ <-] | [_ H]].
  - cbn. nra.
  - exact (Hpos _ _ H).
Qed.

Lemma positive_distances_empty : positive_distances ∅.
Proof. intros k par H. rewrite lookup_empty in H. discriminate. Qed.

(** X3. A cost read after [SetBumpMergeDistance] is never the cached
    one: whatever the cache held, [GetBumpMergeCost] returns the sum of the
    penalties under the new parameters (times the number of symmetry
    operations and the scale). The distances are taken not to be zero and
    the scale not below 1e-5. *)
Theorem GetBumpMergeCost_after_SetBumpMergeDistance (fuel : nat)
    (scatt1 scatt2 : ScatteringPower) (dist : R) (s : Crystal) :
  clocks_wf s -> positive_distances (mvBumpMergePar s) -> dist <> 0 ->
  1e-5 <= mBumpMergeScale s -> (2 <= fuel)%nat ->
  exists r s',
    GetBumpMergeCost fuel (SetBumpMergeDistance scatt1 scatt2 dist s) = Some (r, s')
    /\ mvBumpMergePar s'
       = <[pair_key (spAddress scatt1) (spAddress scatt2)
           := BumpMergePar.mk (dist * dist) (spAddress scatt1 =? spAddress scatt2)%Z]>
           (mvBumpMergePar s)
    /\ r = sum_R (bump_penalties (mvBumpMergePar s') (mScattCompList s')
                    (mvDistTableSq s'))
           * INR (GetNbSymmetrics (GetSpaceGroup s))
           * mBumpMergeScale s.
Proof.
  intros Hwf Hpos Hd Hsc Hfuel.
  destruct fuel as [| [| fuel]]; [lia | lia | clear Hfuel].
  set (s0 := SetBumpMergeDistance scatt1 scatt2 dist s).
  assert (mvBumpMergePar s0
          = <[pair_key (spAddress scatt1) (spAddress scatt2)
              := BumpMergePar.mk (dist * dist)
                   (spAddress scatt1 =? spAddress scatt2)%Z]>
              (mvBumpMergePar s)) as Hmap.
  { subst s0. unfold SetBumpMergeDistance, SetBumpMergeDistance4.
    destruct (spAddress scatt1 =? spAddress scatt2)%Z; reflexivity. }
  assert (clocks_wf s0) as Hwf0 by (apply SetBumpMergeDistance_wf; exact Hwf).
  assert (mBumpMergeParClock s0 = S (msTick s)
          /\ mBumpMergeCostClock s0 = mBumpMergeCostClock s
          /\ mBumpMergeScale s0 = mBumpMergeScale s
          /\ GetSpaceGroup s0 = GetSpaceGroup s) as (Hpc & Hcc & Hscale & Hsg).
  { subst s0. unfold SetBumpMergeDistance, SetBumpMergeDistance4.
    destruct (spAddress scatt1 =? spAddress scatt2)%Z; repeat split. }
  assert (bumpMergeCost_coherent s0) as Hcoh0.
  { intros [H _]. wf_intro Hwf. lia. }
  assert (positive_distances (mvBumpMergePar s0)) as Hpos0.
  { rewrite Hmap. apply (positive_distances_insert _ _ dist); assumption. }
  destruct (GetBumpMergeCost_value fuel s0 Hwf0 Hcoh0 Hpos0)
    as (r & s' & Hr & Hm & Hval).
  exists r, s'. split; [exact Hr |]. split; [congruence |].
  rewrite Hval, Hm, Hscale, Hsg.
  replace (size (mvBumpMergePar s0) =? 0)%nat with false.
  - rewrite Rltb_false by exact Hsc. reflexivity.
  - symmetry. apply Nat.eqb_neq. rewrite Hmap.
    apply map_size_non_empty_iff, insert_non_empty.
Qed.

Lemma GetBumpMergeCost_after_SetBumpMergeDistance_witness :
  clocks_wf crystal_AB /\ positive_distances (mvBumpMergePar crystal_AB)
  /\ 3 <> 0 /\ 1e-5 <= mBumpMergeScale crystal_AB /\ (2 <= 2)%nat
  /\ exists r s',
      GetBumpMergeCost 2 (SetBumpMergeDistance power_A power_B 3 crystal_AB)
      = Some (r, s')
      /\ r = sum_R (bump_penalties (mvBumpMergePar s') (mScattCompList s')
                      (mvDistTableSq s'))
             * INR (GetNbSymmetrics (GetSpaceGroup crystal_AB))
             * mBumpMergeScale crystal_AB.
Proof.
  assert (clocks_wf crystal_AB) as Hwf
      by (apply new_crystal_wf; repeat constructor).
  assert (positive_distances (mvBumpMergePar crystal_AB)) as Hpos
      by apply positive_distances_empty.
  assert (3 <> 0) as H3 by lra.
  assert (1e-5 <= mBumpMergeScale crystal_AB) as Hsc
      by (change (mBumpMergeScale crystal_AB) with 1; lra).
  split; [exact Hwf |]. split; [exact Hpos |]. split; [exact H3 |].
  split; [exact Hsc |]. split; [lia |].
  destruct (GetBumpMergeCost_after_SetBumpMergeDistance 2 power_A power_B 3
              crystal_AB Hwf Hpos H3 Hsc (le_n 2)) as (r & s' & H1 & _ & H2).
  exists r, s'. split; assumption.
Defined.

(** X4. Removing the parameter of a pair that has none leaves the map as
    it is, but the clock of the parameters is clicked all the same: the
    test that lets [GetBumpMergeCost] (or [CalcBondValenceSum]) return what
    is cached fails afterwards, and the next [GetBumpMergeCost] computes
    the cost again (its clock moves past every earlier clock). *)
Theorem remove_absent_pair_clicks (fuel : nat) (scatt1 scatt2 : ScatteringPower)
    (s : Crystal) :
  clocks_wf s -> (2 <= fuel)%nat ->
  mvBumpMergePar s !! pair_key (spAddress scatt1) (spAddress scatt2) = None ->
  mvBondValenceRo s !! pair_key (spAddress scatt1) (spAddress scatt2) = None ->
  let s1 := RemoveBumpMergeDistance scatt1 scatt2 s in
  let s2 := RemoveBondValenceRo scatt1 scatt2 s in
  mvBumpMergePar s1 = mvBumpMergePar s
  /\ mBumpMergeParClock s1 = S (msTick s)
  /\ bump_cache_valid s1 = false
  /\ mvBondValenceRo s2 = mvBondValenceRo s
  /\ mBondValenceParClock s2 = S (msTick s)
  /\ ((mDistTableClock s2 <? mBondValenceCalcClock s2)%nat
      && (mBondValenceParClock s2 <? mBondValenceCalcClock s2)%nat)%bool = false
  /\ (size (mvBumpMergePar s) <> 0%nat -> 1e-5 <= mBumpMergeScale s ->
      exists r s',
        GetBumpMergeCost fuel s1 = Some (r, s')
        /\ (msTick s < mBumpMergeCostClock s')%nat).
Proof.
  intros Hwf Hfuel Hb Hv s1 s2.
  destruct fuel as [| [| fuel]]; [lia | lia | clear Hfuel].
  assert (mvBumpMergePar s1 = mvBumpMergePar s) as Hm1.
  { subst s1. unfold RemoveBumpMergeDistance. unfold_setters.
    apply delete_id. exact Hb. }
  assert (mvBondValenceRo s2 = mvBondValenceRo s) as Hm2.
  { subst s2. unfold RemoveBondValenceRo. unfold_setters.
    apply delete_id. exact Hv. }
  assert (clocks_wf s1) as Hwf1.
  { subst s1. unfold RemoveBumpMergeDistance. wf_intro Hwf. wf_split. }
  split; [exact Hm1 |]. split; [reflexivity |].
  split.
  { subst s1. unfold bump_cache_valid, RemoveBumpMergeDistance. unfold_setters.
    wf_intro Hwf. apply andb_false_iff. left. apply Nat.ltb_ge. lia. }
  split; [exact Hm2 |]. split; [reflexivity |].
  split.
  { subst s2. unfold RemoveBondValenceRo. unfold_setters.
    wf_intro Hwf. apply andb_false_iff. right. apply Nat.ltb_ge. lia. }
  intros Hsz Hsc.
  destruct (GetBumpMergeCost_ok fuel s1 Hwf1) as (r & s' & Hr & _ & _ & _ & Hcase).
  exists r, s'. split; [exact Hr |].
  destruct Hcase as [(Hoff & _) | (_ & _ & _ & Hfresh & _)].
  - exfalso. apply orb_true_iff in Hoff as [Hoff | Hoff].
    + apply Nat.eqb_eq in Hoff. rewrite Hm1 in Hoff. contradiction.
    + apply Rltb_spec in Hoff.
      change (mBumpMergeScale s1) with (mBumpMergeScale s) in Hoff. lra.
  - destruct Hfresh as [Hp _].
    assert (mBumpMergeParClock s' = S (msTick s)) as Hpc.
    { revert Hr. unfold GetBumpMergeCost.
      destruct (size (mvBumpMergePar s1) =? 0)%nat;
        [intros [= _ <-]; reflexivity |].
      destruct (Rltb (mBumpMergeScale s1) 1e-5); [intros [= _ <-]; reflexivity |].
      destruct (CalcDistTable_ok fuel true 3 s1 Hwf1)
        as (s1' & Hs1' & _ & _ & _ & Hfr & _).
      rewrite Hs1'. frame_intro Hfr.
      destruct (bump_cache_valid s1'); intros [= _ <-]; unfold_setters;
        assumption. }
    lia.
Qed.

Lemma remove_absent_pair_clicks_witness :
  clocks_wf crystal_AB_bump /\ (2 <= 2)%nat
  /\ mvBumpMergePar crystal_AB_bump
      !! pair_key (spAddress power_A) (spAddress power_B) = None
  /\ mvBondValenceRo crystal_AB_bump
      !! pair_key (spAddress power_A) (spAddress power_B) = None
  /\ mvBumpMergePar (RemoveBumpMergeDistance power_A power_B crystal_AB_bump)
     = mvBumpMergePar crystal_AB_bump
  /\ bump_cache_valid (RemoveBumpMergeDistance power_A power_B crystal_AB_bump)
     = false
  /\ exists r s',
       GetBumpMergeCost 2 (RemoveBumpMergeDistance power_A power_B crystal_AB_bump)
       = Some (r, s')
       /\ (msTick crystal_AB_bump < mBumpMergeCostClock s')%nat.
Proof.
  set (s := crystal_AB_bump).
  assert (clocks_wf s) as Hwf
      by (apply SetBumpMergeDistance_wf, new_crystal_wf; repeat constructor).
  assert (mvBumpMergePar s
          = <[(4096%Z, 4096%Z) := BumpMergePar.make 2 true]> ∅) as Hm by reflexivity.
  assert (mvBumpMergePar s !! pair_key (spAddress power_A) (spAddress power_B)
          = None) as Hb.
  { rewrite Hm. apply lookup_insert_None. split; [apply lookup_empty |].
    cbn. intros [= H]. }
  assert (mvBondValenceRo s !! pair_key (spAddress power_A) (spAddress power_B)
          = None) as Hv by apply lookup_empty.
  split; [exact Hwf |]. split; [lia |]. split; [exact Hb |]. split; [exact Hv |].
  destruct (remove_absent_pair_clicks 2 power_A power_B s Hwf (le_n 2) Hb Hv)
    as (H1 & _ & H3 & _ & _ & _ & H7).
  split; [exact H1 |]. split; [exact H3 |].
  apply H7.
  - rewrite Hm. apply map_size_non_empty_iff, insert_non_empty.
  - change (mBumpMergeScale s) with 1. lra.
Defined.

(** ** Coordinates: whole cells and the order of the two positions *)

Lemma IZR_small (n : Z) : -1 < IZR n < 1 -> n = 0%Z.
Proof.
  intros [H1 H2].
  assert (-1 < n)%Z by (apply lt_IZR; exact H1).
  assert (n < 1)%Z by (apply lt_IZR; exact H2).
  lia.
Qed.

Lemma reduce01_periodic (v : R) (k : Z) : reduce01 (v + IZR k) = reduce01 v.
Proof.
  destruct (reduce01_spec v) as (k1 & H1 & R1).
  destruct (reduce01_spec (v + IZR k)) as (k2 & H2 & R2).
  assert (k + k1 - k2 = 0)%Z as Hz.
  { apply IZR_small. rewrite minus_IZR, plus_IZR. lra. }
  assert (IZR k2 = IZR k + IZR k1) as Hk.
  { rewrite <- plus_IZR. f_equal. lia. }
  lra.
Qed.

Lemma FRAC2LONGMASK_ones : FRAC2LONGMASK = Z.ones 14.
Proof. reflexivity. Qed.

Lemma quantize_mod (v : R) : quantize v = (to_long v mod 16384)%Z.
Proof.
  unfold quantize. rewrite FRAC2LONGMASK_ones, Z.land_ones by lia. reflexivity.
Qed.

Lemma to_long_bounds (v : R) :
  (0 <= v -> IZR (to_long v) <= v * 16384 < IZR (to_long v) + 1)
  /\ (v < 0 -> IZR (to_long v) - 1 < v * 16384 <= IZR (to_long v)).
Proof.
  unfold to_long, FRAC2LONG.
  destruct (Rtrunc_bounds (v * 16384)) as [Hp Hn].
  split; intros H; [apply Hp | apply Hn]; lra.
Qed.

(** X5. Whole cells added to a coordinate: the exact branch reduces a
    coordinate and its translates to the same value of [0,1); the quantized
    branch reduces them to the same value of [0,16383] as long as the
    coordinate and its translate are on the same side of zero, and to a
    value one unit lower (modulo 16384) when the conversion to [long], which
    truncates towards zero, is applied to a negative coordinate that is not
    a multiple of the quantum and to a translate that is not negative. *)
Theorem coordinates_modulo_whole_cells (v : R) (k : Z) :
  reduce01 (v + IZR k) = reduce01 v
  /\ 0 <= reduce01 v < 1
  /\ (0 <= quantize v < 16384)%Z
  /\ ((0 <= v /\ 0 <= v + IZR k) \/ (v < 0 /\ v + IZR k < 0) ->
      quantize (v + IZR k) = quantize v)
  /\ (v < 0 -> 0 <= v + IZR k -> IZR (to_long v) <> v * 16384 ->
      quantize (v + IZR k) = ((quantize v - 1) mod 16384)%Z).
Proof.
  split; [apply reduce01_periodic |].
  split; [destruct (reduce01_spec v) as (k1 & _ & Hr); exact Hr |].
  split; [rewrite quantize_mod; apply Z.mod_pos_bound; lia |].
  destruct (to_long_bounds v) as [Hp Hn].
  split.
  - intros [[H1 H2] | [H1 H2]].
    + assert (to_long (v + IZR k) = (to_long v + k * 16384)%Z) as Ht.
      { apply to_long_pos; [exact H2 |].
        specialize (Hp H1). rewrite plus_IZR, mult_IZR. lra. }
      rewrite !quantize_mod, Ht. apply Z.mod_add. lia.
    + assert (to_long (v + IZR k) = (to_long v + k * 16384)%Z) as Ht.
      { apply to_long_neg; [exact H2 |].
        specialize (Hn H1). rewrite plus_IZR, mult_IZR. lra. }
      rewrite !quantize_mod, Ht. apply Z.mod_add. lia.
  - intros H1 H2 Hni. specialize (Hn H1).
    assert (to_long (v + IZR k) = (to_long v - 1 + k * 16384)%Z) as Ht.
    { apply to_long_pos; [exact H2 |].
      rewrite plus_IZR, minus_IZR, mult_IZR. lra. }
    rewrite !quantize_mod, Ht, Z.mod_add by lia.
    rewrite Zminus_mod_idemp_l. reflexivity.
Qed.

Lemma coordinates_modulo_whole_cells_witness :
  (- (3 / 10) < 0 /\ 0 <= - (3 / 10) + IZR 1
   /\ IZR (to_long (- (3 / 10))) <> - (3 / 10) * 16384)
  /\ quantize (- (3 / 10) + IZR 1) = ((quantize (- (3 / 10)) - 1) mod 16384)%Z
  /\ quantize (- (3 / 10)) = 11469%Z.
Proof.
  assert (to_long (- (3 / 10)) = (-4915)%Z) as Ht
      by (apply to_long_neg; lra).
  assert (- (3 / 10) < 0) as H1 by lra.
  assert (0 <= - (3 / 10) + IZR 1) as H2 by lra.
  assert (IZR (to_long (- (3 / 10))) <> - (3 / 10) * 16384) as H3
      by (rewrite Ht; lra).
  split; [split; [exact H1 | split; [exact H2 | exact H3]] |].
  split.
  - destruct (coordinates_modulo_whole_cells (- (3 / 10)) 1) as (_ & _ & _ & _ & H).
    exact (H H1 H2 H3).
  - rewrite quantize_mod, Ht. reflexivity.
Defined.

Lemma fold_real_opp (d : R) : fold_real (- d) = fold_real d.
Proof.
  destruct (fold_real_nearest d) as [[(k & Hk) Hmin] _].
  destruct (fold_real_nearest (- d)) as [[(k' & Hk') Hmin'] _].
  apply Rle_antisym.
  - specialize (Hmin' (- k)%Z). rewrite opp_IZR in Hmin'.
    replace (- d - - IZR k) with (- (d - IZR k)) in Hmin' by ring.
    rewrite Rabs_Ropp in Hmin'. lra.
  - specialize (Hmin (- k')%Z). rewrite opp_IZR in Hmin.
    replace (d - - IZR k') with (- (- d - IZR k')) in Hmin by ring.
    rewrite Rabs_Ropp in Hmin. lra.
Qed.

(** X6. The squared distance of the exact branch does not depend on
    which of the two positions is the unique one. In the quantized branch
    the folded difference of two coordinates does: unless the difference is
    a multiple of half a cell, swapping the two positions moves it by one
    unit (the upper half of the range is mirrored by [~xl], one unit short
    of [-xl]). *)
Theorem distance_and_order_of_positions (cell : UnitCell) (p q : Pos.t) (d : Z) :
  dist2_exact cell p q = dist2_exact cell q p
  /\ fold_long (- d)
     = (if ((d mod 16384 =? 0) || (d mod 16384 =? 8192))%Z%bool then fold_long d
        else if (d mod 16384 <? 8192)%Z then fold_long d - 1
             else fold_long d + 1)%Z.
Proof.
  split.
  - unfold dist2_exact.
    replace (Pos.mX q - Pos.mX p) with (- (Pos.mX p - Pos.mX q)) by ring.
    replace (Pos.mY q - Pos.mY p) with (- (Pos.mY p - Pos.mY q)) by ring.
    replace (Pos.mZ q - Pos.mZ p) with (- (Pos.mZ p - Pos.mZ q)) by ring.
    rewrite !fold_real_opp. reflexivity.
  - rewrite !fold_long_spec.
    pose proof (Z.mod_pos_bound d 16384 ltac:(lia)) as Hm.
    destruct (d mod 16384 =? 0)%Z eqn:H0.
    + apply Z.eqb_eq in H0.
      assert ((- d) mod 16384 = 0)%Z as -> by (apply Z.mod_opp_l_z; lia).
      rewrite H0. reflexivity.
    + apply Z.eqb_neq in H0.
      assert ((- d) mod 16384 = 16384 - d mod 16384)%Z as ->
          by (apply Z.mod_opp_l_nz; lia).
      cbn [orb].
      destruct (d mod 16384 =? 8192)%Z eqn:H1;
        [apply Z.eqb_eq in H1; rewrite H1; reflexivity |].
      apply Z.eqb_neq in H1.
      destruct (d mod 16384 <? 8192)%Z eqn:H2.
      * apply Z.ltb_lt in H2.
        assert ((16384 - d mod 16384 <? 8192)%Z = false) as ->
            by (apply Z.ltb_ge; lia).
        lia.
      * apply Z.ltb_ge in H2.
        assert ((16384 - d mod 16384 <? 8192)%Z = true) as ->
            by (apply Z.ltb_lt; lia).
        lia.
Qed.

(** ** The shape of the distance table *)

Lemma scan_component_vPos (B : Branch) (useAU : bool) (sg : SpaceGroup)
    (i : nat) (c : ScatteringComponent) (st : Scan) :
  vPos (scan_component B useAU sg i c st)
  = vPos st
    ++ map (position B i (GetAllSymmetrics sg (mX c) (mY c) (mZ c)))
         (List.filter (retained B useAU i (GetAllSymmetrics sg (mX c) (mY c) (mZ c)))
            (seq 0 (GetNbSymmetrics sg))).
Proof. unfold scan_component. rewrite scan_symmetrics_vPos. reflexivity. Qed.

(** What holds of every position a component can give holds of every
    position of [vPos]. *)
Lemma scan_components_Forall (P : Pos.t -> Prop) (B : Branch) (useAU : bool)
    (sg : SpaceGroup) (cs : list ScatteringComponent) (i0 : nat) (st : Scan) :
  (forall k c j, cs !! k = Some c -> (j < GetNbSymmetrics sg)%nat ->
     P (position B (i0 + k) (GetAllSymmetrics sg (mX c) (mY c) (mZ c)) j)) ->
  Forall P (vPos st) ->
  Forall P (vPos (scan_components B useAU sg i0 cs st)).
Proof.
  revert i0 st. induction cs as [| c cs IH]; intros i0 st HP Hst; [exact Hst |].
  cbn [scan_components]. apply IH.
  - intros k c' j Hk Hj. replace (S i0 + k)%nat with (i0 + S k)%nat by lia.
    apply HP; assumption.
  - rewrite scan_component_vPos. apply Forall_app. split; [exact Hst |].
    apply List.Forall_forall. intros p Hp.
    apply in_map_iff in Hp as (j & <- & Hj).
    apply filter_In in Hj as [Hj _]. apply in_seq in Hj.
    replace i0 with (i0 + 0)%nat at 1 by lia. apply HP; [reflexivity | lia].
Qed.

Lemma scan_components_rest (B : Branch) (useAU : bool) (sg : SpaceGroup)
    (cs : list ScatteringComponent) (i0 : nat) (st : Scan) :
  (i0 + length cs <= length (vTable st))%nat ->
  (i0 + length cs <= length (vUniqueIndex st))%nat ->
  let st' := scan_components B useAU sg i0 cs st in
  length (vUniqueIndex st') = length (vUniqueIndex st)
  /\ (length (vPos st) <= length (vPos st'))%nat
  /\ (forall k, mvNeighbour (hood_at (vTable st') k)
                = mvNeighbour (hood_at (vTable st) k))
  /\ (forall k, nth k (vUniqueIndex st') 0%nat = nth k (vUniqueIndex st) 0%nat
                \/ (nth k (vUniqueIndex st') 0%nat < length (vPos st'))%nat).
Proof.
  revert i0 st. induction cs as [| c cs IH]; intros i0 st Ht Hu; cbn [scan_components].
  { cbv zeta. split; [reflexivity |]. split; [lia |]. split; [reflexivity |].
    intros k. left. reflexivity. }
  cbn [length] in Ht, Hu.
  destruct (scan_component_spec B useAU sg i0 c st)
    as (A1 & A2 & A3 & _ & _ & A6 & A7 & A8); [lia |].
  pose proof (scan_component_unique B useAU sg i0 c st ltac:(lia)) as AU.
  cbv zeta in AU.
  set (st1 := scan_component B useAU sg i0 c st) in *.
  destruct (IH (S i0) st1) as (I1 & I2 & I3 & I4); [lia | lia |].
  cbv zeta.
  set (st' := scan_components B useAU sg (S i0) cs st1) in *.
  assert (length (vPos st) <= length (vPos st1))%nat as Hgrow
      by (rewrite A3, length_app; lia).
  split; [lia |]. split; [lia |].
  split.
  { intros k. rewrite I3. destruct (Nat.eq_dec k i0) as [-> | Hne].
    - exact A6.
    - rewrite (A7 k Hne). reflexivity. }
  intros k. destruct (I4 k) as [Hsame | Hlt]; [| right; exact Hlt].
  rewrite Hsame. destruct (Nat.eq_dec k i0) as [-> | Hne].
  - destruct AU as [AU | AU]; [left; exact AU | right; lia].
  - left. apply A8. exact Hne.
Qed.

Lemma filter_all {A : Type} (f : A -> bool) (l : list A) :
  (forall x, f x = true) -> List.filter f l = l.
Proof.
  intros H. induction l as [| x l IH]; [reflexivity |].
  cbn. rewrite H, IH. reflexivity.
Qed.

Lemma scan_components_all (B : Branch) (sg : SpaceGroup)
    (cs : list ScatteringComponent) (i0 : nat) (st : Scan) :
  length (vPos (scan_components B false sg i0 cs st))
  = (length (vPos st) + length cs * GetNbSymmetrics sg)%nat.
Proof.
  revert i0 st. induction cs as [| c cs IH]; intros i0 st; cbn [scan_components].
  { cbn. lia. }
  rewrite IH, scan_component_vPos, length_app, length_map.
  rewrite filter_all by reflexivity. rewrite length_seq. cbn [length]. lia.
Qed.

Lemma dist_scan_length (d2 : Pos.t -> Pos.t -> R) (pu : Pos.t) (u : nat)
    (ps : list Pos.t) (j : nat) (vnb : list Neighbour.t) :
  length (dist_scan d2 pu u j ps vnb)
  = (length vnb + length ps
     - (if ((j <=? u) && (u <? j + length ps))%nat%bool then 1 else 0))%nat.
Proof.
  revert j vnb. induction ps as [| p ps IH]; intros j vnb.
  { cbn [dist_scan length].
    destruct (Nat.leb_spec j u); destruct (Nat.ltb_spec u (j + 0));
      cbn [andb]; lia. }
  cbn [dist_scan]. rewrite IH. cbn [length].
  destruct (Nat.eqb_spec u j) as [-> | Hne].
  - destruct (Nat.leb_spec (S j) j); destruct (Nat.leb_spec j j);
      destruct (Nat.ltb_spec j (j + S (length ps)));
      destruct (Nat.ltb_spec j (S j + length ps)); cbn [andb]; lia.
  - rewrite length_app. cbn [length].
    destruct (Nat.leb_spec (S j) u); destruct (Nat.leb_spec j u);
      destruct (Nat.ltb_spec u (j + S (length ps)));
      destruct (Nat.ltb_spec u (S j + length ps)); cbn [andb]; lia.
Qed.

Lemma dist_scan_elem (d2 : Pos.t -> Pos.t -> R) (pu : Pos.t) (u : nat)
    (ps : list Pos.t) (j : nat) (vnb : list Neighbour.t) (nb : Neighbour.t) :
  In nb (dist_scan d2 pu u j ps vnb) ->
  In nb vnb
  \/ exists p, In p ps
       /\ nb = Neighbour.mk (Pos.mAtomIndex p) (Pos.mSymmetryIndex p) (d2 p pu).
Proof.
  revert j vnb. induction ps as [| p ps IH]; intros j vnb H; [left; exact H |].
  cbn [dist_scan] in H. apply IH in H as [H | (p' & Hp' & ->)].
  - destruct (u =? j)%nat; [left; exact H |].
    apply in_app_or in H as [H | [<- | []]]; [left; exact H |].
    right. exists p. split; [left; reflexivity | reflexivity].
  - right. exists p'. split; [right; exact Hp' | reflexivity].
Qed.

Lemma norm2_nonneg (v : R * R * R) : 0 <= norm2 v.
Proof. destruct v as [[x y] z]. unfold norm2. nra. Qed.

Lemma dist2_nonneg (fast : bool) (cell : UnitCell) (p q : Pos.t) :
  0 <= dist2 fast cell p q.
Proof. destruct fast; apply norm2_nonneg. Qed.

Lemma position_indices (fast : bool) (L : Limits) (i j : nat)
    (sym : nat -> R * R * R) :
  Pos.mAtomIndex (position (branch fast L) i sym j) = i
  /\ Pos.mSymmetryIndex (position (branch fast L) i sym j) = j.
Proof.
  unfold position. destruct (sym j) as [[x y] z]. destruct fast; split; reflexivity.
Qed.

(** The neighbour lists of the previous table are cleared, whatever they
    held. *)
Lemma clear_resize_clear (n : nat) (old : list NeighbourHood) :
  clear_table (resize_table n (clear_table old))
  = clear_table (resize_table n old).
Proof.
  unfold clear_table, resize_table. rewrite length_map.
  rewrite !List.map_app, <- !firstn_map, List.map_map.
  reflexivity.
Qed.

(** The state of the first loop nest, as the second one finds it. *)
Lemma scan_all_props (fast : bool) (margin : R) (sg : SpaceGroup)
    (cell : UnitCell) (comps : list ScatteringComponent)
    (old : list NeighbourHood) :
  let st := scan_all fast margin sg cell comps old in
  length (vTable st) = length comps
  /\ (forall i, mvNeighbour (hood_at (vTable st) i) = [])
  /\ (forall i, (nth i (vUniqueIndex st) 0%nat < length (vPos st))%nat
                \/ vPos st = [])
  /\ Forall (fun p => (Pos.mAtomIndex p < length comps)%nat
                      /\ (Pos.mSymmetryIndex p < GetNbSymmetrics sg)%nat)
            (vPos st)
  /\ (useAsymUnit sg = false ->
      length (vPos st) = (length comps * GetNbSymmetrics sg)%nat).
Proof.
  intros st. subst st. unfold scan_all.
  set (B := branch fast (limits sg cell margin)).
  set (st0 := mkScan [] (replicate (length comps) 0%nat)
                (clear_table (resize_table (length comps) old))).
  assert (length (vTable st0) = length comps) as Hlen0
      by (subst st0; cbn [vTable]; rewrite clear_table_length; apply resize_table_length).
  assert (length (vUniqueIndex st0) = length comps) as HlenU
      by (subst st0; cbn [vUniqueIndex]; apply length_replicate).
  destruct (scan_components_table B (useAsymUnit sg) sg comps 0 st0) as (T1 & _);
    [lia |].
  destruct (scan_components_rest B (useAsymUnit sg) sg comps 0 st0)
    as (R1 & R2 & R3 & R4); [lia | lia |].
  split; [lia |].
  split.
  { intros i. rewrite R3. subst st0. cbn [vTable].
    rewrite hood_at_clear_table. reflexivity. }
  split.
  { intros i.
    destruct (Nat.eq_dec
                (length (vPos (scan_components B (useAsymUnit sg) sg 0 comps st0))) 0)
      as [Hz | Hnz]; [right; apply length_zero_iff_nil; exact Hz |].
    left. destruct (R4 i) as [Hsame | Hlt]; [| exact Hlt].
    rewrite Hsame. subst st0. cbn [vUniqueIndex].
    replace (nth i (replicate (length comps) 0%nat) 0%nat) with 0%nat.
    - lia.
    - destruct (Nat.lt_ge_cases i (length comps)) as [Hi | Hi].
      + symmetry. apply nth_lookup_Some with (d := 0%nat).
        apply lookup_replicate_2. exact Hi.
      + symmetry. apply nth_overflow. rewrite length_replicate. exact Hi. }
  split.
  { apply scan_components_Forall; [| constructor].
    intros k c j Hk Hj. subst B.
    destruct (position_indices fast (limits sg cell margin) (0 + k) j
                (GetAllSymmetrics sg (mX c) (mY c) (mZ c))) as [-> ->].
    split; [| exact Hj]. apply lookup_lt_Some in Hk. lia. }
  intros Hau. rewrite Hau, scan_components_all. reflexivity.
Qed.

(** X7. The table [CalcDistTable] builds has one neighbourhood for each
    component, whose [mIndex] is the index of the component; every
    neighbour it lists is a symmetric of a component of the list (both
    indices are in range) at a squared distance that is not negative; and
    no neighbour list of the previous table survives. *)
Theorem build_table_shape (fast : bool) (margin : R) (sg : SpaceGroup)
    (cell : UnitCell) (comps : list ScatteringComponent)
    (old : list NeighbourHood) :
  let tbl := build_table fast margin sg cell comps old in
  length tbl = length comps
  /\ (forall i, (i < length comps)%nat -> mIndex (hood_at tbl i) = i)
  /\ (forall i nb, (i < length comps)%nat -> In nb (mvNeighbour (hood_at tbl i)) ->
        (Neighbour.mNeighbourIndex nb < length comps)%nat
        /\ (Neighbour.mNeighbourSymmetryIndex nb < GetNbSymmetrics sg)%nat
        /\ 0 <= Neighbour.mDist2 nb)
  /\ build_table fast margin sg cell comps (clear_table old) = tbl.
Proof.
  intros tbl. subst tbl.
  destruct (scan_all_props fast margin sg cell comps old)
    as (S1 & S2 & _ & S4 & _).
  unfold build_table.
  set (st := scan_all fast margin sg cell comps old) in *.
  pose proof (dist_components_keep (dist2 fast cell) st (seq 0 (length comps))
                (vTable st)) as Hkeep.
  split; [destruct (Hkeep 0%nat) as (-> & _); exact S1 |].
  split.
  { intros i Hi. destruct (lookup_lt_is_Some_2 comps i Hi) as [c Hc].
    destruct (build_table_unique fast margin sg cell comps old i c Hc) as [H _].
    exact H. }
  split.
  { intros i nb Hi Hnb.
    rewrite dist_components_row in Hnb by lia.
    replace (i <? length comps)%nat with true in Hnb
      by (symmetry; apply Nat.ltb_lt; exact Hi).
    rewrite S2 in Hnb. apply dist_scan_elem in Hnb as [[] | (p & Hp & ->)].
    cbn [Neighbour.mNeighbourIndex Neighbour.mNeighbourSymmetryIndex Neighbour.mDist2].
    rewrite List.Forall_forall in S4.
    destruct (S4 p Hp) as [Ha Hs].
    split; [exact Ha |]. split; [exact Hs | apply dist2_nonneg]. }
  unfold scan_all. rewrite clear_resize_clear. reflexivity.
Qed.

(** X8. Every neighbour list of the table has the same length: the
    number of positions retained by the first loop nest, minus one (the
    position that stands for the component itself, or, when none of its
    symmetrics was recorded as such, the first position of the list). When
    the asymmetric unit is not used every symmetric of every component is
    retained, so that each list has [nbComponent*nbSymmetrics-1] entries. *)
Theorem build_table_row_length (fast : bool) (margin : R) (sg : SpaceGroup)
    (cell : UnitCell) (comps : list ScatteringComponent)
    (old : list NeighbourHood) (i : nat) :
  (i < length comps)%nat ->
  length (mvNeighbour (hood_at (build_table fast margin sg cell comps old) i))
  = (length (vPos (scan_all fast margin sg cell comps old)) - 1)%nat
  /\ (useAsymUnit sg = false ->
      length (mvNeighbour (hood_at (build_table fast margin sg cell comps old) i))
      = (length comps * GetNbSymmetrics sg - 1)%nat).
Proof.
  intros Hi.
  destruct (scan_all_props fast margin sg cell comps old)
    as (S1 & S2 & S3 & _ & S5).
  unfold build_table.
  set (st := scan_all fast margin sg cell comps old) in *.
  assert (length (mvNeighbour
                    (hood_at (fold_left (dist_component (dist2 fast cell) st)
                                (seq 0 (length comps)) (vTable st)) i))
          = (length (vPos st) - 1)%nat) as Hrow.
  { rewrite dist_components_row by lia.
    replace (i <? length comps)%nat with true
      by (symmetry; apply Nat.ltb_lt; exact Hi).
    rewrite S2, dist_scan_length. cbn [length].
    destruct (S3 i) as [Hu | Hnil].
    - destruct (Nat.leb_spec 0 (nth i (vUniqueIndex st) 0%nat));
        destruct (Nat.ltb_spec (nth i (vUniqueIndex st) 0%nat) (0 + length (vPos st)));
        cbn [andb]; lia.
    - rewrite Hnil. cbn [length].
      destruct (0 <=? nth i (vUniqueIndex st) 0)%nat;
        destruct (nth i (vUniqueIndex st) 0 <? 0 + 0)%nat; reflexivity. }
  split; [exact Hrow |].
  intros Hau. rewrite Hrow, (S5 Hau). reflexivity.
Qed.

Lemma build_table_row_length_witness :
  (0 < length (all_components [atom power_A 0 0 0; atom power_A 0 0 0]))%nat
  /\ useAsymUnit sg_P1 = false
  /\ length (mvNeighbour
               (hood_at (build_table true 1 sg_P1 cubic10
                           (all_components [atom power_A 0 0 0; atom power_A 0 0 0])
                           []) 0))
     = 1%nat.
Proof.
  assert (0 < length (all_components [atom power_A 0 0 0; atom power_A 0 0 0]))%nat
    as Hi by (cbn; lia).
  split; [exact Hi |]. split; [exact useAsymUnit_P1 |].
  destruct (build_table_row_length true 1 sg_P1 cubic10
              (all_components [atom power_A 0 0 0; atom power_A 0 0 0]) [] 0 Hi)
    as [_ H].
  exact (H useAsymUnit_P1).
Defined.

(** ** [GetMinDistanceTable]: the entries are minima *)

(** X9. Every entry [(i,j)] of the matrix of [GetMinDistanceTable] lies
    in [0,100); it is not larger than the distance of any accepted contact
    between the two components that the distance table holds (in the row of
    the larger of the two indices); and when it is not zero it is the
    distance of one of these contacts. *)
Theorem GetMinDistanceTable_minimum (defaultMargin : R) (fuel : nat)
    (minDistance : R) (s : Crystal) :
  clocks_wf s -> (2 <= fuel)%nat ->
  exists M n s',
    GetMinDistanceTable defaultMargin fuel minDistance s = Some (M, n, s')
    /\ forall i j, (i < n)%nat -> (j < n)%nat ->
         let nh := hood_at (mvDistTableSq s') (Nat.max i j) in
         0 <= M i j < 100
         /\ (forall pos, In pos (mvNeighbour nh) ->
               Neighbour.mNeighbourIndex pos = Nat.min i j ->
               accepted (min_of minDistance) nh pos = true ->
               M i j <= sqrt (Neighbour.mDist2 pos))
         /\ (M i j <> 0 ->
             exists pos, In pos (mvNeighbour nh)
                         /\ Neighbour.mNeighbourIndex pos = Nat.min i j
                         /\ accepted (min_of minDistance) nh pos = true
                         /\ M i j = sqrt (Neighbour.mDist2 pos)).
Proof.
  intros Hwf Hfuel.
  destruct fuel as [| [| fuel]]; [lia | lia | clear Hfuel].
  destruct (GetMinDistanceTable_ok defaultMargin fuel minDistance s Hwf)
    as (s' & Hs' & _).
  eexists _, _, s'. split; [exact Hs' |].
  intros i j Hi Hj nh. rewrite minDistTable_of_spec by assumption. fold nh.
  destruct (lowest_spec (min_of minDistance) nh (Nat.min i j) (mvNeighbour nh) 10000)
    as (L1 & L2 & L3).
  set (v := lowest (min_of minDistance) nh (Nat.min i j) (mvNeighbour nh) 10000) in *.
  split; [apply finished_range |].
  split.
  - intros pos Hin Hk Ha. specialize (L2 pos Hin Hk Ha).
    unfold finished. destruct (Rltb 9999 v).
    + rewrite sqrt_0. apply sqrt_pos.
    + destruct (Rle_dec 0 v) as [Hv | Hv].
      * apply sqrt_le_1_alt. exact L2.
      * rewrite sqrt_neg_0 by lra. apply sqrt_pos.
  - intros Hnz. destruct L3 as [L3 | (pos & Hin & Hk & Ha & Heq)].
    + exfalso. apply Hnz. rewrite L3. apply finished_sentinel.
    + exists pos. split; [exact Hin |]. split; [exact Hk |]. split; [exact Ha |].
      rewrite Heq. unfold finished. destruct (Rltb 9999 (Neighbour.mDist2 pos)) eqn:Hb;
        [| reflexivity].
      exfalso. apply Hnz. rewrite Heq. unfold finished. rewrite Hb. apply sqrt_0.
Qed.

Lemma GetMinDistanceTable_minimum_witness :
  clocks_wf crystal_inversion /\ (2 <= 2)%nat
  /\ exists M n s',
       GetMinDistanceTable 4 2 (-1) crystal_inversion = Some (M, n, s')
       /\ (0 < n)%nat /\ 0 <= M 0%nat 0%nat < 100.
Proof.
  assert (clocks_wf crystal_inversion) as Hwf
      by (apply new_crystal_wf; repeat constructor).
  split; [exact Hwf |]. split; [lia |].
  destruct (GetMinDistanceTable_minimum 4 2 (-1) crystal_inversion Hwf (le_n 2))
    as (M & n & s' & H1 & H2).
  exists M, n, s'. split; [exact H1 |].
  assert (n = 1%nat) as ->.
  { unfold crystal_inversion in H1.
    rewrite (GetMinDistanceTable_new 4 (-1) sg_Pbar1 cubic10
               (atom power_A (7 / 16) 0 0) [] eq_refl) in H1.
    injection H1 as _ <- _. reflexivity. }
  split; [lia |].
  destruct (H2 0%nat 0%nat ltac:(lia) ltac:(lia)) as (H & _). exact H.
Defined.

(** ** [CalcDynPopCorr] and [GetScatteringComponentList] *)

Lemma corr_fold_nonneg (o m : R) (l : list R) (c : R) :
  0 <= c -> 0 <= fold_left (corr_step o m) l c.
Proof.
  revert c. induction l as [| d l IH]; intros c Hc; [exact Hc |].
  cbn [fold_left]. apply IH. unfold corr_step.
  pose proof (Rabs_pos ((o - (if Rltb (d - m) 0 then 0 else d - m) - m) / (o - m))).
  lra.
Qed.

(** X10. The loop of [CalcDynPopCorr] keeps the number of components
    and, of each of them, the coordinates, the occupancy and the scattering
    power; the correction it stores lies in (0,1]; it is exactly 1 for a
    component without scattering power and for a component that has no
    neighbour with the same [GetDynPopCorrIndex()] closer than
    [overlapDist]. The two distances are taken to differ (the code divides
    by their difference). *)
Theorem CalcDynPopCorr_range (overlapDist mergeDist : R)
    (tbl : list NeighbourHood) (comps : list ScatteringComponent) (i : nat) :
  overlapDist <> mergeDist -> (i < length comps)%nat ->
  let c := comp_at comps i in
  let c' := comp_at (DynPopCorr_loop overlapDist mergeDist tbl comps) i in
  length (DynPopCorr_loop overlapDist mergeDist tbl comps) = length comps
  /\ mX c' = mX c /\ mY c' = mY c /\ mZ c' = mZ c
  /\ mOccupancy c' = mOccupancy c /\ mpScattPow c' = mpScattPow c
  /\ 0 < mDynPopCorr c' <= 1
  /\ (mpScattPow c = None -> mDynPopCorr c' = 1)
  /\ (forall sp, mpScattPow c = Some sp ->
        neighborsDist comps (GetDynPopCorrIndex sp) (overlapDist * overlapDist)
          (mvNeighbour (hood_at tbl i)) = [] ->
        mDynPopCorr c' = 1).
Proof.
  intros _ Hi c c'. subst c c'.
  split; [apply DynPopCorr_loop_length |].
  rewrite DynPopCorr_loop_comp by exact Hi.
  cbn [set_mDynPopCorr mX mY mZ mOccupancy mpScattPow mDynPopCorr].
  do 5 (split; [reflexivity |]).
  unfold dynPopCorr_of.
  destruct (mpScattPow (comp_at comps i)) as [sp |].
  - pose proof (corr_fold_nonneg overlapDist mergeDist
                  (neighborsDist comps (GetDynPopCorrIndex sp)
                     (overlapDist * overlapDist) (mvNeighbour (hood_at tbl i)))
                  0 (Rle_refl 0)) as Hc.
    set (corr := fold_left _ _ 0) in *.
    pose proof (Rinv_0_lt_compat (1 + corr) ltac:(lra)) as Hinv.
    assert ((1 + corr) * / (1 + corr) = 1) as Hone by (field; lra).
    split.
    + unfold Rdiv. split; nra.
    + split; [intros [=] |].
      intros sp' [= <-] Hnil. subst corr. rewrite Hnil. cbn [fold_left]. lra.
  - split; [lra |]. split; [reflexivity | intros sp [=]].
Qed.

Lemma CalcDynPopCorr_range_witness :
  1 <> 0.5 /\ (0 < length (all_components [atom power_A 0 0 0; atom power_B (1 / 4) 0 0]))%nat
  /\ 0 < mDynPopCorr
           (comp_at (DynPopCorr_loop 1 0.5
                       (first_table sg_Pbar1 cubic10
                          [atom power_A 0 0 0; atom power_B (1 / 4) 0 0])
                       (all_components [atom power_A 0 0 0; atom power_B (1 / 4) 0 0]))
              0) <= 1.
Proof.
  assert (1 <> 0.5) as H1 by lra.
  assert (0 < length (all_components [atom power_A 0 0 0; atom power_B (1 / 4) 0 0]))%nat
    as H2 by (cbn; lia).
  split; [exact H1 |]. split; [exact H2 |].
  destruct (CalcDynPopCorr_range 1 0.5
              (first_table sg_Pbar1 cubic10
                 [atom power_A 0 0 0; atom power_B (1 / 4) 0 0])
              (all_components [atom power_A 0 0 0; atom power_B (1 / 4) 0 0]) 0 H1 H2)
    as (_ & _ & _ & _ & _ & _ & H & _).
  exact H.
Defined.

(** The state [GetScatteringComponentList] leaves when its list is out of
    date. *)
Lemma GetScatteringComponentList_stale (fuel : nat) (s : Crystal) :
  clocks_wf s ->
  (mClockScattCompList s <= mClockMaster s)%nat -> scatterer_changed s = true ->
  exists s',
    GetScatteringComponentList (S (S fuel)) s = Some s'
    /\ clocks_wf s' /\ compList_fresh s' /\ table_frame s s'
    /\ (msTick s < mClockScattCompList s')%nat
    /\ (if (mUseDynPopCorr s =? 1)%Z
        then distTable_fresh s'
             /\ mvDistTableSq s'
                = build_table true 1 (GetSpaceGroup s) (asUnitCell s)
                    (all_components (mScattererRegistry s)) (mvDistTableSq s)
             /\ mScattCompList s'
                = DynPopCorr_loop 1 0.5 (mvDistTableSq s')
                    (all_components (mScattererRegistry s))
        else mvDistTableSq s' = mvDistTableSq s
             /\ mDistTableClock s' = mDistTableClock s
             /\ mScattCompList s'
                = map (set_mDynPopCorr 1) (all_components (mScattererRegistry s))
             /\ mClockDynPopCorr s' = 0%nat).
Proof.
  intros Hwf Hold Hch.
  change (GetScatteringComponentList (S (S fuel)) s)
    with (if (mClockMaster s <? mClockScattCompList s)%nat then Some s
          else if scatterer_changed s then
            let s1 :=
              Click_mClockScattCompList
                (set_mScattCompList
                   (concat (map scattCompList (mScattererRegistry s))) s) in
            if (mUseDynPopCorr s1 =? 1)%Z
            then CalcDynPopCorr_with (GetScatteringComponentList (S fuel)) 1 0.5 s1
            else Some (ResetDynPopCorr s1)
          else Some s).
  replace (mClockMaster s <? mClockScattCompList s)%nat with false
    by (symmetry; apply Nat.ltb_ge; exact Hold).
  rewrite Hch. cbv zeta.
  set (s1 := Click_mClockScattCompList
               (set_mScattCompList
                  (concat (map scattCompList (mScattererRegistry s))) s)).
  change (mUseDynPopCorr s1) with (mUseDynPopCorr s).
  assert (clocks_wf s1) as Hwf1 by (subst s1; wf_intro Hwf; wf_split).
  assert (compList_fresh s1) as Hf1.
  { right. apply scatterer_changed_false. subst s1. wf_intro Hwf. unfold_setters.
    eapply Forall_impl; [eassumption | cbn beta; intros; lia]. }
  assert (table_frame s s1) as Hfr1
      by (subst s1; unfold table_frame; unfold_setters; repeat split).
  assert (mClockScattCompList s1 = S (msTick s)) as Hclk1 by reflexivity.
  destruct (mUseDynPopCorr s =? 1)%Z.
  - destruct (CalcDynPopCorr_with_after (GetScatteringComponentList (S fuel)) 1 0.5
                s1 s1 (GetScatteringComponentList_fresh fuel s1 Hf1) Hwf1 Hf1)
      as (s' & Hs' & Hwf' & Hf' & Hd' & Hfr' & Hc' & Hk').
    assert (CalcDynPopCorr_with (GetScatteringComponentList (S fuel)) 1 0.5 s1
            = Some (Click_mClockDynPopCorr
                      (set_mScattCompList
                         (DynPopCorr_loop 1 0.5
                            (build_table true 1 (GetSpaceGroup s) (asUnitCell s)
                               (all_components (mScattererRegistry s))
                               (mvDistTableSq s))
                            (all_components (mScattererRegistry s)))
                         (Click_mDistTableClock
                            (set_mvDistTableSq
                               (build_table true 1 (GetSpaceGroup s) (asUnitCell s)
                                  (all_components (mScattererRegistry s))
                                  (mvDistTableSq s)) s1))))) as Hex.
    { unfold CalcDynPopCorr_with, CalcDistTable_with.
      rewrite (GetScatteringComponentList_fresh fuel s1 Hf1).
      change (mClockScattCompList s1) with (S (msTick s)).
      change (mDistTableClock s1) with (mDistTableClock s).
      replace (S (msTick s) <? mDistTableClock s)%nat with false
        by (symmetry; apply Nat.ltb_ge; wf_intro Hwf; lia).
      cbn [andb].
      match goal with
      | |- context [(mDistTableClock ?x <? mClockDynPopCorr ?x)%nat] =>
          change (mDistTableClock x) with (S (S (msTick s)));
          change (mClockDynPopCorr x) with (mClockDynPopCorr s)
      end.
      replace (S (S (msTick s)) <? mClockDynPopCorr s)%nat with false
        by (symmetry; apply Nat.ltb_ge; wf_intro Hwf; lia).
      reflexivity. }
    rewrite Hex in Hs'. injection Hs' as <-.
    eexists. split; [exact Hex |].
    split; [exact Hwf' |]. split; [exact Hf' |].
    split; [exact (table_frame_trans _ _ _ Hfr1 Hfr') |].
    split; [rewrite Hc', Hclk1; lia |].
    split; [exact Hd' |].
    split; reflexivity.
  - destruct (ResetDynPopCorr_props s1 Hwf1 Hf1) as (Hwf2 & Hf2 & Hfr2 & Hc2 & Hk2).
    exists (ResetDynPopCorr s1). split; [reflexivity |].
    split; [exact Hwf2 |]. split; [exact Hf2 |].
    split; [exact (table_frame_trans _ _ _ Hfr1 Hfr2) |].
    split; [rewrite Hc2, Hclk1; lia |].
    repeat split.
Qed.

(** X11. [GetScatteringComponentList] when its list is out of date (its
    clock is not past the master clock and some scatterer has a newer
    clock): the new list is made of the lists of the scatterers, one after
    the other in the order of the registry. With the dynamical occupancy
    correction switched on, the distance table is built again on this list
    (quantized branch, margin 1) and the corrections are those of
    [CalcDynPopCorr(1.,.5)] on that table; otherwise the table is left as it
    is, every correction is 1 and the clock of the corrections is reset. *)
Theorem GetScatteringComponentList_update (fuel : nat) (s : Crystal) :
  clocks_wf s -> (2 <= fuel)%nat ->
  (mClockScattCompList s <= mClockMaster s)%nat -> scatterer_changed s = true ->
  exists s',
    GetScatteringComponentList fuel s = Some s'
    /\ (if (mUseDynPopCorr s =? 1)%Z
        then mvDistTableSq s'
             = build_table true 1 (GetSpaceGroup s) (asUnitCell s)
                 (all_components (mScattererRegistry s)) (mvDistTableSq s)
             /\ mScattCompList s'
                = DynPopCorr_loop 1 0.5 (mvDistTableSq s')
                    (all_components (mScattererRegistry s))
        else mvDistTableSq s' = mvDistTableSq s
             /\ mDistTableClock s' = mDistTableClock s
             /\ mScattCompList s'
                = map (set_mDynPopCorr 1) (all_components (mScattererRegistry s))
             /\ mClockDynPopCorr s' = 0%nat).
Proof.
  intros Hwf Hfuel Hold Hch.
  destruct fuel as [| [| fuel]]; [lia | lia | clear Hfuel].
  destruct (GetScatteringComponentList_stale fuel s Hwf Hold Hch)
    as (s' & Hs' & _ & _ & _ & _ & Hcase).
  exists s'. split; [exact Hs' |].
  destruct (mUseDynPopCorr s =? 1)%Z; [| exact Hcase].
  destruct Hcase as (_ & H1 & H2). split; assumption.
Qed.

Lemma GetScatteringComponentList_update_witness :
  clocks_wf crystal_AB /\ (2 <= 2)%nat
  /\ (mClockScattCompList crystal_AB <= mClockMaster crystal_AB)%nat
  /\ scatterer_changed crystal_AB = true
  /\ exists s',
       GetScatteringComponentList 2 crystal_AB = Some s'
       /\ mvDistTableSq s'
          = build_table true 1 sg_Pbar1 cubic10
              (all_components [atom power_A 0 0 0; atom power_B (1 / 4) 0 0]) []
       /\ mScattCompList s'
          = DynPopCorr_loop 1 0.5 (mvDistTableSq s')
              (all_components [atom power_A 0 0 0; atom power_B (1 / 4) 0 0]).
Proof.
  assert (clocks_wf crystal_AB) as Hwf
      by (apply new_crystal_wf; repeat constructor).
  assert (mClockScattCompList crystal_AB <= mClockMaster crystal_AB)%nat as Hold
      by (cbn; lia).
  assert (scatterer_changed crystal_AB = true) as Hch by reflexivity.
  split; [exact Hwf |]. split; [lia |]. split; [exact Hold |]. split; [exact Hch |].
  destruct (GetScatteringComponentList_update 2 crystal_AB Hwf (le_n 2) Hold Hch)
    as (s' & H1 & H2).
  exists s'. split; [exact H1 |]. exact H2.
Defined.

(** ** The distance table is built by its first caller *)

(** X12. Once [CalcDistTable] has returned, a further call returns at
    once with the same state, whatever branch ([fast]) and margin it is
    given: the two arguments only count for the call that builds the table,
    and the later callers ([GetMinDistanceTable], [GetBumpMergeCost],
    [CalcBondValenceSum], each with a margin of its own) read the table of
    the first one for as long as the components and the cell do not
    change. *)
Theorem CalcDistTable_arguments_of_first_call (fuel : nat) (fast1 fast2 : bool)
    (margin1 margin2 : R) (s : Crystal) :
  clocks_wf s -> (2 <= fuel)%nat ->
  exists s1,
    CalcDistTable fuel fast1 margin1 s = Some s1
    /\ CalcDistTable fuel fast2 margin2 s1 = Some s1
    /\ (forall minDistance,
          GetMinDistanceTable margin2 fuel minDistance s1
          = Some (minDistTable_of minDistance (mvDistTableSq s1)
                    (length (mScattCompList s1)),
                  length (mScattCompList s1), s1)).
Proof.
  intros Hwf Hfuel.
  destruct fuel as [| [| fuel]]; [lia | lia | clear Hfuel].
  destruct (CalcDistTable_ok fuel fast1 margin1 s Hwf)
    as (s1 & Hs1 & _ & Hf1 & Hd1 & _).
  exists s1. split; [exact Hs1 |].
  split; [apply CalcDistTable_fresh; assumption |].
  intros minDistance. unfold GetMinDistanceTable.
  rewrite CalcDistTable_fresh by assumption. reflexivity.
Qed.

Lemma CalcDistTable_arguments_of_first_call_witness :
  clocks_wf crystal_AB /\ (2 <= 2)%nat
  /\ exists s1,
       CalcDistTable 2 true 3 crystal_AB = Some s1
       /\ CalcDistTable 2 false 5 s1 = Some s1.
Proof.
  assert (clocks_wf crystal_AB) as Hwf
      by (apply new_crystal_wf; repeat constructor).
  split; [exact Hwf |]. split; [lia |].
  destruct (CalcDistTable_arguments_of_first_call 2 true false 3 5 crystal_AB Hwf
              (le_n 2)) as (s1 & H1 & H2 & _).
  exists s1. split; assumption.
Defined.

(** ** The penalty of one contact *)

Lemma sqrt_ratio_range (d2 dmin2 : R) :
  0 < dmin2 -> 0 <= d2 <= dmin2 -> 0 <= sqrt (d2 / dmin2) <= 1.
Proof.
  intros Hpos [H0 H1]. split; [apply sqrt_pos |].
  rewrite <- sqrt_1. apply sqrt_le_1_alt.
  apply Rmult_le_reg_r with (r := dmin2); [exact Hpos |].
  unfold Rdiv. rewrite Rmult_assoc, Rinv_l by lra. lra.
Qed.

Lemma tan_nonneg (a : R) : 0 <= a < PI / 2 -> 0 <= tan a.
Proof.
  intros [H0 H1]. destruct (Req_dec a 0) as [-> | Hne].
  - rewrite tan_0. lra.
  - left. apply tan_gt_0; lra.
Qed.

Lemma tan_monotone (a b : R) : 0 <= a <= b -> b < PI / 2 -> tan a <= tan b.
Proof.
  intros [H0 Hab] Hb. destruct (Req_dec a b) as [-> | Hne]; [lra |].
  left. apply tan_increasing; [| lra | exact Hb].
  pose proof PI_RGT_0. lra.
Qed.

(** X13. The penalty of a contact closer than the minimum distance is
    never negative and vanishes at the minimum distance. For a pair that
    may overlap it also vanishes at distance zero (the two atoms merged) and
    never exceeds 25; for the other pairs it is largest at distance zero,
    where it is still finite: [(tan(0.49999*pi)/0.1)^2]. *)
Theorem bump_term_bounds (par : BumpMergePar.t) (d2 : R) :
  0 < BumpMergePar.mDist2 par -> 0 <= d2 <= BumpMergePar.mDist2 par ->
  0 <= bump_term par d2
  /\ bump_term par (BumpMergePar.mDist2 par) = 0
  /\ (BumpMergePar.mCanOverlap par = true ->
      bump_term par d2 <= 25 /\ bump_term par 0 = 0)
  /\ (BumpMergePar.mCanOverlap par = false ->
      bump_term par d2 <= bump_term par 0
      /\ bump_term par 0 = (tan (PI * 0.49999) / 0.1) * (tan (PI * 0.49999) / 0.1)).
Proof.
  intros Hpos Hd.
  split; [unfold bump_term; cbv zeta; nra |].
  split; [apply bump_term_threshold; exact Hpos |].
  pose proof (sqrt_ratio_range d2 (BumpMergePar.mDist2 par) Hpos Hd) as Ht.
  assert (sqrt (0 / BumpMergePar.mDist2 par) = 0) as Hz.
  { unfold Rdiv. rewrite Rmult_0_l. apply sqrt_0. }
  unfold bump_term. rewrite Hz. split; intros ->.
  - split.
    + pose proof (SIN_bound (PI * (1 - sqrt (d2 / BumpMergePar.mDist2 par)))) as Hs.
      set (sn := sin _) in *. nra.
    + replace (PI * (1 - 0)) with PI by ring. rewrite sin_PI. lra.
  - split; [| replace (PI * 0.49999 * (1 - 0)) with (PI * 0.49999) by ring;
              reflexivity].
    pose proof PI_RGT_0 as Hpi.
    set (t := sqrt (d2 / BumpMergePar.mDist2 par)) in *.
    assert (0 <= PI * 0.49999 * (1 - t) <= PI * 0.49999 * (1 - 0)) as Ha by nra.
    assert (PI * 0.49999 * (1 - 0) < PI / 2) as Hb by lra.
    pose proof (tan_monotone _ _ Ha Hb) as Hm.
    pose proof (tan_nonneg (PI * 0.49999 * (1 - t)) ltac:(lra)) as Hn.
    set (ta := tan (PI * 0.49999 * (1 - t))) in *.
    set (tb := tan (PI * 0.49999 * (1 - 0))) in *.
    nra.
Qed.

Lemma bump_term_bounds_witness :
  0 < BumpMergePar.mDist2 (BumpMergePar.make 2 true)
  /\ 0 <= 1 <= BumpMergePar.mDist2 (BumpMergePar.make 2 true)
  /\ 0 <= bump_term (BumpMergePar.make 2 true) 1 <= 25.
Proof.
  assert (0 < BumpMergePar.mDist2 (BumpMergePar.make 2 true)) as H1 by (cbn; lra).
  assert (0 <= 1 <= BumpMergePar.mDist2 (BumpMergePar.make 2 true)) as H2
      by (cbn; lra).
  split; [exact H1 |]. split; [exact H2 |].
  destruct (bump_term_bounds (BumpMergePar.make 2 true) 1 H1 H2)
    as (Ha & _ & Hb & _).
  split; [exact Ha | apply Hb; reflexivity].
Defined.

(** ** The two costs are never negative *)

Lemma bump_fold_nonneg (pars : gmap (Z * Z) BumpMergePar.t)
    (comps : list ScatteringComponent) (i1 : Z) (row : list Neighbour.t) (c : R) :
  0 <= c -> 0 <= fold_left (bump_neigh pars comps i1) row c.
Proof.
  revert c. induction row as [| nb row IH]; intros c Hc; [exact Hc |].
  cbn [fold_left]. apply IH. unfold bump_neigh.
  destruct (pars !! _) as [par |]; [| exact Hc].
  destruct (Rltb _ _); [exact Hc |].
  unfold bump_term. cbv zeta. nra.
Qed.

Lemma bump_cost_nonneg (sg : SpaceGroup) (pars : gmap (Z * Z) BumpMergePar.t)
    (comps : list ScatteringComponent) (tbl : list NeighbourHood) :
  0 <= bump_cost sg pars comps tbl.
Proof.
  unfold bump_cost.
  assert (forall c, 0 <= c -> 0 <= fold_left (bump_hood pars comps) tbl c) as H.
  { induction tbl as [| pos tbl IH]; intros c Hc; [exact Hc |].
    cbn [fold_left]. apply IH. apply bump_fold_nonneg. exact Hc. }
  apply Rmult_le_pos; [apply H; lra | apply pos_INR].
Qed.

Lemma valence_cost_foldr (comps : list ScatteringComponent) (calc : gmap nat R) :
  valence_cost comps calc
  = foldr (fun kv cost =>
             cost + (kv.2 - formal_charge comps kv.1)
                    * (kv.2 - formal_charge comps kv.1))
          0 (map_to_list calc).
Proof.
  unfold valence_cost. rewrite map_fold_foldr.
  induction (map_to_list calc) as [| [k v] l IH]; [reflexivity |].
  cbn [foldr uncurry]. rewrite IH. reflexivity.
Qed.

Lemma valence_cost_nonneg (comps : list ScatteringComponent) (calc : gmap nat R) :
  0 <= valence_cost comps calc.
Proof.
  rewrite valence_cost_foldr.
  induction (map_to_list calc) as [| [k v] l IH]; simpl; [lra |].
  pose proof (Rle_0_sqr (v - formal_charge comps k)) as H. unfold Rsqr in H. lra.
Qed.

Lemma GetBumpMergeCost_nonneg (fuel : nat) (s : Crystal) :
  clocks_wf s -> 0 <= mBumpMergeCost s ->
  exists r s',
    GetBumpMergeCost (S (S fuel)) s = Some (r, s')
    /\ 0 <= r /\ clocks_wf s' /\ 0 <= mBumpMergeCost s'
    /\ mBondValenceCost s' = mBondValenceCost s.
Proof.
  intros Hwf Hc. unfold GetBumpMergeCost.
  destruct (size (mvBumpMergePar s) =? 0)%nat;
    [exists 0, s; split; [reflexivity |]; split; [lra |]; split; [exact Hwf |];
     split; [exact Hc | reflexivity] |].
  destruct (Rltb (mBumpMergeScale s) 1e-5) eqn:Hsc;
    [exists 0, s; split; [reflexivity |]; split; [lra |]; split; [exact Hwf |];
     split; [exact Hc | reflexivity] |].
  assert (1e-5 <= mBumpMergeScale s) as Hs.
  { destruct (Rlt_dec (mBumpMergeScale s) 1e-5) as [H | H]; [| lra].
    rewrite (Rltb_true _ _ H) in Hsc. discriminate. }
  destruct (CalcDistTable_ok fuel true 3 s Hwf)
    as (s1 & Hs1 & Hwf1 & _ & _ & Hfr1 & _).
  rewrite Hs1. frame_intro Hfr1.
  destruct (bump_cache_valid s1).
  - eexists _, s1. split; [reflexivity |].
    repeat match goal with H : _ s1 = _ s |- _ => rewrite H end.
    split; [nra |]. split; [exact Hwf1 |]. split; [exact Hc | reflexivity].
  - eexists _, _. split; [reflexivity |]. wf_intro Hwf1.
    pose proof (bump_cost_nonneg (GetSpaceGroup s1) (mvBumpMergePar s1)
                  (mScattCompList s1) (mvDistTableSq s1)) as Hb.
    split; [unfold_setters; nra |]. split; [wf_split |].
    unfold_setters. split; assumption.
Qed.

Lemma GetBondValenceCost_nonneg (fuel : nat) (s : Crystal) :
  clocks_wf s -> 0 <= mBondValenceCost s ->
  exists r s',
    GetBondValenceCost (S (S fuel)) s = Some (r, s')
    /\ 0 <= r /\ clocks_wf s' /\ 0 <= mBondValenceCost s'
    /\ mBumpMergeCost s' = mBumpMergeCost s.
Proof.
  intros Hwf Hc. unfold GetBondValenceCost.
  destruct (Rltb (mBondValenceCostScale s) 1e-5) eqn:Hsc;
    [exists 0, s; split; [reflexivity |]; split; [lra |]; split; [exact Hwf |];
     split; [exact Hc | reflexivity] |].
  assert (1e-5 <= mBondValenceCostScale s) as Hs.
  { destruct (Rlt_dec (mBondValenceCostScale s) 1e-5) as [H | H]; [| lra].
    rewrite (Rltb_true _ _ H) in Hsc. discriminate. }
  destruct (size (mvBondValenceRo s) =? 0)%nat eqn:Hsz.
  { eexists _, _. split; [reflexivity |]. wf_intro Hwf.
    split; [unfold_setters; lra |]. split; [wf_split |].
    unfold_setters. split; [lra | reflexivity]. }
  unfold CalcBondValenceSum. rewrite Hsz.
  destruct (CalcDistTable_ok fuel true 5 s Hwf)
    as (s1 & Hs1 & Hwf1 & _ & _ & Hfr1 & _).
  rewrite Hs1. frame_intro Hfr1.
  match goal with
  | |- context [if ?b then Some s1 else Some ?x] =>
      assert (exists s2, (if b then Some s1 else Some x) = Some s2
                /\ clocks_wf s2
                /\ mBondValenceCost s2 = mBondValenceCost s
                /\ mBondValenceCostScale s2 = mBondValenceCostScale s
                /\ mBumpMergeCost s2 = mBumpMergeCost s)
        as (s2 & -> & Hwf2 & Hc2 & Hsc2 & Hb2)
  end.
  { destruct (_ && _)%bool.
    - exists s1. split; [reflexivity |]. split; [exact Hwf1 |].
      repeat split; assumption.
    - eexists. split; [reflexivity |]. wf_intro Hwf1. split; [wf_split |].
      unfold_setters. repeat split; assumption. }
  destruct (_ && _)%bool.
  - eexists _, s2. split; [reflexivity |]. rewrite Hc2, Hsc2.
    split; [nra |]. split; [exact Hwf2 |]. split; [exact Hc | exact Hb2].
  - eexists _, _. split; [reflexivity |]. wf_intro Hwf2.
    pose proof (valence_cost_nonneg (mScattCompList s2) (mvBondValenceCalc s2)) as Hv.
    split; [unfold_setters; nra |]. split; [wf_split |].
    unfold_setters. split; assumption.
Qed.

(** X14. Whatever the two scales are, the two costs and their sum
    [GetLogLikelihood] are never negative: a scale below 1e-5 (a negative
    one too) switches its cost off, and each cost is a sum of squares. The
    costs held in the caches are taken not to be negative, which the calls
    keep true. *)
Theorem costs_never_negative (fuel : nat) (s : Crystal) :
  clocks_wf s -> 0 <= mBumpMergeCost s -> 0 <= mBondValenceCost s ->
  (2 <= fuel)%nat ->
  exists bump s1 valence s2,
    GetBumpMergeCost fuel s = Some (bump, s1)
    /\ GetBondValenceCost fuel s1 = Some (valence, s2)
    /\ GetLogLikelihood fuel s = Some (bump + valence, s2)
    /\ 0 <= bump /\ 0 <= valence
    /\ clocks_wf s2 /\ 0 <= mBumpMergeCost s2 /\ 0 <= mBondValenceCost s2.
Proof.
  intros Hwf Hb Hv Hfuel.
  destruct fuel as [| [| fuel]]; [lia | lia | clear Hfuel].
  destruct (GetBumpMergeCost_nonneg fuel s Hwf Hb)
    as (bump & s1 & H1 & Hr1 & Hwf1 & Hb1 & Hv1).
  destruct (GetBondValenceCost_nonneg fuel s1 Hwf1 ltac:(lra))
    as (valence & s2 & H2 & Hr2 & Hwf2 & Hv2 & Hb2).
  exists bump, s1, valence, s2.
  split; [exact H1 |]. split; [exact H2 |].
  split; [unfold GetLogLikelihood; rewrite H1, H2; reflexivity |].
  split; [exact Hr1 |]. split; [exact Hr2 |]. split; [exact Hwf2 |].
  split; [lra | exact Hv2].
Qed.

Lemma costs_never_negative_witness :
  clocks_wf crystal_AB_bump /\ 0 <= mBumpMergeCost crystal_AB_bump
  /\ 0 <= mBondValenceCost crystal_AB_bump /\ (2 <= 2)%nat
  /\ exists r s', GetLogLikelihood 2 crystal_AB_bump = Some (r, s') /\ 0 <= r.
Proof.
  assert (clocks_wf crystal_AB_bump) as Hwf
      by (apply SetBumpMergeDistance_wf, new_crystal_wf; repeat constructor).
  assert (0 <= mBumpMergeCost crystal_AB_bump) as Hb by (cbn; lra).
  assert (0 <= mBondValenceCost crystal_AB_bump) as Hv by (cbn; lra).
  split; [exact Hwf |]. split; [exact Hb |]. split; [exact Hv |]. split; [lia |].
  destruct (costs_never_negative 2 crystal_AB_bump Hwf Hb Hv (le_n 2))
    as (bump & s1 & valence & s2 & _ & _ & H & H1 & H2 & _).
  exists (bump + valence), s2. split; [exact H | lra].
Defined.

(** ** The bond valence cost, term by term *)

Lemma sum_R_map_ext {A : Type} (F G : A -> R) (l : list A) :
  (forall x, In x l -> F x = G x) -> sum_R (map F l) = sum_R (map G l).
Proof.
  intros H. induction l as [| x l IH]; [reflexivity |].
  cbn [map]. unfold sum_R in *. cbn [fold_right].
  rewrite IH by (intros y Hy; apply H; right; exact Hy).
  rewrite (H x) by (left; reflexivity). reflexivity.
Qed.

Lemma sum_R_zeros {A : Type} (l : list A) : sum_R (map (fun _ => 0) l) = 0.
Proof.
  induction l as [| x l IH]; [reflexivity |].
  cbn [map]. unfold sum_R in *. cbn [fold_right]. rewrite IH. lra.
Qed.

Lemma sum_R_update (F G : nat -> R) (n i : nat) :
  (i < n)%nat -> (forall k, k <> i -> F k = G k) ->
  sum_R (map F (seq 0 n)) = sum_R (map G (seq 0 n)) + (F i - G i).
Proof.
  intros Hi Hext. induction n as [| n IH]; [lia |].
  rewrite seq_S, !List.map_app, !sum_R_app. cbn [map Nat.add].
  unfold sum_R at 2 4. cbn [fold_right].
  destruct (Nat.eq_dec i n) as [-> | Hne].
  - rewrite (sum_R_map_ext F G (seq 0 n)).
    + lra.
    + intros k Hk. apply in_seq in Hk. apply Hext. lia.
  - rewrite IH by lia. rewrite (Hext n) by lia. lra.
Qed.

Lemma valence_cost_seq (comps : list ScatteringComponent) (calc : gmap nat R)
    (n : nat) :
  (forall k, is_Some (calc !! k) -> (k < n)%nat) ->
  valence_cost comps calc
  = sum_R (map (fun i => match calc !! i with
                         | Some v => (v - formal_charge comps i)
                                     * (v - formal_charge comps i)
                         | None => 0
                         end) (seq 0 n)).
Proof.
  induction calc as [| i x m Hnone IH] using map_ind; intros Hdom.
  - unfold valence_cost. rewrite map_fold_empty.
    rewrite (sum_R_map_ext _ (fun _ => 0)); [symmetry; apply sum_R_zeros |].
    intros k _. rewrite lookup_empty. reflexivity.
  - unfold valence_cost. rewrite map_fold_insert_L; [| intros; lra | exact Hnone].
    fold (valence_cost comps m). cbv zeta.
    rewrite IH.
    2:{ intros k Hk. apply Hdom. rewrite lookup_insert_is_Some'. right. exact Hk. }
    assert (i < n)%nat as Hi.
    { apply Hdom. rewrite lookup_insert_eq. eexists. reflexivity. }
    rewrite (sum_R_update
               (fun k => match <[i:=x]> m !! k with
                         | Some v => (v - formal_charge comps k)
                                     * (v - formal_charge comps k)
                         | None => 0
                         end)
               (fun k => match m !! k with
                         | Some v => (v - formal_charge comps k)
                                     * (v - formal_charge comps k)
                         | None => 0
                         end) n i Hi).
    + cbv beta. rewrite lookup_insert_eq, Hnone. lra.
    + intros k Hk. rewrite lookup_insert_ne by congruence. reflexivity.
Qed.

Lemma valence_cost_sums (ros : gmap (Z * Z) R) (comps : list ScatteringComponent)
    (tbl : list NeighbourHood) :
  valence_cost comps (valence_sums ros comps tbl)
  = sum_R (valence_deviations ros comps tbl).
Proof.
  rewrite (valence_cost_seq comps _ (length comps)).
  - unfold valence_deviations. apply sum_R_map_ext.
    intros i Hi. apply in_seq in Hi. rewrite valence_sums_spec.
    replace (i <? length comps)%nat with true
      by (symmetry; apply Nat.ltb_lt; lia).
    destruct (valence_terms ros comps tbl i); reflexivity.
  - intros k [v Hk]. rewrite valence_sums_spec in Hk.
    destruct (Nat.ltb_spec k (length comps)); [assumption | discriminate].
Qed.

(** [CalcBondValenceSum]: either nothing is done (and the valences were
    fresh), or the valences are computed during the call. *)
Lemma CalcBondValenceSum_cases (fuel : nat) (s : Crystal) :
  clocks_wf s -> (size (mvBondValenceRo s) =? 0)%nat = false ->
  exists s1,
    CalcBondValenceSum (S (S fuel)) s = Some s1
    /\ clocks_wf s1
    /\ mvBondValenceRo s1 = mvBondValenceRo s
    /\ mBondValenceCost s1 = mBondValenceCost s
    /\ mBondValenceCostScale s1 = mBondValenceCostScale s
    /\ mBondValenceCostClock s1 = mBondValenceCostClock s
    /\ mMasterClockScatteringPower s1 = mMasterClockScatteringPower s
    /\ ((s1 = s /\ bondValenceCalc_fresh s)
        \/ ((msTick s < mBondValenceCalcClock s1)%nat
            /\ mvBondValenceCalc s1
               = valence_sums (mvBondValenceRo s) (mScattCompList s1)
                   (mvDistTableSq s1))).
Proof.
  intros Hwf Hsz. unfold CalcBondValenceSum. rewrite Hsz.
  destruct (CalcDistTable_ok fuel true 5 s Hwf)
    as (s1 & Hs1 & Hwf1 & Hf1 & Hd1 & Hfr1 & Hk1 & Hcase).
  rewrite Hs1. frame_intro Hfr1.
  destruct ((mDistTableClock s1 <? mBondValenceCalcClock s1)%nat
            && (mBondValenceParClock s1 <? mBondValenceCalcClock s1)%nat)%bool eqn:Hv.
  - exists s1. split; [reflexivity |]. split; [exact Hwf1 |].
    do 5 (split; [assumption |]).
    apply andb_true_iff in Hv as [Ha Hb]. apply Nat.ltb_lt in Ha, Hb.
    destruct Hcase as [(-> & _ & _) | Hlt].
    + left. split; [reflexivity | split; assumption].
    + wf_intro Hwf. lia.
  - eexists. split; [reflexivity |]. wf_intro Hwf1.
    split; [wf_split |]. unfold_setters.
    do 5 (split; [assumption |]).
    right. split; [lia |].
    match goal with H : mvBondValenceRo s1 = _ |- _ => rewrite H end. reflexivity.
Qed.

(** X15. [GetBondValenceCost] comes to an end. It returns 0 when its
    scale is below 1e-5 or when no reference length is configured;
    otherwise it returns the scale times the sum, over the components that
    have at least one neighbour with a configured reference length, of the
    square of the valence sum of the component minus the formal charge of
    its scattering power. The caches are taken to hold what their clocks
    say. *)
Theorem GetBondValenceCost_deviations (fuel : nat) (s : Crystal) :
  clocks_wf s -> bondValenceCalc_coherent s -> bondValenceCost_coherent s ->
  (2 <= fuel)%nat ->
  exists r s',
    GetBondValenceCost fuel s = Some (r, s')
    /\ r = if (Rltb (mBondValenceCostScale s) 1e-5
               || (size (mvBondValenceRo s) =? 0)%nat)%bool
           then 0
           else sum_R (valence_deviations (mvBondValenceRo s) (mScattCompList s')
                         (mvDistTableSq s'))
                * mBondValenceCostScale s.
Proof.
  intros Hwf Hcalc Hcost Hfuel.
  destruct fuel as [| [| fuel]]; [lia | lia | clear Hfuel].
  unfold GetBondValenceCost.
  destruct (Rltb (mBondValenceCostScale s) 1e-5);
    [exists 0, s; split; reflexivity |].
  cbn [orb].
  destruct (size (mvBondValenceRo s) =? 0)%nat eqn:Hsz.
  { eexists _, _. split; [reflexivity |]. unfold_setters. lra. }
  destruct (CalcBondValenceSum_cases fuel s Hwf Hsz)
    as (s1 & Hs1 & Hwf1 & Hro & Hc & Hsc & Hcc & Hmc & Hcase).
  rewrite Hs1.
  assert (mvBondValenceCalc s1
          = valence_sums (mvBondValenceRo s) (mScattCompList s1) (mvDistTableSq s1))
    as Hsums.
  { destruct Hcase as [(-> & Hfresh) | (_ & H)]; [apply Hcalc; exact Hfresh | exact H]. }
  destruct ((mBondValenceCalcClock s1 <? mBondValenceCostClock s1)%nat
            && (mMasterClockScatteringPower s1 <? mBondValenceCostClock s1)%nat)%bool
    eqn:Hv.
  - eexists _, s1. split; [reflexivity |].
    apply andb_true_iff in Hv as [Ha Hb]. apply Nat.ltb_lt in Ha, Hb.
    destruct Hcase as [(-> & Hfresh) | (Hlt & _)].
    + rewrite Hcost by (split; assumption).
      rewrite Hsums, valence_cost_sums. reflexivity.
    + wf_intro Hwf. lia.
  - eexists _, _. split; [reflexivity |]. unfold_setters.
    rewrite Hsums, valence_cost_sums, Hsc. reflexivity.
Qed.

Lemma GetBondValenceCost_deviations_witness :
  clocks_wf (AddBondValenceRo power_A power_B 2 crystal_AB)
  /\ bondValenceCalc_coherent (AddBondValenceRo power_A power_B 2 crystal_AB)
  /\ bondValenceCost_coherent (AddBondValenceRo power_A power_B 2 crystal_AB)
  /\ (2 <= 2)%nat
  /\ exists r s',
       GetBondValenceCost 2 (AddBondValenceRo power_A power_B 2 crystal_AB)
       = Some (r, s')
       /\ r = sum_R (valence_deviations
                       (mvBondValenceRo (AddBondValenceRo power_A power_B 2 crystal_AB))
                       (mScattCompList s') (mvDistTableSq s'))
              * 1.
Proof.
  set (s := AddBondValenceRo power_A power_B 2 crystal_AB).
  assert (clocks_wf s) as Hwf
      by (apply AddBondValenceRo_wf, new_crystal_wf; repeat constructor).
  assert (bondValenceCalc_coherent s) as Hcalc.
  { intros [H _]. cbn in H. lia. }
  assert (bondValenceCost_coherent s) as Hcost.
  { intros [H _]. cbn in H. lia. }
  split; [exact Hwf |]. split; [exact Hcalc |]. split; [exact Hcost |].
  split; [lia |].
  destruct (GetBondValenceCost_deviations 2 s Hwf Hcalc Hcost (le_n 2))
    as (r & s' & H1 & H2).
  exists r, s'. split; [exact H1 |]. rewrite H2.
  replace (Rltb (mBondValenceCostScale s) 1e-5) with false.
  - replace (size (mvBondValenceRo s) =? 0)%nat with false; [reflexivity |].
    symmetry. apply Nat.eqb_neq. apply map_size_non_empty_iff, insert_non_empty.
  - symmetry. apply Rltb_false. change (mBondValenceCostScale s) with 1. lra.
Defined.

(** X16. After [AddBondValenceRo] nothing stale is read: whatever the
    caches held, [GetBondValenceCost] computes the valence sums again with
    the new reference length and returns the cost of these sums (the scale
    is taken not to be below 1e-5). *)
Theorem GetBondValenceCost_after_AddBondValenceRo (fuel : nat)
    (pow1 pow2 : ScatteringPower) (ro : R) (s : Crystal) :
  clocks_wf s -> 1e-5 <= mBondValenceCostScale s -> (2 <= fuel)%nat ->
  exists r s',
    GetBondValenceCost fuel (AddBondValenceRo pow1 pow2 ro s) = Some (r, s')
    /\ mvBondValenceRo s'
       = <[pair_key (spAddress pow1) (spAddress pow2) := ro]> (mvBondValenceRo s)
    /\ mvBondValenceCalc s'
       = valence_sums (mvBondValenceRo s') (mScattCompList s') (mvDistTableSq s')
    /\ r = sum_R (valence_deviations (mvBondValenceRo s') (mScattCompList s')
                    (mvDistTableSq s'))
           * mBondValenceCostScale s.
Proof.
  intros Hwf Hscale Hfuel.
  destruct fuel as [| [| fuel]]; [lia | lia | clear Hfuel].
  set (s0 := AddBondValenceRo pow1 pow2 ro s).
  assert (clocks_wf s0) as Hwf0 by (apply AddBondValenceRo_wf; exact Hwf).
  assert (mvBondValenceRo s0
          = <[pair_key (spAddress pow1) (spAddress pow2) := ro]> (mvBondValenceRo s))
    as Hmap by reflexivity.
  assert ((size (mvBondValenceRo s0) =? 0)%nat = false) as Hsz.
  { apply Nat.eqb_neq. rewrite Hmap. apply map_size_non_empty_iff, insert_non_empty. }
  unfold GetBondValenceCost.
  change (mBondValenceCostScale s0) with (mBondValenceCostScale s).
  rewrite (Rltb_false _ _ Hscale), Hsz.
  destruct (CalcBondValenceSum_cases fuel s0 Hwf0 Hsz)
    as (s1 & Hs1 & Hwf1 & Hro & Hc & Hsc & Hcc & Hmc & Hcase).
  rewrite Hs1.
  destruct Hcase as [(_ & _ & Hfresh) | (Hlt & Hsums)].
  { exfalso. subst s0. unfold AddBondValenceRo in Hfresh. unfold_setters.
    wf_intro Hwf. lia. }
  replace ((mBondValenceCalcClock s1 <? mBondValenceCostClock s1)%nat
           && (mMasterClockScatteringPower s1 <? mBondValenceCostClock s1)%nat)%bool
    with false.
  2:{ symmetry. apply andb_false_iff. left. apply Nat.ltb_ge.
      rewrite Hcc. change (mBondValenceCostClock s0) with (mBondValenceCostClock s).
      change (msTick s0) with (S (msTick s)) in Hlt. wf_intro Hwf. lia. }
  eexists _, _. split; [reflexivity |]. unfold_setters.
  rewrite Hro, <- Hmap. split; [reflexivity |]. split; [exact Hsums |].
  rewrite Hsums, valence_cost_sums, Hsc. reflexivity.
Qed.

Lemma GetBondValenceCost_after_AddBondValenceRo_witness :
  clocks_wf crystal_AB /\ 1e-5 <= mBondValenceCostScale crystal_AB /\ (2 <= 2)%nat
  /\ exists r s',
       GetBondValenceCost 2 (AddBondValenceRo power_A power_B 2 crystal_AB)
       = Some (r, s')
       /\ mvBondValenceCalc s'
          = valence_sums (mvBondValenceRo s') (mScattCompList s') (mvDistTableSq s').
Proof.
  assert (clocks_wf crystal_AB) as Hwf
      by (apply new_crystal_wf; repeat constructor).
  assert (1e-5 <= mBondValenceCostScale crystal_AB) as Hsc
      by (change (mBondValenceCostScale crystal_AB) with 1; lra).
  split; [exact Hwf |]. split; [exact Hsc |]. split; [lia |].
  destruct (GetBondValenceCost_after_AddBondValenceRo 2 power_A power_B 2
              crystal_AB Hwf Hsc (le_n 2)) as (r & s' & H1 & _ & H3 & _).
  exists r, s'. split; assumption.
Defined.

(** ** [FindScatterer] *)

Lemma name_eqb_spec (a b : list ascii) : name_eqb a b = true <-> a = b.
Proof.
  revert b. induction a as [| x a IH]; intros [| y b]; cbn [name_eqb];
    try (split; [discriminate | intros [=]]); [split; reflexivity |].
  rewrite andb_true_iff, Ascii.eqb_eq, IH. split.
  - intros [-> ->]. reflexivity.
  - intros [= -> ->]. split; reflexivity.
Qed.

Lemma FindScatterer_from_spec (names : list (list ascii)) (scattName : list ascii)
    (i0 : nat) :
  match FindScatterer_from i0 names scattName with
  | inr i =>
      (i0 <= i)%nat /\ names !! (i - i0)%nat = Some scattName
      /\ forall j, (j < i - i0)%nat -> names !! j <> Some scattName
  | inl e =>
      e = CannotFindThisScatterer scattName /\ ~ In scattName names
  end.
Proof.
  revert i0. induction names as [| name rest IH]; intros i0; cbn [FindScatterer_from].
  { split; [reflexivity | intros []]. }
  destruct (name_eqb name scattName) eqn:Heq.
  - apply name_eqb_spec in Heq. subst name.
    split; [lia |]. rewrite Nat.sub_diag. split; [reflexivity | intros j Hj; lia].
  - assert (name <> scattName) as Hne.
    { intros ->. assert (name_eqb scattName scattName = true) as H
          by (apply name_eqb_spec; reflexivity).
      rewrite H in Heq. discriminate. }
    specialize (IH (S i0)).
    destruct (FindScatterer_from (S i0) rest scattName) as [e | i].
    + destruct IH as [-> Hnot]. split; [reflexivity |].
      intros [H | H]; [contradiction | exact (Hnot H)].
    + destruct IH as (Hle & Hi & Hfirst).
      split; [lia |].
      replace (i - i0)%nat with (S (i - S i0)) by lia.
      split; [exact Hi |].
      intros [| j] Hj; cbn; [congruence | apply Hfirst; lia].
Qed.

(** X17. [FindScatterer] returns the index of the first scatterer of
    the registry that bears the name (so that a second scatterer with the
    same name is never found), and throws exactly when no scatterer bears
    it. *)
Theorem FindScatterer_first (names : list (list ascii)) (scattName : list ascii) :
  (forall i, FindScatterer names scattName = inr i <->
             names !! i = Some scattName
             /\ forall j, (j < i)%nat -> names !! j <> Some scattName)
  /\ (FindScatterer names scattName = inl (CannotFindThisScatterer scattName) <->
      ~ In scattName names)
  /\ (forall e, FindScatterer names scattName = inl e ->
                e = CannotFindThisScatterer scattName).
Proof.
  pose proof (FindScatterer_from_spec names scattName 0) as H.
  unfold FindScatterer.
  destruct (FindScatterer_from 0 names scattName) as [e | i].
  - destruct H as [-> Hnot].
    split; [| split; [split; [intros _; exact Hnot | reflexivity]
                     | intros e [= <-]; reflexivity]].
    intros i. split; [discriminate |]. intros [Hi _]. exfalso. apply Hnot.
    apply list_elem_of_In. eapply list_elem_of_lookup_2. exact Hi.
  - destruct H as (_ & Hi & Hfirst). rewrite Nat.sub_0_r in Hi, Hfirst.
    split; [| split; [split; [discriminate |] | intros e; discriminate]].
    + intros i'. split.
      * intros [= <-]. split; assumption.
      * intros [Hi' Hfirst']. f_equal.
        destruct (Nat.lt_trichotomy i i') as [Hlt | [-> | Hgt]]; [| reflexivity |].
        -- exfalso. exact (Hfirst' i Hlt Hi).
        -- exfalso. exact (Hfirst i' Hgt Hi').
    + intros Hnot. exfalso. apply Hnot.
      apply list_elem_of_In. eapply list_elem_of_lookup_2. exact Hi.
Qed.

(** ** [GlobalOptRandomMove] *)

(** X18. When [GlobalOptRandomMove] exchanges the positions of two
    scatterers, the two indices are in range and differ (a scatterer is
    never exchanged with itself); every ordered pair of distinct scatterers
    can be drawn; nothing is exchanged when there are fewer than two
    scatterers, and nothing moves at all once a move has been made. *)
Theorem GlobalOptRandomMove_indices (mRandomMoveIsDone : bool) (RAND_MAX nb : Z)
    (rand : nat -> Z) :
  (forall n1 n2,
     GlobalOptRandomMove_choice mRandomMoveIsDone RAND_MAX nb rand
     = ExchangePositions n1 n2 ->
     mRandomMoveIsDone = false /\ (1 < nb)%Z
     /\ (0 <= n1 < nb)%Z /\ (0 <= n2 < nb)%Z /\ n1 <> n2)
  /\ (forall a b, (0 <= a < nb)%Z -> (0 <= b < nb)%Z -> a <> b ->
        IZR (rand 0%nat) / IZR RAND_MAX < 0.02 ->
        rand 1%nat = a -> rand 2%nat = ((b - a - 1) mod nb)%Z ->
        GlobalOptRandomMove_choice false RAND_MAX nb rand = ExchangePositions a b)
  /\ (GlobalOptRandomMove_choice true RAND_MAX nb rand = NoMove).
Proof.
  split; [| split; [| reflexivity]].
  - intros n1 n2. unfold GlobalOptRandomMove_choice.
    destruct mRandomMoveIsDone; [discriminate |].
    destruct (Rltb _ _); cbn [andb]; [| discriminate].
    destruct (Z.ltb_spec 1 nb) as [Hnb | Hnb]; [| discriminate].
    cbv zeta. intros [= <- <-].
    split; [reflexivity |]. split; [exact Hnb |].
    pose proof (Z.mod_pos_bound (rand 1%nat) nb ltac:(lia)) as H1.
    pose proof (Z.mod_pos_bound (rand 2%nat) (nb - 1) ltac:(lia)) as H2.
    set (n1 := (rand 1%nat mod nb)%Z) in *.
    set (r := (rand 2%nat mod (nb - 1))%Z) in *.
    split; [exact H1 |].
    split; [apply Z.mod_pos_bound; lia |].
    destruct (Z.ltb_spec (r + n1 + 1) nb) as [Hlt | Hge].
    + rewrite Z.mod_small by lia. lia.
    + assert ((r + n1 + 1) mod nb = r + n1 + 1 - nb)%Z as ->.
      { symmetry. apply Z.mod_unique with (q := 1%Z); lia. }
      lia.
  - intros a b Ha Hb Hab Hr0 Hr1 Hr2. unfold GlobalOptRandomMove_choice.
    rewrite (Rltb_true _ _ Hr0).
    replace (1 <? nb)%Z with true by (symmetry; apply Z.ltb_lt; lia).
    cbn [andb]. cbv zeta. rewrite Hr1, Hr2.
    rewrite (Z.mod_small a nb) by lia.
    assert (0 <= (b - a - 1) mod nb < nb - 1)%Z as Hm.
    { destruct (Z.ltb_spec a b) as [Hlt | Hge].
      - rewrite Z.mod_small by lia. lia.
      - assert ((b - a - 1) mod nb = b - a - 1 + nb)%Z as ->.
        { symmetry. apply Z.mod_unique with (q := (-1)%Z); lia. }
        lia. }
    rewrite (Z.mod_small ((b - a - 1) mod nb) (nb - 1)) by exact Hm.
    f_equal.
    rewrite <- Z.add_assoc, Z.add_mod_idemp_l by lia.
    replace (b - a - 1 + (a + 1))%Z with b by lia.
    apply Z.mod_small. lia.
Qed.

(** ** [CIFOutput]: the name of the data block *)

Lemma find_space_None (t : list ascii) :
  find_space t = None -> without_spaces t = t /\ count_spaces t = 0%nat.
Proof.
  induction t as [| c t IH]; [split; reflexivity |].
  cbn [find_space]. destruct (Ascii.eqb c space) eqn:Hc; [discriminate |].
  destruct (find_space t); [discriminate |]. intros _.
  destruct (IH eq_refl) as [H1 H2].
  unfold without_spaces, count_spaces in *. cbn [map List.filter].
  rewrite Hc, H1. split; [reflexivity | exact H2].
Qed.

Lemma find_space_Some (t : list ascii) (w : nat) :
  find_space t = Some w ->
  without_spaces (<[w := underscore]> t) = without_spaces t
  /\ count_spaces t = S (count_spaces (<[w := underscore]> t))
  /\ length (<[w := underscore]> t) = length t.
Proof.
  revert w. induction t as [| c t IH]; intros w; [discriminate |].
  cbn [find_space]. destruct (Ascii.eqb c space) eqn:Hc.
  - intros [= <-]. unfold without_spaces, count_spaces.
    cbn [map List.filter]. rewrite Hc. cbn [length].
    change (underscore =? space)%char with false. cbn [map List.filter].
    split; [reflexivity |]. split; reflexivity.
  - destruct (find_space t) as [w' |]; [| discriminate]. intros [= <-].
    destruct (IH w' eq_refl) as (H1 & H2 & H3).
    unfold without_spaces, count_spaces in *.
    cbn [map List.filter]. rewrite Hc. cbn [length].
    change (<[S w' := underscore]> (c :: t)) with (c :: <[w' := underscore]> t).
    cbn [map List.filter length]. rewrite Hc, H1, H2, H3.
    split; [reflexivity |]. split; reflexivity.
Qed.

Lemma CIF_name_loop_spec (fuel : nat) (t : list ascii) (cout : list (list ascii)) :
  (count_spaces t <= fuel)%nat ->
  exists printed,
    CIF_name_loop fuel t cout = Some (without_spaces t, cout ++ printed)
    /\ length printed = count_spaces t
    /\ last printed = (if (count_spaces t =? 0)%nat then None
                       else Some (without_spaces t)).
Proof.
  revert t cout. induction fuel as [| fuel IH]; intros t cout Hn.
  - destruct (find_space t) as [w |] eqn:Hf.
    + destruct (find_space_Some t w Hf) as (_ & H & _). lia.
    + destruct (find_space_None t Hf) as [H1 H2].
      exists []. cbn [CIF_name_loop]. rewrite Hf, H1, H2, app_nil_r.
      repeat split.
  - cbn [CIF_name_loop]. destruct (find_space t) as [w |] eqn:Hf.
    + destruct (find_space_Some t w Hf) as (H1 & H2 & _).
      destruct (IH (<[w := underscore]> t) (cout ++ [<[w := underscore]> t]))
        as (printed & Hp & Hl & Hlast); [lia |].
      exists (<[w := underscore]> t :: printed).
      cbv zeta. rewrite Hp, H1, <- app_assoc. cbn [app].
      split; [reflexivity |]. split; [cbn [length]; lia |].
      rewrite H2. cbn [Nat.eqb].
      destruct printed as [| p printed'].
      * cbn [length] in Hl. cbn [last].
        destruct (find_space (<[w := underscore]> t)) as [w' |] eqn:Hf'.
        -- destruct (find_space_Some _ w' Hf') as (_ & H & _). lia.
        -- destruct (find_space_None _ Hf') as [H _]. rewrite <- H1, H. reflexivity.
      * rewrite last_cons_cons, Hlast, H1.
        destruct (count_spaces (<[w := underscore]> t)) eqn:Hc;
          [cbn [length] in Hl; lia | reflexivity].
    + destruct (find_space_None t Hf) as [H1 H2].
      exists []. rewrite H1, H2, app_nil_r. repeat split.
Qed.

Lemma without_spaces_no_space (t : list ascii) : ~ In space (without_spaces t).
Proof.
  unfold without_spaces. intros H. apply in_map_iff in H as (c & Hc & _).
  destruct (Ascii.eqb c space) eqn:He.
  - discriminate Hc.
  - subst c. rewrite Ascii.eqb_refl in He. discriminate.
Qed.

(** X19. The name [CIFOutput] writes after [data_] is made of the first
    32 characters of the name of the crystal, with an underscore in the
    place of every space: it has no space and at most 32 characters; a name
    of at most 32 characters without space is written as it is. The loop
    ends after as many turns as there are spaces, and each turn prints the
    name on the standard output (the last line printed is the final name). *)
Theorem CIF_data_block_name_spec (fuel : nat) (mName : list ascii) :
  (count_spaces (take 32 mName) <= fuel)%nat ->
  exists printed,
    CIF_data_block_name fuel mName
    = Some (without_spaces (take 32 mName), printed)
    /\ length printed = count_spaces (take 32 mName)
    /\ (length (without_spaces (take 32 mName)) <= 32)%nat
    /\ ~ In space (without_spaces (take 32 mName))
    /\ ((length mName <= 32)%nat -> ~ In space mName ->
        without_spaces (take 32 mName) = mName /\ printed = [])
    /\ (printed <> [] -> last printed = Some (without_spaces (take 32 mName))).
Proof.
  intros Hfuel. unfold CIF_data_block_name.
  assert ((if (32 <? length mName)%nat then take 32 mName else mName)
          = take 32 mName) as ->.
  { destruct (Nat.ltb_spec 32 (length mName)); [reflexivity |].
    symmetry. apply take_ge. lia. }
  destruct (CIF_name_loop_spec fuel (take 32 mName) [] Hfuel)
    as (printed & Hp & Hl & Hlast).
  exists printed. split; [exact Hp |]. split; [exact Hl |].
  split.
  { unfold without_spaces. rewrite length_map, length_take. lia. }
  split; [apply without_spaces_no_space |].
  split.
  - intros Hlen Hns. rewrite take_ge by lia.
    assert (forall l : list ascii, ~ In space l ->
              without_spaces l = l /\ count_spaces l = 0%nat) as Hclean.
    { induction l as [| c l IH]; intros Hn; [split; reflexivity |].
      destruct IH as [I1 I2]; [intros H; apply Hn; right; exact H |].
      assert (Ascii.eqb c space = false) as Hc.
      { destruct (Ascii.eqb c space) eqn:He; [| reflexivity].
        apply Ascii.eqb_eq in He. exfalso. apply Hn. left. exact He. }
      unfold without_spaces, count_spaces in *. cbn [map List.filter].
      rewrite Hc, I1. split; [reflexivity | exact I2]. }
    destruct (Hclean mName Hns) as [H1 H2].
    split; [exact H1 |].
    rewrite take_ge in Hl by lia. rewrite H2 in Hl.
    destruct printed; [reflexivity | discriminate].
  - intros Hne. rewrite Hlast.
    destruct (count_spaces (take 32 mName)) eqn:Hc; [| reflexivity].
    destruct printed; [contradiction | discriminate].
Qed.

Lemma CIF_data_block_name_spec_witness :
  (count_spaces (take 32 ["F"; "o"; "x"; " "; "1"; " "; "a"]%char) <= 2)%nat
  /\ exists printed,
       CIF_data_block_name 2 ["F"; "o"; "x"; " "; "1"; " "; "a"]%char
       = Some (["F"; "o"; "x"; "_"; "1"; "_"; "a"]%char, printed)
       /\ length printed = 2%nat.
Proof.
  assert (count_spaces (take 32 ["F"; "o"; "x"; " "; "1"; " "; "a"]%char) <= 2)%nat
    as H by (cbn; lia).
  split; [exact H |].
  destruct (CIF_data_block_name_spec 2 ["F"; "o"; "x"; " "; "1"; " "; "a"]%char H)
    as (printed & H1 & H2 & _).
  exists printed. split; [exact H1 | exact H2].
Defined.

(** ** [CIFOutput]: the atoms written and the atoms left out *)

Lemma CIF_sites_count (M : CrystMatrix_REAL) (k : nat)
    (l : list ScatteringComponent) :
  (length (CIF_sites M false k l) + length (CIF_sites M true k l))%nat
  = length (with_power l).
Proof.
  revert k. induction l as [| c l IH]; intros k; [reflexivity |].
  unfold with_power in *. cbn [CIF_sites List.filter].
  destruct (mpScattPow c); [| apply IH].
  cbv zeta. rewrite !length_app. cbn [length]. rewrite <- (IH (S k)).
  destruct (CIF_redundant M k); cbn [Bool.eqb length]; lia.
Qed.

Lemma CIF_sites_In (M : CrystMatrix_REAL) (k : nat) (l : list ScatteringComponent)
    (c : ScatteringComponent) :
  In c (with_power l) <-> In c (CIF_sites M false k l) \/ In c (CIF_sites M true k l).
Proof.
  revert k. induction l as [| c' l IH]; intros k.
  { cbn. tauto. }
  unfold with_power in *. cbn [CIF_sites List.filter].
  destruct (mpScattPow c'); [| apply IH].
  cbv zeta. rewrite !in_app_iff. cbn [In]. rewrite (IH (S k)).
  destruct (CIF_redundant M k); cbn [Bool.eqb In]; tauto.
Qed.

Lemma CIF_sites_sublist (M : CrystMatrix_REAL) (b : bool) (k : nat)
    (l : list ScatteringComponent) :
  sublist (CIF_sites M b k l) (with_power l).
Proof.
  revert k. induction l as [| c l IH]; intros k; [constructor |].
  unfold with_power in *. cbn [CIF_sites List.filter].
  destruct (mpScattPow c); [| apply IH].
  cbv zeta. destruct (Bool.eqb (CIF_redundant M k) b); cbn [app].
  - apply sublist_skip, IH.
  - apply sublist_cons, IH.
Qed.

Lemma CIF_sites_app (M : CrystMatrix_REAL) (b : bool) (k : nat)
    (pre post : list ScatteringComponent) :
  CIF_sites M b k (pre ++ post)
  = CIF_sites M b k pre ++ CIF_sites M b (k + length (with_power pre)) post.
Proof.
  revert k. induction pre as [| c pre IH]; intros k.
  { cbn. rewrite Nat.add_0_r. reflexivity. }
  unfold with_power in *. cbn [app CIF_sites List.filter].
  destruct (mpScattPow c); [| apply IH].
  cbv zeta. rewrite IH, <- app_assoc. cbn [length].
  replace (S k + length (List.filter _ pre))%nat
    with (k + S (length (List.filter
                           (fun c => match mpScattPow c with
                                     | Some _ => true
                                     | None => false
                                     end) pre)))%nat by lia.
  reflexivity.
Qed.

(** X20. In the list of atoms of [CIFOutput] no atom is lost and none
    is written twice: every component that has a scattering power is either
    written in the list or written in the comment that follows, both in the
    order of the component list, and the components without scattering
    power are in neither. The first component that has a scattering power
    is always in the list. A component is left out exactly when the table
    of minimal distances has an entry below 0.5 between its column and an
    earlier row, where its column is the number of components with a
    scattering power that come before it (not its index in the component
    list, which is larger when a component without scattering power
    precedes it). *)
Theorem CIF_sites_partition (minDistTable : CrystMatrix_REAL)
    (comps : list ScatteringComponent) :
  let written := CIF_sites minDistTable false 0 comps in
  let excluded := CIF_sites minDistTable true 0 comps in
  (length written + length excluded)%nat = length (with_power comps)
  /\ sublist written (with_power comps)
  /\ sublist excluded (with_power comps)
  /\ (forall c, In c (with_power comps) <-> In c written \/ In c excluded)
  /\ (forall c rest, with_power comps = c :: rest ->
        exists written', written = c :: written')
  /\ (forall k, CIF_redundant minDistTable k = true <->
        exists l, (l < k)%nat /\ minDistTable l k < 0.5)
  /\ (forall pre c post sp,
        comps = pre ++ c :: post -> mpScattPow c = Some sp ->
        let k := length (with_power pre) in
        written
        = CIF_sites minDistTable false 0 pre
          ++ (if CIF_redundant minDistTable k then [] else [c])
          ++ CIF_sites minDistTable false (S k) post
        /\ excluded
           = CIF_sites minDistTable true 0 pre
             ++ (if CIF_redundant minDistTable k then [c] else [])
             ++ CIF_sites minDistTable true (S k) post).
Proof.
  intros written excluded. subst written excluded.
  split; [apply CIF_sites_count |].
  split; [apply CIF_sites_sublist |].
  split; [apply CIF_sites_sublist |].
  split; [intros c; apply CIF_sites_In |].
  split.
  { intros c rest. induction comps as [| c' comps IH]; [discriminate |].
    unfold with_power in *. cbn [List.filter CIF_sites].
    destruct (mpScattPow c'); [| exact IH].
    intros [= -> _]. cbv zeta.
    change (CIF_redundant minDistTable 0) with false. cbn [Bool.eqb app].
    eexists. reflexivity. }
  split.
  { intros k. unfold CIF_redundant. rewrite existsb_exists. split.
    - intros (l & Hl & Hlt). apply in_seq in Hl. apply Rltb_spec in Hlt.
      exists l. split; [lia | exact Hlt].
    - intros (l & Hl & Hlt). exists l. split; [apply in_seq; lia |].
      apply Rltb_spec. exact Hlt. }
  intros pre c post sp -> Hsp k.
  rewrite !CIF_sites_app. cbn [CIF_sites Nat.add]. rewrite Hsp. cbv zeta. fold k.
  destruct (CIF_redundant minDistTable k); cbn [Bool.eqb]; split; reflexivity.
Qed.

(** ** [GetGeneGroup] *)

Lemma shared_spec (thisPars : list Z) (p : Z) :
  shared thisPars p = true <-> In p thisPars.
Proof.
  unfold shared. rewrite existsb_exists. split.
  - intros (q & Hq & Heq). apply Z.eqb_eq in Heq. subst q. exact Hq.
  - intros H. exists p. split; [exact H | apply Z.eqb_refl].
Qed.

(** The inner loop, for a counter that is not zero on entry: no parameter
    of the crystal is at the address [p] and nothing changes, or the
    parameter [i] joins the group of the lattice. *)
Lemma GetGeneGroup_inner (first0 : Z) (i : nat) (p : Z) (l : list Z)
    (g : GeneGroups) :
  first0 <> 0%Z ->
  (latticeIndex g = 0%Z /\ first g = first0)
  \/ (latticeIndex g = first0 /\ first g = ((first0 + 1) mod 2 ^ 32)%Z) ->
  fold_left (GetGeneGroup_step i p) l g
  = if shared l p
    then mkGeneGroups (<[i := first0]> (groupIndex g))
           ((first0 + 1) mod 2 ^ 32)%Z first0
    else g.
Proof.
  intros Hnz. revert g. induction l as [| q l IH]; intros g Hinv; [reflexivity |].
  cbn [fold_left]. unfold shared. cbn [existsb]. fold (shared l p).
  unfold GetGeneGroup_step at 2.
  destruct (p =? q)%Z; cbn [orb]; [| apply IH; exact Hinv].
  set (g' := mkGeneGroups _ _ _).
  assert (g' = mkGeneGroups (<[i := first0]> (groupIndex g))
                 ((first0 + 1) mod 2 ^ 32)%Z first0) as ->.
  { subst g'. destruct Hinv as [[Hl Hf] | [Hl Hf]]; rewrite Hl.
    - cbn [Z.eqb groupIndex first latticeIndex]. rewrite Hf. reflexivity.
    - replace (first0 =? 0)%Z with false by (symmetry; apply Z.eqb_neq; exact Hnz).
      rewrite Hl, Hf. reflexivity. }
  rewrite IH by (right; split; reflexivity).
  cbn [groupIndex]. rewrite list_insert_insert_eq.
  destruct (shared l p); reflexivity.
Qed.

Lemma GetGeneGroup_outer (first0 : Z) (objPars thisPars : list Z) (i0 : nat)
    (g : GeneGroups) :
  first0 <> 0%Z ->
  (latticeIndex g = 0%Z /\ first g = first0)
  \/ (latticeIndex g = first0 /\ first g = ((first0 + 1) mod 2 ^ 32)%Z) ->
  let g' := GetGeneGroup_from i0 objPars thisPars g in
  length (groupIndex g') = length (groupIndex g)
  /\ (forall k, (k < i0)%nat -> groupIndex g' !! k = groupIndex g !! k)
  /\ (forall k p, objPars !! k = Some p ->
        groupIndex g' !! (i0 + k)%nat
        = if shared thisPars p
          then (if (i0 + k <? length (groupIndex g))%nat then Some first0 else None)
          else groupIndex g !! (i0 + k)%nat)
  /\ (forall k, (i0 + length objPars <= k)%nat ->
        groupIndex g' !! k = groupIndex g !! k)
  /\ first g' = (if existsb (shared thisPars) objPars
                 then ((first0 + 1) mod 2 ^ 32)%Z else first g).
Proof.
  intros Hnz. revert i0 g. induction objPars as [| p objPars IH]; intros i0 g Hinv.
  { cbn. repeat split; try reflexivity. intros k p [=]. }
  cbn [GetGeneGroup_from]. rewrite (GetGeneGroup_inner first0) by assumption.
  set (g1 := if shared thisPars p then _ else g).
  assert ((latticeIndex g1 = 0%Z /\ first g1 = first0)
          \/ (latticeIndex g1 = first0
              /\ first g1 = ((first0 + 1) mod 2 ^ 32)%Z)) as Hinv1.
  { subst g1. destruct (shared thisPars p); [right; split; reflexivity | exact Hinv]. }
  assert (length (groupIndex g1) = length (groupIndex g)) as Hlen1.
  { subst g1. destruct (shared thisPars p); [apply length_insert | reflexivity]. }
  destruct (IH (S i0) g1 Hinv1) as (I1 & I2 & I3 & I4 & I5). cbv zeta.
  split; [lia |].
  split.
  { intros k Hk. rewrite I2 by lia. subst g1.
    destruct (shared thisPars p); [| reflexivity].
    cbn [groupIndex]. apply list_lookup_insert_ne. lia. }
  split.
  { intros [| k] q Hq.
    - cbn in Hq. injection Hq as <-. rewrite Nat.add_0_r, I2 by lia. subst g1.
      destruct (shared thisPars p); [| reflexivity]. cbn [groupIndex].
      destruct (Nat.ltb_spec i0 (length (groupIndex g))) as [Hlt | Hge].
      + apply list_lookup_insert_eq. exact Hlt.
      + rewrite list_insert_ge by lia. apply lookup_ge_None_2. lia.
    - cbn in Hq. replace (i0 + S k)%nat with (S i0 + k)%nat by lia.
      rewrite (I3 k q Hq), Hlen1. destruct (shared thisPars q); [reflexivity |].
      subst g1. destruct (shared thisPars p); [| reflexivity].
      cbn [groupIndex]. apply list_lookup_insert_ne. lia. }
  split.
  { intros k Hk. cbn [length] in Hk. rewrite I4 by lia. subst g1.
    destruct (shared thisPars p); [| reflexivity].
    cbn [groupIndex]. apply list_lookup_insert_ne. lia. }
  rewrite I5. cbn [existsb]. subst g1.
  destruct (shared thisPars p); cbn [orb first].
  - destruct (existsb (shared thisPars) objPars); reflexivity.
  - reflexivity.
Qed.

Lemma GetGeneGroup_inner_once (i : nat) (p : Z) (l : list Z) (g : GeneGroups) :
  NoDup l -> In p l ->
  fold_left (GetGeneGroup_step i p) l g = GetGeneGroup_step i p g p.
Proof.
  intros Hnd. revert g. induction Hnd as [| q l Hq Hnd IH]; intros g Hin; [destruct Hin |].
  assert (forall l' g', ~ In p l' -> fold_left (GetGeneGroup_step i p) l' g' = g')
    as Hskip.
  { induction l' as [| q' l' IHl]; intros g' Hn; [reflexivity |].
    cbn [fold_left]. unfold GetGeneGroup_step at 2.
    replace (p =? q')%Z with false.
    - apply IHl. intros H. apply Hn. right. exact H.
    - symmetry. apply Z.eqb_neq. intros ->. apply Hn. left. reflexivity. }
  cbn [fold_left]. destruct (Z.eq_dec p q) as [<- | Hne].
  - apply Hskip. rewrite <- list_elem_of_In. exact Hq.
  - unfold GetGeneGroup_step at 2.
    replace (p =? q)%Z with false by (symmetry; apply Z.eqb_neq; exact Hne).
    apply IH. destruct Hin as [H | H]; [congruence | exact H].
Qed.

(** X21. [GetGeneGroup] with a counter [first] that is not zero: the
    parameters of [obj] that are parameters of the crystal all get the
    group [first], the other entries of [groupIndex] stay as they are, and
    the counter moves on by one (modulo [2^32]) when there is at least one
    such parameter, and not at all otherwise. When the counter is zero on
    entry, the value the code uses for "no group yet", this is no longer
    so: of two parameters of the crystal the first one gets the group 0 and
    the second one the group 1, and the counter ends at 2. *)
Theorem GetGeneGroup_groups (objPars thisPars groupIndex0 : list Z) (first0 : Z) :
  (length objPars <= length groupIndex0)%nat ->
  (first0 <> 0%Z ->
   length (fst (GetGeneGroup objPars thisPars groupIndex0 first0))
   = length groupIndex0
   /\ (forall k p, objPars !! k = Some p ->
         fst (GetGeneGroup objPars thisPars groupIndex0 first0) !! k
         = if shared thisPars p then Some first0 else groupIndex0 !! k)
   /\ (forall k, (length objPars <= k)%nat ->
         fst (GetGeneGroup objPars thisPars groupIndex0 first0) !! k
         = groupIndex0 !! k)
   /\ snd (GetGeneGroup objPars thisPars groupIndex0 first0)
      = if existsb (shared thisPars) objPars
        then ((first0 + 1) mod 2 ^ 32)%Z else first0)
  /\ (forall p q a b,
        NoDup thisPars -> In p thisPars -> In q thisPars ->
        GetGeneGroup [p; q] thisPars [a; b] 0 = ([0; 1]%Z, 2%Z)).
Proof.
  intros Hlen. split.
  - intros Hnz. unfold GetGeneGroup. cbn [fst snd].
    destruct (GetGeneGroup_outer first0 objPars thisPars 0
                (mkGeneGroups groupIndex0 first0 0) Hnz)
      as (H1 & _ & H3 & H4 & H5); [left; split; reflexivity |].
    cbn [groupIndex first] in *.
    split; [exact H1 |].
    split.
    { intros k p Hk. specialize (H3 k p Hk). cbn [Nat.add] in H3. rewrite H3.
      replace (k <? length groupIndex0)%nat with true; [reflexivity |].
      symmetry. apply Nat.ltb_lt. apply lookup_lt_Some in Hk. lia. }
    split; [intros k Hk; apply H4; cbn [Nat.add]; exact Hk | exact H5].
  - intros p q a b Hnd Hp Hq. unfold GetGeneGroup. cbn [GetGeneGroup_from].
    rewrite !GetGeneGroup_inner_once by assumption.
    unfold GetGeneGroup_step. rewrite !Z.eqb_refl. reflexivity.
Qed.

Lemma GetGeneGroup_groups_witness :
  (length [10; 20; 30]%Z <= length [7; 7; 7]%Z)%nat /\ 5%Z <> 0%Z
  /\ fst (GetGeneGroup [10; 20; 30]%Z [30; 10]%Z [7; 7; 7]%Z 5) !! 0%nat = Some 5%Z
  /\ fst (GetGeneGroup [10; 20; 30]%Z [30; 10]%Z [7; 7; 7]%Z 5) !! 1%nat = Some 7%Z
  /\ snd (GetGeneGroup [10; 20; 30]%Z [30; 10]%Z [7; 7; 7]%Z 5) = 6%Z.
Proof.
  assert (length [10; 20; 30]%Z <= length [7; 7; 7]%Z)%nat as Hlen by (cbn; lia).
  assert (5%Z <> 0%Z) as Hnz by lia.
  split; [exact Hlen |]. split; [exact Hnz |].
  destruct (GetGeneGroup_groups [10; 20; 30]%Z [30; 10]%Z [7; 7; 7]%Z 5 Hlen)
    as [H _].
  destruct (H Hnz) as (_ & H2 & _ & H4).
  split; [rewrite (H2 0%nat 10%Z eq_refl); reflexivity |].
  split; [rewrite (H2 1%nat 20%Z eq_refl); reflexivity |].
  rewrite H4. reflexivity.
Defined.

(** ** [RemoveScatteringPower] *)

Lemma erase_fold_lookup {V : Type} (a : Z) (l : list (Z * Z * V))
    (m : gmap (Z * Z) V) (k : Z * Z) :
  let m' := fold_left (fun (m : gmap (Z * Z) V) (pos : Z * Z * V) =>
                         if mentions a pos.1 then delete pos.1 m else m) l m in
  (mentions a k = true -> In k (map fst l) -> m' !! k = None)
  /\ (mentions a k = false \/ ~ In k (map fst l) -> m' !! k = m !! k).
Proof.
  revert m. induction l as [| [q v] l IH]; intros m; cbn [fold_left map fst In].
  { split; [intros _ [] | reflexivity]. }
  set (m1 := if mentions a (q, v).1 then delete (q, v).1 m else m).
  destruct (IH m1) as [I1 I2]. cbv zeta. cbn [fst] in *. subst m1.
  split.
  - intros Hk [-> | Hin].
    + destruct (decide (k ∈ map fst l)) as [Hin | Hnin].
      * apply list_elem_of_In in Hin. apply I1; assumption.
      * rewrite list_elem_of_In in Hnin.
        rewrite I2 by (right; exact Hnin). rewrite Hk.
        apply lookup_delete_eq.
    + apply I1; assumption.
  - intros Hcase. rewrite I2.
    + destruct (mentions a q) eqn:Hq; [| reflexivity].
      apply lookup_delete_ne. intros ->.
      destruct Hcase as [H | H]; [congruence | apply H; left; reflexivity].
    + destruct Hcase as [H | H]; [left; exact H | right].
      intros Hin. apply H. right. exact Hin.
Qed.

Lemma erase_map_lookup {V : Type} (a : Z) (m : gmap (Z * Z) V) (k : Z * Z) :
  fold_left (fun (m : gmap (Z * Z) V) (pos : Z * Z * V) =>
               if mentions a pos.1 then delete pos.1 m else m)
            (map_to_list m) m !! k
  = if mentions a k then None else m !! k.
Proof.
  destruct (erase_fold_lookup a (map_to_list m) m k) as [H1 H2]. cbv zeta in *.
  destruct (mentions a k) eqn:Hk.
  - destruct (m !! k) as [v |] eqn:Hm.
    + apply H1; [reflexivity |]. apply in_map_iff. exists (k, v).
      split; [reflexivity |]. apply list_elem_of_In, elem_of_map_to_list. exact Hm.
    + rewrite H2; [reflexivity |]. right. intros Hin.
      apply in_map_iff in Hin as ([k' v] & <- & Hin).
      apply list_elem_of_In, elem_of_map_to_list in Hin. cbn in Hm. congruence.
  - apply H2. left. reflexivity.
Qed.

Lemma erase_BumpMergePar_fold (a : Z) (l : list (Z * Z * BumpMergePar.t))
    (s : Crystal) :
  let s' := fold_left (erase_BumpMergePar a) l s in
  mvBumpMergePar s'
  = fold_left (fun (m : gmap (Z * Z) BumpMergePar.t) (pos : Z * Z * BumpMergePar.t) =>
                 if mentions a pos.1 then delete pos.1 m else m) l (mvBumpMergePar s)
  /\ (msTick s <= msTick s')%nat
  /\ (clocks_wf s -> clocks_wf s')
  /\ (existsb (fun pos => mentions a pos.1) l = false -> s' = s)
  /\ (existsb (fun pos => mentions a pos.1) l = true ->
      (msTick s < mBumpMergeParClock s')%nat)
  /\ mvBondValenceRo s' = mvBondValenceRo s
  /\ mBondValenceParClock s' = mBondValenceParClock s
  /\ mBumpMergeCostClock s' = mBumpMergeCostClock s.
Proof.
  revert s. induction l as [| pos l IH]; intros s; cbn [fold_left existsb].
  { cbv zeta. split; [reflexivity |]. split; [lia |]. split; [auto |].
    split; [reflexivity |]. split; [discriminate |]. repeat split. }
  set (s1 := erase_BumpMergePar a s pos).
  destruct (IH s1) as (I1 & I2 & I3 & I4 & I5 & I6 & I7 & I8). cbv zeta.
  unfold erase_BumpMergePar in s1.
  destruct (mentions a pos.1) eqn:Hm; subst s1; cbn [orb].
  - rewrite I1, I6, I7, I8. unfold_setters.
    split; [reflexivity |]. split; [lia |].
    split; [intros Hwf; apply I3; wf_intro Hwf; wf_split |].
    split; [discriminate |].
    split; [| repeat split].
    intros _.
    destruct (existsb (fun pos0 => mentions a pos0.1) l) eqn:He.
    + specialize (I5 eq_refl). lia.
    + rewrite (I4 eq_refl). cbn. lia.
  - rewrite I1, I6, I7, I8. split; [reflexivity |]. split; [exact I2 |].
    split; [exact I3 |]. split; [exact I4 |]. split; [exact I5 |]. repeat split.
Qed.

Lemma erase_BondValenceRo_fold (a : Z) (l : list (Z * Z * R)) (s : Crystal) :
  let s' := fold_left (erase_BondValenceRo a) l s in
  mvBondValenceRo s'
  = fold_left (fun (m : gmap (Z * Z) R) (pos : Z * Z * R) =>
                 if mentions a pos.1 then delete pos.1 m else m) l (mvBondValenceRo s)
  /\ (msTick s <= msTick s')%nat
  /\ (clocks_wf s -> clocks_wf s')
  /\ (existsb (fun pos => mentions a pos.1) l = false -> s' = s)
  /\ (existsb (fun pos => mentions a pos.1) l = true ->
      (msTick s < mBondValenceParClock s')%nat)
  /\ mvBumpMergePar s' = mvBumpMergePar s
  /\ mBumpMergeParClock s' = mBumpMergeParClock s.
Proof.
  revert s. induction l as [| pos l IH]; intros s; cbn [fold_left existsb].
  { cbv zeta. split; [reflexivity |]. split; [lia |]. split; [auto |].
    split; [reflexivity |]. split; [discriminate |]. repeat split. }
  set (s1 := erase_BondValenceRo a s pos).
  destruct (IH s1) as (I1 & I2 & I3 & I4 & I5 & I6 & I7). cbv zeta.
  unfold erase_BondValenceRo in s1.
  destruct (mentions a pos.1) eqn:Hm; subst s1; cbn [orb].
  - rewrite I1, I6, I7. unfold_setters.
    split; [reflexivity |]. split; [lia |].
    split; [intros Hwf; apply I3; wf_intro Hwf; wf_split |].
    split; [discriminate |].
    split; [| repeat split].
    intros _.
    destruct (existsb (fun pos0 => mentions a pos0.1) l) eqn:He.
    + specialize (I5 eq_refl). lia.
    + rewrite (I4 eq_refl). cbn. lia.
  - rewrite I1, I6, I7. split; [reflexivity |]. split; [exact I2 |].
    split; [exact I3 |]. split; [exact I4 |]. split; [exact I5 |]. repeat split.
Qed.

Lemma existsb_mentions {V : Type} (a : Z) (m : gmap (Z * Z) V) :
  existsb (fun pos : Z * Z * V => mentions a pos.1) (map_to_list m) = true
  <-> exists k, is_Some (m !! k) /\ mentions a k = true.
Proof.
  rewrite existsb_exists. split.
  - intros ([k v] & Hin & Hm). exists k. split; [| exact Hm].
    exists v. apply elem_of_map_to_list, list_elem_of_In. exact Hin.
  - intros (k & [v Hv] & Hm). exists (k, v). split; [| exact Hm].
    apply list_elem_of_In, elem_of_map_to_list. exact Hv.
Qed.

(** X22. The two loops that end [RemoveScatteringPower] remove from
    [mvBumpMergePar] and from [mvBondValenceRo] every entry whose pair has
    the scattering power as a member, and no other entry. The clock of a
    map is clicked when an entry of this map is removed, and only then: a
    map that holds no such entry is left with its clock as it was. *)
Theorem RemoveScatteringPower_pairs (scattPow : ScatteringPower) (s : Crystal) :
  clocks_wf s ->
  let a := spAddress scattPow in
  let s' := RemoveScatteringPower scattPow s in
  (forall k, mvBumpMergePar s' !! k
             = if mentions a k then None else mvBumpMergePar s !! k)
  /\ (forall k, mvBondValenceRo s' !! k
                = if mentions a k then None else mvBondValenceRo s !! k)
  /\ clocks_wf s'
  /\ ((exists k, is_Some (mvBumpMergePar s !! k) /\ mentions a k = true) ->
      (msTick s < mBumpMergeParClock s')%nat)
  /\ ((forall k, is_Some (mvBumpMergePar s !! k) -> mentions a k = false) ->
      mvBumpMergePar s' = mvBumpMergePar s
      /\ mBumpMergeParClock s' = mBumpMergeParClock s)
  /\ ((exists k, is_Some (mvBondValenceRo s !! k) /\ mentions a k = true) ->
      (msTick s < mBondValenceParClock s')%nat)
  /\ ((forall k, is_Some (mvBondValenceRo s !! k) -> mentions a k = false) ->
      mvBondValenceRo s' = mvBondValenceRo s
      /\ mBondValenceParClock s' = mBondValenceParClock s).
Proof.
  intros Hwf a s'. subst s'. unfold RemoveScatteringPower. fold a.
  destruct (erase_BumpMergePar_fold a (map_to_list (mvBumpMergePar s)) s)
    as (B1 & B2 & B3 & B4 & B5 & B6 & B7 & _).
  cbv zeta in *.
  set (s1 := fold_left (erase_BumpMergePar a) (map_to_list (mvBumpMergePar s)) s) in *.
  destruct (erase_BondValenceRo_fold a (map_to_list (mvBondValenceRo s1)) s1)
    as (V1 & V2 & V3 & V4 & V5 & V6 & V7).
  cbv zeta in *.
  set (s2 := fold_left (erase_BondValenceRo a) (map_to_list (mvBondValenceRo s1)) s1)
    in *.
  split; [intros k; rewrite V6, B1; apply erase_map_lookup |].
  split; [intros k; rewrite V1, B6; apply erase_map_lookup |].
  split; [apply V3, B3, Hwf |].
  split.
  { intros Hex. rewrite V7. apply B5, existsb_mentions. exact Hex. }
  split.
  { intros Hall. rewrite V6, V7.
    assert (existsb (fun pos : Z * Z * BumpMergePar.t => mentions a pos.1)
              (map_to_list (mvBumpMergePar s)) = false) as Hno.
    { apply not_true_is_false. intros He.
      apply existsb_mentions in He as (k & Hk & Hm).
      rewrite (Hall k Hk) in Hm. discriminate. }
    rewrite (B4 Hno). split; reflexivity. }
  split.
  { intros Hex. rewrite B6 in *.
    assert (msTick s1 < mBondValenceParClock s2)%nat; [| lia].
    apply V5, existsb_mentions. exact Hex. }
  intros Hall. rewrite B6 in *.
  assert (existsb (fun pos : Z * Z * R => mentions a pos.1)
            (map_to_list (mvBondValenceRo s)) = false) as Hno.
  { apply not_true_is_false. intros He.
    apply existsb_mentions in He as (k & Hk & Hm).
    rewrite (Hall k Hk) in Hm. discriminate. }
  rewrite (V4 Hno), B6, B7. split; reflexivity.
Qed.

Lemma RemoveScatteringPower_pairs_witness :
  clocks_wf crystal_AB_bump
  /\ mvBumpMergePar (RemoveScatteringPower power_A crystal_AB_bump)
     !! pair_key (spAddress power_A) (spAddress power_A) = None
  /\ clocks_wf (RemoveScatteringPower power_A crystal_AB_bump).
Proof.
  assert (clocks_wf crystal_AB_bump) as Hwf
      by (apply SetBumpMergeDistance_wf, new_crystal_wf; repeat constructor).
  split; [exact Hwf |].
  destruct (RemoveScatteringPower_pairs power_A crystal_AB_bump Hwf)
    as (H1 & _ & H3 & _).
  split; [rewrite H1; reflexivity | exact H3].
Defined.

(** ** The table after a change of the scatterers *)

(** X23. [CalcDistTable] after a change of the scatterers. With the
    dynamical occupancy correction switched on, the table is built by the
    call of [CalcDynPopCorr(1.,.5)] nested in [GetScatteringComponentList]:
    it is the table of the quantized branch with a margin of 1, whatever
    branch and margin [CalcDistTable] was called with. With the correction
    switched off the table is built with the arguments of the call, on the
    components with a correction of 1. *)
Theorem CalcDistTable_after_scatterer_change (fuel : nat) (fast : bool)
    (asymUnitMargin : R) (s : Crystal) :
  clocks_wf s -> (2 <= fuel)%nat ->
  (mClockScattCompList s <= mClockMaster s)%nat -> scatterer_changed s = true ->
  exists s',
    CalcDistTable fuel fast asymUnitMargin s = Some s'
    /\ mvDistTableSq s'
       = if (mUseDynPopCorr s =? 1)%Z
         then build_table true 1 (GetSpaceGroup s) (asUnitCell s)
                (all_components (mScattererRegistry s)) (mvDistTableSq s)
         else build_table fast asymUnitMargin (GetSpaceGroup s) (asUnitCell s)
                (map (set_mDynPopCorr 1) (all_components (mScattererRegistry s)))
                (mvDistTableSq s).
Proof.
  intros Hwf Hfuel Hold Hch.
  destruct fuel as [| [| fuel]]; [lia | lia | clear Hfuel].
  destruct (GetScatteringComponentList_stale fuel s Hwf Hold Hch)
    as (s0 & Hs0 & Hwf0 & Hf0 & Hfr0 & Hk0 & Hcase).
  unfold CalcDistTable, CalcDistTable_with. rewrite Hs0.
  frame_intro Hfr0.
  destruct (mUseDynPopCorr s =? 1)%Z.
  - destruct Hcase as ([Hfa Hfb] & Htbl & _).
    apply Nat.ltb_lt in Hfa, Hfb. rewrite Hfa, Hfb. cbn [andb].
    exists s0. split; [reflexivity | exact Htbl].
  - destruct Hcase as (Htbl & Hclk & Hlist & _).
    replace ((mClockScattCompList s0 <? mDistTableClock s0)%nat
             && (GetClockMetricMatrix s0 <? mDistTableClock s0)%nat)%bool with false.
    2:{ symmetry. apply andb_false_iff. left. apply Nat.ltb_ge.
        rewrite Hclk. wf_intro Hwf. lia. }
    eexists. split; [reflexivity |]. unfold_setters.
    repeat match goal with
           | H : GetSpaceGroup s0 = _ |- _ => rewrite H
           | H : asUnitCell s0 = _ |- _ => rewrite H
           end.
    rewrite Hlist, Htbl. reflexivity.
Qed.

Lemma CalcDistTable_after_scatterer_change_witness :
  clocks_wf crystal_AB /\ (2 <= 2)%nat
  /\ (mClockScattCompList crystal_AB <= mClockMaster crystal_AB)%nat
  /\ scatterer_changed crystal_AB = true
  /\ exists s',
       CalcDistTable 2 false 5 crystal_AB = Some s'
       /\ mvDistTableSq s'
          = build_table true 1 sg_Pbar1 cubic10
              (all_components [atom power_A 0 0 0; atom power_B (1 / 4) 0 0]) [].
Proof.
  assert (clocks_wf crystal_AB) as Hwf
      by (apply new_crystal_wf; repeat constructor).
  assert (mClockScattCompList crystal_AB <= mClockMaster crystal_AB)%nat as Hold
      by (cbn; lia).
  assert (scatterer_changed crystal_AB = true) as Hch by reflexivity.
  split; [exact Hwf |]. split; [lia |]. split; [exact Hold |]. split; [exact Hch |].
  destruct (CalcDistTable_after_scatterer_change 2 false 5 crystal_AB Hwf (le_n 2)
              Hold Hch) as (s' & H1 & H2).
  exists s'. split; [exact H1 | exact H2].
Defined.

(** ** The cost functions only write to the caches *)

Lemma table_frame_configuration (s s' : Crystal) :
  table_frame s s' -> configuration_kept s s'.
Proof. intros H. frame_intro H. unfold configuration_kept. repeat split; assumption. Qed.

Lemma configuration_kept_trans (s1 s2 s3 : Crystal) :
  configuration_kept s1 s2 -> configuration_kept s2 s3 -> configuration_kept s1 s3.
Proof.
  intros (A1 & A2 & A3 & A4 & A5 & A6 & A7 & A8 & A9 & A10 & A11 & A12 & A13)
         (B1 & B2 & B3 & B4 & B5 & B6 & B7 & B8 & B9 & B10 & B11 & B12 & B13).
  unfold configuration_kept. repeat split; congruence.
Qed.

Lemma GetBumpMergeCost_configuration (fuel : nat) (s : Crystal) :
  clocks_wf s ->
  exists r s',
    GetBumpMergeCost (S (S fuel)) s = Some (r, s')
    /\ clocks_wf s' /\ configuration_kept s s' /\ (msTick s <= msTick s')%nat.
Proof.
  intros Hwf. unfold GetBumpMergeCost.
  assert (configuration_kept s s) as Hrefl
      by (apply table_frame_configuration, table_frame_refl).
  destruct (size (mvBumpMergePar s) =? 0)%nat;
    [exists 0, s; split; [reflexivity |]; split; [exact Hwf |];
     split; [exact Hrefl | lia] |].
  destruct (Rltb (mBumpMergeScale s) 1e-5);
    [exists 0, s; split; [reflexivity |]; split; [exact Hwf |];
     split; [exact Hrefl | lia] |].
  destruct (CalcDistTable_ok fuel true 3 s Hwf)
    as (s1 & Hs1 & Hwf1 & _ & _ & Hfr1 & Hk1 & _).
  rewrite Hs1.
  destruct (bump_cache_valid s1).
  - eexists _, s1. split; [reflexivity |]. split; [exact Hwf1 |].
    split; [apply table_frame_configuration; exact Hfr1 | exact Hk1].
  - eexists _, _. split; [reflexivity |]. wf_intro Hwf1.
    split; [wf_split |].
    split; [| unfold_setters; lia].
    frame_intro Hfr1. unfold configuration_kept. unfold_setters.
    repeat split; assumption.
Qed.

Lemma GetBondValenceCost_configuration (fuel : nat) (s : Crystal) :
  clocks_wf s ->
  exists r s',
    GetBondValenceCost (S (S fuel)) s = Some (r, s')
    /\ clocks_wf s' /\ configuration_kept s s' /\ (msTick s <= msTick s')%nat.
Proof.
  intros Hwf. unfold GetBondValenceCost.
  assert (configuration_kept s s) as Hrefl
      by (apply table_frame_configuration, table_frame_refl).
  destruct (Rltb (mBondValenceCostScale s) 1e-5);
    [exists 0, s; split; [reflexivity |]; split; [exact Hwf |];
     split; [exact Hrefl | lia] |].
  destruct (size (mvBondValenceRo s) =? 0)%nat eqn:Hsz.
  { eexists _, _. split; [reflexivity |]. wf_intro Hwf. split; [wf_split |].
    split; [| unfold_setters; lia].
    unfold configuration_kept. unfold_setters. repeat split. }
  unfold CalcBondValenceSum. rewrite Hsz.
  destruct (CalcDistTable_ok fuel true 5 s Hwf)
    as (s1 & Hs1 & Hwf1 & _ & _ & Hfr1 & Hk1 & _).
  rewrite Hs1.
  match goal with
  | |- context [if ?b then Some s1 else Some ?x] =>
      assert (exists s2, (if b then Some s1 else Some x) = Some s2
                /\ clocks_wf s2 /\ configuration_kept s s2
                /\ (msTick s <= msTick s2)%nat)
        as (s2 & -> & Hwf2 & Hc2 & Hk2)
  end.
  { destruct (_ && _)%bool.
    - exists s1. split; [reflexivity |]. split; [exact Hwf1 |].
      split; [apply table_frame_configuration; exact Hfr1 | exact Hk1].
    - eexists. split; [reflexivity |]. wf_intro Hwf1. split; [wf_split |].
      split; [| unfold_setters; lia].
      frame_intro Hfr1. unfold configuration_kept. unfold_setters.
      repeat split; assumption. }
  destruct (_ && _)%bool.
  - eexists _, s2. split; [reflexivity |]. split; [exact Hwf2 |].
    split; [exact Hc2 | exact Hk2].
  - eexists _, _. split; [reflexivity |]. wf_intro Hwf2.
    split; [wf_split |].
    split; [| unfold_setters; lia].
    destruct Hc2 as (A1 & A2 & A3 & A4 & A5 & A6 & A7 & A8 & A9 & A10 & A11 & A12 & A13).
    unfold configuration_kept. unfold_setters. repeat split; assumption.
Qed.

(** X24. The cost functions only write to the caches: [GetLogLikelihood]
    (hence [GetBumpMergeCost] and [GetBondValenceCost], and the functions
    they call) leaves the space group, the cell, the scatterers, the
    options, the pairwise parameters, the scales and their clocks as they
    were; no clock it clicks is ahead of the global counter, which never
    goes back. *)
Theorem GetLogLikelihood_keeps_configuration (fuel : nat) (s : Crystal) :
  clocks_wf s -> (2 <= fuel)%nat ->
  exists r s',
    GetLogLikelihood fuel s = Some (r, s')
    /\ configuration_kept s s' /\ clocks_wf s' /\ (msTick s <= msTick s')%nat.
Proof.
  intros Hwf Hfuel.
  destruct fuel as [| [| fuel]]; [lia | lia | clear Hfuel].
  destruct (GetBumpMergeCost_configuration fuel s Hwf)
    as (r1 & s1 & H1 & Hwf1 & Hc1 & Hk1).
  destruct (GetBondValenceCost_configuration fuel s1 Hwf1)
    as (r2 & s2 & H2 & Hwf2 & Hc2 & Hk2).
  exists (r1 + r2), s2. unfold GetLogLikelihood. rewrite H1, H2.
  split; [reflexivity |].
  split; [exact (configuration_kept_trans _ _ _ Hc1 Hc2) |].
  split; [exact Hwf2 | lia].
Qed.

Lemma GetLogLikelihood_keeps_configuration_witness :
  clocks_wf crystal_AB_bump /\ (2 <= 2)%nat
  /\ exists r s',
       GetLogLikelihood 2 crystal_AB_bump = Some (r, s')
       /\ mvBumpMergePar s' = mvBumpMergePar crystal_AB_bump
       /\ clocks_wf s'.
Proof.
  assert (clocks_wf crystal_AB_bump) as Hwf
      by (apply SetBumpMergeDistance_wf, new_crystal_wf; repeat constructor).
  split; [exact Hwf |]. split; [lia |].
  destruct (GetLogLikelihood_keeps_configuration 2 crystal_AB_bump Hwf (le_n 2))
    as (r & s' & H1 & H2 & H3 & _).
  exists r, s'. split; [exact H1 |]. split; [| exact H3].
  destruct H2 as (_ & _ & _ & _ & _ & _ & _ & H & _). exact H.
Defined.

(** ** The weights of the overlapping neighbours *)

Lemma corr_step_weight (o m c d : R) :
  0 <= m < o -> 0 <= d < o ->
  corr_step o m c d = c + overlap_weight o m d.
Proof.
  intros Hm Hd. unfold corr_step, overlap_weight.
  destruct (Rle_dec d m) as [Hle | Hgt].
  - rewrite (Rleb_true _ _ Hle).
    destruct (Rlt_dec (d - m) 0) as [Hlt | Hge].
    + rewrite (Rltb_true _ _ Hlt).
      replace ((o - 0 - m) / (o - m)) with 1 by (field; lra).
      rewrite Rabs_R1. reflexivity.
    + rewrite Rltb_false by lra.
      assert (d = m) as -> by lra.
      replace ((o - (m - m) - m) / (o - m)) with 1 by (field; lra).
      rewrite Rabs_R1. reflexivity.
  - rewrite Rleb_false by lra. rewrite Rltb_false by lra.
    replace (o - (d - m) - m) with (o - d) by ring.
    rewrite Rabs_right; [reflexivity |].
    apply Rle_ge. apply Rmult_le_pos; [lra |].
    left. apply Rinv_0_lt_compat. lra.
Qed.

Lemma corr_fold_weights (o m : R) (l : list R) (c : R) :
  0 <= m < o -> Forall (fun d => 0 <= d < o) l ->
  fold_left (corr_step o m) l c = c + sum_R (map (overlap_weight o m) l).
Proof.
  intros Hm Hl. revert c. induction Hl as [| d l Hd Hl IH]; intros c.
  { cbn. lra. }
  cbn [fold_left map]. rewrite IH, corr_step_weight by assumption.
  unfold sum_R. cbn [fold_right]. lra.
Qed.

Lemma neighborsDist_range (comps : list ScatteringComponent) (a : Z) (o : R)
    (vnb : list Neighbour.t) :
  0 < o -> Forall (fun d => 0 <= d < o) (neighborsDist comps a (o * o) vnb).
Proof.
  intros Ho. induction vnb as [| pos vnb IH]; [constructor |].
  cbn [neighborsDist].
  destruct (mpScattPow (comp_at comps (Neighbour.mNeighbourIndex pos))) as [sp |];
    [| exact IH].
  destruct (a =? GetDynPopCorrIndex sp)%Z; cbn [andb]; [| exact IH].
  destruct (Rltb (Neighbour.mDist2 pos) (o * o)) eqn:Hlt; [| exact IH].
  apply Rltb_spec in Hlt. constructor; [| exact IH].
  split; [apply sqrt_pos |].
  destruct (Rle_dec 0 (Neighbour.mDist2 pos)) as [Hp | Hn].
  - rewrite <- (sqrt_square o) by lra. apply sqrt_lt_1_alt. lra.
  - rewrite sqrt_neg_0 by lra. exact Ho.
Qed.

Lemma overlap_weight_range (o m d : R) :
  0 <= m < o -> 0 <= d < o -> 0 < overlap_weight o m d <= 1.
Proof.
  intros Hm Hd. unfold overlap_weight.
  destruct (Rle_dec d m) as [Hle | Hgt].
  - rewrite (Rleb_true _ _ Hle). lra.
  - rewrite Rleb_false by lra.
    pose proof (Rinv_0_lt_compat (o - m) ltac:(lra)) as Hinv.
    assert ((o - m) * / (o - m) = 1) as Hone by (field; lra).
    unfold Rdiv. split; nra.
Qed.

Lemma sum_weights_bounds (o m : R) (l : list R) :
  0 <= m < o -> Forall (fun d => 0 <= d < o) l ->
  0 <= sum_R (map (overlap_weight o m) l) <= INR (length l)
  /\ (Forall (fun d => d <= m) l ->
      sum_R (map (overlap_weight o m) l) = INR (length l)).
Proof.
  intros Hm Hl. induction Hl as [| d l Hd Hl IH].
  { cbn. split; [lra | reflexivity]. }
  destruct IH as [IH1 IH2].
  pose proof (overlap_weight_range o m d Hm Hd) as Hw.
  cbn [map length]. rewrite S_INR. unfold sum_R in *. cbn [fold_right].
  split; [lra |].
  intros Hall. inversion Hall as [| ? ? Hle Hrest]; subst.
  rewrite (IH2 Hrest). unfold overlap_weight. rewrite (Rleb_true _ _ Hle). lra.
Qed.

(** X25. The correction [CalcDynPopCorr] stores for a component that
    has a scattering power is [1/(1+w)], where [w] adds up one weight for
    each neighbour with the same [GetDynPopCorrIndex()] closer than
    [overlapDist]: the weight is 1 up to [mergeDist] and decreases linearly
    to 0 at [overlapDist]. So a component with [n] such neighbours has a
    correction of at least [1/(1+n)], and of exactly [1/(1+n)] when all of
    them are within [mergeDist] (an atom on a special position with its
    images, or identical atoms on top of each other). *)
Theorem CalcDynPopCorr_weights (overlapDist mergeDist : R)
    (tbl : list NeighbourHood) (comps : list ScatteringComponent) (i : nat)
    (sp : ScatteringPower) :
  0 <= mergeDist < overlapDist -> (i < length comps)%nat ->
  mpScattPow (comp_at comps i) = Some sp ->
  let nd := neighborsDist comps (GetDynPopCorrIndex sp) (overlapDist * overlapDist)
              (mvNeighbour (hood_at tbl i)) in
  let corr := mDynPopCorr (comp_at (DynPopCorr_loop overlapDist mergeDist tbl comps) i) in
  corr = 1 / (1 + sum_R (map (overlap_weight overlapDist mergeDist) nd))
  /\ 1 / (1 + INR (length nd)) <= corr
  /\ (Forall (fun d => d <= mergeDist) nd -> corr = 1 / (1 + INR (length nd))).
Proof.
  intros Hm Hi Hsp nd corr. subst corr.
  rewrite DynPopCorr_loop_spec by exact Hi.
  unfold dynPopCorr_of. rewrite Hsp. fold nd.
  assert (Forall (fun d => 0 <= d < overlapDist) nd) as Hnd
      by (apply neighborsDist_range; lra).
  rewrite corr_fold_weights by assumption. rewrite Rplus_0_l.
  destruct (sum_weights_bounds overlapDist mergeDist nd Hm Hnd) as [[Hw0 Hw1] Hall].
  split; [reflexivity |].
  split.
  - set (w := sum_R _) in *. set (n := INR (length nd)) in *.
    pose proof (Rinv_0_lt_compat (1 + w) ltac:(lra)) as Hi1.
    pose proof (Rinv_0_lt_compat (1 + n) ltac:(lra)) as Hi2.
    unfold Rdiv. rewrite !Rmult_1_l. apply Rinv_le_contravar; lra.
  - intros H. rewrite (Hall H). reflexivity.
Qed.

Lemma CalcDynPopCorr_weights_witness :
  0 <= 0.5 < 1
  /\ (0 < length (all_components [atom power_A 0 0 0; atom power_B (1 / 4) 0 0]))%nat
  /\ mpScattPow (comp_at (all_components
                            [atom power_A 0 0 0; atom power_B (1 / 4) 0 0]) 0)
     = Some power_A
  /\ mDynPopCorr
       (comp_at (DynPopCorr_loop 1 0.5
                   (first_table sg_Pbar1 cubic10
                      [atom power_A 0 0 0; atom power_B (1 / 4) 0 0])
                   (all_components [atom power_A 0 0 0; atom power_B (1 / 4) 0 0]))
          0)
     = 1 / (1 + sum_R (map (overlap_weight 1 0.5)
                         (neighborsDist
                            (all_components
                               [atom power_A 0 0 0; atom power_B (1 / 4) 0 0])
                            (GetDynPopCorrIndex power_A) (1 * 1)
                            (mvNeighbour
                               (hood_at (first_table sg_Pbar1 cubic10
                                           [atom power_A 0 0 0;
                                            atom power_B (1 / 4) 0 0]) 0))))).
Proof.
  assert (0 <= 0.5 < 1) as H1 by lra.
  assert (0 < length (all_components [atom power_A 0 0 0; atom power_B (1 / 4) 0 0]))%nat
    as H2 by (cbn; lia).
  assert (mpScattPow (comp_at (all_components
                                 [atom power_A 0 0 0; atom power_B (1 / 4) 0 0]) 0)
          = Some power_A) as H3 by reflexivity.
  split; [exact H1 |]. split; [exact H2 |]. split; [exact H3 |].
  destruct (CalcDynPopCorr_weights 1 0.5
              (first_table sg_Pbar1 cubic10
                 [atom power_A 0 0 0; atom power_B (1 / 4) 0 0])
              (all_components [atom power_A 0 0 0; atom power_B (1 / 4) 0 0])
              0 power_A H1 H2 H3) as (H & _).
  exact H.
Defined.

(** ** The corrections are computed by the first caller *)

Lemma CalcDynPopCorr_fresh_after (fuel : nat) (o m : R) (s : Crystal) :
  clocks_wf s ->
  exists s1,
    CalcDynPopCorr (S (S fuel)) o m s = Some s1
    /\ clocks_wf s1 /\ compList_fresh s1 /\ distTable_fresh s1
    /\ (mDistTableClock s1 < mClockDynPopCorr s1)%nat.
Proof.
  intros Hwf.
  destruct (CalcDistTable_ok fuel true o s Hwf)
    as (s1 & Hs1 & Hwf1 & Hf1 & Hd1 & _).
  unfold CalcDynPopCorr, CalcDynPopCorr_with.
  unfold CalcDistTable in Hs1. rewrite Hs1.
  destruct (Nat.ltb_spec (mDistTableClock s1) (mClockDynPopCorr s1)) as [Hlt | Hge].
  - exists s1. split; [reflexivity |]. repeat (split; [assumption |]). exact Hlt.
  - eexists. split; [reflexivity |]. wf_intro Hwf1.
    split; [wf_split |].
    split; [destruct Hf1 as [Hf | Hf]; [left | right]; exact Hf |].
    split; [destruct Hd1; unfold distTable_fresh; unfold_setters; lia |].
    unfold_setters. lia.
Qed.

(** X26. Once [CalcDynPopCorr] has returned, a further call returns at
    once with the same state, whatever overlap and merge distances it is
    given: the corrections are those of the first call (in practice those
    of [CalcDynPopCorr(1.,.5)], called by [GetScatteringComponentList])
    until the distance table is built again. *)
Theorem CalcDynPopCorr_arguments_of_first_call (fuel : nat)
    (overlapDist1 mergeDist1 overlapDist2 mergeDist2 : R) (s : Crystal) :
  clocks_wf s -> (2 <= fuel)%nat ->
  exists s1,
    CalcDynPopCorr fuel overlapDist1 mergeDist1 s = Some s1
    /\ CalcDynPopCorr fuel overlapDist2 mergeDist2 s1 = Some s1.
Proof.
  intros Hwf Hfuel.
  destruct fuel as [| [| fuel]]; [lia | lia | clear Hfuel].
  destruct (CalcDynPopCorr_fresh_after fuel overlapDist1 mergeDist1 s Hwf)
    as (s1 & Hs1 & Hwf1 & Hf1 & Hd1 & Hlt).
  exists s1. split; [exact Hs1 |].
  unfold CalcDynPopCorr, CalcDynPopCorr_with.
  change (CalcDistTable_with (GetScatteringComponentList (S (S fuel))) true
            overlapDist2 s1)
    with (CalcDistTable (S (S fuel)) true overlapDist2 s1).
  rewrite CalcDistTable_fresh by assumption.
  apply Nat.ltb_lt in Hlt. rewrite Hlt. reflexivity.
Qed.

Lemma CalcDynPopCorr_arguments_of_first_call_witness :
  clocks_wf crystal_AB /\ (2 <= 2)%nat
  /\ exists s1,
       CalcDynPopCorr 2 1 0.5 crystal_AB = Some s1
       /\ CalcDynPopCorr 2 3 0 s1 = Some s1.
Proof.
  assert (clocks_wf crystal_AB) as Hwf
      by (apply new_crystal_wf; repeat constructor).
  split; [exact Hwf |]. split; [lia |].
  exact (CalcDynPopCorr_arguments_of_first_call 2 1 0.5 3 0 crystal_AB Hwf (le_n 2)).
Defined.

(** ** No reference length left *)

(** X27. When the last reference length has been removed,
    [CalcBondValenceSum] returns at once: the valence sums computed before
    are not cleared and stay in [mvBondValenceCalc]; [GetBondValenceCost]
    returns 0 (for a scale that is not below 1e-5 it also sets the cached
    cost to 0, and clicks no clock). *)
Theorem no_reference_length_left (fuel : nat) (pow1 pow2 : ScatteringPower)
    (s : Crystal) :
  (forall k, is_Some (mvBondValenceRo s !! k) ->
             k = pair_key (spAddress pow1) (spAddress pow2)) ->
  let s1 := RemoveBondValenceRo pow1 pow2 s in
  CalcBondValenceSum fuel s1 = Some s1
  /\ mvBondValenceCalc s1 = mvBondValenceCalc s
  /\ (exists s2, GetBondValenceCost fuel s1 = Some (0, s2)
                 /\ mvBondValenceCalc s2 = mvBondValenceCalc s
                 /\ msTick s2 = msTick s1
                 /\ (1e-5 <= mBondValenceCostScale s -> mBondValenceCost s2 = 0)).
Proof.
  intros Honly s1.
  assert (mvBondValenceRo s1 = ∅) as Hempty.
  { subst s1. unfold RemoveBondValenceRo. unfold_setters.
    apply map_eq. intros k. rewrite lookup_empty.
    destruct (decide (k = pair_key (spAddress pow1) (spAddress pow2))) as [-> | Hne].
    - apply lookup_delete_eq.
    - rewrite lookup_delete_ne by congruence.
      destruct (mvBondValenceRo s !! k) eqn:Hk; [| reflexivity].
      exfalso. apply Hne, Honly. rewrite Hk. eexists. reflexivity. }
  assert ((size (mvBondValenceRo s1) =? 0)%nat = true) as Hsz
      by (rewrite Hempty, map_size_empty; reflexivity).
  split; [unfold CalcBondValenceSum; rewrite Hsz; reflexivity |].
  split; [reflexivity |].
  unfold GetBondValenceCost. rewrite Hsz.
  change (mBondValenceCostScale s1) with (mBondValenceCostScale s).
  destruct (Rltb (mBondValenceCostScale s) 1e-5) eqn:Hsc.
  - exists s1. split; [reflexivity |]. split; [reflexivity |].
    split; [reflexivity |]. intros H. apply Rltb_spec in Hsc. lra.
  - exists (set_mBondValenceCost 0 s1).
    split; [| split; [reflexivity | split; [reflexivity |]]].
    + f_equal. f_equal. change (mBondValenceCost (set_mBondValenceCost 0 s1)) with 0.
      lra.
    + intros _. reflexivity.
Qed.

Lemma no_reference_length_left_witness :
  (forall k, is_Some (mvBondValenceRo (AddBondValenceRo power_A power_B 2 crystal_AB)
                      !! k) ->
             k = pair_key (spAddress power_A) (spAddress power_B))
  /\ CalcBondValenceSum 2
       (RemoveBondValenceRo power_A power_B
          (AddBondValenceRo power_A power_B 2 crystal_AB))
     = Some (RemoveBondValenceRo power_A power_B
               (AddBondValenceRo power_A power_B 2 crystal_AB)).
Proof.
  assert (forall k,
            is_Some (mvBondValenceRo (AddBondValenceRo power_A power_B 2 crystal_AB)
                     !! k) ->
            k = pair_key (spAddress power_A) (spAddress power_B)) as H.
  { intros k [v Hk]. unfold AddBondValenceRo in Hk. unfold_setters.
    apply lookup_insert_Some in Hk as [[<- _] | [_ Hk]]; [reflexivity |].
    cbn in Hk. rewrite lookup_empty in Hk. discriminate. }
  split; [exact H |].
  destruct (no_reference_length_left 2 power_A power_B
              (AddBondValenceRo power_A power_B 2 crystal_AB) H) as (H1 & _).
  exact H1.
Defined.

(** * The two branches of [CalcDistTable], table by table *)

(** ** The first loop nest of the two branches *)

Lemma position_of_branch (fast : bool) (L : Limits) (sg : SpaceGroup)
    (comps : list ScatteringComponent) (k j : nat) :
  position (branch fast L) k (symmetricsCoords_of sg comps k) j
  = position_of fast sg comps k j.
Proof. unfold position, position_of. destruct fast; reflexivity. Qed.

Lemma same_symmetric_position (L : Limits) (i j : nat) (sym : nat -> R * R * R) :
  same_symmetric (position (branch true L) i sym j) (position (branch false L) i sym j).
Proof. exists i, j, (sym j). split; reflexivity. Qed.

(** One step of the loop over the symmetrics, in the two branches at
    once, when their tests agree on this symmetric. *)
Lemma scan_step_rel (L : Limits) (useAU : bool) (i : nat) (sym : nat -> R * R * R)
    (stF stE : Scan) (j : nat) :
  Forall2 same_symmetric (vPos stF) (vPos stE) ->
  vUniqueIndex stF = vUniqueIndex stE ->
  retained (branch true L) useAU i sym j = retained (branch false L) useAU i sym j ->
  marked (branch true L) useAU i sym j = marked (branch false L) useAU i sym j ->
  Forall2 same_symmetric
    (vPos (scan_step (branch true L) useAU i sym stF j))
    (vPos (scan_step (branch false L) useAU i sym stE j))
  /\ vUniqueIndex (scan_step (branch true L) useAU i sym stF j)
     = vUniqueIndex (scan_step (branch false L) useAU i sym stE j).
Proof.
  intros Hpos Hu Hret Hmark. rewrite !scan_step_spec. cbn [vPos vUniqueIndex].
  rewrite Hret, Hmark, Hu, (Forall2_length _ _ _ Hpos).
  split; [| reflexivity].
  apply Forall2_app; [exact Hpos |].
  destruct (retained (branch false L) useAU i sym j); [| constructor].
  constructor; [apply same_symmetric_position | constructor].
Qed.

Lemma scan_symmetrics_rel (L : Limits) (useAU : bool) (i : nat)
    (sym : nat -> R * R * R) (l : list nat) (stF stE : Scan) :
  Forall2 same_symmetric (vPos stF) (vPos stE) ->
  vUniqueIndex stF = vUniqueIndex stE ->
  (forall j, In j l ->
     retained (branch true L) useAU i sym j = retained (branch false L) useAU i sym j
     /\ marked (branch true L) useAU i sym j = marked (branch false L) useAU i sym j) ->
  Forall2 same_symmetric
    (vPos (fold_left (scan_step (branch true L) useAU i sym) l stF))
    (vPos (fold_left (scan_step (branch false L) useAU i sym) l stE))
  /\ vUniqueIndex (fold_left (scan_step (branch true L) useAU i sym) l stF)
     = vUniqueIndex (fold_left (scan_step (branch false L) useAU i sym) l stE).
Proof.
  revert stF stE. induction l as [| j l IH]; intros stF stE Hpos Hu Hagree.
  - split; assumption.
  - cbn [fold_left].
    destruct (Hagree j (or_introl eq_refl)) as [Hret Hmark].
    destruct (scan_step_rel L useAU i sym stF stE j Hpos Hu Hret Hmark) as [H1 H2].
    apply IH; [exact H1 | exact H2 |].
    intros j' Hj'. apply Hagree. right. exact Hj'.
Qed.

Lemma scan_components_rel (L : Limits) (useAU : bool) (sg : SpaceGroup)
    (cs : list ScatteringComponent) (i0 : nat) (stF stE : Scan) :
  Forall2 same_symmetric (vPos stF) (vPos stE) ->
  vUniqueIndex stF = vUniqueIndex stE ->
  (forall k c j, cs !! k = Some c -> (j < GetNbSymmetrics sg)%nat ->
     retained (branch true L) useAU (i0 + k) (GetAllSymmetrics sg (mX c) (mY c) (mZ c)) j
     = retained (branch false L) useAU (i0 + k)
         (GetAllSymmetrics sg (mX c) (mY c) (mZ c)) j
     /\ marked (branch true L) useAU (i0 + k) (GetAllSymmetrics sg (mX c) (mY c) (mZ c)) j
        = marked (branch false L) useAU (i0 + k)
            (GetAllSymmetrics sg (mX c) (mY c) (mZ c)) j) ->
  Forall2 same_symmetric
    (vPos (scan_components (branch true L) useAU sg i0 cs stF))
    (vPos (scan_components (branch false L) useAU sg i0 cs stE))
  /\ vUniqueIndex (scan_components (branch true L) useAU sg i0 cs stF)
     = vUniqueIndex (scan_components (branch false L) useAU sg i0 cs stE).
Proof.
  revert i0 stF stE. induction cs as [| c cs IH]; intros i0 stF stE Hpos Hu Hagree.
  - split; assumption.
  - cbn [scan_components].
    assert (Forall2 same_symmetric
              (vPos (scan_component (branch true L) useAU sg i0 c stF))
              (vPos (scan_component (branch false L) useAU sg i0 c stE))
            /\ vUniqueIndex (scan_component (branch true L) useAU sg i0 c stF)
               = vUniqueIndex (scan_component (branch false L) useAU sg i0 c stE))
      as [H1 H2].
    { unfold scan_component. apply scan_symmetrics_rel; [exact Hpos | exact Hu |].
      intros j Hj. apply in_seq in Hj.
      replace i0 with (i0 + 0)%nat by lia. apply Hagree; [reflexivity | lia]. }
    apply IH; [exact H1 | exact H2 |].
    intros k c' j Hk Hj. replace (S i0 + k)%nat with (i0 + S k)%nat by lia.
    apply Hagree; assumption.
Qed.

Lemma comp_at_lookup (comps : list ScatteringComponent) (k : nat)
    (c : ScatteringComponent) :
  comps !! k = Some c -> comp_at comps k = c.
Proof. intros H. unfold comp_at. apply nth_lookup_Some. exact H. Qed.

(** When the tests of the two branches agree, the two lists of positions
    hold the same symmetrics in the same order, and the same indices of
    unique positions. *)
Lemma scan_all_rel (margin : R) (sg : SpaceGroup) (cell : UnitCell)
    (comps : list ScatteringComponent) (old : list NeighbourHood) :
  same_retention margin sg cell comps ->
  Forall2 same_symmetric
    (vPos (scan_all true margin sg cell comps old))
    (vPos (scan_all false margin sg cell comps old))
  /\ vUniqueIndex (scan_all true margin sg cell comps old)
     = vUniqueIndex (scan_all false margin sg cell comps old).
Proof.
  intros Hsame. unfold scan_all.
  apply scan_components_rel; [constructor | reflexivity |].
  intros k c j Hk Hj. cbn [Nat.add].
  pose proof (lookup_lt_Some _ _ _ Hk) as Hlt.
  destruct (Hsame k j Hlt Hj) as [H1 H2].
  unfold symmetricsCoords_of in H1, H2.
  rewrite (comp_at_lookup comps k c Hk) in H1, H2. split; assumption.
Qed.

(** ** The second loop nest of the two branches *)

Lemma same_symmetric_close (cell : UnitCell) (pF pE puF puE : Pos.t) :
  same_symmetric pF pE -> same_symmetric puF puE ->
  close_neighbours (quantization_allowance cell)
    (Neighbour.mk (Pos.mAtomIndex pF) (Pos.mSymmetryIndex pF) (dist2 true cell pF puF))
    (Neighbour.mk (Pos.mAtomIndex pE) (Pos.mSymmetryIndex pE) (dist2 false cell pE puE)).
Proof.
  intros (k & j & c & -> & ->) (ku & ju & cu & -> & ->).
  unfold close_neighbours.
  cbn [Neighbour.mNeighbourIndex Neighbour.mNeighbourSymmetryIndex Neighbour.mDist2].
  destruct c as [[x y] z].
  split; [reflexivity |]. split; [reflexivity |].
  apply (dist2_close cell k j ku ju (x, y, z) cu).
Qed.

Lemma dist_scan_rel (cell : UnitCell) (puF puE : Pos.t) (u : nat)
    (psF psE : list Pos.t) (j : nat) (vnbF vnbE : list Neighbour.t) :
  same_symmetric puF puE ->
  Forall2 same_symmetric psF psE ->
  Forall2 (close_neighbours (quantization_allowance cell)) vnbF vnbE ->
  Forall2 (close_neighbours (quantization_allowance cell))
    (dist_scan (dist2 true cell) puF u j psF vnbF)
    (dist_scan (dist2 false cell) puE u j psE vnbE).
Proof.
  intros Hpu Hps. revert j vnbF vnbE.
  induction Hps as [| pF pE psF psE Hp Hps IH]; intros j vnbF vnbE Hvnb.
  - exact Hvnb.
  - cbn [dist_scan]. apply IH.
    destruct (u =? j)%nat; [exact Hvnb |].
    apply Forall2_app; [exact Hvnb |].
    constructor; [| constructor].
    apply same_symmetric_close; assumption.
Qed.

Lemma last_such_ext (P Q : nat -> bool) (l : list nat) (d : nat) :
  (forall j, In j l -> P j = Q j) -> last_such P l d = last_such Q l d.
Proof.
  revert d. induction l as [| j l IH]; intros d H; [reflexivity |].
  unfold last_such. cbn [fold_left]. rewrite (H j (or_introl eq_refl)).
  apply IH. intros j' Hj'. apply H. right. exact Hj'.
Qed.

(** ** The unique position of a component *)

(** A step of the loop over the symmetrics of component [i] that marks
    its symmetric records the position it has just pushed; a step that does
    not mark leaves what is recorded. *)
Lemma scan_step_unique (B : Branch) (useAU : bool) (i : nat)
    (sym : nat -> R * R * R) (st : Scan) (j : nat) :
  (i < length (vTable st))%nat -> (i < length (vUniqueIndex st))%nat ->
  unique_recorded B i sym st \/ marked B useAU i sym j = true ->
  unique_recorded B i sym (scan_step B useAU i sym st j).
Proof.
  intros Ht Hu H. unfold unique_recorded in *. rewrite scan_step_spec.
  cbn [vPos vUniqueIndex vTable].
  destruct (marked B useAU i sym j) eqn:Hm.
  - rewrite (marked_retained _ _ _ _ _ Hm).
    rewrite hood_at_alter_same by exact Ht. cbn [set_mUniquePosSymmetryIndex
                                                  mUniquePosSymmetryIndex].
    assert (nth i (<[i := length (vPos st)]> (vUniqueIndex st)) 0%nat
            = length (vPos st)) as ->.
    { apply nth_lookup_Some. apply list_lookup_insert_eq. exact Hu. }
    rewrite lookup_app_r by lia. rewrite Nat.sub_diag. reflexivity.
  - destruct H as [H | H]; [| discriminate].
    apply lookup_app_l_Some. exact H.
Qed.

Lemma scan_step_lengths (B : Branch) (useAU : bool) (i : nat)
    (sym : nat -> R * R * R) (st : Scan) (j : nat) :
  length (vTable (scan_step B useAU i sym st j)) = length (vTable st)
  /\ length (vUniqueIndex (scan_step B useAU i sym st j)) = length (vUniqueIndex st).
Proof.
  rewrite scan_step_spec. cbn [vTable vUniqueIndex].
  destruct (marked B useAU i sym j); split;
    try reflexivity; [apply length_alter | apply length_insert].
Qed.

Lemma scan_symmetrics_unique_recorded (B : Branch) (useAU : bool) (i : nat)
    (sym : nat -> R * R * R) (l : list nat) (st : Scan) :
  (i < length (vTable st))%nat -> (i < length (vUniqueIndex st))%nat ->
  unique_recorded B i sym st \/ (exists j, In j l /\ marked B useAU i sym j = true) ->
  unique_recorded B i sym (fold_left (scan_step B useAU i sym) l st).
Proof.
  revert st. induction l as [| j l IH]; intros st Ht Hu H.
  - destruct H as [H | (j & [] & _)]. exact H.
  - cbn [fold_left].
    destruct (scan_step_lengths B useAU i sym st j) as [L1 L2].
    apply IH; [lia | lia |].
    destruct H as [H | (j' & [<- | Hin] & Hm)].
    + left. apply scan_step_unique; [exact Ht | exact Hu | left; exact H].
    + left. apply scan_step_unique; [exact Ht | exact Hu | right; exact Hm].
    + right. exists j'. split; assumption.
Qed.

(** The loop of another component leaves what is recorded for component
    [i]. *)
Lemma scan_component_unique_other (B : Branch) (useAU : bool) (sg : SpaceGroup)
    (k : nat) (c : ScatteringComponent) (st : Scan) (i : nat)
    (sym : nat -> R * R * R) :
  (k < length (vTable st))%nat -> k <> i ->
  unique_recorded B i sym st ->
  unique_recorded B i sym (scan_component B useAU sg k c st).
Proof.
  intros Hk Hne H. unfold unique_recorded in *.
  destruct (scan_component_spec B useAU sg k c st Hk)
    as (_ & _ & A3 & _ & _ & _ & A7 & A8).
  rewrite (A7 i) by congruence. rewrite (A8 i) by congruence. rewrite A3.
  apply lookup_app_l_Some. exact H.
Qed.

Lemma scan_component_unique_self (B : Branch) (useAU : bool) (sg : SpaceGroup)
    (i : nat) (c : ScatteringComponent) (st : Scan) :
  (i < length (vTable st))%nat -> (i < length (vUniqueIndex st))%nat ->
  (exists j, (j < GetNbSymmetrics sg)%nat
             /\ marked B useAU i (GetAllSymmetrics sg (mX c) (mY c) (mZ c)) j = true) ->
  unique_recorded B i (GetAllSymmetrics sg (mX c) (mY c) (mZ c))
    (scan_component B useAU sg i c st).
Proof.
  intros Ht Hu (j & Hj & Hm). unfold scan_component.
  apply scan_symmetrics_unique_recorded.
  - cbn [vTable]. rewrite length_alter. exact Ht.
  - exact Hu.
  - right. exists j. split; [apply in_seq; lia | exact Hm].
Qed.

Lemma scan_components_unique_kept (B : Branch) (useAU : bool) (sg : SpaceGroup)
    (cs : list ScatteringComponent) (i0 : nat) (st : Scan) (i : nat)
    (sym : nat -> R * R * R) :
  (i0 + length cs <= length (vTable st))%nat -> (i < i0)%nat ->
  unique_recorded B i sym st ->
  unique_recorded B i sym (scan_components B useAU sg i0 cs st).
Proof.
  revert i0 st. induction cs as [| c cs IH]; intros i0 st Ht Hi H; [exact H |].
  cbn [scan_components]. cbn [length] in Ht.
  destruct (scan_component_spec B useAU sg i0 c st ltac:(lia)) as (A1 & _).
  apply IH; [lia | lia |].
  apply scan_component_unique_other; [lia | lia | exact H].
Qed.

Lemma scan_components_unique_recorded (B : Branch) (useAU : bool) (sg : SpaceGroup)
    (cs : list ScatteringComponent) (i0 : nat) (st : Scan) (k : nat)
    (c : ScatteringComponent) :
  (i0 + length cs <= length (vTable st))%nat ->
  (i0 + length cs <= length (vUniqueIndex st))%nat ->
  cs !! k = Some c ->
  (exists j, (j < GetNbSymmetrics sg)%nat
             /\ marked B useAU (i0 + k) (GetAllSymmetrics sg (mX c) (mY c) (mZ c)) j
                = true) ->
  unique_recorded B (i0 + k) (GetAllSymmetrics sg (mX c) (mY c) (mZ c))
    (scan_components B useAU sg i0 cs st).
Proof.
  revert i0 st k. induction cs as [| c0 cs IH]; intros i0 st k Ht Hu Hk Hm.
  - rewrite lookup_nil in Hk. discriminate.
  - cbn [scan_components]. cbn [length] in Ht, Hu.
    destruct (scan_component_spec B useAU sg i0 c0 st ltac:(lia)) as (A1 & A2 & _).
    destruct k as [| k].
    + cbn in Hk. injection Hk as ->. rewrite Nat.add_0_r in *.
      apply scan_components_unique_kept; [lia | lia |].
      apply scan_component_unique_self; [lia | lia | exact Hm].
    + cbn in Hk. replace (i0 + S k)%nat with (S i0 + k)%nat in * by lia.
      apply IH; [lia | lia | exact Hk | exact Hm].
Qed.

(** When a symmetric of component [i] is marked, the row of component [i]
    is computed from the position of the symmetric of this component whose
    index the table records. *)
Lemma scan_all_unique (fast : bool) (margin : R) (sg : SpaceGroup)
    (cell : UnitCell) (comps : list ScatteringComponent)
    (old : list NeighbourHood) (i : nat) :
  (i < length comps)%nat ->
  (exists j, (j < GetNbSymmetrics sg)%nat
             /\ marked (branch fast (limits sg cell margin)) (useAsymUnit sg) i
                  (symmetricsCoords_of sg comps i) j = true) ->
  nth (nth i (vUniqueIndex (scan_all fast margin sg cell comps old)) 0%nat)
      (vPos (scan_all fast margin sg cell comps old)) Pos.unset
  = position_of fast sg comps i
      (mUniquePosSymmetryIndex (hood_at (build_table fast margin sg cell comps old) i)).
Proof.
  intros Hi Hm.
  destruct (lookup_lt_is_Some_2 comps i Hi) as [c Hc].
  unfold symmetricsCoords_of in Hm. rewrite (comp_at_lookup comps i c Hc) in Hm.
  pose proof (scan_components_unique_recorded
                (branch fast (limits sg cell margin)) (useAsymUnit sg) sg comps 0
                (mkScan [] (replicate (length comps) 0%nat)
                   (clear_table (resize_table (length comps) old))) i c) as H.
  cbn [Nat.add vTable vUniqueIndex] in H.
  rewrite clear_table_length, resize_table_length, length_replicate in H.
  specialize (H (le_n _) (le_n _) Hc Hm).
  fold (scan_all fast margin sg cell comps old) in H.
  unfold unique_recorded in H.
  rewrite (nth_lookup_Some _ _ _ _ H).
  unfold build_table.
  destruct (dist_components_keep (dist2 fast cell)
              (scan_all fast margin sg cell comps old) (seq 0 (length comps))
              (vTable (scan_all fast margin sg cell comps old)) i) as (_ & _ & ->).
  rewrite <- position_of_branch with (L := limits sg cell margin).
  unfold symmetricsCoords_of. rewrite (comp_at_lookup comps i c Hc). reflexivity.
Qed.

(** ** The entries of the two tables *)

Lemma position_of_indices (fast : bool) (sg : SpaceGroup)
    (comps : list ScatteringComponent) (k j : nat) :
  Pos.mAtomIndex (position_of fast sg comps k j) = k
  /\ Pos.mSymmetryIndex (position_of fast sg comps k j) = j.
Proof.
  unfold position_of. destruct (symmetricsCoords_of sg comps k j) as [[x y] z].
  destruct fast; split; reflexivity.
Qed.

(** Every position of [vPos] is the position of a symmetric of a
    component of the list. *)
Lemma scan_all_positions (fast : bool) (margin : R) (sg : SpaceGroup)
    (cell : UnitCell) (comps : list ScatteringComponent)
    (old : list NeighbourHood) :
  Forall (fun p => exists k j, (k < length comps)%nat /\ (j < GetNbSymmetrics sg)%nat
                               /\ p = position_of fast sg comps k j)
         (vPos (scan_all fast margin sg cell comps old)).
Proof.
  unfold scan_all. apply scan_components_Forall; [| constructor].
  intros k c j Hk Hj. cbn [Nat.add]. exists k, j.
  split; [apply (lookup_lt_Some _ _ _ Hk) |]. split; [exact Hj |].
  rewrite <- position_of_branch with (L := limits sg cell margin).
  unfold symmetricsCoords_of. rewrite (comp_at_lookup comps k c Hk). reflexivity.
Qed.

(** An entry of the row of component [i]: the squared distance between a
    position of [vPos] and [vPos[vUniqueIndex[i]]]. *)
Lemma build_table_entry (fast : bool) (margin : R) (sg : SpaceGroup)
    (cell : UnitCell) (comps : list ScatteringComponent)
    (old : list NeighbourHood) (i : nat) (nb : Neighbour.t) :
  (i < length comps)%nat ->
  In nb (mvNeighbour (hood_at (build_table fast margin sg cell comps old) i)) ->
  exists p,
    In p (vPos (scan_all fast margin sg cell comps old))
    /\ In (nth (nth i (vUniqueIndex (scan_all fast margin sg cell comps old)) 0%nat)
             (vPos (scan_all fast margin sg cell comps old)) Pos.unset)
          (vPos (scan_all fast margin sg cell comps old))
    /\ nb = Neighbour.mk (Pos.mAtomIndex p) (Pos.mSymmetryIndex p)
              (dist2 fast cell p
                 (nth (nth i (vUniqueIndex (scan_all fast margin sg cell comps old))
                         0%nat)
                    (vPos (scan_all fast margin sg cell comps old)) Pos.unset)).
Proof.
  intros Hi Hnb.
  destruct (scan_all_props fast margin sg cell comps old) as (S1 & S2 & S3 & _).
  unfold build_table in Hnb.
  set (st := scan_all fast margin sg cell comps old) in *.
  rewrite dist_components_row in Hnb by lia.
  replace (i <? length comps)%nat with true in Hnb
    by (symmetry; apply Nat.ltb_lt; exact Hi).
  rewrite S2 in Hnb. apply dist_scan_elem in Hnb as [[] | (p & Hp & ->)].
  exists p. split; [exact Hp |]. split; [| reflexivity].
  destruct (S3 i) as [Hu | Hnil].
  - apply nth_In. exact Hu.
  - rewrite Hnil in Hp. destruct Hp.
Qed.

Lemma dist2_branches_close (fast : bool) (cell : UnitCell) (sg : SpaceGroup)
    (comps : list ScatteringComponent) (k j ku ju : nat) :
  Rabs (dist2 fast cell (position_of fast sg comps k j)
          (position_of fast sg comps ku ju)
        - dist2 (negb fast) cell (position_of (negb fast) sg comps k j)
            (position_of (negb fast) sg comps ku ju))
  <= quantization_allowance cell.
Proof.
  unfold position_of, quantization_allowance.
  destruct fast; cbn [negb].
  - apply dist2_close.
  - rewrite Rabs_minus_sym. apply dist2_close.
Qed.

Lemma same_retention_whole_cell (margin : R) (sg : SpaceGroup) (cell : UnitCell)
    (comps : list ScatteringComponent) :
  useAsymUnit sg = false -> same_retention margin sg cell comps.
Proof.
  intros H k j _ _. unfold retained, marked. rewrite H. split; reflexivity.
Qed.

(** C2. For every component list and unit cell, each squared distance of
    the table built by either branch of [CalcDistTable] is the one this
    branch computes between two symmetrics of components of the list (the
    one the entry names and, when a symmetric of the component of the row
    is marked, the symmetric of this component that the row records as its
    unique position), and it is within the allowance of what the other
    branch computes between the same two symmetrics: the allowance is
    [e(1+e)] times the sum of the squares of the row sums of the
    orthonormalisation matrix, where [e] is three quanta of [2^-14]. When
    the tests of the two branches agree on every symmetric, as they do when
    the asymmetric unit is not used, the two tables list the same contacts
    in the same order, at squared distances within the allowance. Along
    each axis the two folded displacements are within three quanta. The
    bit mask and the sign folding reduce the integer difference modulo
    [2^14] and mirror its upper half, one unit short; like the exact branch
    they keep the magnitude of the minimum image (between 0 and 1/2), not
    the signed value in (-0.5,0.5]. *)
Theorem quantized_branch_close (margin : R) (sg : SpaceGroup) (cell : UnitCell)
    (comps : list ScatteringComponent) (old : list NeighbourHood) :
  (forall (fast : bool) (i : nat) (nb : Neighbour.t),
      (i < length comps)%nat ->
      In nb (mvNeighbour (hood_at (build_table fast margin sg cell comps old) i)) ->
      (Neighbour.mNeighbourIndex nb < length comps)%nat
      /\ (Neighbour.mNeighbourSymmetryIndex nb < GetNbSymmetrics sg)%nat
      /\ (exists ku ju,
            (ku < length comps)%nat /\ (ju < GetNbSymmetrics sg)%nat
            /\ Neighbour.mDist2 nb
               = dist2 fast cell
                   (position_of fast sg comps (Neighbour.mNeighbourIndex nb)
                      (Neighbour.mNeighbourSymmetryIndex nb))
                   (position_of fast sg comps ku ju)
            /\ Rabs (Neighbour.mDist2 nb
                     - dist2 (negb fast) cell
                         (position_of (negb fast) sg comps
                            (Neighbour.mNeighbourIndex nb)
                            (Neighbour.mNeighbourSymmetryIndex nb))
                         (position_of (negb fast) sg comps ku ju))
               <= quantization_allowance cell)
      /\ ((exists j, (j < GetNbSymmetrics sg)%nat
                     /\ marked (branch fast (limits sg cell margin)) (useAsymUnit sg) i
                          (symmetricsCoords_of sg comps i) j = true) ->
          Neighbour.mDist2 nb
          = dist2 fast cell
              (position_of fast sg comps (Neighbour.mNeighbourIndex nb)
                 (Neighbour.mNeighbourSymmetryIndex nb))
              (position_of fast sg comps i
                 (mUniquePosSymmetryIndex
                    (hood_at (build_table fast margin sg cell comps old) i)))))
  /\ (same_retention margin sg cell comps ->
      forall i, (i < length comps)%nat ->
        mUniquePosSymmetryIndex (hood_at (build_table true margin sg cell comps old) i)
        = mUniquePosSymmetryIndex (hood_at (build_table false margin sg cell comps old) i)
        /\ Forall2 (close_neighbours (quantization_allowance cell))
             (mvNeighbour (hood_at (build_table true margin sg cell comps old) i))
             (mvNeighbour (hood_at (build_table false margin sg cell comps old) i)))
  /\ (useAsymUnit sg = false -> same_retention margin sg cell comps)
  /\ (forall (i j i' j' : nat) (c cu : R * R * R),
        Rabs (dist2 true cell (pos_fast i j c) (pos_fast i' j' cu)
              - dist2 false cell (pos_exact i j c) (pos_exact i' j' cu))
        <= quantization_allowance cell)
  /\ (forall a b : R,
        Rabs (IZR (fold_long (quantize b - quantize a)) * quantum
              - fold_real (reduce01 b - reduce01 a)) < 3 * quantum)
  /\ (forall d : Z,
        fold_long d
        = if (d mod 16384 <? 8192)%Z then (d mod 16384)%Z
          else (16383 - d mod 16384)%Z)
  /\ (forall d : Z,
        exists g : Z,
          (g = fold_long d \/ g = (fold_long d + 1)%Z)
          /\ IZR g * quantum = Rabs (min_image (IZR d * quantum)))
  /\ (forall d : R, fold_real d = Rabs (min_image d)).
Proof.
  split.
  { intros fast i nb Hi Hnb.
    destruct (build_table_entry fast margin sg cell comps old i nb Hi Hnb)
      as (p & Hp & Hpu & Heq).
    pose proof (scan_all_positions fast margin sg cell comps old) as Hall.
    rewrite List.Forall_forall in Hall.
    destruct (Hall p Hp) as (k & j & Hk & Hj & ->).
    destruct (Hall _ Hpu) as (ku & ju & Hku & Hju & Hupos).
    destruct (position_of_indices fast sg comps k j) as [Ik Ij].
    rewrite Ik, Ij in Heq. subst nb.
    cbn [Neighbour.mNeighbourIndex Neighbour.mNeighbourSymmetryIndex Neighbour.mDist2].
    split; [exact Hk |]. split; [exact Hj |].
    split.
    - exists ku, ju. split; [exact Hku |]. split; [exact Hju |].
      rewrite Hupos. split; [reflexivity | apply dist2_branches_close].
    - intros Hm.
      rewrite (scan_all_unique fast margin sg cell comps old i Hi Hm). reflexivity. }
  split.
  { intros Hsame i Hi.
    destruct (lookup_lt_is_Some_2 comps i Hi) as [c Hc].
    split.
    - destruct (build_table_unique true margin sg cell comps old i c Hc) as [_ ->].
      destruct (build_table_unique false margin sg cell comps old i c Hc) as [_ ->].
      apply last_such_ext. intros j Hj. apply in_seq in Hj.
      destruct (Hsame i j Hi ltac:(lia)) as [_ H].
      unfold symmetricsCoords_of in H. rewrite (comp_at_lookup comps i c Hc) in H.
      exact H.
    - destruct (scan_all_rel margin sg cell comps old Hsame) as [Hpos Hu].
      destruct (scan_all_props true margin sg cell comps old) as (F1 & F2 & F3 & _).
      destruct (scan_all_props false margin sg cell comps old) as (E1 & E2 & _).
      unfold build_table.
      set (stF := scan_all true margin sg cell comps old) in *.
      set (stE := scan_all false margin sg cell comps old) in *.
      rewrite !dist_components_row by lia.
      replace (i <? length comps)%nat with true
        by (symmetry; apply Nat.ltb_lt; exact Hi).
      rewrite F2, E2, <- Hu.
      destruct (F3 i) as [Hlt | Hnil].
      + apply dist_scan_rel; [| exact Hpos | constructor].
        destruct (lookup_lt_is_Some_2 _ _ Hlt) as [pF HpF].
        assert (nth i (vUniqueIndex stF) 0 < length (vPos stE))%nat as Hlt'
            by (rewrite <- (Forall2_length _ _ _ Hpos); exact Hlt).
        destruct (lookup_lt_is_Some_2 _ _ Hlt') as [pE HpE].
        rewrite (nth_lookup_Some _ _ _ _ HpF), (nth_lookup_Some _ _ _ _ HpE).
        exact (Forall2_lookup_lr _ _ _ _ _ _ Hpos HpF HpE).
      + rewrite Hnil in Hpos |- *. inversion Hpos. constructor. }
  split; [apply same_retention_whole_cell |].
  split; [intros; apply dist2_close |].
  split; [apply axis_close |].
  split; [apply fold_long_spec |].
  split; [apply fold_long_min_image | apply fold_real_min_image].
Qed.

(** ** Examples *)

Lemma reduce01_val (x : R) (k : Z) :
  IZR k <= x < IZR k + 1 -> reduce01 x = x - IZR k.
Proof.
  intros Hx. destruct (reduce01_spec x) as (k' & Hk' & Hr).
  assert (k' = k) as ->; [| exact Hk'].
  assert (k' - k = 0)%Z; [| lia].
  apply IZR_small. rewrite minus_IZR. lra.
Qed.

Lemma near_exact_Pbar1 (p : Pos.t) :
  near_exact (limits sg_Pbar1 cubic10 1) p
  = ((Rltb (9 / 10) (Pos.mZ p) || Rltb (Pos.mZ p) (11 / 10))
     && (Rltb (9 / 10) (Pos.mX p) || Rltb (Pos.mX p) (6 / 10))
     && (Rltb (9 / 10) (Pos.mY p) || Rltb (Pos.mY p) (11 / 10)))%bool.
Proof.
  unfold near_exact, limits.
  cbn [xMin xMax yMin yMax zMin zMax Xmax Ymax Zmax sg_Pbar1 GetLatticePar cubic10].
  replace (1 - 1 / 10) with (9 / 10) by lra.
  replace (1 + 1 / 10) with (11 / 10) by lra.
  replace (1 / 2 + 1 / 10) with (6 / 10) by lra.
  reflexivity.
Qed.

Lemma strict_exact_Pbar1 (p : Pos.t) :
  strict_exact (limits sg_Pbar1 cubic10 1) p
  = (Rleb (Pos.mX p) (1 / 2) && Rleb (Pos.mY p) 1 && Rleb (Pos.mZ p) 1)%bool.
Proof. reflexivity. Qed.

(** In P-1, with a margin of 1 in the cubic cell, the two branches make
    the same choices for an atom at the origin and an atom at
    [(1/4,0,0)]. *)
Lemma same_retention_AB :
  same_retention 1 sg_Pbar1 cubic10
    (all_components [atom power_A 0 0 0; atom power_B (1 / 4) 0 0]).
Proof.
  intros k j Hk Hj. cbn in Hk, Hj.
  unfold retained, marked, position, symmetricsCoords_of.
  rewrite useAsymUnit_Pbar1.
  cbn [branch mkpos near strict].
  rewrite !near_fast_Pbar1, !strict_fast_Pbar1, !near_exact_Pbar1, !strict_exact_Pbar1.
  assert (reduce01 0 = 0) as R0 by (rewrite (reduce01_val 0 0) by lra; lra).
  assert (reduce01 (- 0) = 0) as R0' by (rewrite (reduce01_val (- 0) 0) by lra; lra).
  assert (reduce01 (1 / 4) = 1 / 4) as R1
      by (rewrite (reduce01_val (1 / 4) 0) by lra; lra).
  assert (reduce01 (- (1 / 4)) = 3 / 4) as R2
      by (rewrite (reduce01_val (- (1 / 4)) (-1)) by lra; lra).
  destruct k as [| [| k]]; [| | lia]; destruct j as [| [| j]]; try lia;
    cbn [all_components map concat app scattCompList atom comp_at nth mX mY mZ
         GetAllSymmetrics sg_Pbar1 Nat.eqb pos_fast pos_exact
         Pos.of_long Pos.of_real Pos.mX Pos.mY Pos.mZ Pos.mXL Pos.mYL Pos.mZL];
    rewrite ?R0, ?R0', ?R1, ?R2;
    rewrite ?(quantize_pos 0 0), ?(quantize_pos (- 0) 0),
      ?(quantize_pos (1 / 4) 4096), ?(quantize_neg (- (1 / 4)) (-4096)) by lra;
    Rcompare; split; reflexivity.
Qed.

Lemma quantized_branch_close_witness :
  same_retention 1 sg_Pbar1 cubic10
    (all_components [atom power_A 0 0 0; atom power_B (1 / 4) 0 0])
  /\ (1 < length (all_components [atom power_A 0 0 0; atom power_B (1 / 4) 0 0]))%nat
  /\ Forall2 (close_neighbours (quantization_allowance cubic10))
       (mvNeighbour
          (hood_at (build_table true 1 sg_Pbar1 cubic10
                      (all_components [atom power_A 0 0 0; atom power_B (1 / 4) 0 0])
                      []) 1))
       (mvNeighbour
          (hood_at (build_table false 1 sg_Pbar1 cubic10
                      (all_components [atom power_A 0 0 0; atom power_B (1 / 4) 0 0])
                      []) 1)).
Proof.
  assert (1 < length (all_components [atom power_A 0 0 0; atom power_B (1 / 4) 0 0]))%nat
    as Hi by (cbn; lia).
  split; [exact same_retention_AB |]. split; [exact Hi |].
  destruct (quantized_branch_close 1 sg_Pbar1 cubic10
              (all_components [atom power_A 0 0 0; atom power_B (1 / 4) 0 0]) [])
    as (_ & H & _).
  destruct (H same_retention_AB 1%nat Hi) as [_ H2]. exact H2.
Defined.

(** The tests need not agree: the quantized branch compares the truncated
    [long] coordinate with the truncated limit, the exact branch the two
    [REAL] values. For an atom of P-1 at [x = 0.59999], in the cubic cell
    with a margin of 1 (limit 0.6, truncated to 9830 like the coordinate),
    the quantized branch retains the inverse alone and lists no contact,
    where the exact branch retains both symmetrics and lists one. *)
Lemma retention_tests_disagree :
  retained (branch true (limits sg_Pbar1 cubic10 1)) (useAsymUnit sg_Pbar1) 0
    (symmetricsCoords_of sg_Pbar1 comps_near_margin 0) 0 = false
  /\ retained (branch false (limits sg_Pbar1 cubic10 1)) (useAsymUnit sg_Pbar1) 0
       (symmetricsCoords_of sg_Pbar1 comps_near_margin 0) 0 = true
  /\ mvNeighbour (hood_at (build_table true 1 sg_Pbar1 cubic10 comps_near_margin []) 0)
     = []
  /\ length (mvNeighbour
               (hood_at (build_table false 1 sg_Pbar1 cubic10 comps_near_margin []) 0))
     = 1%nat.
Proof.
  assert (reduce01 0 = 0) as R0 by (rewrite (reduce01_val 0 0) by lra; lra).
  assert (reduce01 (- 0) = 0) as R0' by (rewrite (reduce01_val (- 0) 0) by lra; lra).
  assert (reduce01 0.59999 = 0.59999) as R1
      by (rewrite (reduce01_val 0.59999 0) by lra; lra).
  assert (reduce01 (Ropp 0.59999) = 0.40001) as R2
      by (rewrite (reduce01_val (Ropp 0.59999) (-1)) by lra; lra).
  split.
  { unfold retained, position, symmetricsCoords_of, comps_near_margin.
    rewrite useAsymUnit_Pbar1. cbn [branch mkpos near].
    rewrite near_fast_Pbar1.
    cbn [all_components map concat app scattCompList atom comp_at nth mX mY mZ
         GetAllSymmetrics sg_Pbar1 Nat.eqb pos_fast
         Pos.of_long Pos.mXL Pos.mYL Pos.mZL].
    rewrite (quantize_pos 0 0), (quantize_pos 0.59999 9830) by lra. reflexivity. }
  split.
  { unfold retained, position, symmetricsCoords_of, comps_near_margin.
    rewrite useAsymUnit_Pbar1. cbn [branch mkpos near].
    rewrite near_exact_Pbar1.
    cbn [all_components map concat app scattCompList atom comp_at nth mX mY mZ
         GetAllSymmetrics sg_Pbar1 Nat.eqb pos_exact
         Pos.of_real Pos.mX Pos.mY Pos.mZ].
    rewrite R0, R1. Rcompare. reflexivity. }
  split.
  - unfold build_table, scan_all, comps_near_margin. rewrite useAsymUnit_Pbar1.
    cbn [all_components map concat app scattCompList atom length replicate resize_table
         take Nat.sub clear_table seq scan_components scan_component fold_left
         GetNbSymmetrics GetAllSymmetrics sg_Pbar1 mX mY mZ vPos vUniqueIndex vTable
         Nat.eqb].
    unfold scan_step. cbn [branch mkpos near strict pos_fast Nat.eqb].
    rewrite !near_fast_Pbar1, !strict_fast_Pbar1.
    rewrite (quantize_pos 0 0) by lra.
    rewrite (quantize_pos (- 0) 0) by lra.
    rewrite (quantize_pos 0.59999 9830) by lra.
    rewrite (quantize_neg (Ropp 0.59999) (-9830)) by lra.
    reflexivity.
  - unfold build_table, scan_all, comps_near_margin. rewrite useAsymUnit_Pbar1.
    cbn [all_components map concat app scattCompList atom length replicate resize_table
         take Nat.sub clear_table seq scan_components scan_component fold_left
         GetNbSymmetrics GetAllSymmetrics sg_Pbar1 mX mY mZ vPos vUniqueIndex vTable
         Nat.eqb].
    unfold scan_step. cbn [branch mkpos near strict pos_exact Nat.eqb].
    rewrite !near_exact_Pbar1, !strict_exact_Pbar1.
    cbn [Pos.of_real Pos.mX Pos.mY Pos.mZ].
    rewrite R0, R0', R1, R2. Rcompare.
    reflexivity.
Qed.

(** ** A minimum distance of zero *)



